(* ===== verification/_CoqProject ===== *)
-Q . S2P
Prelude.v
Utf8.v
Net.v
NetText.v
Types.v
Crates.v
ParseTlv.v
TlvFacts.v
ParseV2.v
ParseV1.v
ParseHeader.v
V2Facts.v
V1Facts.v
ParseFacts.v
ParseWf.v
ParseTheorems.v
Builder.v
BuilderFacts.v
BuilderV1.v
BuilderTheorems.v
Vendor.v
Policy.v
Config.v
Stream.v
Listener.v
ListenerFacts.v
Sockets.v
ListenerTheorems.v
Handshakes.v
Axum.v
TestVectors.v
