(* ===== verification/Prelude.v ===== *)
(** * proxy-protocol-rs

    A verification of the crate in [src/src]: a parser, a builder and a tokio
    listener for HAProxy's PROXY protocol (versions 1 and 2).

    ** The program and its model

    A proxy puts a header with the original client's addresses in front of
    the bytes it forwards.  [parse] (parse/mod.rs) recognises the header in a
    buffer and hands it to the text parser (parse/v1.rs) or the binary parser
    (parse/v2.rs), which reads extensions with parse/tlv.rs and checks a
    CRC32c.  [HeaderBuilder] (builder.rs) writes such headers.  The listener
    (listener.rs) accepts connections, asks a policy (policy.rs) whether a
    header is required, reads until [parse] decides, within the limits of the
    configuration (config.rs), asks a validator (validator.rs), and hands
    over a stream (stream.rs) that first delivers the bytes read behind the
    header.  axum.rs serves such connections; vendor/ decodes the extensions
    of cloud providers.

    Rust code is translated function by function.  A function that returns a
    [Result], or that can panic, is a Rocq function into [res] below: [Ok],
    [Err], [Panic] (an index or slice out of range, a failed assertion, an
    [unwrap] of nothing) or [Diverge].  Bytes are [Byte.byte], byte vectors
    and strings are lists of bytes, fixed-width integers are in [Z] with
    their range stated, [usize] is [nat].  A loop is the iteration [loop] of
    its body, with fuel; running out of fuel is [Diverge], so a theorem that
    a function [returns] shows that the fuel is enough.

    Files, in order, with the source each one models:
    - Prelude: results, bytes, big-endian integers, slices, loops, tactics;
    - Utf8: UTF-8 validation and lossy conversion of std;
    - Net: IP and socket addresses of std, their Display and FromStr;
      NetText: reading back what Display writes;
    - Types: types.rs and error.rs;
    - Crates: the crc32c and bitflags crates as a class with laws, and a
      concrete instance that satisfies them;
    - ParseTlv, ParseV2, ParseV1, ParseHeader: parse/tlv.rs, parse/v2.rs,
      parse/v1.rs, parse/mod.rs;
    - TlvFacts, V2Facts, V1Facts, ParseFacts, ParseWf, ParseTheorems: their
      correctness;
    - Builder: builder.rs; BuilderFacts, BuilderV1, BuilderTheorems: its
      correctness and the round trips with the parser;
    - Vendor: vendor/mod.rs, vendor/aws.rs, vendor/azure.rs;
    - Policy: policy.rs and validator.rs; the ipnet crate as a class with
      laws and a concrete instance;
    - Config: config.rs;
    - Stream: stream.rs over tokio's read and write interfaces, which are
      classes; [ByteSource] is what a reader may rely on, and the stream of
      the crate is again an instance of it;
    - Listener: listener.rs over a read with a deadline; ListenerFacts and
      ListenerTheorems: its specification [accept_spec] and the refinement;
      Sockets: concrete sockets, with and without delays;
    - Handshakes: concurrent calls of [accept] sharing the semaphore and the
      clock, as a step relation;
    - Axum: axum.rs;
    - TestVectors: inputs and results of the repository's tests, evaluated.

    ** What is shown

    The parser (C1, C4, C5, C7 to C14, C36): it returns on every buffer; its
    verdict is final; it consumes exactly the header; what it returns is well
    formed; which v1 lines, which extensions and which first bytes it accepts,
    as equivalences; which error it reports; that the checksum computed in
    pieces is that of the header with its value zeroed, and that an accepted
    header has it; and that it never asks for more than 65551 bytes.

    The builder (C2, C15 to C20, C37): every header made through the API
    whose raw entries are ones the parser accepts parses back to what was put
    in; what the parser makes of every other v2 header; a parsed header
    rebuilt from its fields is the same bytes; exactly when building panics
    and what is cut; the size of v1 headers.  [made] lists the calls of the
    API and records what was given to [with_raw_tlv], which checks nothing.

    The listener (C3, C6, C21 to C26, C38): reading in pieces, under a permit
    and a deadline, refines [accept_spec], a relation on the bytes the peer
    sends and the reads that deliver them, in which a timeout, an I/O error or
    an end of stream has to come from a read that was due; exactly when it
    panics; no byte is lost; a header that arrives before the deadline gets
    through; time and memory bounds; the handshake limit, the agreement of
    concurrent calls with the sequential function and the memory of all
    handshakes together, in every interleaving.

    The rest (C27 to C35, C39): what the accepted stream delivers, the
    policies, the vendor extensions, the configuration, the accept loop of
    axum, when it pauses, and the client's address.

    ** Fuel

    The loops over extensions get one more iteration than there are bytes,
    and every iteration consumes at least three; the search for the CRC entry
    one more than the header has bytes; the read loop of the listener one
    more than [max_header_size], since it only goes on with a longer buffer
    that is below that size.  [show_digits] has fuel for 20 digits, enough
    for 64 bits, and the UTF-8 scanner one step per byte.  The theorems show
    that none of them runs out.

    ** Assumptions and limits

    Third-party code is a parameter.  [CratesLaws]: a checksum is 32 bits,
    appending to the checksum of a prefix gives that of the whole, unknown
    flag bits are dropped.  [IpNetsLaws]: a network contains the addresses
    with its prefix.  [ByteSource] and [TimedReadLaws]: a read delivers the
    next bytes of the connection, none only at its end, and a timed read
    returns by its deadline.  [delivers], the hypothesis of C21 and C22, says
    that bytes which have arrived are returned by a read that waits for them.
    Each has a concrete instance here.

    Times are nanoseconds in [Z].  An [Instant] is that of a 64-bit Unix
    ([INSTANT_MAX]), and adding a timeout to it panics beyond; the semaphore
    takes at most [MAX_PERMITS] permits, also of 64 bits.  The clock is ideal:
    a timer fires at its time in C23, at its time or later in Handshakes.

    Not modelled: lib.rs (re-exports); allocation and capacity; the text of
    panics; the [{:?}] text of a string in one error message and the text of
    an [io::Error], which are parameters; cooperative scheduling inside tokio.
    Policies and validators are functions without state of their own; a
    validator may fail or panic.  The semaphore is never closed by the crate,
    so concurrent calls are modelled without that outcome. *)

From Stdlib Require Export ZArith Lia.
From Stdlib Require Export Strings.Byte.
From stdpp Require Export base tactics list numbers option strings countable.

(** ** Outcomes of a Rust computation *)

(** [res E A] is what a Rust expression of type [Result<A, E>] does when it
    is run: it returns [Ok a] or [Err e], it panics (out-of-bounds index or
    slice, failed assertion, [unwrap] of a [None]) or it never returns.  A
    Rust function that returns a plain [A] is modelled in [res E A] as well
    when its body can panic. *)
Inductive res (E A : Type) : Type :=
| Ok (a : A)
| Err (e : E)
| Panic
| Diverge.
Arguments Ok {E A} a.
Arguments Err {E A} e.
Arguments Panic {E A}.
Arguments Diverge {E A}.

#[export] Instance res_ret {E} : MRet (res E) := fun A a => Ok a.
#[export] Instance res_bind {E} : MBind (res E) := fun A B f m =>
  match m with
  | Ok a => f a
  | Err e => Err e
  | Panic => Panic
  | Diverge => Diverge
  end.

#[export] Instance res_eq_dec {E A} `{EqDecision E, EqDecision A} : EqDecision (res E A).
Proof. solve_decision. Defined.

(** [Result::map_err]. *)
Definition map_err {E F A} (f : E -> F) (m : res E A) : res F A :=
  match m with
  | Ok a => Ok a
  | Err e => Err (f e)
  | Panic => Panic
  | Diverge => Diverge
  end.

(** [Option::ok_or]. *)
Definition ok_or {E A} (o : option A) (e : E) : res E A :=
  match o with
  | Some a => Ok a
  | None => Err e
  end.

(** [Option::unwrap]. *)
Definition unwrap {E A} (o : option A) : res E A :=
  match o with
  | Some a => Ok a
  | None => Panic
  end.

(** [assert!(b)]. *)
Definition rust_assert {E} (b : bool) : res E unit :=
  if b then Ok tt else Panic.

(** The computation returns, normally or with an error: it neither panics
    nor diverges. *)
Definition returns {E A} (m : res E A) : Prop :=
  match m with
  | Ok _ | Err _ => True
  | Panic | Diverge => False
  end.

#[export] Instance returns_dec {E A} (m : res E A) : Decision (returns m).
Proof. destruct m; apply _. Defined.

Create HintDb rust discriminated.
Create Rewrite HintDb rust_slice.

Section ResLemmas.
Context {E A B : Type}.
Implicit Types (m : res E A) (f : A -> res E B).

Lemma bind_Ok_inv m f b :
  m ≫= f = Ok b -> exists a, m = Ok a /\ f a = Ok b.
Proof. destruct m; naive_solver. Qed.

Lemma bind_Err_inv m f e :
  m ≫= f = Err e -> m = Err e \/ exists a, m = Ok a /\ f a = Err e.
Proof. destruct m; naive_solver. Qed.

Lemma bind_ext m f g : (forall a, m = Ok a -> f a = g a) -> m ≫= f = m ≫= g.
Proof. destruct m; naive_solver. Qed.

Lemma returns_bind m f :
  returns m -> (forall a, m = Ok a -> returns (f a)) -> returns (m ≫= f).
Proof. destruct m; naive_solver. Qed.

(** Every error the computation can return satisfies [P]. *)
Definition errs (P : E -> Prop) (m : res E A) : Prop :=
  forall e, m = Err e -> P e.

Lemma returns_Ok (a : A) : returns (@Ok E A a).
Proof. exact I. Qed.

Lemma returns_Err (e : E) : returns (@Err E A e).
Proof. exact I. Qed.

Lemma returns_ok_or (o : option A) (e : E) : returns (ok_or o e).
Proof. by destruct o. Qed.

Lemma returns_map_err {F} (g : E -> F) m : returns m -> returns (map_err g m).
Proof. by destruct m. Qed.

Lemma returns_cases m :
  returns m -> (exists a, m = Ok a) \/ (exists e, m = Err e).
Proof. destruct m; naive_solver. Qed.
End ResLemmas.

Section ErrsLemmas.
Context {E A B : Type} (P : E -> Prop).

Lemma errs_Ok (a : A) : errs P (Ok a).
Proof. by intros e. Qed.

Lemma errs_Err (e : E) : P e -> errs P (@Err E A e).
Proof. by intros H e' [= <-]. Qed.

Lemma errs_bind (m : res E A) (f : A -> res E B) :
  errs P m -> (forall a, m = Ok a -> errs P (f a)) -> errs P (m ≫= f).
Proof. intros Hm Hf e [H|(a & H & Ha)]%bind_Err_inv; [by apply Hm|by eapply Hf]. Qed.

Lemma errs_unwrap (o : option A) : errs P (unwrap o).
Proof. intros e. by destruct o. Qed.

Lemma errs_ok_or (o : option A) e : P e -> errs P (ok_or o e).
Proof. intros H. destruct o; [apply errs_Ok|by apply errs_Err]. Qed.
End ErrsLemmas.

#[export] Hint Resolve errs_Ok errs_Err errs_unwrap errs_ok_or : rust.

#[export] Hint Resolve returns_Ok returns_Err returns_ok_or returns_map_err : rust.

(** ** Bytes and fixed-width integers *)

#[export] Instance byte_eq_dec : EqDecision byte := Byte.byte_eq_dec.

#[export] Program Instance byte_countable : Countable byte :=
  inj_countable Byte.to_N Byte.of_N _.
Next Obligation. intros x. apply Byte.of_to_N. Qed.

(** The value of a [u8]; [byte_of_Z] is the truncating cast [as u8]. *)
Definition Zb (b : byte) : Z := Z.of_N (Byte.to_N b).
Definition byte_of_Z (z : Z) : byte :=
  default x00 (Byte.of_N (Z.to_N (z mod 256))).

Lemma Zb_range b : (0 <= Zb b < 256)%Z.
Proof. unfold Zb. pose proof (Byte.to_N_bounded b). lia. Qed.

Lemma Zb_inj b1 b2 : Zb b1 = Zb b2 -> b1 = b2.
Proof.
  unfold Zb. intros H. apply N2Z.inj in H.
  apply (f_equal Byte.of_N) in H. rewrite !Byte.of_to_N in H. congruence.
Qed.

Lemma Zb_of_Z z : Zb (byte_of_Z z) = (z mod 256)%Z.
Proof.
  unfold Zb, byte_of_Z.
  pose proof (Z.mod_pos_bound z 256 ltac:(lia)).
  destruct (Byte.of_N (Z.to_N (z mod 256))) as [b|] eqn:Hb; simpl.
  - apply Byte.to_of_N in Hb. rewrite Hb. lia.
  - apply Byte.of_N_None_iff in Hb. lia.
Qed.

Lemma byte_of_Zb b : byte_of_Z (Zb b) = b.
Proof.
  apply Zb_inj. rewrite Zb_of_Z. apply Z.mod_small, Zb_range.
Qed.

(** [u16], [u32], [u64] and [usize] values are integers; these predicates
    give the range of the type. *)
Definition is_u8 (z : Z) : Prop := (0 <= z < 256)%Z.
Definition is_u16 (z : Z) : Prop := (0 <= z < 65536)%Z.
Definition is_u32 (z : Z) : Prop := (0 <= z < 4294967296)%Z.

#[export] Instance is_u16_dec z : Decision (is_u16 z).
Proof. unfold is_u16. apply _. Defined.
#[export] Instance is_u32_dec z : Decision (is_u32 z).
Proof. unfold is_u32. apply _. Defined.

(** Big-endian decoding of a byte string ([uN::from_be_bytes]) and encoding
    into [n] bytes ([uN::to_be_bytes]); [from_le_bytes] is the little-endian
    decoder. *)
Definition from_be_bytes (l : list byte) : Z :=
  foldl (fun acc b => acc * 256 + Zb b)%Z 0%Z l.
Fixpoint to_be_bytes (n : nat) (z : Z) : list byte :=
  match n with
  | O => []
  | S n => to_be_bytes n (z / 256) ++ [byte_of_Z z]
  end.
Definition from_le_bytes (l : list byte) : Z := from_be_bytes (reverse l).

Lemma from_be_bytes_snoc l b :
  from_be_bytes (l ++ [b]) = (from_be_bytes l * 256 + Zb b)%Z.
Proof. unfold from_be_bytes. by rewrite foldl_app. Qed.

Lemma length_to_be_bytes n z : length (to_be_bytes n z) = n.
Proof.
  revert z. induction n as [|n IH]; intros z; simpl; [done|].
  rewrite length_app, IH. simpl. lia.
Qed.

Lemma from_be_bytes_range l :
  (0 <= from_be_bytes l < 256 ^ Z.of_nat (length l))%Z.
Proof.
  induction l as [|b l IH] using rev_ind; [done|].
  rewrite from_be_bytes_snoc, length_app. pose proof (Zb_range b). simpl.
  replace (Z.of_nat (length l + 1)) with (Z.of_nat (length l) + 1)%Z by lia.
  rewrite Z.pow_add_r, Z.pow_1_r by lia. lia.
Qed.

Lemma from_to_be_bytes n z :
  from_be_bytes (to_be_bytes n z) = (z mod 256 ^ Z.of_nat n)%Z.
Proof.
  revert z. induction n as [|n IH]; intros z; [by rewrite Z.mod_1_r|].
  cbn [to_be_bytes]. rewrite from_be_bytes_snoc, IH, Zb_of_Z.
  rewrite Nat2Z.inj_succ, <- Z.add_1_l, Z.pow_add_r by lia.
  rewrite Z.pow_1_r, (Z.rem_mul_r z) by lia. lia.
Qed.

Lemma to_from_be_bytes l : to_be_bytes (length l) (from_be_bytes l) = l.
Proof.
  induction l as [|b l IH] using rev_ind; [done|].
  rewrite from_be_bytes_snoc, length_app, Nat.add_1_r. cbn [to_be_bytes].
  pose proof (Zb_range b).
  replace ((from_be_bytes l * 256 + Zb b) / 256)%Z with (from_be_bytes l).
  2:{ rewrite Z.div_add_l by lia. rewrite (Z.div_small (Zb b)); lia. }
  rewrite IH. f_equal. f_equal. apply Zb_inj. rewrite Zb_of_Z.
  rewrite Z.add_comm, Z.mod_add by lia. by apply Z.mod_small.
Qed.

Lemma from_to_be_bytes_16 z : is_u16 z -> from_be_bytes (to_be_bytes 2 z) = z.
Proof. intros Hz. rewrite from_to_be_bytes. apply Z.mod_small, Hz. Qed.

Lemma from_to_be_bytes_32 z : is_u32 z -> from_be_bytes (to_be_bytes 4 z) = z.
Proof. intros Hz. rewrite from_to_be_bytes. apply Z.mod_small, Hz. Qed.

Lemma from_be_bytes_16 a b : is_u16 (from_be_bytes [a; b]).
Proof. exact (from_be_bytes_range [a; b]). Qed.

#[export] Hint Resolve from_be_bytes_16 : rust.

(** Text as bytes: a Rust string literal is its UTF-8 encoding. *)
Definition bstr (s : string) : list byte := String.list_byte_of_string s.

(** ** Slices *)

(** [l[i]], [&l[n..]], [&l[..n]] and [&l[a..b]], which panic out of range. *)
Definition index {E A} (l : list A) (i : nat) : res E A := unwrap (l !! i).

Definition slice_to {E A} (l : list A) (n : nat) : res E (list A) :=
  if decide (n <= length l)%nat then Ok (take n l) else Panic.

Definition slice_from {E A} (l : list A) (n : nat) : res E (list A) :=
  if decide (n <= length l)%nat then Ok (drop n l) else Panic.

Definition slice {E A} (l : list A) (a b : nat) : res E (list A) :=
  if decide (a <= b <= length l)%nat then Ok (take (b - a) (drop a l)) else Panic.

(** [<[u8; N]>::try_from(l)]: the bytes when there are exactly [n]. *)
Definition try_array {A} (n : nat) (l : list A) : option (list A) :=
  if decide (length l = n) then Some l else None.

(** [copy_from_slice] into [&mut l[a..a + src.len()]]. *)
Definition copy_into {E A} (l : list A) (a : nat) (src : list A) : res E (list A) :=
  if decide (a + length src <= length l)%nat
  then Ok (take a l ++ src ++ drop (a + length src) l) else Panic.

Section SliceLemmas.
Context {E A : Type}.
Implicit Types (l : list A).

Lemma index_lookup l i x : l !! i = Some x -> index (E:=E) l i = Ok x.
Proof. intros H. unfold index. by rewrite H. Qed.

Lemma index_Ok_inv l i x : index (E:=E) l i = Ok x -> l !! i = Some x.
Proof. unfold index. destruct (l !! i); naive_solver. Qed.

Lemma returns_index l i : (i < length l)%nat -> returns (index (E:=E) l i).
Proof. intros H. unfold index. by destruct (lookup_lt_is_Some_2 l i H) as [x ->]. Qed.

Lemma slice_to_Ok l n : (n <= length l)%nat -> slice_to (E:=E) l n = Ok (take n l).
Proof. intros H. unfold slice_to. by rewrite decide_True. Qed.

Lemma slice_from_Ok l n : (n <= length l)%nat -> slice_from (E:=E) l n = Ok (drop n l).
Proof. intros H. unfold slice_from. by rewrite decide_True. Qed.

Lemma slice_Ok l a b :
  (a <= b <= length l)%nat -> slice (E:=E) l a b = Ok (take (b - a) (drop a l)).
Proof. intros H. unfold slice. by rewrite decide_True. Qed.

Lemma copy_into_Ok l a src :
  (a + length src <= length l)%nat ->
  copy_into (E:=E) l a src = Ok (take a l ++ src ++ drop (a + length src) l).
Proof. intros H. unfold copy_into. by rewrite decide_True. Qed.

(** Reading inside a prefix does not see what follows it. *)
Lemma index_app l ext i : (i < length l)%nat -> index (E:=E) (l ++ ext) i = index l i.
Proof. intros H. unfold index. by rewrite lookup_app_l. Qed.

Lemma slice_to_app l ext n :
  (n <= length l)%nat -> slice_to (E:=E) (l ++ ext) n = slice_to l n.
Proof.
  intros H. rewrite !slice_to_Ok by (rewrite ?length_app; lia). by rewrite take_app_le.
Qed.

Lemma slice_app l ext a b :
  (a <= b <= length l)%nat -> slice (E:=E) (l ++ ext) a b = slice l a b.
Proof.
  intros H. rewrite !slice_Ok by (rewrite ?length_app; lia).
  by rewrite drop_app_le, take_app_le by (rewrite ?length_drop; lia).
Qed.

Lemma slice_from_nonempty l n x l' : l = x :: l' -> (0 < n)%nat ->
  (length (drop n l) < length l)%nat.
Proof. intros -> Hn. rewrite length_drop. simpl. lia. Qed.
End SliceLemmas.

Section SliceErrs.
Context {E A : Type} (P : E -> Prop) (l : list A).

Lemma errs_index i : errs P (index l i).
Proof. apply errs_unwrap. Qed.

Lemma errs_slice_to n : errs P (slice_to l n).
Proof. unfold slice_to. by case_decide. Qed.

Lemma errs_slice_from n : errs P (slice_from l n).
Proof. unfold slice_from. by case_decide. Qed.

Lemma errs_slice a b : errs P (slice l a b).
Proof. unfold slice. by case_decide. Qed.
End SliceErrs.

#[export] Hint Resolve returns_index : rust.
#[export] Hint Rewrite @slice_to_Ok @slice_from_Ok @slice_Ok @copy_into_Ok
  using (simpl; lia) : rust_slice.

(** ** Loops *)

(** A Rust [loop]/[while] over a state [St]: the body returns the next state
    ([inl], the loop continues) or leaves the loop ([inr]).  The fuel bounds
    the number of iterations; a loop that runs out of it is reported as
    [Diverge], so a theorem that the loop returns shows that the fuel was
    enough. *)
Fixpoint loop {E St A} (fuel : nat) (body : St -> res E (St + A)) (s : St) : res E A :=
  match fuel with
  | O => Diverge
  | S fuel =>
      r ← body s;
      match r with
      | inl s' => loop fuel body s'
      | inr a => Ok a
      end
  end.

Section LoopLemmas.
Context {E St A : Type} (body : St -> res E (St + A)).

(** Beyond the measure, more fuel changes nothing. *)
Lemma loop_fuel (inv : St -> Prop) (m : St -> nat) :
  (forall s s', inv s -> body s = Ok (inl s') -> inv s' /\ (m s' < m s)%nat) ->
  forall f1 f2 s, inv s -> (m s < f1)%nat -> (m s < f2)%nat ->
  loop f1 body s = loop f2 body s.
Proof.
  intros Hstep f1. induction f1 as [|f1 IH]; intros [|f2] s Hs H1 H2; [lia..|].
  simpl. destruct (body s) as [[s'|a]|e| |] eqn:Hb; [|done..]. simpl.
  destruct (Hstep s s' Hs Hb). apply IH; [done|lia..].
Qed.

(** An invariant of the loop holds of the state in which it leaves. *)
Lemma loop_inv (inv : St -> Prop) (post : A -> Prop) :
  (forall s s', inv s -> body s = Ok (inl s') -> inv s') ->
  (forall s a, inv s -> body s = Ok (inr a) -> post a) ->
  forall fuel s a, inv s -> loop fuel body s = Ok a -> post a.
Proof.
  intros Hstep Hend fuel. induction fuel as [|fuel IH]; intros s a Hs; [done|].
  simpl. intros ([s'|a'] & Hb & Hk)%bind_Ok_inv.
  - eapply IH; [|done]. by eapply Hstep.
  - simplify_eq. by eapply Hend.
Qed.
End LoopLemmas.

(** ** Automation *)

(** Split a hypothesis that a sequence of [?] steps returned [Ok]. *)
Ltac inv_ok :=
  repeat match goal with
  | H : _ ≫= _ = Ok _ |- _ =>
      let x := fresh "x" in let Hx := fresh "Hx" in
      apply bind_Ok_inv in H as (x & Hx & H)
  | H : (if decide _ then _ else _) = Ok _ |- _ => case_decide; [try done|try done]
  | H : index _ _ = Ok _ |- _ => apply index_Ok_inv in H
  | H : Ok _ = Ok _ |- _ => injection H as H
  | H : Err _ = Ok _ |- _ => discriminate H
  | H : Panic = Ok _ |- _ => discriminate H
  end.

(** Discharge [errs] goals along the binds of a function body. *)
Ltac errs_step :=
  match goal with
  | |- errs _ (Ok _) => apply errs_Ok
  | |- errs _ (Err _) => apply errs_Err
  | |- errs _ (ok_or _ _) => apply errs_ok_or
  | |- errs _ (index _ _) => apply errs_index
  | |- errs _ (unwrap _) => apply errs_unwrap
  | |- errs _ (slice_to _ _) => apply errs_slice_to
  | |- errs _ (slice_from _ _) => apply errs_slice_from
  | |- errs _ (slice _ _ _) => apply errs_slice
  | |- errs _ (if decide _ then _ else _) => case_decide
  | |- errs _ (_ ≫= _) => apply errs_bind; [|intros ? ?]
  end.
Ltac errs_tac := repeat errs_step.

(** Discharge [returns] goals along the binds of a function body. *)
Ltac returns_step :=
  match goal with
  | |- returns (Ok _) => exact I
  | |- returns (Err _) => exact I
  | |- returns (if decide _ then _ else _) => case_decide
  | |- returns (_ ≫= _) => apply returns_bind; [|intros ? ?]
  | |- returns (slice_to _ _) => rewrite slice_to_Ok by (simpl in *; lia); exact I
  | |- returns (slice_from _ _) => rewrite slice_from_Ok by (simpl in *; lia); exact I
  | |- returns (slice _ _ _) => rewrite slice_Ok by (simpl in *; lia); exact I
  | |- returns _ => solve [eauto with rust lia | apply returns_index; simpl in *; lia]
  end.
Ltac returns_tac := repeat returns_step.
