(* ===== verification/Utf8.v ===== *)
(** * UTF-8 text

    The part of Rust's [core::str] and [alloc::string] that the crate uses: a
    [String] or [&str] is modelled by its bytes, [from_utf8] decides whether
    bytes are UTF-8 and [from_utf8_lossy] replaces every maximal ill-formed
    sequence by U+FFFD.  Both walk the input one encoded scalar at a time,
    with the second-byte ranges of the Unicode standard (no overlong forms,
    no surrogates, nothing above U+10FFFF). *)

From S2P Require Import Prelude.

(** [core::str::utf8_char_width]. *)
Definition utf8_char_width (b : byte) : nat :=
  let z := Zb b in
  if decide (z < 128)%Z then 1
  else if decide (194 <= z <= 223)%Z then 2
  else if decide (224 <= z <= 239)%Z then 3
  else if decide (240 <= z <= 244)%Z then 4
  else 0.

Definition is_cont (b : byte) : bool := bool_decide (128 <= Zb b <= 191)%Z.

(** The range of the second byte of a three- or four-byte sequence. *)
Definition second_ok (b c : byte) : bool :=
  if decide (b = xe0) then bool_decide (160 <= Zb c <= 191)%Z
  else if decide (b = xed) then bool_decide (128 <= Zb c <= 159)%Z
  else if decide (b = xf0) then bool_decide (144 <= Zb c <= 191)%Z
  else if decide (b = xf4) then bool_decide (128 <= Zb c <= 143)%Z
  else is_cont c.

(** [safe_get]: a byte of the input, 0 past its end. *)
Definition safe_get (l : list byte) (i : nat) : byte := default x00 (l !! i).

(** The first step on a non-empty input: [(true, n)] when its first [n] bytes
    encode a scalar value, [(false, n)] when they are a maximal ill-formed
    sequence. *)
Definition utf8_step (l : list byte) : bool * nat :=
  let b := safe_get l 0 in
  match utf8_char_width b with
  | 1 => (true, 1)
  | 2 => if is_cont (safe_get l 1) then (true, 2) else (false, 1)
  | 3 =>
      if second_ok b (safe_get l 1) then
        if is_cont (safe_get l 2) then (true, 3) else (false, 2)
      else (false, 1)
  | 4 =>
      if second_ok b (safe_get l 1) then
        if is_cont (safe_get l 2) then
          if is_cont (safe_get l 3) then (true, 4) else (false, 3)
        else (false, 2)
      else (false, 1)
  | _ => (false, 1)
  end.

(** The input cut into scalars and ill-formed sequences. *)
Fixpoint utf8_chunks (fuel : nat) (l : list byte) : list (bool * list byte) :=
  match fuel, l with
  | O, _ | _, [] => []
  | S fuel, l =>
      let '(ok, n) := utf8_step l in
      (ok, take n l) :: utf8_chunks fuel (drop n l)
  end.

Definition chunks (l : list byte) : list (bool * list byte) := utf8_chunks (length l) l.

(** [std::str::from_utf8]: the bytes themselves when they are UTF-8. *)
Definition utf8_valid (l : list byte) : bool := forallb fst (chunks l).
Definition from_utf8 (l : list byte) : option (list byte) :=
  if utf8_valid l then Some l else None.

(** [String::from_utf8_lossy]; U+FFFD is EF BF BD. *)
Definition replacement : list byte := [xef; xbf; xbd].
Definition from_utf8_lossy (l : list byte) : list byte :=
  concat (map (fun c : bool * list byte => if c.1 then c.2 else replacement) (chunks l)).

(** ** Lemmas *)

Definition utf8_scalar (s : list byte) : Prop :=
  s <> [] /\ utf8_step s = (true, length s).

Lemma utf8_step_pos l : (1 <= (utf8_step l).2)%nat.
Proof. unfold utf8_step. by repeat (case_match; simpl; try lia). Qed.

Lemma safe_get_bound l i : safe_get l i <> x00 -> (i < length l)%nat.
Proof.
  unfold safe_get. intros H. destruct (l !! i) eqn:Hi; [|done].
  by eapply lookup_lt_Some.
Qed.

Lemma is_cont_nonzero b : is_cont b = true -> b <> x00.
Proof. by intros H ->. Qed.

Lemma second_ok_nonzero b c : second_ok b c = true -> c <> x00.
Proof. unfold second_ok. intros H ->. by repeat case_decide. Qed.

Lemma utf8_step_bound l : l <> [] -> ((utf8_step l).2 <= length l)%nat.
Proof.
  intros Hl. assert (1 <= length l)%nat by (destruct l; simpl; [done|lia]).
  unfold utf8_step.
  repeat (case_match; simpl; try lia);
    repeat match goal with
    | H : is_cont _ = true |- _ => apply is_cont_nonzero, safe_get_bound in H
    | H : second_ok _ _ = true |- _ => apply second_ok_nonzero, safe_get_bound in H
    end; lia.
Qed.

Lemma safe_get_app s t i : (i < length s)%nat -> safe_get (s ++ t) i = safe_get s i.
Proof. intros H. unfold safe_get. by rewrite lookup_app_l. Qed.

(** A scalar is recognised from its own bytes only. *)
Lemma utf8_step_ext l l' :
  (utf8_step l).1 = true ->
  (forall i, (i < (utf8_step l).2)%nat -> safe_get l' i = safe_get l i) ->
  utf8_step l' = utf8_step l.
Proof.
  intros Hok Hget. pose proof (utf8_step_pos l) as Hpos.
  pose proof (Hget 0 ltac:(lia)) as H0.
  pose proof (Hget 1) as H1. pose proof (Hget 2) as H2. pose proof (Hget 3) as H3.
  clear Hget. revert Hok H1 H2 H3. unfold utf8_step. rewrite H0.
  destruct (utf8_char_width (safe_get l 0)) as [|[|[|[|[|]]]]]; simpl; try done.
  all: repeat case_match; simpl; try done; intros _ G1 G2 G3.
  all: rewrite ?G1, ?G2, ?G3 in * by lia; congruence.
Qed.

Lemma utf8_step_app s t : utf8_scalar s -> utf8_step (s ++ t) = utf8_step s.
Proof.
  intros [Hne Hs]. apply utf8_step_ext; rewrite Hs; [done|].
  intros i Hi. by apply safe_get_app.
Qed.

Lemma utf8_chunks_fuel f1 f2 l :
  (length l <= f1)%nat -> (length l <= f2)%nat -> utf8_chunks f1 l = utf8_chunks f2 l.
Proof.
  revert f2 l. induction f1 as [|f1 IH]; intros [|f2] [|b l] H1 H2; simpl in *; try done; try lia.
  pose proof (utf8_step_pos (b :: l)) as Hp.
  destruct (utf8_step (b :: l)) as [ok n]. simpl in Hp.
  f_equal. apply IH; rewrite length_drop; simpl; lia.
Qed.

Lemma chunks_step l : l <> [] ->
  chunks l = ((utf8_step l).1, take (utf8_step l).2 l) :: chunks (drop (utf8_step l).2 l).
Proof.
  intros Hl. pose proof (utf8_step_pos l) as Hp. unfold chunks at 1.
  destruct l as [|b l]; [done|]. cbn [length utf8_chunks].
  destruct (utf8_step (b :: l)) as [ok n] eqn:Hs. simpl in Hp. cbn [fst snd].
  f_equal. apply utf8_chunks_fuel; rewrite length_drop; simpl; lia.
Qed.

Lemma chunks_scalar s t : utf8_scalar s -> chunks (s ++ t) = (true, s) :: chunks t.
Proof.
  intros Hsc. pose proof Hsc as [Hne Hs]. rewrite chunks_step by (by destruct s).
  rewrite utf8_step_app, Hs by done. cbn [fst snd].
  by rewrite take_app_length, drop_app_length.
Qed.

Lemma utf8_valid_scalar_app s t : utf8_scalar s -> utf8_valid (s ++ t) = utf8_valid t.
Proof. intros Hs. unfold utf8_valid. by rewrite chunks_scalar. Qed.


Lemma utf8_step_take_scalar l :
  l <> [] -> (utf8_step l).1 = true -> utf8_scalar (take (utf8_step l).2 l).
Proof.
  intros Hne Hok. pose proof (utf8_step_pos l). pose proof (utf8_step_bound l Hne).
  assert (Hlen : length (take (utf8_step l).2 l) = (utf8_step l).2)
    by (rewrite length_take; lia).
  split; [intros E; rewrite E in Hlen; simpl in Hlen; lia|].
  rewrite Hlen, <- Hok, <- surjective_pairing. apply utf8_step_ext; [done|].
  intros i Hi. unfold safe_get. by rewrite lookup_take_lt.
Qed.

(** Induction over the scalars and ill-formed sequences of an input. *)
Lemma utf8_ind (P : list byte -> Prop) :
  P [] -> (forall l, l <> [] -> P (drop (utf8_step l).2 l) -> P l) -> forall l, P l.
Proof.
  intros Hnil Hstep l. remember (length l) as n eqn:Hn. revert l Hn.
  induction (lt_wf n) as [n _ IH]. intros l ->.
  destruct (decide (l = [])) as [->|Hne]; [done|].
  apply Hstep; [done|]. pose proof (utf8_step_pos l).
  assert (length l <> 0)%nat by (by destruct l).
  eapply IH; [|reflexivity]. rewrite length_drop. lia.
Qed.

Lemma utf8_valid_step l : l <> [] ->
  utf8_valid l = (utf8_step l).1 && utf8_valid (drop (utf8_step l).2 l).
Proof. intros Hne. unfold utf8_valid. by rewrite chunks_step. Qed.

Lemma from_utf8_lossy_step l : l <> [] ->
  from_utf8_lossy l =
    (if (utf8_step l).1 then take (utf8_step l).2 l else replacement)
      ++ from_utf8_lossy (drop (utf8_step l).2 l).
Proof. intros Hne. unfold from_utf8_lossy. by rewrite chunks_step. Qed.

(** [from_utf8_lossy] returns well-formed text on every input, and the input
    itself when it is well formed. *)
Lemma from_utf8_lossy_valid l : utf8_valid (from_utf8_lossy l) = true.
Proof.
  induction l as [|l Hne IH] using utf8_ind; [done|].
  rewrite from_utf8_lossy_step, utf8_valid_scalar_app; [done| |done].
  destruct (utf8_step l).1 eqn:Hok; [by apply utf8_step_take_scalar|done].
Qed.

Lemma from_utf8_lossy_id l : utf8_valid l = true -> from_utf8_lossy l = l.
Proof.
  induction l as [|l Hne IH] using utf8_ind; [done|].
  rewrite utf8_valid_step, from_utf8_lossy_step by done.
  intros [Hok Hv]%andb_true_iff. rewrite Hok, IH by done. apply take_drop.
Qed.

(** ASCII text is well formed. *)
Lemma utf8_valid_ascii l : Forall (fun b => (Zb b < 128)%Z) l -> utf8_valid l = true.
Proof.
  induction 1 as [|b l Hb Hl IH]; [done|].
  change (b :: l) with ([b] ++ l). rewrite utf8_valid_scalar_app; [done|].
  split; [done|]. unfold utf8_step, safe_get, utf8_char_width. simpl.
  by rewrite decide_True.
Qed.

Lemma utf8_valid_app a b : utf8_valid a = true -> utf8_valid (a ++ b) = utf8_valid b.
Proof.
  induction a as [|l Hne IH] using utf8_ind; [done|].
  rewrite utf8_valid_step by done. intros [Hok Hv]%andb_true_iff.
  rewrite <- (take_drop (utf8_step l).2 l) at 1. rewrite <- app_assoc.
  rewrite utf8_valid_scalar_app by (by apply utf8_step_take_scalar). by apply IH.
Qed.
