(* ===== verification/Net.v ===== *)
(** * IP and socket addresses

    Rust's [std::net] as the crate uses it: the address types, the textual
    forms ([Display]) and the textual parser ([FromStr]) of [IpAddr], and the
    decimal [u16] parser used for ports.  The parser is a function from the
    remaining input to an optional result with the input left: the Rust
    parser restores its state when it fails, so failure leaves the input of
    the caller unchanged. *)

From S2P Require Import Prelude.
Local Open Scope Z_scope.

(** ** Data *)

(** [Ipv4Addr] and [Ipv6Addr] hold their octets. *)
Inductive Ipv4Addr : Type :=
| Ipv4 (a b c d : byte).

Inductive Ipv6Addr : Type :=
| Ipv6 (o0 o1 o2 o3 o4 o5 o6 o7 o8 o9 o10 o11 o12 o13 o14 o15 : byte).

Inductive IpAddr : Type :=
| IpV4 (a : Ipv4Addr)
| IpV6 (a : Ipv6Addr).

(** [SocketAddr]: the V6 form carries a flow label and a scope id besides
    the address and the port. *)
Inductive SocketAddr : Type :=
| SockV4 (a : Ipv4Addr) (port : Z)
| SockV6 (a : Ipv6Addr) (port flowinfo scope_id : Z).

#[export] Instance Ipv4Addr_eq_dec : EqDecision Ipv4Addr.
Proof. solve_decision. Defined.
#[export] Instance Ipv6Addr_eq_dec : EqDecision Ipv6Addr.
Proof. solve_decision. Defined.
#[export] Instance IpAddr_eq_dec : EqDecision IpAddr.
Proof. solve_decision. Defined.
#[export] Instance SocketAddr_eq_dec : EqDecision SocketAddr.
Proof. solve_decision. Defined.

Definition octets4 (a : Ipv4Addr) : list byte :=
  let '(Ipv4 a b c d) := a in [a; b; c; d].

Definition octets6 (a : Ipv6Addr) : list byte :=
  let '(Ipv6 o0 o1 o2 o3 o4 o5 o6 o7 o8 o9 o10 o11 o12 o13 o14 o15) := a in
  [o0; o1; o2; o3; o4; o5; o6; o7; o8; o9; o10; o11; o12; o13; o14; o15].

(** [<[u8; 16]>::try_from] followed by [Ipv6Addr::from]. *)
Definition ipv6_from_octets (l : list byte) : option Ipv6Addr :=
  match l with
  | [o0; o1; o2; o3; o4; o5; o6; o7; o8; o9; o10; o11; o12; o13; o14; o15] =>
      Some (Ipv6 o0 o1 o2 o3 o4 o5 o6 o7 o8 o9 o10 o11 o12 o13 o14 o15)
  | _ => None
  end.

(** The eight 16-bit segments of an [Ipv6Addr]. *)
Definition segments (a : Ipv6Addr) : list Z :=
  let '(Ipv6 o0 o1 o2 o3 o4 o5 o6 o7 o8 o9 o10 o11 o12 o13 o14 o15) := a in
  map from_be_bytes
    [[o0; o1]; [o2; o3]; [o4; o5]; [o6; o7]; [o8; o9]; [o10; o11]; [o12; o13]; [o14; o15]].

Definition ipv6_from_segments (l : list Z) : option Ipv6Addr :=
  ipv6_from_octets (concat (map (to_be_bytes 2) l)).

Definition sock_ip (s : SocketAddr) : IpAddr :=
  match s with
  | SockV4 a _ => IpV4 a
  | SockV6 a _ _ _ => IpV6 a
  end.

Definition sock_port (s : SocketAddr) : Z :=
  match s with
  | SockV4 _ p => p
  | SockV6 _ p _ _ => p
  end.

Definition is_ipv4 (s : SocketAddr) : bool :=
  match s with
  | SockV4 _ _ => true
  | SockV6 _ _ _ _ => false
  end.

(** [SocketAddr::new]: flow label and scope id are 0. *)
Definition sock_new (ip : IpAddr) (port : Z) : SocketAddr :=
  match ip with
  | IpV4 a => SockV4 a port
  | IpV6 a => SockV6 a port 0 0
  end.

(** ** Printing *)

Definition digit_char (d : Z) : byte :=
  byte_of_Z (if decide (d < 10) then 48 + d else 87 + d).

(** Digits of [n] in the given radix, most significant first, without
    leading zeros. *)
Fixpoint show_digits (fuel : nat) (radix n : Z) : list byte :=
  match fuel with
  | O => []
  | S fuel =>
      if decide (n < radix) then [digit_char n]
      else show_digits fuel radix (n / radix) ++ [digit_char (n mod radix)]
  end.

(** ["{}"] and ["{:x}"] of an unsigned integer of at most 64 bits, which has
    at most 20 digits. *)
Definition show_dec (n : Z) : list byte := show_digits 20 10 n.
Definition show_hex (n : Z) : list byte := show_digits 20 16 n.

Definition show_ipv4 (a : Ipv4Addr) : list byte :=
  let '(Ipv4 a b c d) := a in
  show_dec (Zb a) ++ bstr "." ++ show_dec (Zb b) ++ bstr "." ++
  show_dec (Zb c) ++ bstr "." ++ show_dec (Zb d).

(** The longest run of zero segments, the first one among equals: [(start, len)]. *)
Fixpoint longest_zeroes (i : nat) (segs : list Z) (longest current : nat * nat)
  : nat * nat :=
  match segs with
  | [] => longest
  | s :: segs =>
      if decide (s = 0) then
        let start := if decide (current.2 = 0)%nat then i else current.1 in
        let current := (start, S current.2) in
        let longest := if decide (longest.2 < current.2)%nat then current else longest in
        longest_zeroes (S i) segs longest current
      else longest_zeroes (S i) segs longest (0%nat, 0%nat)
  end.

(** [fmt_subslice]: segments in hexadecimal separated by colons. *)
Definition tail_text (gs : list Z) : list byte :=
  concat (map (fun g => bstr ":" ++ show_hex g) gs).
Definition fmt_subslice (gs : list Z) : list byte :=
  match gs with
  | [] => []
  | g :: gs => show_hex g ++ tail_text gs
  end.

(** [to_ipv4_mapped]: the embedded address of [::ffff:a.b.c.d]. *)
Definition to_ipv4_mapped (a0 : Ipv6Addr) : option Ipv4Addr :=
  let '(Ipv6 _ _ _ _ _ _ _ _ _ _ _ _ a b c d) := a0 in
  if decide (take 12 (octets6 a0) = replicate 10 x00 ++ [xff; xff])
  then Some (Ipv4 a b c d) else None.

Definition show_ipv6 (a : Ipv6Addr) : list byte :=
  match to_ipv4_mapped a with
  | Some v4 => bstr "::ffff:" ++ show_ipv4 v4
  | None =>
      let segs := segments a in
      let '(start, len) := longest_zeroes 0 segs (0%nat, 0%nat) (0%nat, 0%nat) in
      if decide (1 < len)%nat then
        fmt_subslice (take start segs) ++ bstr "::" ++ fmt_subslice (drop (start + len) segs)
      else fmt_subslice segs
  end.

Definition show_ip (ip : IpAddr) : list byte :=
  match ip with
  | IpV4 a => show_ipv4 a
  | IpV6 a => show_ipv6 a
  end.

(** [SocketAddr]'s [Display]. *)
Definition show_sock (s : SocketAddr) : list byte :=
  match s with
  | SockV4 a port => show_ipv4 a ++ bstr ":" ++ show_dec port
  | SockV6 a port _ scope_id =>
      bstr "[" ++ show_ipv6 a ++
      (if decide (scope_id = 0) then [] else bstr "%" ++ show_dec scope_id) ++
      bstr "]:" ++ show_dec port
  end.

(** ** Parsing *)

(** [char::to_digit]. *)
Definition to_digit (radix : Z) (b : byte) : option Z :=
  let z := Zb b in
  let d :=
    if decide (48 <= z <= 57) then z - 48
    else if decide (97 <= z <= 122) then z - 87
    else if decide (65 <= z <= 90) then z - 55
    else radix in
  if decide (d < radix) then Some d else None.

(** The digit loop of [read_number]: it stops at the first non-digit and
    fails past [max_digits]. *)
Fixpoint read_digits (radix : Z) (max_digits count : nat) (result : Z) (l : list byte)
  : option (Z * nat * list byte) :=
  match l with
  | [] => Some (result, count, [])
  | b :: l' =>
      match to_digit radix b with
      | Some d =>
          if decide (max_digits < S count)%nat then None
          else read_digits radix max_digits (S count) (result * radix + d) l'
      | None => Some (result, count, l)
      end
  end.

(** [Parser::read_number]; [bound] is the size of the result type. *)
Definition read_number (radix : Z) (max_digits : nat) (allow_zero_prefix : bool)
    (bound : Z) (l : list byte) : option (Z * list byte) :=
  let has_leading_zero := bool_decide (head l = Some x30) in
  '(result, count, rest) ← read_digits radix max_digits 0 0 l;
  if decide (count = 0)%nat then None
  else if negb allow_zero_prefix && has_leading_zero && bool_decide (1 < count)%nat then None
  else if decide (result < bound) then Some (result, rest) else None.

Definition read_given_char (c : byte) (l : list byte) : option (list byte) :=
  match l with
  | b :: l' => if decide (b = c) then Some l' else None
  | [] => None
  end.

(** [Parser::read_separator]: no separator before the first element. *)
Definition read_separator {A} (sep : byte) (index : nat)
    (inner : list byte -> option (A * list byte)) (l : list byte) : option (A * list byte) :=
  l ← (if decide (0 < index)%nat then read_given_char sep l else Some l);
  inner l.

Definition read_octet (i : nat) (l : list byte) : option (Z * list byte) :=
  read_separator x2e i (read_number 10 3 false 256) l.

Definition read_ipv4_addr (l : list byte) : option (Ipv4Addr * list byte) :=
  '(a, l) ← read_octet 0 l;
  '(b, l) ← read_octet 1 l;
  '(c, l) ← read_octet 2 l;
  '(d, l) ← read_octet 3 l;
  Some (Ipv4 (byte_of_Z a) (byte_of_Z b) (byte_of_Z c) (byte_of_Z d), l).

(** [read_groups]: at most [n] more groups, the next one with index [i]; a
    trailing embedded IPv4 address takes two groups and ends the list (the
    flag says whether one was read). *)
Fixpoint read_groups (n i : nat) (l : list byte) : list Z * bool * list byte :=
  match n with
  | O => ([], false, l)
  | S n' =>
      let ipv4 :=
        if decide (0 < n')%nat then read_separator x3a i read_ipv4_addr l else None in
      match ipv4 with
      | Some (Ipv4 one two three four, l') =>
          ([from_be_bytes [one; two]; from_be_bytes [three; four]], true, l')
      | None =>
          match read_separator x3a i (read_number 16 4 true 65536) l with
          | Some (g, l') =>
              let '(gs, v4, l'') := read_groups n' (S i) l' in (g :: gs, v4, l'')
          | None => ([], false, l)
          end
      end
  end.

Definition read_ipv6_addr (l : list byte) : option (Ipv6Addr * list byte) :=
  let '(hd, head_ipv4, rest) := read_groups 8 0 l in
  if decide (length hd = 8)%nat then a ← ipv6_from_segments hd; Some (a, rest)
  else if (head_ipv4 : bool) then None
  else
    rest ← read_given_char x3a rest;
    rest ← read_given_char x3a rest;
    let '(tl, _, rest) := read_groups (8 - (length hd + 1)) 0 rest in
    a ← ipv6_from_segments (hd ++ replicate (8 - length hd - length tl) 0 ++ tl);
    Some (a, rest).

Definition read_ip_addr (l : list byte) : option (IpAddr * list byte) :=
  match read_ipv4_addr l with
  | Some (a, rest) => Some (IpV4 a, rest)
  | None => '(a, rest) ← read_ipv6_addr l; Some (IpV6 a, rest)
  end.

(** [IpAddr::from_str]: the whole text must be consumed. *)
Definition ip_from_str (l : list byte) : option IpAddr :=
  match read_ip_addr l with
  | Some (ip, []) => Some ip
  | _ => None
  end.

(** The checked accumulation of [u16::from_str]. *)
Fixpoint u16_digits (acc : Z) (l : list byte) : option Z :=
  match l with
  | [] => Some acc
  | b :: l =>
      d ← to_digit 10 b;
      let acc := acc * 10 + d in
      if decide (acc < 65536) then u16_digits acc l else None
  end.

(** [u16::from_str]: an optional [+], then at least one digit. *)
Definition u16_from_str (l : list byte) : option Z :=
  match l with
  | [] => None
  | [x2b] | [x2d] => None
  | x2b :: l => u16_digits 0 l
  | _ => u16_digits 0 l
  end.
