(* ===== verification/NetText.v ===== *)
(** * The textual forms of addresses and ports read back

    Printing an [IpAddr] or a [u16] and parsing the text gives the value
    back, for every address (all IPv4 addresses, and IPv6 addresses with and
    without a compressed run of zeros or an embedded IPv4 address); the text
    is non-empty, consists of digits, [.] and [:] only, and has at most 39
    characters (5 for a port). *)

From S2P Require Import Prelude Net.
Local Open Scope Z_scope.

(** ** Digits *)

Lemma to_digit_char radix d :
  0 <= d < radix -> radix <= 16 -> to_digit radix (digit_char d) = Some d.
Proof.
  intros Hd Hr. unfold to_digit, digit_char.
  assert (Hc : Zb (byte_of_Z (if decide (d < 10) then 48 + d else 87 + d))
             = if decide (d < 10) then 48 + d else 87 + d).
  { rewrite Zb_of_Z. case_decide; apply Z.mod_small; lia. }
  rewrite Hc. clear Hc. repeat case_decide; f_equal; lia.
Qed.

Lemma show_digits_nonempty fuel radix n : show_digits (S fuel) radix n <> [].
Proof. simpl. case_decide; [done|]. by destruct (show_digits fuel radix (n / radix)). Qed.

Section Digits.
Context (radix : Z) (Hradix : 2 <= radix <= 16).

(** The text of a number below [radix ^ k] has at most [k] digits. *)
Lemma length_show_digits k fuel n :
  (0 < k <= fuel)%nat -> 0 <= n < radix ^ Z.of_nat k ->
  (1 <= length (show_digits fuel radix n) <= k)%nat.
Proof.
  revert k n. induction fuel as [|fuel IH]; intros k n Hk Hn; [lia|]. simpl.
  case_decide; [simpl; lia|]. rewrite length_app. simpl.
  destruct k as [|[|k]]; [lia|simpl in Hn; lia|].
  assert (0 <= n / radix < radix ^ Z.of_nat (S k)).
  { split; [apply Z.div_pos; lia|]. apply Z.div_lt_upper_bound; [lia|].
    rewrite Nat2Z.inj_succ, Z.pow_succ_r in Hn by lia. lia. }
  specialize (IH (S k) (n / radix)). lia.
Qed.

(** The digit loop reads a printed number. *)
Lemma read_show_digits k fuel n max c r rest :
  (0 < k <= fuel)%nat -> 0 <= n < radix ^ Z.of_nat k ->
  (c + length (show_digits fuel radix n) <= max)%nat ->
  read_digits radix max c r (show_digits fuel radix n ++ rest)
  = read_digits radix max (c + length (show_digits fuel radix n))
      (r * radix ^ Z.of_nat (length (show_digits fuel radix n)) + n) rest.
Proof.
  revert k n rest. induction fuel as [|fuel IH]; intros k n rest Hk Hn Hmax; [lia|].
  revert Hmax. simpl. case_decide.
  { intros Hmax. simpl in *. rewrite to_digit_char by lia.
    rewrite decide_False by lia. f_equal; lia. }
  destruct k as [|[|k]]; [lia|simpl in Hn; lia|].
  assert (Hq : 0 <= n / radix < radix ^ Z.of_nat (S k)).
  { split; [apply Z.div_pos; lia|]. apply Z.div_lt_upper_bound; [lia|].
    rewrite Nat2Z.inj_succ, Z.pow_succ_r in Hn by lia. lia. }
  rewrite length_app. simpl. intros Hmax. rewrite <- app_assoc. simpl.
  rewrite (IH (S k)) by lia. simpl.
  pose proof (Z.mod_pos_bound n radix ltac:(lia)).
  rewrite to_digit_char, decide_False by lia.
  rewrite Nat2Z.inj_add, Z.pow_add_r by lia. f_equal; [lia|].
  change (Z.of_nat 1) with 1. rewrite Z.pow_1_r.
  pose proof (Z.div_mod n radix ltac:(lia)). nia.
Qed.

Lemma head_show_digits k fuel n :
  (0 < k <= fuel)%nat -> 1 <= n < radix ^ Z.of_nat k ->
  exists d, 1 <= d < radix /\ head (show_digits fuel radix n) = Some (digit_char d).
Proof.
  revert k n. induction fuel as [|fuel IH]; intros k n Hk Hn; [lia|]. simpl.
  case_decide; [exists n; split; [lia|done]|].
  destruct k as [|[|k]]; [lia|simpl in Hn; lia|].
  destruct (IH (S k) (n / radix)) as (d & Hd & Hh); [lia| |].
  { split; [apply Z.div_le_lower_bound; lia|]. apply Z.div_lt_upper_bound; [lia|].
    rewrite Nat2Z.inj_succ, Z.pow_succ_r in Hn by lia. lia. }
  exists d. split; [done|]. by destruct (show_digits fuel radix (n / radix)).
Qed.

Lemma digit_char_nonzero d : 1 <= d < radix -> digit_char d <> x30.
Proof.
  intros Hd E. pose proof (to_digit_char radix d ltac:(lia) ltac:(lia)) as H.
  rewrite E in H. unfold to_digit in H. change (Zb x30) with 48 in H.
  repeat case_decide; simplify_eq; lia.
Qed.
End Digits.

(** A text where the digit loop stops at once. *)
Definition no_digit (radix : Z) (l : list byte) : Prop :=
  match l with
  | [] => True
  | b :: _ => to_digit radix b = None
  end.

Lemma read_digits_stop radix max c r l :
  no_digit radix l -> read_digits radix max c r l = Some (r, c, l).
Proof. destruct l as [|b l]; simpl; [done|]. by intros ->. Qed.

(** [read_number] reads a printed number that fits its bounds. *)
Lemma read_number_show radix k max zp bound n rest :
  2 <= radix <= 16 -> (0 < k <= 20)%nat -> (k <= max)%nat ->
  0 <= n < radix ^ Z.of_nat k -> n < bound -> no_digit radix rest ->
  read_number radix max zp bound (show_digits 20 radix n ++ rest) = Some (n, rest).
Proof.
  intros Hr Hk Hmax Hn Hb Hrest.
  pose proof (length_show_digits radix Hr k 20 n Hk Hn) as Hlen.
  unfold read_number. rewrite (read_show_digits radix Hr k) by lia.
  rewrite read_digits_stop by done. cbn [mbind option_bind].
  rewrite Z.mul_0_l, !Z.add_0_l, Nat.add_0_l, decide_False by lia.
  rewrite (decide_True (P := n < bound)) by done.
  replace (_ && _ && _) with false; [done|]. symmetry.
  destruct (decide (n < radix)) as [Hs|Hs].
  { rewrite (bool_decide_eq_false_2 (1 < _)%nat), andb_false_r; [done|].
    cbn [show_digits]. rewrite decide_True by done. simpl. lia. }
  destruct (head_show_digits radix Hr k 20 n Hk ltac:(lia)) as (d & Hd & Hh).
  rewrite (bool_decide_eq_false_2 (head _ = _)), andb_false_r; [done|].
  destruct (show_digits 20 radix n) as [|b t]; [done|]. simpl in *.
  injection Hh as ->. intros [= E]. by eapply digit_char_nonzero.
Qed.

Lemma read_octet_show b rest :
  no_digit 10 rest -> read_number 10 3 false 256 (show_dec (Zb b) ++ rest) = Some (Zb b, rest).
Proof.
  intros Hr. pose proof (Zb_range b). apply (read_number_show 10 3); done || lia.
Qed.

Lemma read_group_show g rest :
  is_u16 g -> no_digit 16 rest ->
  read_number 16 4 true 65536 (show_hex g ++ rest) = Some (g, rest).
Proof. intros Hg Hr. unfold is_u16 in Hg. apply (read_number_show 16 4); done || lia. Qed.

(** Ports. *)
Lemma u16_digits_app acc s rest n :
  u16_digits acc s = Some n -> u16_digits acc (s ++ rest) = u16_digits n rest.
Proof.
  revert acc. induction s as [|b s IH]; intros acc; simpl; [by intros [= ->]|].
  destruct (to_digit 10 b) as [d|]; simpl; [|done]. case_decide; [|done]. apply IH.
Qed.

Lemma u16_digits_show fuel n :
  (0 < fuel)%nat -> 0 <= n < 10 ^ Z.of_nat fuel -> n < 65536 ->
  u16_digits 0 (show_digits fuel 10 n) = Some n.
Proof.
  revert n. induction fuel as [|fuel IH]; intros n Hf Hn Hb; [lia|]. simpl.
  case_decide.
  { simpl. rewrite to_digit_char by lia. simpl. by rewrite decide_True. }
  destruct fuel as [|fuel]; [simpl in Hn; lia|].
  assert (Hq : 0 <= n / 10 < 10 ^ Z.of_nat (S fuel)).
  { split; [apply Z.div_pos; lia|]. apply Z.div_lt_upper_bound; [lia|].
    rewrite Nat2Z.inj_succ, Z.pow_succ_r in Hn by lia. lia. }
  assert (n / 10 < 65536) by (apply Z.div_lt_upper_bound; lia).
  pose proof (Z.mod_pos_bound n 10 ltac:(lia)).
  rewrite (u16_digits_app _ _ _ (n / 10)) by (apply IH; lia).
  simpl. rewrite to_digit_char by lia. simpl.
  pose proof (Z.div_mod n 10 ltac:(lia)).
  rewrite decide_True by lia. f_equal. lia.
Qed.

Lemma u16_from_str_digits l :
  (exists b t, l = b :: t /\ is_Some (to_digit 10 b)) -> u16_from_str l = u16_digits 0 l.
Proof. intros (b & t & -> & [d Hd]). destruct b; try discriminate Hd; by destruct t. Qed.

Lemma u16_from_str_show n : is_u16 n -> u16_from_str (show_dec n) = Some n.
Proof.
  intros Hn. unfold is_u16 in Hn. unfold show_dec.
  rewrite u16_from_str_digits; [apply u16_digits_show; lia|].
  destruct (decide (n = 0)) as [->|Hz].
  { exists x30, []. split; [reflexivity|by eexists]. }
  destruct (head_show_digits 10 ltac:(lia) 5 20 n) as (d & Hd & Hh); [lia..|].
  destruct (show_digits 20 10 n) as [|b t]; [done|]. exists b, t. split; [done|].
  simpl in Hh. injection Hh as ->. exists d. apply to_digit_char; lia.
Qed.

(** ** IPv4 *)

Lemma read_ipv4_show a rest :
  no_digit 10 rest -> read_ipv4_addr (show_ipv4 a ++ rest) = Some (a, rest).
Proof.
  intros Hrest. destruct a as [a b c d]. unfold read_ipv4_addr, read_octet, read_separator, show_ipv4.
  rewrite <- !app_assoc. simpl.
  rewrite read_octet_show by done. simpl.
  rewrite read_octet_show by done. simpl.
  rewrite read_octet_show by done. simpl.
  rewrite read_octet_show by done. simpl.
  by rewrite !byte_of_Zb.
Qed.

(** The first character of a text is neither a dot nor a decimal digit. *)
Definition no_dot (l : list byte) : Prop :=
  match l with
  | [] => True
  | b :: _ => b <> x2e /\ to_digit 10 b = None
  end.

Lemma read_digits_no_dot s rest max c r v k l :
  Forall (fun b => b <> x2e) s -> no_dot rest ->
  read_digits 10 max c r (s ++ rest) = Some (v, k, l) -> head l <> Some x2e.
Proof.
  intros Hs Hrest. revert c r. induction Hs as [|b s Hb Hs IH]; intros c r; simpl.
  { destruct rest as [|b rest]; simpl; [naive_solver|].
    destruct Hrest as [Hb ->]. intros [= <- <- <-]. naive_solver. }
  destruct (to_digit 10 b) as [d|].
  - case_decide; [done|]. apply IH.
  - intros [= <- <- <-]. naive_solver.
Qed.

(** A text whose leading run of digits is not followed by a dot is not an
    IPv4 address. *)
Lemma read_ipv4_no_dot s rest :
  Forall (fun b => b <> x2e) s -> no_dot rest -> read_ipv4_addr (s ++ rest) = None.
Proof.
  intros Hs Hrest. unfold read_ipv4_addr.
  destruct (read_octet 0 (s ++ rest)) as [[v l]|] eqn:H0; [|done]. simpl.
  assert (Hl : head l <> Some x2e).
  { revert H0. unfold read_octet, read_separator, read_number. simpl.
    destruct (read_digits 10 3 0 0 (s ++ rest)) as [[[v' k] l']|] eqn:Hd; [|done].
    apply read_digits_no_dot in Hd; [|done..]. simpl. repeat case_match; naive_solver. }
  replace (read_octet 1 l) with (@None (Z * list byte)); [done|].
  unfold read_octet, read_separator. destruct l as [|b l]; [done|]. simpl in *.
  by rewrite decide_False by (intros ->; done).
Qed.

(** ** IPv6 *)

(** The characters of hexadecimal text. *)
Definition is_hex (b : byte) : Prop := is_Some (to_digit 16 b).

Lemma show_hex_chars g : is_u16 g -> Forall is_hex (show_hex g).
Proof.
  unfold is_u16, show_hex. generalize 20%nat as fuel. intros fuel Hg.
  assert (0 <= g) by lia. clear Hg. revert g H.
  induction fuel as [|fuel IH]; intros g Hg; simpl; [done|].
  case_decide.
  { constructor; [|done]. eexists. apply to_digit_char; lia. }
  apply Forall_app. split; [apply IH, Z.div_pos; lia|].
  constructor; [|done]. eexists.
  apply to_digit_char; [apply Z.mod_pos_bound; lia|lia].
Qed.

Lemma is_hex_not_dot b : is_hex b -> b <> x2e.
Proof. intros [d Hd] ->. done. Qed.

Lemma show_hex_nonempty g : show_hex g <> [].
Proof. apply show_digits_nonempty. Qed.

Lemma tail_text_cons g gs : tail_text (g :: gs) = x3a :: show_hex g ++ tail_text gs.
Proof. done. Qed.

(** What may follow a list of groups: nothing, or the [::] of a compressed
    run. *)
Definition stops (rest : list byte) : Prop :=
  rest = [] \/ exists t, rest = x3a :: x3a :: t.

Lemma stops_tail gs rest :
  stops rest -> no_dot (tail_text gs ++ rest) /\ no_digit 16 (tail_text gs ++ rest).
Proof.
  intros Hs. destruct gs as [|g gs]; [|done].
  destruct Hs as [->|[t ->]]; done.
Qed.

Lemma read_group_step g gs rest :
  is_u16 g -> stops rest ->
  read_ipv4_addr (show_hex g ++ tail_text gs ++ rest) = None /\
  read_number 16 4 true 65536 (show_hex g ++ tail_text gs ++ rest)
    = Some (g, tail_text gs ++ rest).
Proof.
  intros Hg Hs. destruct (stops_tail gs rest Hs). split.
  - apply read_ipv4_no_dot; [|done].
    eapply Forall_impl; [apply is_hex_not_dot|by apply show_hex_chars].
  - by apply read_group_show.
Qed.

Lemma read_groups_stop n i rest : stops rest -> read_groups n i rest = ([], false, rest).
Proof.
  intros Hs. destruct n as [|n]; [done|]. cbn [read_groups].
  assert (H4 : read_separator x3a i read_ipv4_addr rest = None).
  { unfold read_separator. destruct Hs as [->|[t ->]]; case_decide; done. }
  assert (H6 : read_separator x3a i (read_number 16 4 true 65536) rest = None).
  { unfold read_separator. destruct Hs as [->|[t ->]]; case_decide; done. }
  rewrite H4, H6. by case_decide.
Qed.

(** One step of the group loop. *)
Lemma read_groups_ipv4 n i l a b c d l' :
  (0 < n)%nat -> read_separator x3a i read_ipv4_addr l = Some (Ipv4 a b c d, l') ->
  read_groups (S n) i l = ([from_be_bytes [a; b]; from_be_bytes [c; d]], true, l').
Proof. intros Hn H. cbn [read_groups]. by rewrite decide_True, H by done. Qed.

Lemma read_groups_hex n i l g l' gs v4 l'' :
  read_separator x3a i read_ipv4_addr l = None ->
  read_separator x3a i (read_number 16 4 true 65536) l = Some (g, l') ->
  read_groups n (S i) l' = (gs, v4, l'') ->
  read_groups (S n) i l = (g :: gs, v4, l'').
Proof. intros H4 H6 Hr. cbn [read_groups]. rewrite H4, H6, Hr. by case_decide. Qed.

Lemma read_separator_first {A} sep (inner : list byte -> option (A * list byte)) l :
  read_separator sep 0 inner l = inner l.
Proof. done. Qed.

Lemma read_given_char_hit c l : read_given_char c (c :: l) = Some l.
Proof. simpl. by rewrite decide_True. Qed.

Lemma read_separator_sep {A} sep i (inner : list byte -> option (A * list byte)) l :
  (0 < i)%nat -> read_separator sep i inner (sep :: l) = inner l.
Proof.
  intros Hi. unfold read_separator. rewrite decide_True by done. simpl.
  by rewrite decide_True.
Qed.

Lemma read_groups_tail n i gs rest :
  (0 < i)%nat -> (length gs <= n)%nat -> Forall is_u16 gs -> stops rest ->
  read_groups n i (tail_text gs ++ rest) = (gs, false, rest).
Proof.
  intros Hi Hn Hgs Hs. revert n i Hi Hn. induction Hgs as [|g gs Hg Hgs IH]; intros n i Hi Hn.
  { by apply read_groups_stop. }
  destruct n as [|n]; [simpl in Hn; lia|].
  destruct (read_group_step g gs rest Hg Hs) as [H4 H6].
  rewrite tail_text_cons. cbn [app]. rewrite <- app_assoc.
  eapply read_groups_hex; rewrite ?read_separator_sep; [done..|].
  apply IH; [lia|simpl in Hn; lia].
Qed.

Lemma read_groups_show n gs rest :
  (length gs <= n)%nat -> Forall is_u16 gs -> stops rest ->
  read_groups n 0 (fmt_subslice gs ++ rest) = (gs, false, rest).
Proof.
  intros Hn Hgs Hs. destruct Hgs as [|g gs Hg Hgs]; [by apply read_groups_stop|].
  destruct n as [|n]; [simpl in Hn; lia|]. cbn [fmt_subslice].
  destruct (read_group_step g gs rest Hg Hs) as [H4 H6].
  rewrite <- app_assoc.
  eapply read_groups_hex; rewrite ?read_separator_first; [done..|].
  apply read_groups_tail; [lia|simpl in Hn; lia|done..].
Qed.

(** ** Segments *)

Lemma length_segments a : length (segments a) = 8%nat.
Proof. by destruct a. Qed.

Lemma segments_u16 a : Forall is_u16 (segments a).
Proof. destruct a. repeat constructor; apply from_be_bytes_16. Qed.

Lemma ipv6_from_segments_segments a : ipv6_from_segments (segments a) = Some a.
Proof.
  destruct a. unfold ipv6_from_segments, segments. cbn [map concat].
  do 8 (match goal with |- context [to_be_bytes 2 (from_be_bytes [?x; ?y])] =>
    change (to_be_bytes 2 (from_be_bytes [x; y]))
      with (to_be_bytes (length [x; y]) (from_be_bytes [x; y])) end;
    rewrite to_from_be_bytes).
  done.
Qed.

(** The run found by [longest_zeroes] lies within the segments and consists
    of zeros. *)
Definition zero_run (l : list Z) (r : nat * nat) : Prop :=
  (r.1 + r.2 <= length l)%nat /\ take r.2 (drop r.1 l) = replicate r.2 0.

Lemma zero_run_app l l' r : zero_run l r -> zero_run (l ++ l') r.
Proof.
  intros [Hb Hz]. split; [rewrite length_app; lia|].
  rewrite drop_app_le, take_app_le by (rewrite ?length_drop; lia). done.
Qed.

Lemma longest_zeroes_run segs pre longest current :
  zero_run pre longest -> zero_run pre current ->
  (current.2 = 0 \/ current.1 + current.2 = length pre)%nat ->
  zero_run (pre ++ segs) (longest_zeroes (length pre) segs longest current).
Proof.
  revert pre longest current.
  induction segs as [|s segs IH]; intros pre longest current Hl Hc He; simpl.
  { by rewrite app_nil_r. }
  replace (S (length pre)) with (length (pre ++ [s])) by (rewrite length_app; simpl; lia).
  rewrite (cons_middle s pre segs), app_assoc.
  case_decide as Hs; [|apply IH; [by apply zero_run_app| |by left];
                       split; simpl; [lia|done]].
  set (cur := (if decide (current.2 = 0)%nat then length pre else current.1, S current.2)).
  assert (Hcur : zero_run (pre ++ [s]) cur /\ (cur.1 + cur.2 = length (pre ++ [s]))%nat).
  { destruct Hc as [Hb Hz]. subst cur s. rewrite length_app. cbn [fst snd length].
    destruct current as [st ln]. cbn [fst snd] in *.
    assert (Hst : (if decide (ln = 0)%nat then length pre else st) = (length pre - ln)%nat)
      by (case_decide; lia).
    rewrite Hst. split; [|lia]. split; [rewrite length_app; simpl; lia|]. cbn [fst snd].
    rewrite drop_app_le, take_app_ge by (rewrite ?length_drop; lia).
    rewrite length_drop. replace (S ln - _)%nat with 1%nat by lia. cbn [take].
    replace (S ln) with (ln + 1)%nat by lia. rewrite replicate_add. f_equal.
    rewrite <- Hz. destruct He as [->|He]; [by rewrite Nat.sub_0_r, drop_all|].
    replace (length pre - ln)%nat with st by lia.
    symmetry. apply take_ge. rewrite length_drop. lia. }
  destruct Hcur as [Hcur Hend].
  apply IH; [|done|by right].
  case_decide; [done|by apply zero_run_app].
Qed.

Lemma segments_split a start len :
  longest_zeroes 0 (segments a) (0%nat, 0%nat) (0%nat, 0%nat) = (start, len) ->
  (start + len <= 8)%nat /\
  segments a = take start (segments a) ++ replicate len 0 ++ drop (start + len) (segments a).
Proof.
  intros Hz. pose proof (longest_zeroes_run (segments a) [] (0%nat, 0%nat) (0%nat, 0%nat)) as H.
  simpl in H. rewrite Hz in H. destruct H as [Hb Hr]; [done..|by left|].
  cbn [fst snd] in *. rewrite length_segments in Hb. split; [done|].
  rewrite <- Hr, <- (take_drop start (segments a)) at 1. f_equal.
  rewrite <- (take_drop len (drop start (segments a))) at 1. by rewrite drop_drop.
Qed.

(** ** Round trip of addresses *)

(** The segments of an IPv4 address embedded in [::ffff:a.b.c.d]. *)
Definition mapped_segments (v4 : Ipv4Addr) : list Z :=
  let '(Ipv4 a b c d) := v4 in [65535; from_be_bytes [a; b]; from_be_bytes [c; d]].

Lemma to_ipv4_mapped_segments a v4 :
  to_ipv4_mapped a = Some v4 -> segments a = replicate 5 0 ++ mapped_segments v4.
Proof.
  destruct a. simpl. case_decide as H; [|done]. intros [= <-]. simpl in *. by simplify_eq.
Qed.

Lemma read_groups_mapped v4 :
  read_groups 7 0 (bstr "ffff:" ++ show_ipv4 v4) = (mapped_segments v4, true, []).
Proof.
  change (bstr "ffff:" ++ show_ipv4 v4) with (show_hex 65535 ++ x3a :: show_ipv4 v4).
  destruct v4 as [a b c d]. eapply read_groups_hex; rewrite ?read_separator_first.
  - apply read_ipv4_no_dot; [by repeat constructor|done].
  - by apply read_group_show.
  - eapply read_groups_ipv4; [lia|]. rewrite read_separator_sep by lia.
    rewrite <- (app_nil_r (show_ipv4 _)). by apply read_ipv4_show.
Qed.

Lemma read_ipv4_groups gs rest :
  Forall is_u16 gs -> stops rest -> read_ipv4_addr (fmt_subslice gs ++ rest) = None.
Proof.
  intros Hgs Hs. destruct Hgs as [|g gs Hg Hgs].
  - destruct Hs as [->|[t ->]]; done.
  - cbn [fmt_subslice]. rewrite <- app_assoc. by apply read_group_step.
Qed.

Lemma read_ipv6_show a : read_ipv6_addr (show_ipv6 a) = Some (a, []).
Proof.
  unfold show_ipv6, read_ipv6_addr.
  destruct (to_ipv4_mapped a) as [v4|] eqn:Hm.
  { change (bstr "::ffff:" ++ show_ipv4 v4) with (x3a :: x3a :: bstr "ffff:" ++ show_ipv4 v4).
    rewrite read_groups_stop by (right; by eexists).
    cbn [length]. rewrite decide_False, read_given_char_hit by done. cbn [mbind option_bind].
    rewrite read_given_char_hit. cbn [mbind option_bind].
    change (8 - (0 + 1))%nat with 7%nat. rewrite read_groups_mapped.
    replace (length (mapped_segments v4)) with 3%nat by (by destruct v4).
    change (8 - 0 - 3)%nat with 5%nat. rewrite app_nil_l, <- (to_ipv4_mapped_segments a) by done.
    by rewrite ipv6_from_segments_segments. }
  pose proof (segments_u16 a) as Hu. pose proof (length_segments a) as Hlen.
  destruct (longest_zeroes 0 (segments a) _ _) as [start len] eqn:Hz.
  destruct (segments_split a start len Hz) as [Hb Hsp].
  case_decide as Hl.
  - assert (Hlt : length (take start (segments a)) = start) by (rewrite length_take; lia).
    rewrite read_groups_show;
      [|lia|by apply Forall_take|right; by eexists].
    rewrite decide_False by lia. simpl (bstr "::" ++ _).
    rewrite read_given_char_hit. cbn [mbind option_bind].
    rewrite read_given_char_hit. cbn [mbind option_bind].
    rewrite <- (app_nil_r (fmt_subslice (drop _ _))), read_groups_show;
      [|rewrite length_drop; lia|by apply Forall_drop|by left].
    rewrite Hlt, length_drop, Hlen.
    replace (8 - start - (8 - (start + len)))%nat with len by lia.
    by rewrite <- Hsp, ipv6_from_segments_segments.
  - rewrite <- (app_nil_r (fmt_subslice _)), read_groups_show; [|lia|done|by left].
    by rewrite decide_True, ipv6_from_segments_segments.
Qed.

Lemma read_ipv4_show_ipv6 a : read_ipv4_addr (show_ipv6 a) = None.
Proof.
  unfold show_ipv6. pose proof (segments_u16 a) as Hu.
  case_match; [done|]. destruct (longest_zeroes 0 (segments a) _ _) as [start len].
  case_decide.
  - apply read_ipv4_groups; [by apply Forall_take|right; by eexists].
  - rewrite <- (app_nil_r (fmt_subslice _)). apply read_ipv4_groups; [done|by left].
Qed.

Lemma ip_from_str_show ip : ip_from_str (show_ip ip) = Some ip.
Proof.
  unfold ip_from_str, read_ip_addr. destruct ip as [a|a]; simpl.
  - by rewrite <- (app_nil_r (show_ipv4 a)), read_ipv4_show.
  - by rewrite read_ipv4_show_ipv6, read_ipv6_show.
Qed.

(** ** The characters and the length of the text *)

(** Hexadecimal digits, dots and colons. *)
Definition addr_char (b : byte) : Prop := is_hex b \/ b = x2e \/ b = x3a.

Ltac addr_chars :=
  repeat (apply List.Forall_cons; [first [by right; right | by right; left | left; by eexists]|]);
  apply List.Forall_nil.

Lemma addr_char_plain b :
  addr_char b -> (Zb b < 128)%Z /\ b <> x20 /\ b <> x0d /\ b <> x0a.
Proof. intros [[d Hd]|[->| ->]]; [|done..]. by destruct b. Qed.

Lemma to_digit_weaken b d : to_digit 10 b = Some d -> is_hex b.
Proof.
  unfold is_hex, to_digit. intros H. repeat case_decide; simplify_eq; eauto; lia.
Qed.

Lemma show_digits_chars fuel radix n :
  2 <= radix <= 16 -> 0 <= n ->
  Forall (fun b => exists d, to_digit radix b = Some d) (show_digits fuel radix n).
Proof.
  intros Hr. revert n. induction fuel as [|fuel IH]; intros n Hn; simpl; [done|].
  case_decide.
  { constructor; [|done]. eexists. apply to_digit_char; lia. }
  apply Forall_app. split; [apply IH, Z.div_pos; lia|]. constructor; [|done].
  eexists. apply to_digit_char; [apply Z.mod_pos_bound; lia|lia].
Qed.

Lemma show_dec_chars n : 0 <= n -> Forall addr_char (show_dec n).
Proof.
  intros Hn. eapply Forall_impl; [|apply show_digits_chars; lia].
  intros b [d Hd]. left. by eapply to_digit_weaken.
Qed.

Lemma show_dec_byte b : Forall addr_char (show_dec (Zb b)) /\ (length (show_dec (Zb b)) <= 3)%nat.
Proof.
  pose proof (Zb_range b). split; [apply show_dec_chars; lia|].
  apply (length_show_digits 10 ltac:(lia) 3); lia.
Qed.

Lemma show_hex_text g :
  is_u16 g -> Forall addr_char (show_hex g) /\ (length (show_hex g) <= 4)%nat.
Proof.
  intros Hg. split; [|apply (length_show_digits 16 ltac:(lia) 4); [lia|exact Hg]].
  eapply Forall_impl; [|by apply show_hex_chars]. by left.
Qed.

Lemma show_ipv4_text a : Forall addr_char (show_ipv4 a) /\ (length (show_ipv4 a) <= 15)%nat.
Proof.
  destruct a as [a b c d]. unfold show_ipv4.
  destruct (show_dec_byte a), (show_dec_byte b), (show_dec_byte c), (show_dec_byte d).
  assert (Forall addr_char (bstr ".")) by addr_chars.
  rewrite !Forall_app, !length_app. simpl. split; [done|lia].
Qed.

Lemma tail_text_text gs : Forall is_u16 gs ->
  Forall addr_char (tail_text gs) /\ (length (tail_text gs) <= 5 * length gs)%nat.
Proof.
  induction 1 as [|g gs Hg Hgs [IH1 IH2]]; [by simpl; split; [constructor|lia]|].
  destruct (show_hex_text g Hg). rewrite tail_text_cons. split.
  - constructor; [by right; right|]. by apply Forall_app.
  - simpl. rewrite length_app. lia.
Qed.

Lemma fmt_subslice_text gs : Forall is_u16 gs ->
  Forall addr_char (fmt_subslice gs) /\ (length (fmt_subslice gs) <= 5 * length gs - 1)%nat.
Proof.
  intros [|g gs' Hg Hgs]; [done|]. destruct (show_hex_text g Hg), (tail_text_text gs' Hgs).
  cbn [fmt_subslice]. rewrite Forall_app, length_app. simpl. split; [done|lia].
Qed.

Lemma show_ipv6_text a : Forall addr_char (show_ipv6 a) /\ (length (show_ipv6 a) <= 39)%nat.
Proof.
  unfold show_ipv6. pose proof (segments_u16 a) as Hu. pose proof (length_segments a) as Hlen.
  destruct (to_ipv4_mapped a) as [v4|].
  { destruct (show_ipv4_text v4). rewrite Forall_app, length_app. simpl. split; [|lia].
    split; [|done]. addr_chars. }
  destruct (longest_zeroes 0 (segments a) _ _) as [start len] eqn:Hz.
  destruct (segments_split a start len Hz) as [Hb _]. case_decide.
  - destruct (fmt_subslice_text (take start (segments a)) ltac:(by apply Forall_take)) as [? H1].
    destruct (fmt_subslice_text (drop (start + len) (segments a)) ltac:(by apply Forall_drop))
      as [? H2].
    rewrite length_take in H1. rewrite length_drop in H2.
    rewrite !Forall_app, !length_app. simpl. split; [|lia].
    split; [done|split; [addr_chars|done]].
  - destruct (fmt_subslice_text (segments a) Hu). split; [done|lia].
Qed.

Lemma show_ip_text ip : Forall addr_char (show_ip ip) /\ (length (show_ip ip) <= 39)%nat.
Proof.
  destruct ip as [a|a]; simpl; [|apply show_ipv6_text].
  destruct (show_ipv4_text a). split; [done|lia].
Qed.

Lemma show_port_text n :
  is_u16 n -> Forall addr_char (show_dec n) /\ (length (show_dec n) <= 5)%nat.
Proof.
  unfold is_u16. intros Hn. split; [apply show_dec_chars; lia|].
  apply (length_show_digits 10 ltac:(lia) 5); lia.
Qed.
