(* ===== verification/Types.v ===== *)
(** * Data types of the crate

    [src/types.rs] and [src/error.rs]: the parsed header and its parts, the
    accessors and [Display] texts, and the error types.  A Rust [String] is
    the list of its UTF-8 bytes and a [Vec<u8>] a list of bytes. *)

From S2P Require Import Prelude Utf8 Net.
Local Open Scope Z_scope.

(** ** types.rs *)

Inductive ProxyAddress : Type :=
| AddrInet (a : SocketAddr)
| AddrUnix (path : list byte).

Inductive Version : Type := V1 | V2.

Inductive Command : Type := Local | Proxy.

Inductive AddressFamily : Type := Inet | Inet6 | Unix.

Inductive TransportProtocol : Type := Stream | Datagram.

Record Transport : Type := mkTransport {
  family : AddressFamily;
  protocol : TransportProtocol;
}.

(** [SslClientFlags]: the bits of the flags set. *)
Record SslClientFlags : Type := mkFlags { bits : byte }.

Definition FLAG_SSL : Z := 1.
Definition FLAG_CERT_CONN : Z := 2.
Definition FLAG_CERT_SESS : Z := 4.

(** The union of the declared flags. *)
Definition flags_all : Z := Z.lor FLAG_SSL (Z.lor FLAG_CERT_CONN FLAG_CERT_SESS).

Record SslInfo : Type := mkSsl {
  ssl_client_flags : SslClientFlags;
  ssl_verified : bool;
  ssl_version : option (list byte);
  ssl_cipher : option (list byte);
  ssl_sig_alg : option (list byte);
  ssl_key_alg : option (list byte);
  ssl_cn : option (list byte);
  ssl_group : option (list byte);
  ssl_sig_scheme : option (list byte);
  ssl_client_cert : option (list byte);
}.

Record Tlvs : Type := mkTlvs {
  tlv_alpn : option (list byte);
  tlv_authority : option (list byte);
  tlv_crc32c : option Z;
  tlv_unique_id : option (list byte);
  tlv_netns : option (list byte);
  tlv_ssl : option SslInfo;
  tlv_raw : list (byte * list byte);
}.

(** [Tlvs::default()]. *)
Definition default_tlvs : Tlvs := mkTlvs None None None None None None [].

Record ProxyInfo : Type := mkInfo {
  version : Version;
  command : Command;
  transport : option Transport;
  source : option ProxyAddress;
  destination : option ProxyAddress;
  tlvs : Tlvs;
}.

#[export] Instance ProxyAddress_eq_dec : EqDecision ProxyAddress.
Proof. solve_decision. Defined.
#[export] Instance Version_eq_dec : EqDecision Version.
Proof. solve_decision. Defined.
#[export] Instance Command_eq_dec : EqDecision Command.
Proof. solve_decision. Defined.
#[export] Instance AddressFamily_eq_dec : EqDecision AddressFamily.
Proof. solve_decision. Defined.
#[export] Instance TransportProtocol_eq_dec : EqDecision TransportProtocol.
Proof. solve_decision. Defined.
#[export] Instance Transport_eq_dec : EqDecision Transport.
Proof. solve_decision. Defined.
#[export] Instance SslClientFlags_eq_dec : EqDecision SslClientFlags.
Proof. solve_decision. Defined.
#[export] Instance SslInfo_eq_dec : EqDecision SslInfo.
Proof. solve_decision. Defined.
#[export] Instance Tlvs_eq_dec : EqDecision Tlvs.
Proof. solve_decision. Defined.
#[export] Instance ProxyInfo_eq_dec : EqDecision ProxyInfo.
Proof. solve_decision. Defined.

(** *** Accessors *)

Definition as_inet (p : ProxyAddress) : option SocketAddr :=
  match p with
  | AddrInet a => Some a
  | _ => None
  end.

Definition as_unix (p : ProxyAddress) : option (list byte) :=
  match p with
  | AddrUnix path => Some path
  | _ => None
  end.

Definition addr_ip (p : ProxyAddress) : option IpAddr := sock_ip <$> as_inet p.

Definition source_inet (i : ProxyInfo) : option SocketAddr := source i ≫= as_inet.
Definition destination_inet (i : ProxyInfo) : option SocketAddr := destination i ≫= as_inet.
Definition source_ip (i : ProxyInfo) : option IpAddr := source i ≫= addr_ip.
Definition destination_ip (i : ProxyInfo) : option IpAddr := destination i ≫= addr_ip.

(** [From<SocketAddr>], [From<SocketAddrV4>] and [From<SocketAddrV6>]. *)
Definition address_from_sock (a : SocketAddr) : ProxyAddress := AddrInet a.
Definition address_from_v4 (a : Ipv4Addr) (port : Z) : ProxyAddress := AddrInet (SockV4 a port).
Definition address_from_v6 (a : Ipv6Addr) (port flowinfo scope_id : Z) : ProxyAddress :=
  AddrInet (SockV6 a port flowinfo scope_id).

(** *** Display *)

Definition show_address (p : ProxyAddress) : list byte :=
  match p with
  | AddrInet a => show_sock a
  | AddrUnix path =>
      match from_utf8 path with
      | Some s => s
      | None => bstr "<unix:" ++ show_dec (Z.of_nat (length path)) ++ bstr " bytes>"
      end
  end.

Definition show_version (v : Version) : list byte :=
  match v with V1 => bstr "v1" | V2 => bstr "v2" end.
Definition show_command (c : Command) : list byte :=
  match c with Local => bstr "LOCAL" | Proxy => bstr "PROXY" end.
Definition show_family (f : AddressFamily) : list byte :=
  match f with Inet => bstr "IPv4" | Inet6 => bstr "IPv6" | Unix => bstr "Unix" end.
Definition show_protocol (p : TransportProtocol) : list byte :=
  match p with Stream => bstr "stream" | Datagram => bstr "datagram" end.

(** ** error.rs *)

Inductive InvalidReason : Type :=
| UnsupportedVersion (v : Z)
| UnknownCommand (c : Z)
| UnknownFamily (f : Z)
| UnknownProtocol (p : Z)
| V1TooLong
| V1NotUtf8
| V1InvalidFormat
| V1UnknownTransport (t : list byte)
| InvalidIp (s : list byte)
| InvalidPort (s : list byte)
| UnspecWithProxy
| PayloadOverflow (len buf_len : nat)
| MalformedTlv (offset : nat).

Inductive ParseError : Type :=
| NotProxyProtocol
| Incomplete
| Invalid (r : InvalidReason)
| CrcMismatch (expected actual : Z).

(** [std::io::Error], of which the crate reads the kind and the text. *)
Inductive ErrorKind : Type :=
| ConnectionReset
| ConnectionAborted
| ConnectionRefused
| OtherKind (code : nat).
Record IoError : Type := mkIoError { kind : ErrorKind; io_text : list byte }.

(** [AcceptError]; a boxed error is the text it displays. *)
Inductive AcceptError : Type :=
| Io (e : IoError)
| Rejected (peer : SocketAddr)
| HeaderTimeout (peer : SocketAddr)
| EmptyConnection (peer : SocketAddr)
| ParseFailed (e : ParseError) (peer : SocketAddr)
| ValidationFailed (e : list byte) (peer : SocketAddr)
| VersionMismatch (peer : SocketAddr).

Inductive TlvParseError : Type :=
| MalformedSubTlv (offset : nat)
| InvalidValue (reason : list byte).

#[export] Instance InvalidReason_eq_dec : EqDecision InvalidReason.
Proof. solve_decision. Defined.
#[export] Instance ParseError_eq_dec : EqDecision ParseError.
Proof. solve_decision. Defined.
#[export] Instance ErrorKind_eq_dec : EqDecision ErrorKind.
Proof. solve_decision. Defined.
#[export] Instance IoError_eq_dec : EqDecision IoError.
Proof. solve_decision. Defined.
#[export] Instance AcceptError_eq_dec : EqDecision AcceptError.
Proof. solve_decision. Defined.
#[export] Instance TlvParseError_eq_dec : EqDecision TlvParseError.
Proof. solve_decision. Defined.

(** *** Display of errors *)

(** [{:#x}] and [{:#010x}]. *)
Definition show_0x (n : Z) : list byte := bstr "0x" ++ show_hex n.
Definition show_0x8 (n : Z) : list byte :=
  bstr "0x" ++ replicate (8 - length (show_hex n)) x30 ++ show_hex n.

Definition show_nat (n : nat) : list byte := show_dec (Z.of_nat n).

Definition show_invalid_reason (r : InvalidReason) : list byte :=
  match r with
  | UnsupportedVersion v => bstr "unsupported protocol version: " ++ show_0x v
  | UnknownCommand c => bstr "unknown command nibble: " ++ show_0x c
  | UnknownFamily f => bstr "unknown address family: " ++ show_0x f
  | UnknownProtocol p => bstr "unknown transport protocol: " ++ show_0x p
  | V1TooLong => bstr "v1 header exceeds 107-byte limit"
  | V1NotUtf8 => bstr "v1 header not valid UTF-8"
  | V1InvalidFormat => bstr "v1 invalid format: expected 6 space-separated fields"
  | V1UnknownTransport t => bstr "v1 unknown transport: " ++ t
  | InvalidIp s => bstr "invalid IP address: " ++ s
  | InvalidPort s => bstr "invalid port: " ++ s
  | UnspecWithProxy => bstr "PROXY command requires a concrete address family and protocol"
  | PayloadOverflow len buf_len =>
      bstr "payload length " ++ show_nat len ++ bstr " exceeds buffer (" ++ show_nat buf_len ++
      bstr " available)"
  | MalformedTlv offset => bstr "malformed TLV at offset " ++ show_nat offset
  end.

Definition show_parse_error (e : ParseError) : list byte :=
  match e with
  | NotProxyProtocol => bstr "data does not begin with a Proxy Protocol signature"
  | Incomplete => bstr "incomplete header, need more data"
  | Invalid r => bstr "malformed Proxy Protocol header: " ++ show_invalid_reason r
  | CrcMismatch expected actual =>
      bstr "CRC32c mismatch: expected " ++ show_0x8 expected ++ bstr ", got " ++ show_0x8 actual
  end.

Definition show_accept_error (e : AcceptError) : list byte :=
  match e with
  | Io e => bstr "I/O error: " ++ io_text e
  | Rejected a => bstr "connection from " ++ show_sock a ++ bstr " rejected by policy"
  | HeaderTimeout a => bstr "Proxy Protocol header timeout from " ++ show_sock a
  | EmptyConnection a => bstr "empty connection from " ++ show_sock a
  | ParseFailed e a =>
      bstr "Proxy Protocol parse error from " ++ show_sock a ++ bstr ": " ++ show_parse_error e
  | ValidationFailed e a => bstr "header validation failed from " ++ show_sock a ++ bstr ": " ++ e
  | VersionMismatch a => bstr "unwanted Proxy Protocol version from " ++ show_sock a
  end.

Definition show_tlv_parse_error (e : TlvParseError) : list byte :=
  match e with
  | MalformedSubTlv offset => bstr "malformed sub-TLV at offset " ++ show_nat offset
  | InvalidValue reason => bstr "invalid sub-TLV value: " ++ reason
  end.
