(* ===== verification/Crates.v ===== *)
(** * Third-party crates called by the parser and the builder

    The [crc32c] and [bitflags] crates are not part of the repository: the
    functions the code calls are the operations of the class [Crates], and
    the documented behaviour the code relies on is the class [CratesLaws].
    [reference_crates] is a concrete instance (the bitwise CRC-32C of the
    Castagnoli polynomial) that satisfies the laws; it lets the definitions
    be evaluated and shows that the laws can hold. *)

From S2P Require Import Prelude Types.
Local Open Scope Z_scope.

(** [crc32c::crc32c], [crc32c::crc32c_append] and the [from_bits_truncate]
    that [bitflags!] generates for [SslClientFlags]. *)
Class Crates : Type := {
  crc32c : list byte -> Z;
  crc32c_append : Z -> list byte -> Z;
  from_bits_truncate : byte -> byte;
}.

(** What their documentation promises: a checksum is a [u32], appending to
    the checksum of a prefix is the checksum of the whole, and unknown bits
    are dropped. *)
Class CratesLaws (C : Crates) : Prop := {
  crc32c_u32 : forall l, is_u32 (crc32c l);
  crc32c_append_crc32c : forall a b, crc32c_append (crc32c a) b = crc32c (a ++ b);
  from_bits_truncate_spec : forall b,
    from_bits_truncate b = byte_of_Z (Z.land (Zb b) flags_all);
}.

(** ** A concrete instance *)

Definition crc_bit (crc : Z) : Z :=
  if Z.testbit crc 0 then Z.lxor (Z.shiftr crc 1) 2197175160 else Z.shiftr crc 1.

Definition crc_byte (crc : Z) (b : byte) : Z :=
  Nat.iter 8 crc_bit (Z.lxor crc (Zb b)).

Definition crc_ones : Z := 4294967295.

Definition ref_crc32c_append (crc : Z) (l : list byte) : Z :=
  Z.lxor (foldl crc_byte (Z.lxor crc crc_ones) l) crc_ones.

Definition reference_crates : Crates := {|
  crc32c := ref_crc32c_append 0;
  crc32c_append := ref_crc32c_append;
  from_bits_truncate b := byte_of_Z (Z.land (Zb b) flags_all);
|}.

Lemma is_u32_lxor a b : is_u32 a -> is_u32 b -> is_u32 (Z.lxor a b).
Proof.
  unfold is_u32. intros Ha Hb.
  assert (Hnn : 0 <= Z.lxor a b) by (apply Z.lxor_nonneg; lia).
  split; [done|]. destruct (decide (Z.lxor a b = 0)) as [->|Hz]; [lia|].
  change 4294967296 with (2 ^ 32). apply Z.log2_lt_pow2; [lia|].
  eapply Z.le_lt_trans; [apply Z.log2_lxor; lia|].
  apply Z.max_lub_lt; (destruct (Z.eq_dec a 0) as [->|]; [|]); try (simpl; lia).
  1-2: try (apply Z.log2_lt_pow2; lia).
  all: destruct (Z.eq_dec b 0) as [->|]; [simpl; lia|apply Z.log2_lt_pow2; lia].
Qed.

Lemma is_u32_shiftr a : is_u32 a -> is_u32 (Z.shiftr a 1).
Proof.
  unfold is_u32. intros Ha. rewrite Z.shiftr_div_pow2 by lia.
  split; [apply Z.div_pos; lia|]. apply Z.div_lt_upper_bound; lia.
Qed.

Lemma crc_byte_u32 crc b : is_u32 crc -> is_u32 (crc_byte crc b).
Proof.
  intros Hc. unfold crc_byte.
  assert (Hbit : forall c, is_u32 c -> is_u32 (crc_bit c)).
  { intros c Hc'. unfold crc_bit. apply is_u32_shiftr in Hc'.
    case_match; [|done]. by apply is_u32_lxor. }
  assert (is_u32 (Z.lxor crc (Zb b))).
  { apply is_u32_lxor; [done|]. pose proof (Zb_range b). unfold is_u32. lia. }
  simpl. by repeat apply Hbit.
Qed.

Lemma crc_fold_u32 l crc : is_u32 crc -> is_u32 (foldl crc_byte crc l).
Proof.
  revert crc. induction l as [|b l IH]; intros crc Hc; simpl; [done|].
  by apply IH, crc_byte_u32.
Qed.

#[export] Instance reference_crates_laws : CratesLaws reference_crates.
Proof.
  assert (Hones : is_u32 crc_ones) by done.
  split; simpl; unfold ref_crc32c_append.
  - intros l. apply is_u32_lxor; [|done]. by apply crc_fold_u32, is_u32_lxor.
  - intros a b. rewrite foldl_app. by rewrite Z.lxor_assoc, Z.lxor_nilpotent, Z.lxor_0_r.
  - done.
Qed.

(** The check value of CRC-32C. *)
Example reference_crc32c_check : ref_crc32c_append 0 (bstr "123456789") = 3808858755.
Proof. reflexivity. Qed.
