(* ===== verification/ParseTlv.v ===== *)
(** * TLV extensions

    [src/parse/tlv.rs]: the parser of the type-length-value entries of a v2
    header and of the nested entries of the SSL entry.  The state of each
    loop is the remaining input with the record built so far and the offset
    used in error reports. *)

From S2P Require Import Prelude Utf8 Types Crates.

(** ** Record updates *)

Definition push_raw (e : byte * list byte) (t : Tlvs) : Tlvs :=
  mkTlvs (tlv_alpn t) (tlv_authority t) (tlv_crc32c t) (tlv_unique_id t) (tlv_netns t)
    (tlv_ssl t) (tlv_raw t ++ [e]).
Definition set_alpn (v : list byte) (t : Tlvs) : Tlvs :=
  mkTlvs (Some v) (tlv_authority t) (tlv_crc32c t) (tlv_unique_id t) (tlv_netns t)
    (tlv_ssl t) (tlv_raw t).
Definition set_authority (v : list byte) (t : Tlvs) : Tlvs :=
  mkTlvs (tlv_alpn t) (Some v) (tlv_crc32c t) (tlv_unique_id t) (tlv_netns t)
    (tlv_ssl t) (tlv_raw t).
Definition set_crc32c (v : Z) (t : Tlvs) : Tlvs :=
  mkTlvs (tlv_alpn t) (tlv_authority t) (Some v) (tlv_unique_id t) (tlv_netns t)
    (tlv_ssl t) (tlv_raw t).
Definition set_unique_id (v : list byte) (t : Tlvs) : Tlvs :=
  mkTlvs (tlv_alpn t) (tlv_authority t) (tlv_crc32c t) (Some v) (tlv_netns t)
    (tlv_ssl t) (tlv_raw t).
Definition set_netns (v : list byte) (t : Tlvs) : Tlvs :=
  mkTlvs (tlv_alpn t) (tlv_authority t) (tlv_crc32c t) (tlv_unique_id t) (Some v)
    (tlv_ssl t) (tlv_raw t).
Definition set_ssl (v : SslInfo) (t : Tlvs) : Tlvs :=
  mkTlvs (tlv_alpn t) (tlv_authority t) (tlv_crc32c t) (tlv_unique_id t) (tlv_netns t)
    (Some v) (tlv_raw t).

(** ** The parser *)

Definition bytes_to_string (bytes : list byte) : list byte :=
  match from_utf8 bytes with
  | Some s => s
  | None => from_utf8_lossy bytes
  end.

Definition malformed {A} (offset : nat) : res ParseError A := Err (Invalid (MalformedTlv offset)).

(** [u16::from_be_bytes([data[1], data[2]]) as usize]. *)
Definition tlv_length (data : list byte) : res ParseError nat :=
  b1 ← index data 1;
  b2 ← index data 2;
  Ok (Z.to_nat (from_be_bytes [b1; b2])).

(** The [match sub_type] of [parse_ssl]: unknown types are skipped. *)
Definition apply_sub_tlv (sub_type : byte) (v : list byte) (s : SslInfo) : SslInfo :=
  let '(mkSsl flags ver version cipher sig_alg key_alg cn group sig_scheme cert) := s in
  if decide (sub_type = x21) then
    mkSsl flags ver (Some (bytes_to_string v)) cipher sig_alg key_alg cn group sig_scheme cert
  else if decide (sub_type = x22) then
    mkSsl flags ver version cipher sig_alg key_alg (Some (bytes_to_string v)) group sig_scheme cert
  else if decide (sub_type = x23) then
    mkSsl flags ver version (Some (bytes_to_string v)) sig_alg key_alg cn group sig_scheme cert
  else if decide (sub_type = x24) then
    mkSsl flags ver version cipher (Some (bytes_to_string v)) key_alg cn group sig_scheme cert
  else if decide (sub_type = x25) then
    mkSsl flags ver version cipher sig_alg (Some (bytes_to_string v)) cn group sig_scheme cert
  else if decide (sub_type = x26) then
    mkSsl flags ver version cipher sig_alg key_alg cn (Some (bytes_to_string v)) sig_scheme cert
  else if decide (sub_type = x27) then
    mkSsl flags ver version cipher sig_alg key_alg cn group (Some (bytes_to_string v)) cert
  else if decide (sub_type = x28) then
    mkSsl flags ver version cipher sig_alg key_alg cn group sig_scheme (Some v)
  else s.

(** One iteration of the sub-TLV loop of [parse_ssl]. *)
Definition parse_ssl_body (st : list byte * SslInfo * nat)
  : res ParseError ((list byte * SslInfo * nat) + SslInfo) :=
  let '(sub_data, ssl, sub_offset) := st in
  if decide (sub_data = []) then Ok (inr ssl)
  else if decide (length sub_data < 3) then malformed sub_offset
  else
    sub_type ← index sub_data 0;
    sub_len ← tlv_length sub_data;
    if decide (length sub_data < 3 + sub_len) then malformed sub_offset
    else
      sub_value ← slice sub_data 3 (3 + sub_len);
      let ssl := apply_sub_tlv sub_type sub_value ssl in
      sub_data ← slice_from sub_data (3 + sub_len);
      Ok (inl (sub_data, ssl, sub_offset + (3 + sub_len))).

Section WithCrates.
Context {C : Crates}.

Definition parse_ssl (data : list byte) (outer_offset : nat) : res ParseError SslInfo :=
  client_byte ← index data 0;
  b1 ← index data 1;
  b2 ← index data 2;
  b3 ← index data 3;
  b4 ← index data 4;
  let verify := from_be_bytes [b1; b2; b3; b4] in
  let client_flags := mkFlags (from_bits_truncate client_byte) in
  let verified := bool_decide (verify = 0%Z) in
  let ssl := mkSsl client_flags verified None None None None None None None None in
  sub_data ← slice_from data 5;
  loop (S (length sub_data)) parse_ssl_body (sub_data, ssl, outer_offset + 5).

(** The [match tlv_type] of [parse_tlvs]; [tlv_len] is the length of [value]. *)
Definition apply_tlv (tlv_type : byte) (value : list byte) (offset : nat) (t : Tlvs)
  : res ParseError Tlvs :=
  let tlv_len := length value in
  if decide (tlv_type = x01) then Ok (set_alpn value t)
  else if decide (tlv_type = x02) then Ok (set_authority (bytes_to_string value) t)
  else if decide (tlv_type = x03) then
    if decide (tlv_len <> 4) then malformed offset
    else bytes ← unwrap (try_array 4 value); Ok (set_crc32c (from_be_bytes bytes) t)
  else if decide (tlv_type = x04) then Ok t
  else if decide (tlv_type = x05) then
    if decide (128 < tlv_len) then malformed offset
    else Ok (set_unique_id value t)
  else if decide (tlv_type = x20) then
    if decide (tlv_len < 5) then malformed offset
    else ssl ← parse_ssl value (offset + 3); Ok (set_ssl ssl t)
  else if decide (tlv_type = x30) then Ok (set_netns (bytes_to_string value) t)
  else Ok t.

(** One iteration of the loop of [parse_tlvs]. *)
Definition parse_tlvs_body (st : list byte * Tlvs * nat)
  : res ParseError ((list byte * Tlvs * nat) + Tlvs) :=
  let '(data, t, offset) := st in
  if decide (data = []) then Ok (inr t)
  else if decide (length data < 3) then malformed offset
  else
    tlv_type ← index data 0;
    tlv_len ← tlv_length data;
    if decide (length data < 3 + tlv_len) then malformed offset
    else
      value ← slice data 3 (3 + tlv_len);
      let t := push_raw (tlv_type, value) t in
      t ← apply_tlv tlv_type value offset t;
      data ← slice_from data (3 + tlv_len);
      Ok (inl (data, t, offset + (3 + tlv_len))).

Definition parse_tlvs (data : list byte) : res ParseError Tlvs :=
  loop (S (length data)) parse_tlvs_body (data, default_tlvs, 0).
End WithCrates.
