(* ===== verification/TlvFacts.v ===== *)
(** * Correctness of the TLV parser

    The wire form of a list of entries, the fold that the parser computes
    over them, and the theorems: the parser returns on every input, accepts
    exactly the wire forms of lists of well-formed entries, keeps every entry
    in [raw], and the typed fields hold the last entry of their type. *)

From S2P Require Import Prelude Utf8 Types Crates ParseTlv.

(** ** Wire form of entries *)

Definition tlv_wire (e : byte * list byte) : list byte :=
  e.1 :: to_be_bytes 2 (Z.of_nat (length e.2)) ++ e.2.

Definition tlvs_wire (es : list (byte * list byte)) : list byte := concat (map tlv_wire es).

(** The length of the value fits the 16-bit length field. *)
Definition wf_entry (e : byte * list byte) : Prop := is_u16 (Z.of_nat (length e.2)).

#[export] Instance wf_entry_dec e : Decision (wf_entry e).
Proof. unfold wf_entry. apply _. Defined.

Lemma length_tlv_wire e : length (tlv_wire e) = 3 + length e.2.
Proof. unfold tlv_wire. simpl. rewrite ?length_app. simpl. lia. Qed.

Lemma tlvs_wire_cons e es : tlvs_wire (e :: es) = tlv_wire e ++ tlvs_wire es.
Proof. done. Qed.

Lemma tlvs_wire_app es1 es2 : tlvs_wire (es1 ++ es2) = tlvs_wire es1 ++ tlvs_wire es2.
Proof. unfold tlvs_wire. by rewrite map_app, concat_app. Qed.

Lemma tlv_wire_not_nil e rest : tlv_wire e ++ rest <> [].
Proof. done. Qed.

(** Reading the frame of an entry at the front of the input. *)
Lemma read_wire e rest : wf_entry e ->
  index (E:=ParseError) (tlv_wire e ++ rest) 0 = Ok e.1 /\
  tlv_length (tlv_wire e ++ rest) = Ok (length e.2) /\
  slice (E:=ParseError) (tlv_wire e ++ rest) 3 (3 + length e.2) = Ok e.2 /\
  slice_from (E:=ParseError) (tlv_wire e ++ rest) (3 + length e.2) = Ok rest.
Proof.
  intros Hwf. assert (Hlen : length (tlv_wire e ++ rest) = 3 + length e.2 + length rest)
    by (rewrite length_app, length_tlv_wire; lia).
  split; [done|]. split.
  { unfold tlv_length, tlv_wire. simpl. f_equal.
    change [byte_of_Z ?x; byte_of_Z ?y] with (to_be_bytes 2 y).
    rewrite from_to_be_bytes_16 by done. lia. }
  split.
  - rewrite slice_Ok by lia. f_equal. replace (3 + length e.2 - 3) with (length e.2) by lia.
    unfold tlv_wire. simpl. by rewrite drop_0, take_app_length.
  - rewrite slice_from_Ok by lia. f_equal. by rewrite <- length_tlv_wire, drop_app_length.
Qed.

(** Conversely an input with a complete frame starts with the wire form of an
    entry. *)
Lemma split_wire data t n :
  index (E:=ParseError) data 0 = Ok t -> tlv_length data = Ok n -> 3 + n <= length data ->
  exists v rest, data = tlv_wire (t, v) ++ rest /\ length v = n /\ wf_entry (t, v).
Proof.
  intros H0 Hl Hn. unfold tlv_length in Hl. inv_ok. subst n.
  destruct data as [|t' [|b1 [|b2 l]]]; try (simpl in *; lia || done).
  simpl in H0, Hx, Hx0. simplify_eq.
  set (n := Z.to_nat (from_be_bytes [x; x0])) in *.
  pose proof (from_be_bytes_16 x x0) as Hr.
  assert (Hlen : length (take n l) = n) by (rewrite length_take; simpl in Hn; lia).
  exists (take n l), (drop n l). split; [|split; [done|]].
  - unfold tlv_wire. cbn [fst snd]. rewrite Hlen. subst n.
    rewrite Z2Nat.id by (unfold is_u16 in Hr; lia).
    change 2 with (length [x; x0]) at 1. rewrite to_from_be_bytes. simpl.
    by rewrite take_drop.
  - unfold wf_entry. cbn [snd]. rewrite Hlen. unfold n, is_u16 in *. lia.
Qed.

(** A frame that is cut short. *)
Definition truncated (data : list byte) : Prop :=
  length data < 3 \/ exists n, tlv_length data = Ok n /\ length data < 3 + n.

Lemma frame_cases data :
  data = [] \/ (data <> [] /\ truncated data) \/
  exists e rest, wf_entry e /\ data = tlv_wire e ++ rest.
Proof.
  destruct (decide (data = [])) as [->|Hne]; [by left|]. right.
  destruct (decide (length data < 3)) as [|H3]; [left; split; [done|by left]|].
  assert (exists t n, index (E:=ParseError) data 0 = Ok t /\ tlv_length data = Ok n)
    as (t & n & Ht & Hn).
  { destruct data as [|t [|b1 [|b2 l]]]; [done|simpl in H3; lia..|]. by do 2 eexists. }
  destruct (decide (length data < 3 + n)); [left; split; [done|right; eauto]|right].
  destruct (split_wire data t n) as (v & rest & ? & ? & ?); [done..|lia|]. eauto.
Qed.

(** Every input is the wire form of some entries followed by nothing or by a
    truncated frame. *)
Lemma frames data : exists es rest,
  Forall wf_entry es /\ data = tlvs_wire es ++ rest /\ (rest = [] \/ rest <> [] /\ truncated rest).
Proof.
  remember (length data) as n eqn:Hn. revert data Hn.
  induction (lt_wf n) as [n _ IH]. intros data ->.
  destruct (frame_cases data) as [->|[Ht|(e & rest & Hwf & ->)]].
  - exists [], []. split; [constructor|]. split; [done|by left].
  - exists [], data. split; [constructor|]. split; [done|by right].
  - destruct (IH (length rest)) with (data := rest) as (es & rest' & Hes & -> & Hrest); [|done|].
    { rewrite length_app, length_tlv_wire. lia. }
    exists (e :: es), rest'. split; [by constructor|]. split; [|done].
    by rewrite tlvs_wire_cons, app_assoc.
Qed.

(** ** Specification *)

(** The value of the last entry of a type. *)
Definition last_value (ty : byte) (es : list (byte * list byte)) : option (list byte) :=
  foldl (fun acc e => if decide (e.1 = ty) then Some e.2 else acc) None es.

Lemma last_value_snoc ty es e :
  last_value ty (es ++ [e]) = if decide (e.1 = ty) then Some e.2 else last_value ty es.
Proof. unfold last_value. by rewrite foldl_app. Qed.

Section Facts.
Context {C : Crates}.

(** ** The sub-TLV loop *)

Lemma parse_ssl_body_truncated data ssl off :
  data <> [] -> truncated data -> parse_ssl_body (data, ssl, off) = malformed off.
Proof.
  intros Hne Ht. unfold parse_ssl_body. rewrite decide_False by done.
  case_decide; [done|]. destruct Ht as [|[n [Hn Hlt]]]; [lia|].
  destruct data as [|t data]; [done|]. cbn [index lookup list_lookup unwrap mbind res_bind].
  rewrite Hn. cbn [mbind res_bind]. by rewrite decide_True.
Qed.

Lemma parse_ssl_body_wire e rest ssl off : wf_entry e ->
  parse_ssl_body (tlv_wire e ++ rest, ssl, off)
  = Ok (inl (rest, apply_sub_tlv e.1 e.2 ssl, off + (3 + length e.2))).
Proof.
  intros Hwf. destruct (read_wire e rest Hwf) as (H0 & Hl & Hs & Hf).
  assert (Hlen : length (tlv_wire e ++ rest) = 3 + length e.2 + length rest)
    by (rewrite length_app, length_tlv_wire; lia).
  unfold parse_ssl_body. rewrite decide_False, decide_False, H0, Hl by (done || lia).
  cbn [mbind res_bind]. rewrite decide_False, Hs by lia. cbn [mbind res_bind].
  by rewrite Hf.
Qed.

(** The main loop. *)
Lemma parse_tlvs_body_truncated data t off :
  data <> [] -> truncated data -> parse_tlvs_body (data, t, off) = malformed off.
Proof.
  intros Hne Ht. unfold parse_tlvs_body. rewrite decide_False by done.
  case_decide; [done|]. destruct Ht as [|[n [Hn Hlt]]]; [lia|].
  destruct data as [|t' data]; [done|]. cbn [index lookup list_lookup unwrap mbind res_bind].
  rewrite Hn. cbn [mbind res_bind]. by rewrite decide_True.
Qed.

Lemma parse_tlvs_body_wire e rest t off : wf_entry e ->
  parse_tlvs_body (tlv_wire e ++ rest, t, off)
  = (t' ← apply_tlv e.1 e.2 off (push_raw e t);
     Ok (inl (rest, t', off + (3 + length e.2)))).
Proof.
  intros Hwf. destruct (read_wire e rest Hwf) as (H0 & Hl & Hs & Hf).
  assert (Hlen : length (tlv_wire e ++ rest) = 3 + length e.2 + length rest)
    by (rewrite length_app, length_tlv_wire; lia).
  unfold parse_tlvs_body. rewrite decide_False, decide_False, H0, Hl by (done || lia).
  cbn [mbind res_bind]. rewrite decide_False, Hs by lia. cbn [mbind res_bind].
  rewrite <- surjective_pairing, Hf. by destruct (apply_tlv e.1 e.2 off (push_raw e t)).
Qed.

Lemma ssl_loop es rest fuel ssl off :
  Forall wf_entry es -> rest = [] \/ rest <> [] /\ truncated rest ->
  length (tlvs_wire es ++ rest) < fuel ->
  loop fuel parse_ssl_body (tlvs_wire es ++ rest, ssl, off)
  = if decide (rest = []) then Ok (foldl (fun s e => apply_sub_tlv e.1 e.2 s) ssl es)
    else malformed (off + length (tlvs_wire es)).
Proof.
  intros Hes Hrest. revert fuel ssl off.
  induction Hes as [|e es He Hes IH]; intros [|fuel] ssl off Hf; [lia| |lia|].
  - cbn [loop]. change (tlvs_wire [] ++ rest) with rest.
    destruct Hrest as [->|[Hne Ht]]; [done|].
    rewrite parse_ssl_body_truncated by done. cbn [mbind res_bind].
    rewrite decide_False by done. simpl. by rewrite Nat.add_0_r.
  - rewrite tlvs_wire_cons in *. rewrite <- app_assoc in *. cbn [loop].
    rewrite parse_ssl_body_wire by done. cbn [mbind res_bind foldl].
    rewrite IH by (rewrite length_app, length_tlv_wire in Hf; lia).
    case_decide; [done|]. rewrite length_app, length_tlv_wire.
    unfold malformed. do 3 f_equal. lia.
Qed.

(** The fold computed by the main loop; [off] is the offset of the first
    entry. *)
Fixpoint interp_tlvs (off : nat) (es : list (byte * list byte)) (t : Tlvs)
  : res ParseError Tlvs :=
  match es with
  | [] => Ok t
  | e :: es =>
      t ← apply_tlv e.1 e.2 off (push_raw e t);
      interp_tlvs (off + (3 + length e.2)) es t
  end.

Lemma tlvs_loop es rest fuel t off :
  Forall wf_entry es -> rest = [] \/ rest <> [] /\ truncated rest ->
  length (tlvs_wire es ++ rest) < fuel ->
  loop fuel parse_tlvs_body (tlvs_wire es ++ rest, t, off)
  = (t ← interp_tlvs off es t;
     if decide (rest = []) then Ok t else malformed (off + length (tlvs_wire es))).
Proof.
  intros Hes Hrest. revert fuel t off.
  induction Hes as [|e es He Hes IH]; intros [|fuel] t off Hf; [lia| |lia|].
  - cbn [loop]. change (tlvs_wire [] ++ rest) with rest.
    destruct Hrest as [->|[Hne Ht]]; [done|].
    rewrite parse_tlvs_body_truncated by done. cbn [mbind res_bind interp_tlvs].
    rewrite decide_False by done. simpl. by rewrite Nat.add_0_r.
  - rewrite tlvs_wire_cons in *. rewrite <- app_assoc in *. cbn [loop interp_tlvs].
    rewrite parse_tlvs_body_wire by done.
    destruct (apply_tlv e.1 e.2 off (push_raw e t)) as [t'|err| |]; [|done..].
    cbn [mbind res_bind]. rewrite IH by (rewrite length_app, length_tlv_wire in Hf; lia).
    destruct (interp_tlvs _ es t') as [t''|err| |]; [|done..]. cbn [mbind res_bind].
    case_decide; [done|]. rewrite length_app, length_tlv_wire.
    unfold malformed. do 3 f_equal. lia.
Qed.

(** ** The SSL entry *)

Definition ssl_init (c b1 b2 b3 b4 : byte) : SslInfo :=
  mkSsl (mkFlags (from_bits_truncate c)) (bool_decide (from_be_bytes [b1; b2; b3; b4] = 0%Z))
    None None None None None None None None.

Lemma parse_ssl_eq c b1 b2 b3 b4 es rest off :
  Forall wf_entry es -> rest = [] \/ rest <> [] /\ truncated rest ->
  parse_ssl (c :: b1 :: b2 :: b3 :: b4 :: tlvs_wire es ++ rest) off
  = if decide (rest = [])
    then Ok (foldl (fun s e => apply_sub_tlv e.1 e.2 s) (ssl_init c b1 b2 b3 b4) es)
    else malformed (off + 5 + length (tlvs_wire es)).
Proof.
  intros Hes Hrest. unfold parse_ssl. cbn [index lookup list_lookup unwrap mbind res_bind].
  rewrite slice_from_Ok by (simpl; lia). cbn [mbind res_bind].
  simpl (drop 5 _). rewrite drop_0, ssl_loop; [done|done|done|lia].
Qed.

(** A value of at least five bytes, taken apart. *)
Lemma ssl_value_cases v : 5 <= length v ->
  exists c b1 b2 b3 b4 es rest,
    v = c :: b1 :: b2 :: b3 :: b4 :: tlvs_wire es ++ rest /\ Forall wf_entry es /\
    (rest = [] \/ rest <> [] /\ truncated rest).
Proof.
  intros H. destruct v as [|c [|b1 [|b2 [|b3 [|b4 l]]]]]; [simpl in H; lia..|].
  destruct (frames l) as (es & rest & Hes & -> & Hrest).
  by exists c, b1, b2, b3, b4, es, rest.
Qed.

Lemma parse_ssl_returns v off : 5 <= length v -> returns (parse_ssl v off).
Proof.
  intros (c & b1 & b2 & b3 & b4 & es & rest & -> & Hes & Hr)%ssl_value_cases.
  rewrite parse_ssl_eq by done. by case_decide.
Qed.

(** The entries of a byte string, when it consists of whole ones. *)
Fixpoint split_entries (fuel : nat) (data : list byte) : option (list (byte * list byte)) :=
  match fuel, data with
  | _, [] => Some []
  | S fuel, ty :: b1 :: b2 :: rest =>
      let n := Z.to_nat (from_be_bytes [b1; b2]) in
      if decide (n <= length rest) then cons (ty, take n rest) <$> split_entries fuel (drop n rest)
      else None
  | _, _ => None
  end.

(** The record that the fixed part and the sub-entries of an SSL value stand
    for: each field from the last sub-entry of its type. *)
Definition ssl_of (client : byte) (verify : list byte) (es : list (byte * list byte)) : SslInfo := {|
  ssl_client_flags := mkFlags (from_bits_truncate client);
  ssl_verified := bool_decide (from_be_bytes verify = 0%Z);
  ssl_version := bytes_to_string <$> last_value x21 es;
  ssl_cn := bytes_to_string <$> last_value x22 es;
  ssl_cipher := bytes_to_string <$> last_value x23 es;
  ssl_sig_alg := bytes_to_string <$> last_value x24 es;
  ssl_key_alg := bytes_to_string <$> last_value x25 es;
  ssl_group := bytes_to_string <$> last_value x26 es;
  ssl_sig_scheme := bytes_to_string <$> last_value x27 es;
  ssl_client_cert := last_value x28 es;
|}.

(** An SSL value: one byte of flags, four of the verification result, then
    sub-entries. *)
Definition decode_ssl (v : list byte) : option SslInfo :=
  match v with
  | client :: b1 :: b2 :: b3 :: b4 :: sub => ssl_of client [b1; b2; b3; b4] <$> split_entries (length sub) sub
  | _ => None
  end.

Lemma split_entries_wire es fuel :
  Forall wf_entry es -> length (tlvs_wire es) <= fuel -> split_entries fuel (tlvs_wire es) = Some es.
Proof.
  intros Hes. revert fuel. induction Hes as [|[ty v] es He Hes IH]; intros fuel Hf; [by destruct fuel|].
  rewrite tlvs_wire_cons in *. rewrite length_app, length_tlv_wire in Hf. destruct fuel as [|fuel]; [lia|].
  unfold wf_entry in He. cbn [snd] in *.
  change (split_entries _ _) with
    (let n := Z.to_nat (from_be_bytes (to_be_bytes 2 (Z.of_nat (length v)))) in
     if decide (n <= length (v ++ tlvs_wire es)) then
       cons (ty, take n (v ++ tlvs_wire es)) <$> split_entries fuel (drop n (v ++ tlvs_wire es))
     else None).
  rewrite from_to_be_bytes_16, Nat2Z.id by done. cbv zeta.
  rewrite decide_True by (rewrite length_app; lia).
  rewrite take_app_length, drop_app_length, IH by lia. done.
Qed.

Lemma split_entries_inv fuel data es :
  split_entries fuel data = Some es -> data = tlvs_wire es /\ Forall wf_entry es.
Proof.
  revert data es. induction fuel as [|fuel IH]; intros [|ty [|b1 [|b2 rest]]] es; try done;
    try (by intros [= <-]).
  cbn [split_entries]. case_decide as Hn; [|done].
  intros (es' & [Hd Hes]%IH & ->)%fmap_Some. pose proof (from_be_bytes_16 b1 b2) as Hr.
  set (n := Z.to_nat (from_be_bytes [b1; b2])) in *.
  assert (Hlen : length (take n rest) = n) by (rewrite length_take; lia).
  assert (Hz : Z.of_nat n = from_be_bytes [b1; b2]) by (unfold n; rewrite Z2Nat.id; unfold is_u16 in Hr; lia).
  split.
  - rewrite tlvs_wire_cons, <- Hd. unfold tlv_wire. cbn [fst snd]. rewrite Hlen, Hz.
    rewrite (to_from_be_bytes [b1; b2] : to_be_bytes 2 _ = _). simpl. by rewrite take_drop.
  - constructor; [|done]. unfold wf_entry. cbn [snd]. by rewrite Hlen, Hz.
Qed.

Lemma decode_ssl_Some v ssl :
  decode_ssl v = Some ssl <->
  exists c b1 b2 b3 b4 es, v = c :: b1 :: b2 :: b3 :: b4 :: tlvs_wire es /\ Forall wf_entry es /\
    ssl = ssl_of c [b1; b2; b3; b4] es.
Proof.
  split.
  - destruct v as [|c [|b1 [|b2 [|b3 [|b4 l]]]]]; try done. cbn [decode_ssl].
    intros (es & [-> Hes]%split_entries_inv & ->)%fmap_Some. by exists c, b1, b2, b3, b4, es.
  - intros (c & b1 & b2 & b3 & b4 & es & -> & Hes & ->). cbn [decode_ssl].
    by rewrite split_entries_wire.
Qed.

Lemma fold_sub_tlvs c b1 b2 b3 b4 es :
  foldl (fun s e => apply_sub_tlv e.1 e.2 s) (ssl_init c b1 b2 b3 b4) es
  = ssl_of c [b1; b2; b3; b4] es.
Proof.
  induction es as [|[ty v] es IH] using rev_ind; [done|].
  rewrite foldl_app, IH. cbn [foldl fst snd]. unfold ssl_of, apply_sub_tlv. rewrite !last_value_snoc.
  cbn [fst snd]. by repeat (case_decide; subst; try done).
Qed.

(** The parser of SSL values computes the record; the offset only matters for
    errors. *)
Lemma parse_ssl_Ok v off ssl :
  5 <= length v -> parse_ssl v off = Ok ssl <-> decode_ssl v = Some ssl.
Proof.
  intros Hv. rewrite decode_ssl_Some. split.
  - apply ssl_value_cases in Hv as (c & b1 & b2 & b3 & b4 & es & rest & -> & Hes & Hr).
    rewrite parse_ssl_eq by done. case_decide as Hn; [|done]. subst rest. rewrite app_nil_r.
    intros [= <-]. rewrite fold_sub_tlvs. by exists c, b1, b2, b3, b4, es.
  - intros (c & b1 & b2 & b3 & b4 & es & -> & Hes & ->).
    rewrite <- (app_nil_r (tlvs_wire es)), parse_ssl_eq by (done || by left).
    by rewrite decide_True, fold_sub_tlvs.
Qed.

Lemma decode_ssl_length v ssl : decode_ssl v = Some ssl -> 5 <= length v.
Proof. intros (c & b1 & b2 & b3 & b4 & es & -> & _)%decode_ssl_Some. simpl. lia. Qed.

(** ** The main theorem *)

(** The record a list of entries stands for: each field from the last entry
    of its type. *)
Definition tlvs_of (raw : list (byte * list byte)) : Tlvs := {|
  tlv_alpn := last_value x01 raw;
  tlv_authority := bytes_to_string <$> last_value x02 raw;
  tlv_crc32c := from_be_bytes <$> last_value x03 raw;
  tlv_unique_id := last_value x05 raw;
  tlv_netns := bytes_to_string <$> last_value x30 raw;
  tlv_ssl := last_value x20 raw ≫= decode_ssl;
  tlv_raw := raw;
|}.

(** Constraints on the values of known types. *)
Definition acceptable (e : byte * list byte) : Prop :=
  (e.1 = x03 -> length e.2 = 4) /\
  (e.1 = x05 -> length e.2 <= 128) /\
  (e.1 = x20 -> is_Some (decode_ssl e.2)).

Lemma apply_tlv_Ok e off raw :
  acceptable e -> apply_tlv e.1 e.2 off (push_raw e (tlvs_of raw)) = Ok (tlvs_of (raw ++ [e])).
Proof.
  intros (H3 & H5 & H20). destruct e as [ty v]. cbn [fst snd] in *.
  unfold tlvs_of at 2. rewrite !last_value_snoc. cbn [fst snd]. unfold apply_tlv.
  destruct (decide (ty = x01)) as [->|N1]; [done|].
  destruct (decide (ty = x02)) as [->|N2]; [done|].
  destruct (decide (ty = x03)) as [->|N3].
  { specialize (H3 eq_refl). unfold try_array. by rewrite !decide_False, decide_True by tauto. }
  destruct (decide (ty = x04)) as [->|N4]; [done|].
  destruct (decide (ty = x05)) as [->|N5].
  { specialize (H5 eq_refl). by rewrite decide_False by lia. }
  destruct (decide (ty = x20)) as [->|N20].
  { destruct (H20 eq_refl) as [ssl Hssl]. cbn [mbind option_bind]. rewrite Hssl.
    pose proof (decode_ssl_length v ssl Hssl) as Hl. rewrite decide_False by lia.
    by rewrite (proj2 (parse_ssl_Ok v (off + 3) ssl Hl) Hssl). }
  destruct (decide (ty = x30)) as [->|N30]; done.
Qed.

Lemma apply_tlv_acceptable e off t t' : apply_tlv e.1 e.2 off t = Ok t' -> acceptable e.
Proof.
  destruct e as [ty v]. unfold apply_tlv, acceptable. cbn [fst snd]. intros H.
  split; [|split]; intros ->; cbn in H.
  - by destruct (decide (length v <> 4)); [|lia].
  - by destruct (decide (128 < length v)); [|lia].
  - destruct (decide (length v < 5)); [done|]. inv_ok.
    exists x. apply (parse_ssl_Ok v (off + 3)); [lia|done].
Qed.

Lemma apply_tlv_returns ty v off t : returns (apply_tlv ty v off t).
Proof.
  unfold apply_tlv. repeat case_decide; try done.
  - unfold try_array. by rewrite decide_True by lia.
  - apply returns_bind; [|done]. apply parse_ssl_returns. lia.
Qed.

Lemma interp_tlvs_returns es off t : returns (interp_tlvs off es t).
Proof.
  revert off t. induction es as [|e es IH]; intros off t; simpl; [done|].
  apply returns_bind; [apply apply_tlv_returns|]. intros t' _. apply IH.
Qed.

Lemma interp_tlvs_Ok es off raw :
  Forall acceptable es -> interp_tlvs off es (tlvs_of raw) = Ok (tlvs_of (raw ++ es)).
Proof.
  intros Hes. revert off raw. induction Hes as [|e es He Hes IH]; intros off raw; simpl.
  { by rewrite app_nil_r. }
  rewrite apply_tlv_Ok by done. cbn [mbind res_bind]. rewrite IH. by rewrite <- app_assoc.
Qed.

Lemma interp_tlvs_acceptable es off t t' :
  interp_tlvs off es t = Ok t' -> Forall acceptable es.
Proof.
  revert off t. induction es as [|e es IH]; intros off t; simpl; [done|].
  intros (t1 & H1 & H2)%bind_Ok_inv. constructor; [by eapply apply_tlv_acceptable|by eapply IH].
Qed.

Lemma parse_tlvs_frames es rest :
  Forall wf_entry es -> rest = [] \/ rest <> [] /\ truncated rest ->
  parse_tlvs (tlvs_wire es ++ rest)
  = (t ← interp_tlvs 0 es (tlvs_of []);
     if decide (rest = []) then Ok t else malformed (length (tlvs_wire es))).
Proof. intros Hes Hr. unfold parse_tlvs. rewrite tlvs_loop; [done|done|done|lia]. Qed.

Lemma parse_tlvs_complete es :
  Forall wf_entry es -> Forall acceptable es -> parse_tlvs (tlvs_wire es) = Ok (tlvs_of es).
Proof.
  intros Hwf Hacc. rewrite <- (app_nil_r (tlvs_wire es)), parse_tlvs_frames by (done || by left).
  by rewrite interp_tlvs_Ok.
Qed.

(** An entry that is not acceptable is reported at an offset within it. *)
Lemma apply_tlv_reject e off t :
  ~ acceptable e ->
  exists o, apply_tlv e.1 e.2 off t = malformed o /\ off <= o <= off + 3 + length e.2.
Proof.
  destruct e as [ty v]. unfold acceptable, apply_tlv. cbn [fst snd]. intros Hn.
  destruct (decide (ty = x01)) as [->|_]; [by destruct Hn|].
  destruct (decide (ty = x02)) as [->|_]; [by destruct Hn|].
  destruct (decide (ty = x03)) as [->|N3].
  { case_decide as Hl; [exists off; split; [done|lia]|]. destruct Hn. split; [lia|done]. }
  destruct (decide (ty = x04)) as [->|_]; [by destruct Hn|].
  destruct (decide (ty = x05)) as [->|N5].
  { case_decide as Hl; [exists off; split; [done|lia]|]. destruct Hn. split; [done|split; [lia|done]]. }
  destruct (decide (ty = x20)) as [->|N20]; [|destruct Hn; split; [done|split; [done|done]]].
  case_decide as Hl; [exists off; split; [done|lia]|].
  destruct (ssl_value_cases v ltac:(lia)) as (c & b1 & b2 & b3 & b4 & es & rest & Hv & Hes & Hr).
  pose proof (parse_ssl_eq c b1 b2 b3 b4 es rest (off + 3) Hes Hr) as Hp. rewrite <- Hv in Hp.
  rewrite Hp. case_decide as Hnil.
  - exfalso. apply Hn. split; [done|]. split; [done|]. intros _. subst rest. eexists.
    apply decode_ssl_Some. rewrite Hv, app_nil_r. by do 6 eexists.
  - eexists. split; [done|]. rewrite Hv. cbn [length]. rewrite length_app. lia.
Qed.

#[export] Instance acceptable_dec e : Decision (acceptable e).
Proof. unfold acceptable. apply _. Defined.

Lemma interp_tlvs_reject es off raw :
  ~ Forall acceptable es ->
  exists o, interp_tlvs off es (tlvs_of raw) = malformed o /\ off <= o <= off + length (tlvs_wire es).
Proof.
  revert off raw. induction es as [|e es IH]; intros off raw Hn; [by destruct Hn|]. cbn [interp_tlvs].
  rewrite tlvs_wire_cons, length_app, length_tlv_wire.
  destruct (decide (acceptable e)) as [He|He].
  - rewrite apply_tlv_Ok by done. cbn [mbind res_bind].
    destruct (IH (off + (3 + length e.2)) (raw ++ [e])) as (o & -> & Ho).
    { intros Hes. apply Hn. by constructor. }
    exists o. split; [done|lia].
  - destruct (apply_tlv_reject e off (push_raw e (tlvs_of raw)) He) as (o & -> & Ho).
    exists o. split; [done|lia].
Qed.

Lemma parse_tlvs_reject es :
  Forall wf_entry es -> ~ Forall acceptable es ->
  exists o, o <= length (tlvs_wire es) /\ parse_tlvs (tlvs_wire es) = malformed o.
Proof.
  intros Hwf Hn. destruct (interp_tlvs_reject es 0 [] Hn) as (o & Ho & Hr).
  exists o. split; [lia|]. rewrite <- (app_nil_r (tlvs_wire es)), parse_tlvs_frames by (done || by left).
  by rewrite Ho.
Qed.

Lemma parse_tlvs_sound data t :
  parse_tlvs data = Ok t ->
  exists es, data = tlvs_wire es /\ Forall wf_entry es /\ Forall acceptable es /\ t = tlvs_of es.
Proof.
  destruct (frames data) as (es & rest & Hes & -> & Hr). rewrite parse_tlvs_frames by done.
  intros (t' & Hi & H)%bind_Ok_inv. pose proof Hi as Hacc%interp_tlvs_acceptable.
  rewrite interp_tlvs_Ok in Hi by done. case_decide; [|done]. simplify_eq.
  exists es. by rewrite app_nil_r.
Qed.

Lemma parse_tlvs_returns data : returns (parse_tlvs data).
Proof.
  destruct (frames data) as (es & rest & Hes & -> & Hr). rewrite parse_tlvs_frames by done.
  apply returns_bind; [apply interp_tlvs_returns|]. intros t _. by case_decide.
Qed.

(** ** Theorems *)

(** C8: the TLV parser accepts exactly the byte strings that are the
    concatenated wire forms of entries whose values satisfy the constraints
    of their types (4 bytes for CRC32c, at most 128 for the unique ID, a
    well-formed SSL value), and the record it returns holds all entries in
    order in [raw] and in each typed field the last entry of its type. *)
Theorem parse_tlvs_correct data t :
  parse_tlvs data = Ok t <->
  data = tlvs_wire (tlv_raw t) /\ Forall wf_entry (tlv_raw t) /\
  Forall acceptable (tlv_raw t) /\ t = tlvs_of (tlv_raw t).
Proof.
  split.
  - by intros (es & -> & Hwf & Hacc & ->)%parse_tlvs_sound.
  - intros (-> & Hwf & Hacc & Ht). rewrite Ht at 2. by apply parse_tlvs_complete.
Qed.
End Facts.
