(* ===== verification/ParseV2.v ===== *)
(** * The v2 (binary) parser

    [src/parse/v2.rs]: the fixed 16-byte header, the address block, the TLV
    extensions and the CRC32c check. *)

From S2P Require Import Prelude Net Types Crates ParseTlv.

Definition V2_HEADER_LEN : nat := 16.

(** [extract_unix_path]: the bytes of the field before the first NUL. *)
Definition extract_unix_path (field : list byte) : list byte :=
  match list_find (fun b => b = x00) field with
  | Some (pos, _) => take pos field
  | None => field
  end.

Definition AddressParseResult : Type :=
  option Transport * option ProxyAddress * option ProxyAddress * nat.

(** [u16::from_be_bytes([l[i], l[i + 1]])]. *)
Definition index_u16 (l : list byte) (i : nat) : res ParseError Z :=
  hi ← index l i;
  lo ← index l (i + 1);
  Ok (from_be_bytes [hi; lo]).

(** [Ipv4Addr::new(l[i], l[i + 1], l[i + 2], l[i + 3])]. *)
Definition index_ipv4 (l : list byte) (i : nat) : res ParseError Ipv4Addr :=
  a ← index l i;
  b ← index l (i + 1);
  c ← index l (i + 2);
  d ← index l (i + 3);
  Ok (Ipv4 a b c d).

(** [Ipv6Addr::from(<[u8; 16]>::try_from(&l[a..b]).unwrap())]. *)
Definition slice_ipv6 (l : list byte) (a b : nat) : res ParseError Ipv6Addr :=
  s ← slice l a b;
  unwrap (ipv6_from_octets s).

Definition parse_v2_addresses (family_nibble proto_nibble : Z) (payload : list byte)
  : res ParseError AddressParseResult :=
  family ←
    (if decide (family_nibble = 1)%Z then Ok Inet
     else if decide (family_nibble = 2)%Z then Ok Inet6
     else if decide (family_nibble = 3)%Z then Ok Unix
     else Err (Invalid (UnknownFamily family_nibble)));
  protocol ←
    (if decide (proto_nibble = 1)%Z then Ok Stream
     else if decide (proto_nibble = 2)%Z then Ok Datagram
     else Err (Invalid (UnknownProtocol proto_nibble)));
  let transport := mkTransport family protocol in
  match family with
  | Inet =>
      if decide (length payload < 12) then
        Err (Invalid (PayloadOverflow 12 (length payload)))
      else
        src_ip ← index_ipv4 payload 0;
        dst_ip ← index_ipv4 payload 4;
        src_port ← index_u16 payload 8;
        dst_port ← index_u16 payload 10;
        Ok (Some transport,
            Some (AddrInet (sock_new (IpV4 src_ip) src_port)),
            Some (AddrInet (sock_new (IpV4 dst_ip) dst_port)),
            12)
  | Inet6 =>
      if decide (length payload < 36) then
        Err (Invalid (PayloadOverflow 36 (length payload)))
      else
        src_ip ← slice_ipv6 payload 0 16;
        dst_ip ← slice_ipv6 payload 16 32;
        src_port ← index_u16 payload 32;
        dst_port ← index_u16 payload 34;
        Ok (Some transport,
            Some (AddrInet (sock_new (IpV6 src_ip) src_port)),
            Some (AddrInet (sock_new (IpV6 dst_ip) dst_port)),
            36)
  | Unix =>
      if decide (length payload < 216) then
        Err (Invalid (PayloadOverflow 216 (length payload)))
      else
        src_field ← slice_to payload 108;
        dst_field ← slice payload 108 216;
        Ok (Some transport,
            Some (AddrUnix (extract_unix_path src_field)),
            Some (AddrUnix (extract_unix_path dst_field)),
            216)
  end.

Section WithCrates.
Context {C : Crates}.

(** One iteration of the search for the CRC TLV: [inr (Some crc)] returns the
    checksum, [inr None] leaves the loop. *)
Definition compute_crc32c_body (header : list byte) (total_len pos : nat)
  : res ParseError (nat + option Z) :=
  if decide (pos + 3 <= total_len) then
    tlv_type ← index header pos;
    tlv_len ← index_u16 header (pos + 1);
    let tlv_len := Z.to_nat tlv_len in
    if decide (total_len < pos + 3 + tlv_len) then Ok (inr None)
    else if decide (tlv_type = x03 /\ tlv_len = 4) then
      let crc_value_start := pos + 3 in
      before ← slice_to header crc_value_start;
      let crc := crc32c before in
      let crc := crc32c_append crc [x00; x00; x00; x00] in
      after ← slice_from header (crc_value_start + 4);
      Ok (inr (Some (crc32c_append crc after)))
    else Ok (inl (pos + (3 + tlv_len)))
  else Ok (inr None).

Definition compute_crc32c (buf : list byte) (total_len tlv_start : nat) : res ParseError Z :=
  header ← slice_to buf total_len;
  found ← loop (S total_len) (compute_crc32c_body header total_len) tlv_start;
  match found with
  | Some crc => Ok crc
  | None => Ok (crc32c header)
  end.

(** [Result::unwrap_or_default]. *)
Definition unwrap_or_default (m : res ParseError Tlvs) : res ParseError Tlvs :=
  match m with
  | Err _ => Ok default_tlvs
  | m => m
  end.

Definition parse_v2 (buf : list byte) : res ParseError (ProxyInfo * nat) :=
  if decide (length buf < V2_HEADER_LEN) then Err Incomplete else
  ver_cmd ← index buf 12;
  let version_nibble := Z.shiftr (Zb ver_cmd) 4 in
  let command_nibble := Z.land (Zb ver_cmd) 15 in
  if decide (version_nibble <> 2)%Z then Err (Invalid (UnsupportedVersion version_nibble)) else
  command ←
    (if decide (command_nibble = 0)%Z then Ok Local
     else if decide (command_nibble = 1)%Z then Ok Proxy
     else Err (Invalid (UnknownCommand command_nibble)));
  fam_proto ← index buf 13;
  let family_nibble := Z.shiftr (Zb fam_proto) 4 in
  let proto_nibble := Z.land (Zb fam_proto) 15 in
  payload_len ← index_u16 buf 14;
  let payload_len := Z.to_nat payload_len in
  let total_len := V2_HEADER_LEN + payload_len in
  if decide (length buf < total_len) then Err Incomplete else
  payload ← slice buf V2_HEADER_LEN total_len;
  '(transport, source, destination, tlv_offset) ←
    match command with
    | Local => Ok (None, None, None, 0)
    | Proxy =>
        if decide (family_nibble = 0 \/ proto_nibble = 0)%Z then Err (Invalid UnspecWithProxy)
        else parse_v2_addresses family_nibble proto_nibble payload
    end;
  tlvs ←
    (if decide (tlv_offset < length payload) then
       match command with
       | Local => data ← slice_from payload tlv_offset; unwrap_or_default (parse_tlvs data)
       | Proxy => data ← slice_from payload tlv_offset; parse_tlvs data
       end
     else Ok default_tlvs);
  _ ←
    match tlv_crc32c tlvs with
    | Some expected_crc =>
        let tlv_start := V2_HEADER_LEN + tlv_offset in
        actual_crc ← compute_crc32c buf total_len tlv_start;
        if decide (actual_crc <> expected_crc) then Err (CrcMismatch expected_crc actual_crc)
        else Ok tt
    | None => Ok tt
    end;
  Ok (mkInfo V2 command transport source destination tlvs, total_len).
End WithCrates.
