(* ===== verification/ParseV1.v ===== *)
(** * The v1 (text) parser

    [src/parse/v1.rs], with the string operations it takes from the standard
    library. *)

From S2P Require Import Prelude Utf8 Net Types.

Definition V1_MAX_LEN : nat := 107.

(** [l.windows(2).position(|w| w == b"\r\n")]. *)
Fixpoint position_crlf (l : list byte) : option nat :=
  match l with
  | [] => None
  | a :: l' =>
      match l' with
      | [] => None
      | b :: _ => if decide (a = x0d /\ b = x0a) then Some 0 else S <$> position_crlf l'
      end
  end.

(** [str::strip_prefix] and [str::starts_with]. *)
Definition strip_prefix (pre l : list byte) : option (list byte) :=
  if decide (take (length pre) l = pre) then Some (drop (length pre) l) else None.
Definition starts_with (pre l : list byte) : bool :=
  bool_decide (take (length pre) l = pre).

(** The text before and after the first separator. *)
Fixpoint split_once (sep : byte) (l : list byte) : option (list byte * list byte) :=
  match l with
  | [] => None
  | b :: l =>
      if decide (b = sep) then Some ([], l)
      else '(before, after) ← split_once sep l; Some (b :: before, after)
  end.

(** [str::splitn]: at most [n] parts, the last one with the rest of the text. *)
Fixpoint splitn (n : nat) (sep : byte) (l : list byte) : list (list byte) :=
  match n with
  | O => []
  | 1 => [l]
  | S n =>
      match split_once sep l with
      | Some (part, rest) => part :: splitn n sep rest
      | None => [l]
      end
  end.

Definition invalid {A} (r : InvalidReason) : res ParseError A := Err (Invalid r).

(** The family of a parsed address is the one announced. *)
Definition family_matches (family : AddressFamily) (ip : IpAddr) : bool :=
  match family, ip with
  | Inet, IpV4 _ => true
  | Inet6, IpV6 _ => true
  | _, _ => false
  end.

(** The condition of the [if let] chain: "PROXY UNKNOWN", alone or followed by
    a space. *)
Definition is_unknown_line (line : list byte) : bool :=
  match strip_prefix (bstr "PROXY UNKNOWN") line with
  | Some rest => bool_decide (rest = []) || starts_with (bstr " ") rest
  | None => false
  end.

(** The line without its CRLF: an UNKNOWN line, or exactly six fields. *)
Definition parse_v1_line (line : list byte) (consumed : nat) : res ParseError (ProxyInfo * nat) :=
  if is_unknown_line line then Ok (mkInfo V1 Proxy None None None default_tlvs, consumed)
  else
  let parts := splitn 7 x20 line in
  transport_str ← ok_or (parts !! 1) (Invalid V1InvalidFormat);
  src_ip_str ← ok_or (parts !! 2) (Invalid V1InvalidFormat);
  dst_ip_str ← ok_or (parts !! 3) (Invalid V1InvalidFormat);
  src_port_str ← ok_or (parts !! 4) (Invalid V1InvalidFormat);
  dst_port_str ← ok_or (parts !! 5) (Invalid V1InvalidFormat);
  if decide (is_Some (parts !! 6)) then invalid V1InvalidFormat else
  '(family, protocol) ←
    (if decide (transport_str = bstr "TCP4") then Ok (Inet, Stream)
     else if decide (transport_str = bstr "TCP6") then Ok (Inet6, Stream)
     else invalid (V1UnknownTransport transport_str));
  src_ip ← ok_or (ip_from_str src_ip_str) (Invalid (InvalidIp src_ip_str));
  dst_ip ← ok_or (ip_from_str dst_ip_str) (Invalid (InvalidIp dst_ip_str));
  if negb (family_matches family src_ip) then invalid (InvalidIp src_ip_str) else
  if negb (family_matches family dst_ip) then invalid (InvalidIp dst_ip_str) else
  src_port ← ok_or (u16_from_str src_port_str) (Invalid (InvalidPort src_port_str));
  dst_port ← ok_or (u16_from_str dst_port_str) (Invalid (InvalidPort dst_port_str));
  Ok (mkInfo V1 Proxy (Some (mkTransport family protocol))
        (Some (AddrInet (sock_new src_ip src_port)))
        (Some (AddrInet (sock_new dst_ip dst_port))) default_tlvs,
      consumed).

Definition parse_v1 (buf : list byte) : res ParseError (ProxyInfo * nat) :=
  let search_end := length buf `min` V1_MAX_LEN in
  window ← slice_to buf search_end;
  line_end ← ok_or (position_crlf window)
    (if decide (length buf < V1_MAX_LEN) then Incomplete else Invalid V1TooLong);
  line ← slice_to buf line_end;
  line ← ok_or (from_utf8 line) (Invalid V1NotUtf8);
  let consumed := line_end + 2 in
  parse_v1_line line consumed.
