(* ===== verification/ParseHeader.v ===== *)
(** * The parser's entry point

    [src/parse/mod.rs]: the choice between v1 and v2 from the first bytes. *)

From S2P Require Import Prelude Types Crates ParseTlv ParseV2 ParseV1.

Definition V2_SIGNATURE : list byte :=
  [x0d; x0a; x0d; x0a; x00; x0d; x0a; x51; x55; x49; x54; x0a].

Section WithCrates.
Context {C : Crates}.

Definition parse (buf : list byte) : res ParseError (ProxyInfo * nat) :=
  if decide (buf = []) then Err Incomplete else
  first ← index buf 0;
  if decide (first = x0d) then
    if decide (length buf < 12) then Err Incomplete else
    signature ← slice_to buf 12;
    if decide (signature = V2_SIGNATURE) then parse_v2 buf else Err NotProxyProtocol
  else if decide (first = x50) then
    if decide (length buf < 6) then Err Incomplete else
    if starts_with (bstr "PROXY ") buf then parse_v1 buf else Err NotProxyProtocol
  else Err NotProxyProtocol.
End WithCrates.
