(* ===== verification/V2Facts.v ===== *)
(** * Correctness of the v2 parser

    The parser is related to [v2_decode], which reads a header that has
    already been cut into its fixed part and its payload.  From it follow:
    the parser returns on every input, depends only on the bytes of the
    header, reports [Incomplete] on every proper prefix, and its split
    computation of the checksum equals the checksum of a copy of the header
    in which the CRC value is zeroed. *)

From S2P Require Import Prelude Utf8 Net Types Crates ParseTlv TlvFacts ParseV2.

(** ** The fixed part and the payload *)

(** A header with its 12-byte signature, its two flag bytes and its payload. *)
Definition v2_wire (sig : list byte) (vc fp : byte) (payload : list byte) : list byte :=
  sig ++ [vc; fp] ++ to_be_bytes 2 (Z.of_nat (length payload)) ++ payload.

Definition v2_frame (sig payload : list byte) : Prop :=
  length sig = 12 /\ is_u16 (Z.of_nat (length payload)).

Lemma length_v2_wire sig vc fp payload :
  v2_frame sig payload -> length (v2_wire sig vc fp payload) = 16 + length payload.
Proof.
  intros [Hs _]. unfold v2_wire. rewrite !length_app, length_to_be_bytes, Hs. simpl. lia.
Qed.

Section Facts.
Context {C : Crates}.

Definition decode_command (vc : byte) : res ParseError Command :=
  let version_nibble := Z.shiftr (Zb vc) 4 in
  let command_nibble := Z.land (Zb vc) 15 in
  if decide (version_nibble <> 2)%Z then Err (Invalid (UnsupportedVersion version_nibble))
  else if decide (command_nibble = 0)%Z then Ok Local
  else if decide (command_nibble = 1)%Z then Ok Proxy
  else Err (Invalid (UnknownCommand command_nibble)).

Definition decode_addresses (cmd : Command) (fp : byte) (payload : list byte)
  : res ParseError AddressParseResult :=
  match cmd with
  | Local => Ok (None, None, None, 0)
  | Proxy =>
      if decide (Z.shiftr (Zb fp) 4 = 0 \/ Z.land (Zb fp) 15 = 0)%Z
      then Err (Invalid UnspecWithProxy)
      else parse_v2_addresses (Z.shiftr (Zb fp) 4) (Z.land (Zb fp) 15) payload
  end.

(** The TLVs of a payload; those of a LOCAL header are dropped when they are
    malformed. *)
Definition decode_tlvs (cmd : Command) (data : list byte) : res ParseError Tlvs :=
  match cmd with
  | Local => unwrap_or_default (parse_tlvs data)
  | Proxy => parse_tlvs data
  end.

Definition check_crc (header : list byte) (tlv_start : nat) (t : Tlvs) : res ParseError unit :=
  match tlv_crc32c t with
  | Some expected =>
      actual ← compute_crc32c header (length header) tlv_start;
      if decide (actual <> expected) then Err (CrcMismatch expected actual) else Ok tt
  | None => Ok tt
  end.

Definition v2_decode (sig : list byte) (vc fp : byte) (payload : list byte)
  : res ParseError (ProxyInfo * nat) :=
  cmd ← decode_command vc;
  '(tr, src, dst, off) ← decode_addresses cmd fp payload;
  t ← decode_tlvs cmd (drop off payload);
  _ ← check_crc (v2_wire sig vc fp payload) (16 + off) t;
  Ok (mkInfo V2 cmd tr src dst t, 16 + length payload).

Lemma parse_tlvs_nil : parse_tlvs [] = Ok default_tlvs.
Proof. done. Qed.

Lemma decode_tlvs_nil cmd : decode_tlvs cmd [] = Ok default_tlvs.
Proof. by destruct cmd. Qed.

(** Address blocks are never longer than the payload. *)
Lemma parse_v2_addresses_offset f p payload tr src dst off :
  parse_v2_addresses f p payload = Ok (tr, src, dst, off) -> off <= length payload.
Proof.
  unfold parse_v2_addresses. intros (fam & _ & H)%bind_Ok_inv.
  apply bind_Ok_inv in H as (pr & _ & H). destruct fam; case_decide; try done; inv_ok; naive_solver lia.
Qed.

Lemma decode_addresses_offset cmd fp payload tr src dst off :
  decode_addresses cmd fp payload = Ok (tr, src, dst, off) -> off <= length payload.
Proof.
  destruct cmd; simpl; [intros [= <- <- <- <-]; lia|]. case_decide; [done|].
  apply parse_v2_addresses_offset.
Qed.

Lemma decode_tlvs_step cmd off payload :
  off <= length payload ->
  (if decide (off < length payload) then
     match cmd with
     | Local => data ← slice_from payload off; unwrap_or_default (parse_tlvs data)
     | Proxy => data ← slice_from payload off; parse_tlvs data
     end
   else Ok default_tlvs) = decode_tlvs cmd (drop off payload).
Proof.
  intros H. rewrite slice_from_Ok by done. case_decide; [by destruct cmd|].
  by rewrite drop_ge, decode_tlvs_nil by lia.
Qed.

Lemma compute_crc32c_app buf ext total start :
  total <= length buf -> compute_crc32c (buf ++ ext) total start = compute_crc32c buf total start.
Proof. intros H. unfold compute_crc32c. by rewrite slice_to_app. Qed.

(** Reading the fields of a header. *)
Lemma read_v2_wire sig vc fp len body :
  length sig = 12 -> is_u16 len ->
  let buf := sig ++ [vc; fp] ++ to_be_bytes 2 len ++ body in
  index (E:=ParseError) buf 12 = Ok vc /\ index (E:=ParseError) buf 13 = Ok fp /\
  index_u16 buf 14 = Ok len /\ drop 16 buf = body /\ length buf = 16 + length body.
Proof.
  intros Hs Hl buf. subst buf.
  do 12 (destruct sig as [|? sig]; [discriminate Hs|]). destruct sig; [|discriminate Hs].
  do 2 (split; [done|]). split; [|done].
  unfold index_u16. simpl. f_equal.
  change [byte_of_Z ?x; byte_of_Z ?y] with (to_be_bytes 2 y). by apply from_to_be_bytes_16.
Qed.

(** The parser on a buffer that holds a whole header. *)
Lemma parse_v2_wire sig vc fp payload rest :
  v2_frame sig payload ->
  parse_v2 (v2_wire sig vc fp payload ++ rest) = v2_decode sig vc fp payload.
Proof.
  intros Hf. pose proof (length_v2_wire sig vc fp payload Hf) as Hlen. destruct Hf as [Hs Hp].
  pose proof (read_v2_wire sig vc fp (Z.of_nat (length payload)) (payload ++ rest) Hs Hp) as Hr.
  replace (sig ++ _) with (v2_wire sig vc fp payload ++ rest) in Hr
    by (unfold v2_wire; by rewrite <- !app_assoc).
  destruct Hr as (H12 & H13 & H14 & Hd & Hl). rewrite (length_app payload) in Hl.
  unfold parse_v2, v2_decode, V2_HEADER_LEN.
  rewrite decide_False, H12, H13, H14 by lia. cbn [mbind res_bind]. rewrite Nat2Z.id.
  unfold decode_command. case_decide; [done|].
  apply bind_ext. intros cmd _. rewrite decide_False by lia.
  rewrite (slice_Ok _ 16), Hd by lia. cbn [mbind res_bind].
  replace (16 + length payload - 16) with (length payload) by lia. rewrite take_app_length.
  apply bind_ext. intros [[[tr src] dst] off] Hoff%decode_addresses_offset.
  rewrite decode_tlvs_step by done. apply bind_ext. intros t _. unfold check_crc.
  rewrite compute_crc32c_app, Hlen by lia. done.
Qed.

(** ** Buffers that do not hold a whole header *)

Lemma v2_cases buf :
  length buf < 16 \/
  (exists sig vc fp payload rest,
     v2_frame sig payload /\ buf = v2_wire sig vc fp payload ++ rest) \/
  (exists sig vc fp len body,
     length sig = 12 /\ is_u16 len /\ buf = sig ++ [vc; fp] ++ to_be_bytes 2 len ++ body /\
     length body < Z.to_nat len).
Proof.
  destruct (decide (length buf < 16)) as [|Hlen]; [by left|right].
  destruct (drop 12 buf) as [|vc [|fp [|b1 [|b2 body]]]] eqn:Hd;
    try (apply (f_equal length) in Hd; rewrite length_drop in Hd; simpl in Hd; lia).
  assert (Hsig : length (take 12 buf) = 12) by (rewrite length_take; lia).
  pose proof (from_be_bytes_16 b1 b2) as Hu.
  pose proof (to_from_be_bytes [b1; b2]) as Hb. simpl length in Hb.
  assert (Hbuf : buf = take 12 buf ++ [vc; fp] ++ to_be_bytes 2 (from_be_bytes [b1; b2]) ++ body).
  { rewrite Hb. simpl. rewrite <- Hd. by rewrite take_drop. }
  set (len := from_be_bytes [b1; b2]) in *.
  destruct (decide (length body < Z.to_nat len)) as [Hlt|Hge]; [right|left].
  - by exists (take 12 buf), vc, fp, len, body.
  - exists (take 12 buf), vc, fp, (take (Z.to_nat len) body), (drop (Z.to_nat len) body).
    assert (Hpl : Z.of_nat (length (take (Z.to_nat len) body)) = len).
    { rewrite length_take. unfold is_u16 in Hu. lia. }
    split; [split; [done|by rewrite Hpl]|].
    unfold v2_wire. rewrite Hpl, <- !app_assoc, take_drop. exact Hbuf.
Qed.

Lemma parse_v2_short buf : length buf < 16 -> parse_v2 buf = Err Incomplete.
Proof. intros H. unfold parse_v2, V2_HEADER_LEN. by rewrite decide_True. Qed.

Lemma parse_v2_command_err sig vc fp len body e :
  length sig = 12 -> is_u16 len -> decode_command vc = Err e ->
  parse_v2 (sig ++ [vc; fp] ++ to_be_bytes 2 len ++ body) = Err e.
Proof.
  intros Hs Hl He. destruct (read_v2_wire sig vc fp len body Hs Hl) as (H12 & _ & _ & _ & Hlen).
  unfold parse_v2, V2_HEADER_LEN. rewrite decide_False, H12 by lia. cbn [mbind res_bind].
  revert He. unfold decode_command. case_decide; [naive_solver|].
  intros He. by rewrite He.
Qed.

Lemma parse_v2_partial sig vc fp len body :
  length sig = 12 -> is_u16 len -> length body < Z.to_nat len ->
  parse_v2 (sig ++ [vc; fp] ++ to_be_bytes 2 len ++ body) = (_ ← decode_command vc; Err Incomplete).
Proof.
  intros Hs Hl Hlt. destruct (read_v2_wire sig vc fp len body Hs Hl) as (H12 & H13 & H14 & _ & Hlen).
  unfold parse_v2, V2_HEADER_LEN. rewrite decide_False, H12, H13, H14 by lia.
  cbn [mbind res_bind]. unfold decode_command. case_decide; [done|].
  apply bind_ext. intros cmd _. by rewrite decide_True by lia.
Qed.

(** More data never changes a decision that has been taken. *)
Lemma parse_v2_stable buf ext :
  parse_v2 buf <> Err Incomplete -> parse_v2 (buf ++ ext) = parse_v2 buf.
Proof.
  destruct (v2_cases buf) as [Hs|[(sig & vc & fp & pl & rest & Hf & ->)|
    (sig & vc & fp & len & body & Hs & Hl & -> & Hlt)]].
  - by rewrite parse_v2_short.
  - by rewrite <- app_assoc, !parse_v2_wire.
  - rewrite parse_v2_partial by done.
    destruct (decode_command vc) as [cmd|e| |] eqn:Hc; cbn [mbind res_bind]; [done| |..].
    + intros _. rewrite <- !app_assoc. by apply parse_v2_command_err.
    + unfold decode_command in Hc. by repeat case_decide.
    + unfold decode_command in Hc. by repeat case_decide.
Qed.

(** A successful parse consumes exactly the header. *)
Lemma parse_v2_Ok_inv buf info n :
  parse_v2 buf = Ok (info, n) ->
  exists sig vc fp payload rest,
    v2_frame sig payload /\ buf = v2_wire sig vc fp payload ++ rest /\
    n = 16 + length payload /\ v2_decode sig vc fp payload = Ok (info, n).
Proof.
  destruct (v2_cases buf) as [Hs|[(sig & vc & fp & pl & rest & Hf & ->)|
    (sig & vc & fp & len & body & Hs & Hl & -> & Hlt)]].
  - by rewrite parse_v2_short.
  - rewrite parse_v2_wire by done. intros H. exists sig, vc, fp, pl, rest.
    do 2 (split; [done|]). split; [|done].
    unfold v2_decode in H. apply bind_Ok_inv in H as (cmd & _ & H).
    apply bind_Ok_inv in H as ([[[tr src] dst] off] & _ & H). inv_ok. naive_solver.
  - rewrite parse_v2_partial by done. intros (cmd & _ & H)%bind_Ok_inv. done.
Qed.

Lemma parse_v2_prefix sig vc fp payload k info :
  v2_frame sig payload -> v2_decode sig vc fp payload = Ok info ->
  k < 16 + length payload -> parse_v2 (take k (v2_wire sig vc fp payload)) = Err Incomplete.
Proof.
  intros Hf Hd Hk. pose proof (length_v2_wire sig vc fp payload Hf) as Hlen.
  destruct Hf as [Hs Hp]. destruct (decide (k < 16)).
  { apply parse_v2_short. rewrite length_take. lia. }
  assert (Htake : take k (v2_wire sig vc fp payload)
    = sig ++ [vc; fp] ++ to_be_bytes 2 (Z.of_nat (length payload)) ++ take (k - 16) payload).
  { unfold v2_wire. rewrite take_app_ge, Hs by lia. f_equal.
    rewrite take_app_ge by (simpl; lia). f_equal.
    rewrite take_app_ge by (rewrite length_to_be_bytes; simpl; lia).
    rewrite length_to_be_bytes. f_equal. f_equal. simpl. lia. }
  rewrite Htake, parse_v2_partial; [|done|done|rewrite length_take; lia].
  unfold v2_decode in Hd. apply bind_Ok_inv in Hd as (cmd & -> & _). done.
Qed.

(** ** The checksum *)

Definition is_crc (e : byte * list byte) : Prop := e.1 = x03 /\ length e.2 = 4.

#[local] Instance is_crc_dec e : Decision (is_crc e).
Proof. unfold is_crc. apply _. Defined.

(** The entries with the value of the first CRC entry zeroed. *)
Fixpoint zero_crc (es : list (byte * list byte)) : list (byte * list byte) :=
  match es with
  | [] => []
  | e :: es => if decide (is_crc e) then (x03, replicate 4 x00) :: es else e :: zero_crc es
  end.

(** The three-piece computation of the code. *)
Fixpoint crc_pieces (pre : list byte) (es : list (byte * list byte)) : option Z :=
  match es with
  | [] => None
  | e :: es =>
      if decide (is_crc e) then
        Some (crc32c_append (crc32c_append (crc32c (pre ++ take 3 (tlv_wire e))) (replicate 4 x00))
                (tlvs_wire es))
      else crc_pieces (pre ++ tlv_wire e) es
  end.

Lemma index_shift (pre l : list byte) i : index (E:=ParseError) (pre ++ l) (length pre + i) = index l i.
Proof. unfold index. by rewrite lookup_app_r, Nat.add_comm, Nat.add_sub by lia. Qed.

Lemma read_wire_at pre e rest : wf_entry e ->
  index (E:=ParseError) (pre ++ tlv_wire e ++ rest) (length pre) = Ok e.1 /\
  index_u16 (pre ++ tlv_wire e ++ rest) (length pre + 1) = Ok (Z.of_nat (length e.2)).
Proof.
  intros Hwf. split.
  - rewrite <- (Nat.add_0_r (length pre)), index_shift. done.
  - unfold index_u16. rewrite <- Nat.add_assoc, !index_shift. simpl. f_equal.
    change [byte_of_Z ?x; byte_of_Z ?y] with (to_be_bytes 2 y). by apply from_to_be_bytes_16.
Qed.

Lemma crc_body_wire pre e es : wf_entry e ->
  let header := pre ++ tlv_wire e ++ tlvs_wire es in
  compute_crc32c_body header (length header) (length pre)
  = if decide (is_crc e)
    then Ok (inr (Some (crc32c_append
           (crc32c_append (crc32c (pre ++ take 3 (tlv_wire e))) (replicate 4 x00)) (tlvs_wire es))))
    else Ok (inl (length (pre ++ tlv_wire e))).
Proof.
  intros He header. destruct (read_wire_at pre e (tlvs_wire es) He) as [H0 H1].
  assert (Hlen : length header = length pre + (3 + length e.2) + length (tlvs_wire es)).
  { unfold header. rewrite !length_app, length_tlv_wire. lia. }
  unfold compute_crc32c_body. fold header in H0, H1. rewrite H0, H1. cbn [mbind res_bind].
  rewrite Nat2Z.id, decide_True, decide_False by lia.
  destruct (decide (is_crc e)) as [Hc|Hc].
  - rewrite decide_True by done. destruct Hc as [Hty Hv]. rewrite slice_to_Ok by lia. cbn [mbind res_bind].
    rewrite slice_from_Ok by lia. cbn [mbind res_bind].
    assert (Ht : take (length pre + 3) header = pre ++ take 3 (tlv_wire e)).
    { unfold header. rewrite take_app_ge by lia.
      replace (length pre + 3 - length pre) with 3 by lia.
      by rewrite take_app_le by (rewrite length_tlv_wire; lia). }
    assert (Hd : drop (length pre + 3 + 4) header = tlvs_wire es).
    { unfold header. rewrite drop_app_ge by lia. rewrite drop_app_ge by (rewrite length_tlv_wire; lia).
      rewrite length_tlv_wire, Hv. replace (_ - _) with 0 by lia. by rewrite drop_0. }
    by rewrite Ht, Hd.
  - rewrite decide_False by done. do 2 f_equal. rewrite length_app, length_tlv_wire. lia.
Qed.

Lemma crc_body_end header total pos :
  total < pos + 3 -> compute_crc32c_body header total pos = Ok (inr None).
Proof. intros H. unfold compute_crc32c_body. by rewrite decide_False by lia. Qed.

Lemma crc_loop es pre fuel :
  Forall wf_entry es -> length (tlvs_wire es) < fuel ->
  loop fuel (compute_crc32c_body (pre ++ tlvs_wire es) (length (pre ++ tlvs_wire es)))
    (length pre) = Ok (crc_pieces pre es).
Proof.
  intros Hes. revert pre fuel. induction Hes as [|e es He Hes IH]; intros pre [|fuel] Hf; [lia| |lia|].
  { cbn [loop]. rewrite crc_body_end; [done|]. rewrite length_app. simpl. lia. }
  rewrite tlvs_wire_cons in *. cbn [loop crc_pieces]. rewrite crc_body_wire by done.
  case_decide; [done|]. cbn [mbind res_bind]. rewrite app_assoc.
  apply IH. rewrite length_app, length_tlv_wire in Hf. lia.
Qed.

Lemma compute_crc32c_wire header pre es :
  header = pre ++ tlvs_wire es -> Forall wf_entry es ->
  compute_crc32c header (length header) (length pre)
  = Ok (default (crc32c header) (crc_pieces pre es)).
Proof.
  intros -> Hes. unfold compute_crc32c. rewrite slice_to_Ok by done. cbn [mbind res_bind].
  rewrite take_ge by done. rewrite crc_loop by (done || rewrite length_app; lia).
  cbn [mbind res_bind]. by destruct (crc_pieces pre es).
Qed.

Lemma crc_pieces_zero `{!CratesLaws C} es pre :
  default (crc32c (pre ++ tlvs_wire es)) (crc_pieces pre es) = crc32c (pre ++ tlvs_wire (zero_crc es)).
Proof.
  revert pre. induction es as [|e es IH]; intros pre; [done|]. cbn [crc_pieces zero_crc].
  case_decide as Hc.
  - destruct Hc as [Hty Hlen]. destruct e as [ty v]. cbn [fst snd] in *. subst ty. simpl default.
    rewrite !crc32c_append_crc32c. f_equal. rewrite tlvs_wire_cons, <- !app_assoc. f_equal.
    unfold tlv_wire. cbn [fst snd]. rewrite Hlen. done.
  - rewrite !tlvs_wire_cons, !app_assoc. apply IH.
Qed.

Lemma v2_wire_split sig vc fp payload off :
  v2_frame sig payload -> off <= length payload ->
  v2_wire sig vc fp payload
  = take (16 + off) (v2_wire sig vc fp payload) ++ drop off payload.
Proof.
  intros Hf Hoff. rewrite <- (take_drop (16 + off) (v2_wire sig vc fp payload)) at 1. f_equal.
  destruct Hf as [Hs Hp].
  destruct (read_v2_wire sig vc fp (Z.of_nat (length payload)) payload Hs Hp) as (_ & _ & _ & Hd & _).
  rewrite <- Hd at 2. by rewrite drop_drop.
Qed.

(** The TLVs that carry a checksum are the wire form of their entries. *)
Lemma decode_tlvs_crc cmd data t crc :
  decode_tlvs cmd data = Ok t -> tlv_crc32c t = Some crc ->
  parse_tlvs data = Ok t /\ data = tlvs_wire (tlv_raw t) /\ Forall wf_entry (tlv_raw t).
Proof.
  intros Hd Hc. assert (Hp : parse_tlvs data = Ok t).
  { destruct cmd; [|done]. simpl in Hd. destruct (parse_tlvs data); simplify_eq/=; done. }
  split; [done|]. by apply parse_tlvs_sound in Hp as (es & -> & Hwf & _ & ->).
Qed.

Lemma check_crc_eq sig vc fp payload off cmd t crc :
  v2_frame sig payload -> off <= length payload ->
  decode_tlvs cmd (drop off payload) = Ok t -> tlv_crc32c t = Some crc ->
  let actual := default (crc32c (v2_wire sig vc fp payload))
    (crc_pieces (take (16 + off) (v2_wire sig vc fp payload)) (tlv_raw t)) in
  check_crc (v2_wire sig vc fp payload) (16 + off) t
  = if decide (actual <> crc) then Err (CrcMismatch crc actual) else Ok tt.
Proof.
  intros Hf Hoff Hd Hc actual.
  destruct (decode_tlvs_crc cmd (drop off payload) t crc Hd Hc) as (_ & Hw & Hwf).
  pose proof (length_v2_wire sig vc fp payload Hf) as Hlen.
  pose proof (v2_wire_split sig vc fp payload off Hf Hoff) as Hsp. rewrite Hw in Hsp.
  assert (Hpre : length (take (16 + off) (v2_wire sig vc fp payload)) = 16 + off)
    by (rewrite length_take; lia).
  pose proof (compute_crc32c_wire _ _ _ Hsp Hwf) as Hcc. rewrite Hpre in Hcc.
  unfold check_crc. by rewrite Hc, Hcc.
Qed.

(** ** The parser returns on every input *)

Lemma ipv6_from_octets_Some l : length l = 16 -> exists a, ipv6_from_octets l = Some a /\ octets6 a = l.
Proof.
  intros H. do 16 (destruct l as [|? l]; [discriminate H|]). destruct l; [|discriminate H].
  by eexists.
Qed.

Lemma returns_index_u16 l i : i + 1 < length l -> returns (index_u16 l i).
Proof. intros H. unfold index_u16. returns_tac. Qed.

Lemma returns_index_ipv4 l i : i + 3 < length l -> returns (index_ipv4 l i).
Proof. intros H. unfold index_ipv4. returns_tac. Qed.

Lemma returns_slice_ipv6 l a : a + 16 <= length l -> returns (slice_ipv6 l a (a + 16)).
Proof.
  intros H. unfold slice_ipv6. rewrite slice_Ok by lia. cbn [mbind res_bind].
  destruct (ipv6_from_octets_Some (take (a + 16 - a) (drop a l))) as (x & -> & _); [|done].
  rewrite length_take, length_drop. lia.
Qed.

Lemma parse_v2_addresses_returns f p payload : returns (parse_v2_addresses f p payload).
Proof.
  unfold parse_v2_addresses. apply returns_bind; [by repeat case_decide|]. intros fam _.
  apply returns_bind; [by repeat case_decide|]. intros pr _.
  destruct fam; case_decide; try done.
  - do 2 (apply returns_bind; [apply returns_index_ipv4; lia|intros ? _]).
    do 2 (apply returns_bind; [apply returns_index_u16; lia|intros ? _]). done.
  - apply returns_bind; [apply (returns_slice_ipv6 payload 0); lia|intros ? _].
    apply returns_bind; [apply (returns_slice_ipv6 payload 16); lia|intros ? _].
    do 2 (apply returns_bind; [apply returns_index_u16; lia|intros ? _]). done.
  - returns_tac.
Qed.

Lemma decode_command_returns vc : returns (decode_command vc).
Proof. unfold decode_command. by repeat case_decide. Qed.

Lemma decode_tlvs_returns cmd data : returns (decode_tlvs cmd data).
Proof.
  pose proof (parse_tlvs_returns data) as H. destruct cmd; simpl; [|done].
  by destruct (parse_tlvs data).
Qed.

Lemma v2_decode_returns sig vc fp payload :
  v2_frame sig payload -> returns (v2_decode sig vc fp payload).
Proof.
  intros Hf. unfold v2_decode. apply returns_bind; [apply decode_command_returns|]. intros cmd _.
  apply returns_bind.
  { destruct cmd; simpl; [done|]. case_decide; [done|]. apply parse_v2_addresses_returns. }
  intros [[[tr src] dst] off] Hoff%decode_addresses_offset.
  apply returns_bind; [apply decode_tlvs_returns|]. intros t Ht.
  apply returns_bind; [|done]. destruct (tlv_crc32c t) as [crc|] eqn:Hc.
  - rewrite (check_crc_eq _ _ _ _ _ cmd t crc) by done. by case_decide.
  - unfold check_crc. by rewrite Hc.
Qed.

Lemma parse_v2_returns buf : returns (parse_v2 buf).
Proof.
  destruct (v2_cases buf) as [Hs|[(sig & vc & fp & pl & rest & Hf & ->)|
    (sig & vc & fp & len & body & Hs & Hl & -> & Hlt)]].
  - by rewrite parse_v2_short.
  - rewrite parse_v2_wire by done. by apply v2_decode_returns.
  - rewrite parse_v2_partial by done. apply returns_bind; [apply decode_command_returns|done].
Qed.
End Facts.
