(* ===== verification/V1Facts.v ===== *)
(** * Correctness of the v1 parser

    The parser returns on every input, looks at no more than the first 107
    bytes, depends only on the first line, and reports [Incomplete] on every
    proper prefix of a line. *)

From S2P Require Import Prelude Utf8 Net NetText Types ParseV1.

(** ** Finding the end of the line *)

Lemma position_crlf_cons a b l :
  position_crlf (a :: b :: l)
  = if decide (a = x0d /\ b = x0a) then Some 0 else S <$> position_crlf (b :: l).
Proof. done. Qed.

Lemma position_crlf_Some l p :
  position_crlf l = Some p -> exists rest, drop p l = x0d :: x0a :: rest.
Proof.
  revert p. induction l as [|a l IH]; intros p; [done|]. destruct l as [|b l]; [done|].
  rewrite position_crlf_cons. case_decide as H; [intros [= <-]; destruct H as [-> ->]; by eexists|].
  destruct (position_crlf (b :: l)) as [q|] eqn:Hq; [|done]. intros [= <-]. by apply IH.
Qed.

Lemma position_crlf_bound l p : position_crlf l = Some p -> p + 2 <= length l.
Proof.
  intros (rest & H)%position_crlf_Some. apply (f_equal length) in H.
  rewrite length_drop in H. simpl in H. lia.
Qed.

Lemma position_crlf_app l ext p :
  position_crlf l = Some p -> position_crlf (l ++ ext) = Some p.
Proof.
  revert p. induction l as [|a l IH]; intros p; [done|]. destruct l as [|b l]; [done|].
  cbn [app]. rewrite !position_crlf_cons. case_decide; [done|].
  destruct (position_crlf (b :: l)) as [q|] eqn:Hq; [|done]. intros [= <-].
  cbn [app] in IH. by rewrite (IH q).
Qed.

(** Before the CRLF is complete, no line end is seen. *)
Lemma position_crlf_take l p k :
  position_crlf l = Some p -> k < p + 2 -> position_crlf (take k l) = None.
Proof.
  intros Hp Hk. destruct (position_crlf (take k l)) as [q|] eqn:Hq; [|done].
  pose proof (position_crlf_bound _ _ Hq) as Hb. rewrite length_take in Hb.
  apply (position_crlf_app _ (drop k l)) in Hq. rewrite take_drop in Hq. simplify_eq. lia.
Qed.

Lemma position_crlf_keep l p k :
  position_crlf l = Some p -> p + 2 <= k -> position_crlf (take k l) = Some p.
Proof.
  revert p k. induction l as [|a l IH]; intros p k; [done|]. destruct l as [|b l]; [done|].
  rewrite position_crlf_cons. destruct k as [|[|k]]; try (intros; lia). cbn [take].
  rewrite position_crlf_cons. case_decide; [done|].
  destruct (position_crlf (b :: l)) as [q|] eqn:Hq; [|done]. intros [= <-] Hk.
  change (b :: take k l) with (take (S k) (b :: l)). rewrite (IH q); [done|done|lia].
Qed.

(** A line without CR is found where it ends. *)
Lemma position_crlf_line l rest :
  Forall (fun b => b <> x0d) l -> position_crlf (l ++ x0d :: x0a :: rest) = Some (length l).
Proof.
  induction 1 as [|b l Hb Hl IH]; [done|]. cbn [app].
  destruct (l ++ x0d :: x0a :: rest) as [|c t] eqn:E; [by destruct l|].
  rewrite position_crlf_cons, IH, decide_False by (intros [? _]; done). done.
Qed.

(** ** The parser as a function of the line *)

Lemma parse_v1_eq buf :
  parse_v1 buf =
    match position_crlf (take V1_MAX_LEN buf) with
    | Some p =>
        if utf8_valid (take p buf) then parse_v1_line (take p buf) (p + 2)
        else Err (Invalid V1NotUtf8)
    | None => Err (if decide (length buf < V1_MAX_LEN) then Incomplete else Invalid V1TooLong)
    end.
Proof.
  unfold parse_v1. rewrite slice_to_Ok by lia. cbn [mbind res_bind].
  replace (take (length buf `min` V1_MAX_LEN) buf) with (take V1_MAX_LEN buf).
  2:{ destruct (decide (length buf <= V1_MAX_LEN)).
      - rewrite Nat.min_l by done. by rewrite !take_ge by lia.
      - by rewrite Nat.min_r by lia. }
  destruct (position_crlf (take V1_MAX_LEN buf)) as [p|] eqn:Hp; [|done].
  pose proof (position_crlf_bound _ _ Hp) as Hb. rewrite length_take in Hb.
  cbn [ok_or mbind res_bind]. rewrite slice_to_Ok by lia. cbn [mbind res_bind].
  unfold from_utf8. by destruct (utf8_valid (take p buf)).
Qed.

Lemma parse_v1_line_returns line n : returns (parse_v1_line line n).
Proof.
  unfold parse_v1_line. destruct (is_unknown_line line); [done|].
  do 5 (apply returns_bind; [apply returns_ok_or|intros ? _]).
  case_decide; [done|]. apply returns_bind; [by repeat case_decide|]. intros [f pr] _.
  do 2 (apply returns_bind; [apply returns_ok_or|intros ? _]).
  do 2 (destruct (negb _); [done|]).
  do 2 (apply returns_bind; [apply returns_ok_or|intros ? _]). done.
Qed.

Lemma parse_v1_returns buf : returns (parse_v1 buf).
Proof.
  rewrite parse_v1_eq. case_match; [|done]. case_match; [|done]. apply parse_v1_line_returns.
Qed.

Lemma parse_v1_line_Ok line n info m : parse_v1_line line n = Ok (info, m) -> m = n.
Proof.
  unfold parse_v1_line. destruct (is_unknown_line line); [naive_solver|].
  intros H. do 5 (apply bind_Ok_inv in H as (? & _ & H)). case_decide; [done|].
  apply bind_Ok_inv in H as ([f pr] & _ & H).
  do 2 (apply bind_Ok_inv in H as (? & _ & H)). do 2 (destruct (negb _); [done|]).
  do 2 (apply bind_Ok_inv in H as (? & _ & H)). naive_solver.
Qed.

Lemma parse_v1_Ok_inv buf info n :
  parse_v1 buf = Ok (info, n) ->
  exists p, position_crlf (take V1_MAX_LEN buf) = Some p /\ n = p + 2 /\
    n <= length buf /\ n <= V1_MAX_LEN /\ utf8_valid (take p buf) = true /\
    parse_v1_line (take p buf) n = Ok (info, n).
Proof.
  rewrite parse_v1_eq. destruct (position_crlf (take V1_MAX_LEN buf)) as [p|] eqn:Hp; [|done].
  pose proof (position_crlf_bound _ _ Hp) as Hb. rewrite length_take in Hb.
  destruct (utf8_valid (take p buf)) eqn:Hu; [|done].
  intros H. pose proof H as ->%parse_v1_line_Ok. exists p. repeat split; done || lia.
Qed.

Lemma parse_v1_stable buf ext :
  parse_v1 buf <> Err Incomplete -> parse_v1 (buf ++ ext) = parse_v1 buf.
Proof.
  rewrite !parse_v1_eq. destruct (position_crlf (take V1_MAX_LEN buf)) as [p|] eqn:Hp.
  - intros _. pose proof (position_crlf_bound _ _ Hp) as Hb. rewrite length_take in Hb.
    rewrite take_app, (position_crlf_app _ _ _ Hp). by rewrite take_app_le by lia.
  - case_decide; [done|]. intros _. rewrite take_app_le by lia. rewrite Hp.
    by rewrite decide_False by (rewrite length_app; lia).
Qed.

Lemma parse_v1_prefix buf info n k :
  parse_v1 buf = Ok (info, n) -> k < n -> parse_v1 (take k buf) = Err Incomplete.
Proof.
  intros (p & Hp & -> & Hn & Hm & _)%parse_v1_Ok_inv Hk. rewrite parse_v1_eq.
  rewrite take_take, Nat.min_r by (unfold V1_MAX_LEN in *; lia).
  replace (take k buf) with (take k (take V1_MAX_LEN buf))
    by (rewrite take_take; f_equal; lia).
  rewrite (position_crlf_take _ _ _ Hp) by lia.
  rewrite decide_True; [done|]. rewrite !length_take. unfold V1_MAX_LEN in *. lia.
Qed.

(** ** Splitting at spaces *)

Lemma split_once_app sep part rest :
  Forall (fun b => b <> sep) part -> split_once sep (part ++ sep :: rest) = Some (part, rest).
Proof.
  induction 1 as [|b part Hb Hp IH]; cbn [app split_once].
  - by rewrite decide_True.
  - by rewrite decide_False, IH.
Qed.

Lemma split_once_none sep l : Forall (fun b => b <> sep) l -> split_once sep l = None.
Proof. induction 1 as [|b l Hb Hl IH]; cbn [split_once]; [done|]. by rewrite decide_False, IH. Qed.

Lemma splitn_step n sep part rest :
  Forall (fun b => b <> sep) part ->
  splitn (S (S n)) sep (part ++ sep :: rest) = part :: splitn (S n) sep rest.
Proof. intros H. cbn [splitn]. by rewrite split_once_app. Qed.

Lemma splitn_last n sep l : Forall (fun b => b <> sep) l -> splitn (S (S n)) sep l = [l].
Proof. intros H. cbn [splitn]. by rewrite split_once_none. Qed.

Definition no_space (l : list byte) : Prop := Forall (fun b => b <> x20) l.

(** A line of fields separated by single spaces. *)
Fixpoint spaced (fields : list (list byte)) : list byte :=
  match fields with
  | [] => []
  | [f] => f
  | f :: fields => f ++ x20 :: spaced fields
  end.

Lemma split_once_Some sep l part rest :
  split_once sep l = Some (part, rest) ->
  l = part ++ sep :: rest /\ Forall (fun b => b <> sep) part.
Proof.
  revert part. induction l as [|b l IH]; intros part; cbn [split_once]; [done|].
  case_decide as Hb; [intros [= <- <-]; by subst|].
  destruct (split_once sep l) as [[p r]|]; [|done]. intros [= <- <-].
  destruct (IH p eq_refl) as [-> Hp]. split; [done|by constructor].
Qed.

Lemma split_once_None sep l : split_once sep l = None -> Forall (fun b => b <> sep) l.
Proof.
  induction l as [|b l IH]; cbn [split_once]; [constructor|]. case_decide; [done|].
  destruct (split_once sep l) as [[p r]|]; [done|]. constructor; by auto.
Qed.

Lemma splitn_not_nil n sep l : splitn (S n) sep l <> [].
Proof. destruct n; cbn [splitn]; [done|]. by destruct (split_once sep l) as [[]|]. Qed.

Lemma splitn_SS n sep l :
  splitn (S (S n)) sep l
  = match split_once sep l with
    | Some (part, rest) => part :: splitn (S n) sep rest
    | None => [l]
    end.
Proof. done. Qed.

(** Splitting into fewer than the maximum of parts loses nothing. *)
Lemma splitn_spaced n l parts :
  splitn n x20 l = parts -> length parts < n -> l = spaced parts /\ Forall no_space parts.
Proof.
  intros <-. revert l. induction n as [|[|n] IH]; intros l Hl; [lia|simpl in Hl; lia|].
  rewrite splitn_SS in *. destruct (split_once x20 l) as [[p r]|] eqn:Hs.
  - apply split_once_Some in Hs as [-> Hp]. cbn [length] in Hl.
    destruct (IH r ltac:(lia)) as [Hr Hf]. split; [|by constructor].
    pose proof (splitn_not_nil n x20 r). cbn [spaced].
    by destruct (splitn (S n) x20 r) as [|q qs]; [|rewrite Hr at 1].
  - apply split_once_None in Hs. split; [done|by repeat constructor].
Qed.
