(* ===== verification/ParseFacts.v ===== *)
(** * Correctness of the parser

    What [parse] promises its callers, for v1 and v2 headers alike: it returns
    on every input; its verdict is final as soon as it is not [Incomplete];
    it consumes exactly the header, every proper prefix of which is
    [Incomplete]; the first bytes alone decide [NotProxyProtocol]; and the
    header it returns is well formed. *)

From S2P Require Import Prelude Utf8 Net NetText Types Crates ParseTlv TlvFacts ParseV2 ParseV1.
From S2P Require Import ParseHeader V2Facts V1Facts.

Section Facts.
Context {C : Crates}.

(** ** The dispatch on the first bytes *)

Lemma parse_nil : parse [] = Err Incomplete.
Proof. done. Qed.

Lemma parse_cons_other b l : b <> x0d -> b <> x50 -> parse (b :: l) = Err NotProxyProtocol.
Proof. intros H1 H2. unfold parse. simpl. by rewrite !decide_False by done. Qed.

Lemma parse_cr_short b : head b = Some x0d -> length b < 12 -> parse b = Err Incomplete.
Proof.
  destruct b as [|x l]; [done|]. intros [= ->] H. unfold parse.
  rewrite decide_False by done. cbn [index lookup list_lookup unwrap mbind res_bind].
  by rewrite !decide_True.
Qed.

Lemma parse_cr_long b : head b = Some x0d -> 12 <= length b ->
  parse b = if decide (take 12 b = V2_SIGNATURE) then parse_v2 b else Err NotProxyProtocol.
Proof.
  destruct b as [|x l]; [done|]. intros [= ->] H. unfold parse.
  rewrite decide_False by done. cbn [index lookup list_lookup unwrap mbind res_bind].
  rewrite decide_True, decide_False, slice_to_Ok by (done || lia). done.
Qed.

Lemma parse_p_short b : head b = Some x50 -> length b < 6 -> parse b = Err Incomplete.
Proof.
  destruct b as [|x l]; [done|]. intros [= ->] H. unfold parse.
  rewrite decide_False by done. cbn [index lookup list_lookup unwrap mbind res_bind].
  by rewrite decide_False, !decide_True.
Qed.

Lemma parse_p_long b : head b = Some x50 -> 6 <= length b ->
  parse b = if decide (take 6 b = bstr "PROXY ") then parse_v1 b else Err NotProxyProtocol.
Proof.
  destruct b as [|x l]; [done|]. intros [= ->] H. unfold parse.
  rewrite decide_False by done. cbn [index lookup list_lookup unwrap mbind res_bind].
  rewrite decide_False, decide_True, decide_False by (done || lia).
  unfold starts_with. change (length (bstr "PROXY ")) with 6.
  case_decide; [rewrite bool_decide_eq_true_2|rewrite bool_decide_eq_false_2]; done.
Qed.

(** The cases of the dispatch. *)
Inductive dispatch (b : list byte) : res ParseError (ProxyInfo * nat) -> Prop :=
| dispatch_nil : b = [] -> dispatch b (Err Incomplete)
| dispatch_other x l : b = x :: l -> x <> x0d -> x <> x50 -> dispatch b (Err NotProxyProtocol)
| dispatch_cr_short : head b = Some x0d -> length b < 12 -> dispatch b (Err Incomplete)
| dispatch_v2 : head b = Some x0d -> 12 <= length b -> take 12 b = V2_SIGNATURE ->
    dispatch b (parse_v2 b)
| dispatch_cr_other : head b = Some x0d -> 12 <= length b -> take 12 b <> V2_SIGNATURE ->
    dispatch b (Err NotProxyProtocol)
| dispatch_p_short : head b = Some x50 -> length b < 6 -> dispatch b (Err Incomplete)
| dispatch_v1 : head b = Some x50 -> 6 <= length b -> take 6 b = bstr "PROXY " ->
    dispatch b (parse_v1 b)
| dispatch_p_other : head b = Some x50 -> 6 <= length b -> take 6 b <> bstr "PROXY " ->
    dispatch b (Err NotProxyProtocol).

Lemma parse_dispatch b : dispatch b (parse b).
Proof.
  destruct b as [|x l]; [by apply dispatch_nil|].
  destruct (decide (x = x0d)) as [->|H1].
  { destruct (decide (length (x0d :: l) < 12)).
    - rewrite parse_cr_short by done. by apply dispatch_cr_short.
    - rewrite parse_cr_long by (done || lia).
      case_decide; [apply dispatch_v2|apply dispatch_cr_other]; done || lia. }
  destruct (decide (x = x50)) as [->|H2].
  { destruct (decide (length (x50 :: l) < 6)).
    - rewrite parse_p_short by done. by apply dispatch_p_short.
    - rewrite parse_p_long by (done || lia).
      case_decide; [apply dispatch_v1|apply dispatch_p_other]; done || lia. }
  rewrite parse_cons_other by done. by eapply dispatch_other.
Qed.

Lemma head_app_ne {A} (b ext : list A) x : head b = Some x -> head (b ++ ext) = Some x.
Proof. by destruct b. Qed.

Lemma parse_stable b ext : parse b <> Err Incomplete -> parse (b ++ ext) = parse b.
Proof.
  assert (Hlen : length (b ++ ext) = length b + length ext) by apply length_app.
  destruct (parse_dispatch b) as [|x l -> H1 H2|? ?|Hh Hl Ht|Hh Hl Ht|? ?|Hh Hl Ht|Hh Hl Ht];
    try done; intros Hne.
  - by apply parse_cons_other.
  - apply (head_app_ne _ ext) in Hh. rewrite parse_cr_long by (done || lia).
    rewrite take_app_le, decide_True by (done || lia). by apply parse_v2_stable.
  - apply (head_app_ne _ ext) in Hh. rewrite parse_cr_long by (done || lia).
    by rewrite take_app_le, decide_False by (done || lia).
  - apply (head_app_ne _ ext) in Hh. rewrite parse_p_long by (done || lia).
    rewrite take_app_le, decide_True by (done || lia). by apply parse_v1_stable.
  - apply (head_app_ne _ ext) in Hh. rewrite parse_p_long by (done || lia).
    by rewrite take_app_le, decide_False by (done || lia).
Qed.

Lemma parse_returns b : returns (parse b).
Proof.
  destruct (parse_dispatch b); try done; [apply parse_v2_returns|apply parse_v1_returns].
Qed.

(** A successful parse is that of a v2 or of a v1 header. *)
Lemma parse_Ok_cases b info n :
  parse b = Ok (info, n) ->
  (head b = Some x0d /\ 12 <= length b /\ take 12 b = V2_SIGNATURE /\ parse_v2 b = Ok (info, n)) \/
  (head b = Some x50 /\ 6 <= length b /\ take 6 b = bstr "PROXY " /\ parse_v1 b = Ok (info, n)).
Proof. destruct (parse_dispatch b); try done; intros Hp; [by left|by right]. Qed.

Lemma head_take {A} (b : list A) k x : head b = Some x -> 0 < k -> head (take k b) = Some x.
Proof. destruct b, k; simpl; done || lia. Qed.

Lemma parse_v1_min b info n : take 6 b = bstr "PROXY " -> parse_v1 b = Ok (info, n) -> 7 < n.
Proof.
  intros Ht (p & Hp & -> & _)%parse_v1_Ok_inv.
  destruct (decide (p < 6)) as [Hlt|]; [|lia]. exfalso.
  apply position_crlf_Some in Hp as [rest Hr].
  assert (Hx : take V1_MAX_LEN b !! p = Some x0d)
    by (rewrite <- (Nat.add_0_r p), <- lookup_drop, Hr; done).
  rewrite lookup_take_lt in Hx by (unfold V1_MAX_LEN; lia).
  rewrite <- (lookup_take_lt b 6), Ht in Hx by done.
  do 6 (destruct p as [|p]; [done|]). lia.
Qed.

Lemma parse_consumed b info n : parse b = Ok (info, n) -> 0 < n <= length b.
Proof.
  intros [(_ & _ & _ & H)|(_ & _ & Ht & H)]%parse_Ok_cases.
  - apply parse_v2_Ok_inv in H as (sig & vc & fp & pl & rest & Hf & -> & -> & _).
    rewrite length_app, length_v2_wire by done. lia.
  - pose proof (parse_v1_min b info n Ht H). apply parse_v1_Ok_inv in H as (p & _ & _ & ? & _). lia.
Qed.

Lemma parse_prefix b info n k :
  parse b = Ok (info, n) -> k < n -> parse (take k b) = Err Incomplete.
Proof.
  intros [(Hh & Hl & Ht & H)|(Hh & Hl & Ht & H)]%parse_Ok_cases Hk;
    (destruct (decide (k = 0)) as [->|Hk0]; [by rewrite take_0|]);
    apply (head_take _ k) in Hh; try lia.
  - destruct (decide (k < 12)).
    { apply parse_cr_short; [done|]. rewrite length_take. lia. }
    apply parse_v2_Ok_inv in H as (sig & vc & fp & pl & rest & Hf & Hb & -> & Hd).
    assert (Hkl : k <= length b) by (rewrite Hb, length_app, length_v2_wire by done; lia).
    rewrite parse_cr_long by (done || rewrite length_take; lia).
    rewrite take_take, Nat.min_l, decide_True by (done || lia).
    rewrite Hb, take_app_le by (rewrite length_v2_wire by done; lia).
    by eapply parse_v2_prefix.
  - pose proof (parse_v1_Ok_inv _ _ _ H) as (p & _ & _ & Hn & _).
    destruct (decide (k < 6)).
    { apply parse_p_short; [done|]. rewrite length_take. lia. }
    rewrite parse_p_long by (done || rewrite length_take; lia).
    rewrite take_take, Nat.min_l, decide_True by (done || lia).
    by eapply parse_v1_prefix.
Qed.

(** The header alone parses like the buffer that holds it. *)
Lemma parse_take b info n : parse b = Ok (info, n) -> parse (take n b) = Ok (info, n).
Proof.
  intros H. pose proof (parse_consumed b info n H) as Hn.
  destruct (parse_Ok_cases b info n H) as [(Hh & Hl & Ht & Hp)|(Hh & Hl & Ht & Hp)].
  - pose proof (parse_v2_Ok_inv _ _ _ Hp) as (sig & vc & fp & pl & rest & Hf & Hb & -> & Hd).
    rewrite parse_cr_long; [|apply head_take; [done|lia]|rewrite length_take; lia].
    rewrite take_take, Nat.min_l, decide_True by (done || lia).
    rewrite Hb, <- (length_v2_wire sig vc fp pl Hf), take_app_length.
    rewrite <- (app_nil_r (v2_wire _ _ _ _)), parse_v2_wire by done.
    by rewrite app_nil_r, Hd, length_v2_wire.
  - pose proof (parse_v1_min b info n Ht Hp).
    rewrite parse_p_long; [|apply head_take; [done|lia]|rewrite length_take; lia].
    rewrite take_take, Nat.min_l, decide_True by (done || lia).
    apply parse_v1_Ok_inv in Hp as (p & Hp & -> & Hn' & Hm & Hu & Hd).
    rewrite parse_v1_eq, take_take, Nat.min_r by lia.
    assert (Hq : position_crlf (take (p + 2) b) = Some p).
    { rewrite <- (Nat.min_l (p + 2) V1_MAX_LEN), <- take_take by lia.
      by apply position_crlf_keep. }
    rewrite Hq, take_take, Nat.min_l, Hu by lia. done.
Qed.

(** ** Error classes *)

(** The errors of a header that has been read to its end. *)
Definition rejects (e : ParseError) : Prop :=
  match e with
  | Invalid _ | CrcMismatch _ _ => True
  | Incomplete | NotProxyProtocol => False
  end.

Lemma parse_ssl_errs v off : 5 <= length v -> errs rejects (parse_ssl v off).
Proof.
  intros (c & b1 & b2 & b3 & b4 & es & rest & -> & Hes & Hr)%ssl_value_cases.
  rewrite parse_ssl_eq by done. unfold malformed. by errs_tac.
Qed.

Lemma parse_tlvs_errs data : errs rejects (parse_tlvs data).
Proof.
  destruct (frames data) as (es & rest & Hes & -> & Hr). rewrite parse_tlvs_frames by done.
  apply errs_bind; [|intros t _; unfold malformed; by errs_tac].
  generalize 0 (tlvs_of []). clear. induction es as [|e es IH]; intros off t; cbn [interp_tlvs].
  { apply errs_Ok. }
  apply errs_bind; [|intros t' _; apply IH]. unfold apply_tlv, malformed.
  repeat (case_decide; [errs_tac; try done|]); errs_tac.
  apply parse_ssl_errs. lia.
Qed.

Lemma parse_v2_addresses_errs f p payload : errs rejects (parse_v2_addresses f p payload).
Proof.
  unfold parse_v2_addresses, index_ipv4, slice_ipv6, index_u16.
  apply errs_bind; [by errs_tac|]. intros fam _. apply errs_bind; [by errs_tac|]. intros pr _.
  destruct fam; errs_tac; done.
Qed.

Lemma v2_decode_errs sig vc fp payload :
  v2_frame sig payload -> errs rejects (v2_decode sig vc fp payload).
Proof.
  intros Hf. unfold v2_decode. apply errs_bind; [unfold decode_command; by errs_tac|].
  intros cmd _. apply errs_bind.
  { destruct cmd; [apply errs_Ok|]. simpl. case_decide; [by apply errs_Err|].
    apply parse_v2_addresses_errs. }
  intros [[[tr src] dst] off] Hoff%decode_addresses_offset.
  apply errs_bind.
  { pose proof (parse_tlvs_errs (drop off payload)) as H. destruct cmd; simpl; [|done].
    by destruct (parse_tlvs (drop off payload)). }
  intros t Ht. apply errs_bind; [|intros ? _; apply errs_Ok].
  destruct (tlv_crc32c t) as [crc|] eqn:Hc.
  - rewrite (check_crc_eq _ _ _ _ _ cmd t crc) by done. by errs_tac.
  - unfold check_crc. rewrite Hc. apply errs_Ok.
Qed.

Lemma parse_v1_line_errs line n : errs rejects (parse_v1_line line n).
Proof.
  unfold parse_v1_line, invalid. destruct (is_unknown_line line); [apply errs_Ok|].
  do 5 (apply errs_bind; [by apply errs_ok_or|intros ? _]).
  case_decide; [by apply errs_Err|]. apply errs_bind; [by errs_tac|]. intros [f pr] _.
  do 2 (apply errs_bind; [by apply errs_ok_or|intros ? _]).
  do 2 (destruct (negb _); [by apply errs_Err|]).
  do 2 (apply errs_bind; [by apply errs_ok_or|intros ? _]). apply errs_Ok.
Qed.

(** [parse_v1] and [parse_v2] never deny that they see a header. *)
Definition accepts_signature (e : ParseError) : Prop := e <> NotProxyProtocol.

Lemma rejects_accepts {A} (m : res ParseError A) : errs rejects m -> errs accepts_signature m.
Proof. intros H e He. specialize (H e He). by destruct e. Qed.

Lemma parse_v2_errs b : errs accepts_signature (parse_v2 b).
Proof.
  destruct (v2_cases b) as [Hs|[(sig & vc & fp & pl & rest & Hf & ->)|
    (sig & vc & fp & len & body & Hs & Hl & -> & Hlt)]].
  - rewrite parse_v2_short by done. by apply errs_Err.
  - rewrite parse_v2_wire by done. by apply rejects_accepts, v2_decode_errs.
  - rewrite parse_v2_partial by done. unfold decode_command. errs_tac; done.
Qed.

Lemma parse_v1_errs b : errs accepts_signature (parse_v1 b).
Proof.
  rewrite parse_v1_eq. case_match.
  - case_match; [|by apply errs_Err]. apply rejects_accepts, parse_v1_line_errs.
  - apply errs_Err. by case_decide.
Qed.

(** Bytes that cannot be the start of a header: a first byte that starts no
    signature, or the length of a signature without being it. *)
Definition not_a_header (b : list byte) : Prop :=
  match b with
  | [] => False
  | x :: _ =>
      if decide (x = x0d) then 12 <= length b /\ take 12 b <> V2_SIGNATURE
      else if decide (x = x50) then 6 <= length b /\ take 6 b <> bstr "PROXY "
      else True
  end.

Lemma parse_not_a_header b : parse b = Err NotProxyProtocol <-> not_a_header b.
Proof.
  assert (Hcr : head b = Some x0d -> not_a_header b <-> 12 <= length b /\ take 12 b <> V2_SIGNATURE)
    by (destruct b; [done|]; by intros [= ->]).
  assert (Hp : head b = Some x50 -> not_a_header b <-> 6 <= length b /\ take 6 b <> bstr "PROXY ")
    by (destruct b; [done|]; by intros [= ->]).
  destruct (parse_dispatch b) as [->|x l -> H1 H2|Hh Hl|Hh Hl Ht|Hh Hl Ht|Hh Hl|Hh Hl Ht|Hh Hl Ht].
  - done.
  - simpl. by rewrite !decide_False.
  - rewrite Hcr by done. split; [done|lia].
  - rewrite Hcr by done. split; [by intros ?%parse_v2_errs|tauto].
  - rewrite Hcr by done. done.
  - rewrite Hp by done. split; [done|lia].
  - rewrite Hp by done. split; [by intros ?%parse_v1_errs|tauto].
  - rewrite Hp by done. done.
Qed.
End Facts.
