(* ===== verification/ParseWf.v ===== *)
(** * Well-formedness of parsed headers

    The invariant that every [ProxyInfo] returned by [parse] satisfies: which
    combinations of command, transport and addresses occur, that addresses
    are of the announced family with 16-bit ports and NUL-free paths, and
    that the fields of Rust type [String] hold UTF-8. *)

From S2P Require Import Prelude Utf8 Net NetText Types Crates ParseTlv TlvFacts ParseV2 ParseV1.
From S2P Require Import ParseHeader V2Facts V1Facts ParseFacts.

Definition wf_path (path : list byte) : Prop := length path <= 108 /\ x00 ∉ path.

Definition wf_endpoint (f : AddressFamily) (a : ProxyAddress) : Prop :=
  match f, a with
  | Inet, AddrInet (SockV4 _ port) => is_u16 port
  | Inet6, AddrInet (SockV6 _ port flowinfo scope_id) =>
      is_u16 port /\ flowinfo = 0%Z /\ scope_id = 0%Z
  | Unix, AddrUnix path => wf_path path
  | _, _ => False
  end.

Definition text (o : option (list byte)) : Prop :=
  match o with
  | Some s => utf8_valid s = true
  | None => True
  end.

Definition wf_ssl (s : SslInfo) : Prop :=
  text (ssl_version s) /\ text (ssl_cipher s) /\ text (ssl_sig_alg s) /\ text (ssl_key_alg s) /\
  text (ssl_cn s) /\ text (ssl_group s) /\ text (ssl_sig_scheme s).

Definition wf_tlvs (t : Tlvs) : Prop :=
  text (tlv_authority t) /\ text (tlv_netns t) /\
  (forall crc, tlv_crc32c t = Some crc -> is_u32 crc) /\
  (forall id, tlv_unique_id t = Some id -> length id <= 128) /\
  (forall s, tlv_ssl t = Some s -> wf_ssl s) /\
  Forall wf_entry (tlv_raw t).

Definition wf_endpoints (i : ProxyInfo) : Prop :=
  match transport i, source i, destination i with
  | None, None, None => version i = V2 -> command i = Local
  | Some t, Some s, Some d =>
      command i = Proxy /\ wf_endpoint (family t) s /\ wf_endpoint (family t) d /\
      (version i = V1 -> protocol t = Stream)
  | _, _, _ => False
  end.

Definition wf_info (i : ProxyInfo) : Prop :=
  wf_endpoints i /\ wf_tlvs (tlvs i) /\
  (version i = V1 -> command i = Proxy /\ tlvs i = default_tlvs).

(** ** TLVs *)

Lemma bytes_to_string_valid v : utf8_valid (bytes_to_string v) = true.
Proof.
  unfold bytes_to_string, from_utf8. destruct (utf8_valid v) eqn:H; [done|].
  apply from_utf8_lossy_valid.
Qed.

Lemma text_bytes_to_string o : text (bytes_to_string <$> o).
Proof. destruct o; [apply bytes_to_string_valid|done]. Qed.

Lemma last_value_elem ty es v : last_value ty es = Some v -> In (ty, v) es.
Proof.
  induction es as [|e es IH] using rev_ind; [done|].
  rewrite last_value_snoc, in_app_iff. case_decide as H; [|by left; apply IH].
  destruct e as [t w]. simpl in *. subst. intros [= ->]. right. by left.
Qed.

Section Wf.
Context {C : Crates}.

Lemma decode_ssl_wf v s : decode_ssl v = Some s -> wf_ssl s.
Proof.
  intros (c & b1 & b2 & b3 & b4 & es & -> & _ & ->)%decode_ssl_Some.
  repeat split; apply text_bytes_to_string.
Qed.

Lemma tlvs_of_wf es : Forall wf_entry es -> Forall acceptable es -> wf_tlvs (tlvs_of es).
Proof.
  intros Hwf Hacc. rewrite List.Forall_forall in Hacc. unfold wf_tlvs, tlvs_of. simpl.
  do 2 (split; [apply text_bytes_to_string|]). split; [|split; [|split; [|done]]].
  - intros crc. destruct (last_value x03 es) as [v|] eqn:Hv; [|done]. intros [= <-].
    apply last_value_elem, Hacc in Hv as (H & _ & _). specialize (H eq_refl).
    pose proof (from_be_bytes_range v) as Hr. simpl in H. rewrite H in Hr. exact Hr.
  - intros id Hv%last_value_elem. apply Hacc in Hv as (_ & H & _). by apply H.
  - intros s. destruct (last_value x20 es) as [v|]; [|done]. apply decode_ssl_wf.
Qed.

Lemma decode_tlvs_wf cmd data t : decode_tlvs cmd data = Ok t -> wf_tlvs t.
Proof.
  assert (Hd : wf_tlvs default_tlvs) by (by repeat split).
  assert (Hp : forall t, parse_tlvs data = Ok t -> wf_tlvs t).
  { intros t' (es & -> & Hwf & Hacc & ->)%parse_tlvs_sound. by apply tlvs_of_wf. }
  destruct cmd; simpl; [|apply Hp].
  destruct (parse_tlvs data) as [t'|e| |]; simpl; try done; intros [= <-]; [by apply Hp|done].
Qed.

(** ** Addresses *)

Lemma extract_unix_path_wf field : length field <= 108 -> wf_path (extract_unix_path field).
Proof.
  intros Hl. unfold extract_unix_path.
  destruct (list_find (fun b => b = x00) field) as [[pos x]|] eqn:Hf.
  - apply list_find_Some in Hf as (Hx & _ & Hbefore). split; [rewrite length_take; lia|].
    intros (j & Hj)%list_elem_of_lookup. pose proof (lookup_lt_Some _ _ _ Hj) as Hlt.
    rewrite length_take in Hlt. rewrite lookup_take_lt in Hj by lia.
    eapply Hbefore; [done| |done]. lia.
  - apply list_find_None in Hf. split; [done|]. rewrite List.Forall_forall in Hf.
    rewrite list_elem_of_In. naive_solver.
Qed.

Lemma index_u16_u16 l i p : index_u16 l i = Ok p -> is_u16 p.
Proof. unfold index_u16. intros H. inv_ok. subst. apply from_be_bytes_16. Qed.

Lemma parse_v2_addresses_wf f p payload tr src dst off :
  parse_v2_addresses f p payload = Ok (tr, src, dst, off) ->
  exists t s d, tr = Some t /\ src = Some s /\ dst = Some d /\
    wf_endpoint (family t) s /\ wf_endpoint (family t) d.
Proof.
  unfold parse_v2_addresses. intros (fam & _ & H)%bind_Ok_inv.
  apply bind_Ok_inv in H as (pr & _ & H). destruct fam; (case_decide; [done|]).
  - do 2 (apply bind_Ok_inv in H as (? & _ & H)).
    apply bind_Ok_inv in H as (sp & ?%index_u16_u16 & H).
    apply bind_Ok_inv in H as (dp & ?%index_u16_u16 & H). simplify_eq/=. by do 3 eexists.
  - do 2 (apply bind_Ok_inv in H as (? & _ & H)).
    apply bind_Ok_inv in H as (sp & ?%index_u16_u16 & H).
    apply bind_Ok_inv in H as (dp & ?%index_u16_u16 & H). simplify_eq/=. by do 3 eexists.
  - rewrite slice_to_Ok in H by lia. cbn [mbind res_bind] in H.
    rewrite slice_Ok in H by lia. simplify_eq/=. do 3 eexists. do 3 (split; [done|]).
    split; apply extract_unix_path_wf; rewrite ?length_take, ?length_drop; lia.
Qed.

Lemma v2_decode_wf sig vc fp payload info n :
  v2_decode sig vc fp payload = Ok (info, n) -> wf_info info.
Proof.
  unfold v2_decode. intros (cmd & _ & H)%bind_Ok_inv.
  apply bind_Ok_inv in H as ([[[tr src] dst] off] & Ha & H).
  apply bind_Ok_inv in H as (t & Ht%decode_tlvs_wf & H).
  apply bind_Ok_inv in H as (u & _ & H). simplify_eq/=.
  split; [|split; [done|done]]. destruct cmd; simpl in Ha; [by simplify_eq/=|].
  case_decide; [done|]. apply parse_v2_addresses_wf in Ha as (t' & s & d & -> & -> & -> & Hs & Hd).
  done.
Qed.

(** ** v1 *)

Lemma u16_digits_range acc l n : is_u16 acc -> u16_digits acc l = Some n -> is_u16 n.
Proof.
  revert acc. induction l as [|b l IH]; intros acc Ha; simpl; [naive_solver|].
  destruct (to_digit 10 b) as [d|] eqn:Hd; simpl; [|done]. case_decide; [|done].
  apply IH. unfold is_u16 in *. assert (0 <= d)%Z; [|lia].
  revert Hd. unfold to_digit. pose proof (Zb_range b).
  repeat case_decide; intros [=]; lia.
Qed.

Lemma u16_from_str_range l n : u16_from_str l = Some n -> is_u16 n.
Proof.
  unfold u16_from_str. destruct l as [|b l]; [done|].
  assert (H0 : is_u16 0) by done.
  destruct (decide (b = x2b \/ b = x2d)) as [[-> | ->]|Hne].
  - destruct l; [done|]. by apply u16_digits_range.
  - destruct l; [done|]. by apply u16_digits_range.
  - intros H. apply (u16_digits_range 0 (b :: l)); [done|]. destruct b; try done; tauto.
Qed.

Lemma parse_v1_line_wf line n info : parse_v1_line line n = Ok (info, n) -> wf_info info.
Proof.
  assert (Hd : wf_tlvs default_tlvs) by (by repeat split).
  unfold parse_v1_line. destruct (is_unknown_line line).
  { intros [= <-]. by split. }
  intros H. do 5 (apply bind_Ok_inv in H as (? & _ & H)). case_decide; [done|].
  apply bind_Ok_inv in H as ([f pr] & Hf & H).
  apply bind_Ok_inv in H as (sip & _ & H). apply bind_Ok_inv in H as (dip & _ & H).
  destruct (family_matches f sip) eqn:Hs; [|done]. destruct (family_matches f dip) eqn:Hdip; [|done].
  simpl in H.
  apply bind_Ok_inv in H as (sp & Hsp & H). apply bind_Ok_inv in H as (dp & Hdp & H).
  assert (is_u16 sp) by (destruct (u16_from_str _) eqn:E in Hsp; simplify_eq/=; by eapply u16_from_str_range).
  assert (is_u16 dp) by (destruct (u16_from_str _) eqn:E in Hdp; simplify_eq/=; by eapply u16_from_str_range).
  simplify_eq/=. split; [|done]. unfold wf_endpoints. simpl.
  split; [done|]. destruct f, sip, dip; try done; simpl in *; by repeat case_decide; simplify_eq.
Qed.

Lemma parse_wf b info n : parse b = Ok (info, n) -> wf_info info.
Proof.
  intros [(_ & _ & _ & H)|(_ & _ & _ & H)]%parse_Ok_cases.
  - apply parse_v2_Ok_inv in H as (sig & vc & fp & pl & rest & _ & _ & _ & Hd). by eapply v2_decode_wf.
  - apply parse_v1_Ok_inv in H as (p & _ & _ & _ & _ & _ & Hd). by eapply parse_v1_line_wf.
Qed.
End Wf.
