(* ===== verification/ParseTheorems.v ===== *)
(** * Theorems about the parser

    The promises of [parse] to its callers, the declarative description of
    the lines the v1 parser accepts, and the correctness of the checksum. *)

From S2P Require Import Prelude Utf8 Net NetText Types Crates ParseTlv TlvFacts ParseV2 ParseV1.
From S2P Require Import ParseHeader V2Facts V1Facts ParseFacts ParseWf.

(** ** Sample input *)

(** A v1 header followed by application data. *)
Definition sample_v1 : list byte :=
  bstr "PROXY TCP4 10.0.0.1 10.0.0.2 80 443" ++ [x0d; x0a] ++ bstr "GET /".

Definition sample_v1_info : ProxyInfo :=
  mkInfo V1 Proxy (Some (mkTransport Inet Stream))
    (Some (AddrInet (SockV4 (Ipv4 x0a x00 x00 x01) 80)))
    (Some (AddrInet (SockV4 (Ipv4 x0a x00 x00 x02) 443))) default_tlvs.

(** A v2 header with a CRC entry: LOCAL, the seven bytes of the entry. *)
Definition sample_crc_value : list byte :=
  to_be_bytes 4 (ref_crc32c_append 0
    (V2_SIGNATURE ++ [x20; x00; x00; x07] ++ [x03; x00; x04; x00; x00; x00; x00])).
Definition sample_crc : list byte :=
  V2_SIGNATURE ++ [x20; x00; x00; x07] ++ [x03; x00; x04] ++ sample_crc_value.

(** ** Bounds *)

Section Bounds.
Context {C : Crates}.

Lemma parse_v2_incomplete_bound b : parse_v2 b = Err Incomplete -> (Z.of_nat (length b) < 65551)%Z.
Proof.
  destruct (v2_cases b) as [Hs|[(sig & vc & fp & pl & rest & Hf & ->)|
    (sig & vc & fp & len & body & Hs & Hl & -> & Hlt)]]; [lia| |].
  - rewrite parse_v2_wire by done. by intros ?%v2_decode_errs.
  - intros _. rewrite !length_app, length_to_be_bytes, Hs. unfold is_u16 in Hl. simpl. lia.
Qed.

Lemma parse_v1_incomplete_bound b : parse_v1 b = Err Incomplete -> length b < V1_MAX_LEN.
Proof.
  rewrite parse_v1_eq. destruct (position_crlf _); [|by case_decide].
  destruct (utf8_valid _); [|done]. by intros ?%parse_v1_line_errs.
Qed.

Lemma parse_incomplete_bound b :
  parse b = Err Incomplete ->
  (Z.of_nat (length b) < if decide (head b = Some x0d) then 65551 else 107)%Z.
Proof.
  destruct (parse_dispatch b) as [->|x l -> H1 H2|Hh Hl|Hh Hl Ht|Hh Hl Ht|Hh Hl|Hh Hl Ht|Hh Hl Ht];
    try done; try rewrite Hh; intros H.
  - rewrite decide_True by done. lia.
  - rewrite decide_True by done. by apply parse_v2_incomplete_bound in H.
  - rewrite decide_False by done. lia.
  - rewrite decide_False by done. apply parse_v1_incomplete_bound in H. unfold V1_MAX_LEN in H. lia.
Qed.
End Bounds.


(** ** The lines the v1 parser accepts *)

Definition unknown_info : ProxyInfo := mkInfo V1 Proxy None None None default_tlvs.

Definition tcp_info (f : AddressFamily) (sip dip : IpAddr) (sport dport : Z) : ProxyInfo :=
  mkInfo V1 Proxy (Some (mkTransport f Stream)) (Some (AddrInet (sock_new sip sport)))
    (Some (AddrInet (sock_new dip dport))) default_tlvs.

(** The transport names of the format. *)
Inductive transport_name : list byte -> AddressFamily -> Prop :=
| name_tcp4 : transport_name (bstr "TCP4") Inet
| name_tcp6 : transport_name (bstr "TCP6") Inet6.

(** A line, without its CRLF, and the header it stands for. *)
Inductive v1_accepts : list byte -> ProxyInfo -> Prop :=
| accept_unknown line :
    line = bstr "PROXY UNKNOWN" \/ (exists rest, line = bstr "PROXY UNKNOWN " ++ rest) ->
    v1_accepts line unknown_info
| accept_tcp name f src dst sp dp sip dip sport dport :
    transport_name name f -> Forall no_space [src; dst; sp; dp] ->
    ip_from_str src = Some sip -> ip_from_str dst = Some dip ->
    family_matches f sip = true -> family_matches f dip = true ->
    u16_from_str sp = Some sport -> u16_from_str dp = Some dport ->
    v1_accepts (spaced [bstr "PROXY"; name; src; dst; sp; dp]) (tcp_info f sip dip sport dport).

Lemma take_eq_app {A} (l k : list A) : take (length k) l = k -> exists rest, l = k ++ rest.
Proof. intros H. exists (drop (length k) l). rewrite <- H at 1. by rewrite take_drop. Qed.

Lemma is_unknown_line_spec line :
  is_unknown_line line = true <->
  line = bstr "PROXY UNKNOWN" \/ exists rest, line = bstr "PROXY UNKNOWN " ++ rest.
Proof.
  unfold is_unknown_line, strip_prefix, starts_with. split.
  - case_decide as Ht; [|done]. apply take_eq_app in Ht as [rest ->].
    rewrite drop_app_length, orb_true_iff, !bool_decide_eq_true.
    intros [->|[rest' ->]%take_eq_app]; [left; by rewrite app_nil_r|right; by exists rest'].
  - intros [->|[rest ->]]; [done|].
    rewrite decide_True by done. done.
Qed.

Lemma first_field f rest :
  no_space f -> take 6 (f ++ x20 :: rest) = bstr "PROXY " -> f = bstr "PROXY".
Proof.
  intros Hf H. do 5 (destruct f as [|? f]; [discriminate H|]). destruct f as [|c f]; simpl in H.
  - by injection H as -> -> -> -> ->.
  - injection H as -> -> -> -> -> ->. exfalso.
    apply (Forall_lookup_1 _ _ 5 x20) in Hf; done.
Qed.

Lemma ok_or_Ok {E A} (o : option A) (e : E) a : ok_or o e = Ok a -> o = Some a.
Proof. destruct o; naive_solver. Qed.

(** The fields of a line that has been split into exactly six. *)
Lemma six_fields {A} (parts : list A) f1 f2 f3 f4 f5 :
  parts !! 1 = Some f1 -> parts !! 2 = Some f2 -> parts !! 3 = Some f3 -> parts !! 4 = Some f4 ->
  parts !! 5 = Some f5 -> ~ is_Some (parts !! 6) -> exists f0, parts = [f0; f1; f2; f3; f4; f5].
Proof.
  destruct parts as [|? [|? [|? [|? [|? [|? [|]]]]]]]; try done.
  - intros. simplify_eq/=. by eexists.
  - intros. exfalso. naive_solver.
Qed.

Lemma parse_v1_line_sound line n info :
  take 6 line = bstr "PROXY " -> parse_v1_line line n = Ok (info, n) -> v1_accepts line info.
Proof.
  intros Hp. unfold parse_v1_line. destruct (is_unknown_line line) eqn:Hu.
  { intros [= <-]. by apply accept_unknown, is_unknown_line_spec. }
  intros (name & H1%ok_or_Ok & H)%bind_Ok_inv. apply bind_Ok_inv in H as (src & H2%ok_or_Ok & H).
  apply bind_Ok_inv in H as (dst & H3%ok_or_Ok & H). apply bind_Ok_inv in H as (sp & H4%ok_or_Ok & H).
  apply bind_Ok_inv in H as (dp & H5%ok_or_Ok & H). case_decide as H6; [done|].
  destruct (six_fields _ _ _ _ _ _ H1 H2 H3 H4 H5 H6) as [f0 Hparts].
  apply splitn_spaced in Hparts as [-> Hns]; [|simpl; lia].
  apply Forall_cons_1 in Hns as [Hf0 [_ Hns]%Forall_cons_1].
  apply first_field in Hp as ->; [|done].
  apply bind_Ok_inv in H as ([f pr] & Hname & H). apply bind_Ok_inv in H as (sip & Hs%ok_or_Ok & H).
  apply bind_Ok_inv in H as (dip & Hd%ok_or_Ok & H).
  destruct (family_matches f sip) eqn:Hfs; [|done]. destruct (family_matches f dip) eqn:Hfd; [|done].
  simpl in H. apply bind_Ok_inv in H as (sport & Hsp%ok_or_Ok & H).
  apply bind_Ok_inv in H as (dport & Hdp%ok_or_Ok & H). injection H as <-.
  repeat case_decide; simplify_eq; apply accept_tcp; done || constructor.
Qed.

Lemma parse_v1_line_shape line n info m :
  parse_v1_line line n = Ok (info, m) -> version info = V1 /\ tlvs info = default_tlvs.
Proof.
  unfold parse_v1_line. destruct (is_unknown_line line); [naive_solver|].
  intros H. do 5 (apply bind_Ok_inv in H as (? & _ & H)). case_decide; [done|].
  apply bind_Ok_inv in H as ([f pr] & _ & H).
  do 2 (apply bind_Ok_inv in H as (? & _ & H)). do 2 (destruct (negb _); [done|]).
  do 2 (apply bind_Ok_inv in H as (? & _ & H)). naive_solver.
Qed.

Lemma spaced_cons f g fs : spaced (f :: g :: fs) = f ++ x20 :: spaced (g :: fs).
Proof. done. Qed.

Lemma parse_v1_line_complete line n info :
  v1_accepts line info -> parse_v1_line line n = Ok (info, n).
Proof.
  intros [l H|name f src dst sp dp sip dip sport dport Hname Hns Hs Hd Hfs Hfd Hsp Hdp].
  { apply is_unknown_line_spec in H. unfold parse_v1_line. by rewrite H. }
  assert (Hu : is_unknown_line (spaced [bstr "PROXY"; name; src; dst; sp; dp]) = false)
    by (by destruct Hname).
  assert (Hpre : no_space (bstr "PROXY") /\ no_space name)
    by (split; [|destruct Hname]; by repeat constructor).
  assert (Hsplit : splitn 7 x20 (spaced [bstr "PROXY"; name; src; dst; sp; dp])
    = [bstr "PROXY"; name; src; dst; sp; dp]).
  { destruct Hpre. apply Forall_cons_1 in Hns as [? [? [? [? _]%Forall_cons_1]%Forall_cons_1]%Forall_cons_1].
    do 5 (rewrite spaced_cons, splitn_step by done). by rewrite splitn_last. }
  unfold parse_v1_line. rewrite Hu, Hsplit. cbn [lookup list_lookup ok_or mbind res_bind].
  rewrite decide_False by (by intros []). rewrite Hs, Hd, Hsp, Hdp.
  destruct Hname, sip, dip; try done.
Qed.

Lemma v1_accepts_version line info : v1_accepts line info -> version info = V1.
Proof. by intros []. Qed.

Lemma v1_accepts_prefix line info : v1_accepts line info -> exists rest, line = bstr "PROXY " ++ rest.
Proof.
  intros [l [->|[rest ->]]|name f src dst sp dp]; [by eexists..|].
  by exists (spaced [name; src; dst; sp; dp]).
Qed.

Lemma position_crlf_split l p :
  position_crlf l = Some p -> exists rest, l = take p l ++ x0d :: x0a :: rest.
Proof. intros [rest Hr]%position_crlf_Some. exists rest. by rewrite <- Hr, take_drop. Qed.

(** ** The errors of a v2 header *)

Definition high_nibble (b : byte) : Z := (Zb b / 16)%Z.
Definition low_nibble (b : byte) : Z := (Zb b mod 16)%Z.

(** The bytes the address block of a family takes. *)
Definition address_length (family : Z) : nat :=
  if decide (family = 1)%Z then 12 else if decide (family = 2)%Z then 36 else 216.

(** What is wrong with the fixed part of a header, given the payload length. *)
Definition header_error (version command family protocol : Z) (len : nat) : option InvalidReason :=
  if decide (version <> 2)%Z then Some (UnsupportedVersion version)
  else if decide (command = 0)%Z then None
  else if decide (command <> 1)%Z then Some (UnknownCommand command)
  else if decide (family = 0 \/ protocol = 0)%Z then Some UnspecWithProxy
  else if decide (3 < family)%Z then Some (UnknownFamily family)
  else if decide (2 < protocol)%Z then Some (UnknownProtocol protocol)
  else if decide (len < address_length family)
  then Some (PayloadOverflow (address_length family) len)
  else None.

Lemma nibbles b :
  Z.shiftr (Zb b) 4 = high_nibble b /\ Z.land (Zb b) 15 = low_nibble b /\
  (0 <= high_nibble b)%Z /\ (0 <= low_nibble b)%Z.
Proof.
  pose proof (Zb_range b). unfold high_nibble, low_nibble. repeat split.
  - by rewrite Z.shiftr_div_pow2 by lia.
  - change 15%Z with (Z.ones 4). by rewrite Z.land_ones by lia.
  - apply Z.div_pos; lia.
  - apply Z.mod_pos_bound. lia.
Qed.

(** The errors of the TLVs and of the checksum. *)
Definition tlv_error (e : ParseError) : Prop :=
  (exists offset, e = Invalid (MalformedTlv offset)) \/ exists expected actual, e = CrcMismatch expected actual.

Section V2Errors.
Context {C : Crates}.

Lemma parse_tlvs_tlv_errors data : errs tlv_error (parse_tlvs data).
Proof.
  assert (Hm : forall A off, errs tlv_error (malformed (A:=A) off))
    by (intros A off; apply errs_Err; left; eauto).
  destruct (frames data) as (es & rest & Hes & -> & Hr). rewrite parse_tlvs_frames by done.
  apply errs_bind; [|intros t _; case_decide; [apply errs_Ok|apply Hm]].
  generalize 0 (tlvs_of []). clear - Hm. induction es as [|e es IH]; intros off t; cbn [interp_tlvs].
  { apply errs_Ok. }
  apply errs_bind; [|intros t' _; apply IH]. unfold apply_tlv.
  repeat (case_decide; [try apply errs_Ok; try apply Hm|]); try apply errs_Ok.
  - apply errs_bind; [apply errs_unwrap|intros; apply errs_Ok].
  - apply errs_bind; [|intros; apply errs_Ok].
    destruct (ssl_value_cases e.2) as (c & b1 & b2 & b3 & b4 & es' & rest & -> & Hes & Hr); [lia|].
    rewrite parse_ssl_eq by done. case_decide; [apply errs_Ok|apply Hm].
Qed.

Lemma parse_v2_addresses_error fam proto payload :
  (0 < fam)%Z -> (0 < proto)%Z ->
  match header_error 2 1 fam proto (length payload) with
  | Some r => parse_v2_addresses fam proto payload = Err (Invalid r)
  | None => exists a, parse_v2_addresses fam proto payload = Ok a
  end.
Proof.
  intros Hf Hp. pose proof (parse_v2_addresses_returns fam proto payload) as Hret.
  unfold header_error. do 4 (rewrite decide_False by lia).
  case_decide as Hf3; [|].
  { unfold parse_v2_addresses. by rewrite (decide_False (P:=(fam = 1)%Z)), (decide_False (P:=(fam = 2)%Z)),
      (decide_False (P:=(fam = 3)%Z)) by lia. }
  assert (fam = 1 \/ fam = 2 \/ fam = 3)%Z as Hfam by lia.
  case_decide as Hp2.
  { unfold parse_v2_addresses. destruct Hfam as [->|[->| ->]]; simpl;
    by rewrite (decide_False (P:=(proto = 1)%Z)), (decide_False (P:=(proto = 2)%Z)) by lia. }
  assert (proto = 1 \/ proto = 2)%Z as Hproto by lia. clear Hf Hp Hf3 Hp2.
  case_decide as Hl.
  { unfold parse_v2_addresses.
    destruct Hfam as [->|[->| ->]], Hproto as [->| ->]; simpl in *; by rewrite decide_True. }
  destruct (returns_cases _ Hret) as [[a Ha]|[e He]]; [by exists a|exfalso]. revert He. clear Hret.
  assert (Hn : errs (fun _ => False) (parse_v2_addresses fam proto payload)); [|exact (Hn e)].
  unfold parse_v2_addresses, index_ipv4, slice_ipv6, index_u16.
  destruct Hfam as [->|[->| ->]], Hproto as [->| ->]; simpl in *; rewrite decide_False by done; errs_tac.
Qed.

(** C12: the errors of a v2 header that is there in full: the first thing that is
    wrong with its fixed part, in the order version, command, unspecified
    transport, family, protocol, length of the address block, decides the
    error; when nothing is wrong with it, only the TLVs or the checksum can
    be. *)
Theorem parse_v2_errors vc fp payload rest :
  v2_frame V2_SIGNATURE payload ->
  let r := parse (v2_wire V2_SIGNATURE vc fp payload ++ rest) in
  match header_error (high_nibble vc) (low_nibble vc) (high_nibble fp) (low_nibble fp)
          (length payload) with
  | Some reason => r = Err (Invalid reason)
  | None => errs tlv_error r
  end.
Proof.
  intros Hfr. cbv zeta. rewrite parse_cr_long; [|done|].
  2:{ rewrite length_app, length_v2_wire by done. lia. }
  rewrite decide_True, parse_v2_wire by done. unfold v2_decode, decode_command.
  destruct (nibbles vc) as (-> & -> & _ & _), (nibbles fp) as (Hh & Hlo & Hh0 & Hl0).
  assert (Htail : forall cmd tr src dst off, off <= length payload -> errs tlv_error
    (t ← decode_tlvs cmd (drop off payload);
     _ ← check_crc (v2_wire V2_SIGNATURE vc fp payload) (16 + off) t;
     Ok (mkInfo V2 cmd tr src dst t, 16 + length payload))).
  { intros cmd tr src dst off Hoff. apply errs_bind.
    - pose proof (parse_tlvs_tlv_errors (drop off payload)) as He. destruct cmd; [|done]. simpl.
      by destruct (parse_tlvs (drop off payload)).
    - intros t Ht. apply errs_bind; [|intros; apply errs_Ok].
      destruct (tlv_crc32c t) as [crc|] eqn:Hc.
      + rewrite (check_crc_eq _ _ _ _ _ cmd t crc) by done. case_decide; [|apply errs_Ok].
        apply errs_Err. right. eauto.
      + unfold check_crc. rewrite Hc. apply errs_Ok. }
  unfold header_error. case_decide as Hv; [done|]. case_decide as Hc0.
  { cbn [mbind res_bind decode_addresses]. apply Htail. lia. }
  case_decide as Hc1; [by rewrite decide_False|]. rewrite (decide_True (P:=low_nibble vc = 1%Z)) by lia.
  cbn [mbind res_bind]. unfold decode_addresses. rewrite Hh, Hlo.
  case_decide as Hz; [done|].
  pose proof (parse_v2_addresses_error (high_nibble fp) (low_nibble fp) payload) as Ha.
  unfold header_error in Ha. do 4 (rewrite decide_False in Ha by lia).
  specialize (Ha ltac:(lia) ltac:(lia)).
  assert (Hfin : forall o : option InvalidReason,
    match o with
    | Some r => parse_v2_addresses (high_nibble fp) (low_nibble fp) payload = Err (Invalid r)
    | None => exists a, parse_v2_addresses (high_nibble fp) (low_nibble fp) payload = Ok a
    end ->
    let m := ('(tr, src, dst, off) ← parse_v2_addresses (high_nibble fp) (low_nibble fp) payload;
       t ← decode_tlvs Proxy (drop off payload);
       _ ← check_crc (v2_wire V2_SIGNATURE vc fp payload) (16 + off) t;
       Ok (mkInfo V2 Proxy tr src dst t, 16 + length payload)) in
    match o with Some r => m = Err (Invalid r) | None => errs tlv_error m end).
  { intros [r|] Ho; cbv zeta; [by rewrite Ho|]. destruct Ho as [[[[tr src] dst] off] Ho].
    rewrite Ho. cbn [mbind res_bind]. apply Htail. by eapply parse_v2_addresses_offset. }
  exact (Hfin _ Ha).
Qed.
End V2Errors.

(** ** Theorems *)

Section Theorems.
Context {C : Crates}.

(** C1: [parse] is total: on every buffer it returns a header or an error; it
    never panics (no index or slice is out of range, no [unwrap] fails) and
    its loops terminate. *)
Theorem parse_total b : returns (parse b).
Proof. apply parse_returns. Qed.

(** C4: a verdict is final: once [parse] reports anything other than
    [Incomplete], appending more bytes to the buffer does not change the
    result, neither the header and its length nor the error. *)
Theorem parse_verdict_final b ext :
  parse b <> Err Incomplete -> parse (b ++ ext) = parse b.
Proof. apply parse_stable. Qed.

(** C5: [parse] consumes exactly the header: the reported length is positive
    and within the buffer, the header alone parses to the same result, and on
    every proper prefix of it [parse] asks for more data. *)
Theorem parse_exact b info n :
  parse b = Ok (info, n) ->
  0 < n <= length b /\ parse (take n b) = Ok (info, n) /\
  forall k, k < n -> parse (take k b) = Err Incomplete.
Proof.
  intros H. split; [by eapply parse_consumed|]. split; [by apply parse_take|].
  intros k. by eapply parse_prefix.
Qed.

(** C13: [parse] reports [NotProxyProtocol] exactly when the first byte starts
    no signature, or when the 12 (after a CR) or 6 (after a [P]) first bytes
    are there and are not the signature; what follows plays no role. *)
Theorem parse_not_proxy_iff b : parse b = Err NotProxyProtocol <-> not_a_header b.
Proof. apply parse_not_a_header. Qed.

(** C14: a buffer for which [parse] asks for more data is shorter than 107 bytes,
    or than 16 + 65535 when it starts like a v2 header: reading on always
    comes to a verdict. *)
Theorem parse_incomplete_bounded b :
  parse b = Err Incomplete ->
  (Z.of_nat (length b) < if decide (head b = Some x0d) then 65551 else 107)%Z.
Proof. apply parse_incomplete_bound. Qed.

(** C7: every header that [parse] returns is well formed: a v2 PROXY header has
    a transport with two addresses of its family, 16-bit ports, paths without
    NUL of at most 108 bytes; a LOCAL header and a v1 UNKNOWN header have no
    addresses; a v1 header is a stream and has no TLVs; text fields are UTF-8,
    checksums 32-bit and unique IDs at most 128 bytes. *)
Theorem parse_well_formed b info n : parse b = Ok (info, n) -> wf_info info.
Proof. apply parse_wf. Qed.

(** C11: [parse] accepts a v1 header exactly when the buffer starts with a line
    that ends in the first CRLF, within 107 bytes, is UTF-8, and is either an
    UNKNOWN line or made of PROXY, TCP4 or TCP6, two addresses of that family
    and two ports, separated by single spaces; and it returns what the line
    says. *)
Theorem parse_v1_accepts_iff b info n :
  parse b = Ok (info, n) /\ version info = V1 <->
  exists line rest,
    b = line ++ x0d :: x0a :: rest /\ position_crlf b = Some (length line) /\
    n = length line + 2 /\ n <= V1_MAX_LEN /\ utf8_valid line = true /\ v1_accepts line info.
Proof.
  split.
  - intros [[(_ & _ & _ & H)|(_ & _ & Ht & H)]%parse_Ok_cases Hv].
    { apply parse_v2_Ok_inv in H as (sig & vc & fp & pl & rest & _ & _ & _ & H).
      unfold v2_decode in H. apply bind_Ok_inv in H as (cmd & _ & H).
      apply bind_Ok_inv in H as ([[[tr src] dst] off] & _ & H). inv_ok. by simplify_eq/=. }
    pose proof (parse_v1_min b info n Ht H) as Hmin.
    apply parse_v1_Ok_inv in H as (p & Hp & -> & Hn & Hm & Hu & Hline).
    apply (position_crlf_app _ (drop V1_MAX_LEN b)) in Hp. rewrite take_drop in Hp.
    pose proof (position_crlf_split b p Hp) as [rest Hb].
    exists (take p b), rest. rewrite length_take, Nat.min_l by lia. do 5 (split; [done|]).
    eapply parse_v1_line_sound; [|done]. by rewrite take_take, Nat.min_l by lia.
  - intros (line & rest & -> & Hp & -> & Hm & Hu & Hacc).
    split; [|by eapply v1_accepts_version].
    destruct (v1_accepts_prefix line info Hacc) as [l Hl].
    assert (Hlen : 6 <= length line) by (rewrite Hl, length_app; simpl; lia).
    rewrite parse_p_long; [|by rewrite Hl|rewrite length_app; lia].
    rewrite take_app_le, decide_True by (lia || by rewrite Hl).
    rewrite parse_v1_eq, (position_crlf_keep _ _ _ Hp), take_app_length, Hu by done.
    by apply parse_v1_line_complete.
Qed.

(** C10: the checksum computed in three pieces around the CRC entry equals the
    checksum of a copy of the header in which the value of that entry is
    zero, without making the copy. *)
Theorem compute_crc32c_zeroed `{!CratesLaws C} pre es :
  Forall wf_entry es ->
  let header := pre ++ tlvs_wire es in
  compute_crc32c header (length header) (length pre) = Ok (crc32c (pre ++ tlvs_wire (zero_crc es))).
Proof.
  intros Hes header. rewrite (compute_crc32c_wire header pre es) by done.
  f_equal. apply crc_pieces_zero.
Qed.

(** C9: a header that is accepted with a CRC entry has the right checksum: the
    value in the last CRC entry is the checksum of the header with the first
    CRC entry zeroed, which for a single entry is the checksum of the header
    with its own value zeroed. *)
Theorem parse_crc_verified `{!CratesLaws C} b info n crc :
  parse b = Ok (info, n) -> tlv_crc32c (tlvs info) = Some crc ->
  exists pre, take n b = pre ++ tlvs_wire (tlv_raw (tlvs info)) /\
    crc = crc32c (pre ++ tlvs_wire (zero_crc (tlv_raw (tlvs info)))).
Proof.
  intros [(_ & _ & _ & H)|(_ & _ & _ & H)]%parse_Ok_cases Hcrc.
  - apply parse_v2_Ok_inv in H as (sig & vc & fp & pl & rest & Hf & -> & -> & H).
    rewrite <- (length_v2_wire sig vc fp pl Hf), take_app_length. unfold v2_decode in H.
    apply bind_Ok_inv in H as (cmd & _ & H).
    apply bind_Ok_inv in H as ([[[tr src] dst] off] & Hoff%decode_addresses_offset & H).
    apply bind_Ok_inv in H as (t & Ht & H). apply bind_Ok_inv in H as (u & Hu & H).
    injection H as <-. cbn [tlvs] in *.
    rewrite (check_crc_eq _ _ _ _ _ cmd t crc) in Hu by done.
    destruct (decode_tlvs_crc cmd _ t crc Ht Hcrc) as (_ & Hw & _).
    pose proof (v2_wire_split sig vc fp pl off Hf Hoff) as Hsp. rewrite Hw in Hsp.
    exists (take (16 + off) (v2_wire sig vc fp pl)). split; [done|].
    case_decide as Hne; [done|]. rewrite <- Hne, <- crc_pieces_zero. by rewrite <- Hsp.
  - apply parse_v1_Ok_inv in H as (p & _ & _ & _ & _ & _ & Hd).
    apply parse_v1_line_shape in Hd as [_ Hd]. by rewrite Hd in Hcrc.
Qed.
End Theorems.

(** ** Witnesses *)

Lemma parse_verdict_final_witness :
  parse (C:=reference_crates) sample_v1 <> Err Incomplete /\
  parse (C:=reference_crates) (sample_v1 ++ bstr "x") = parse (C:=reference_crates) sample_v1.
Proof.
  assert (H : parse (C:=reference_crates) sample_v1 <> Err Incomplete) by (vm_compute; discriminate).
  split; [exact H|]. exact (parse_verdict_final (C:=reference_crates) sample_v1 (bstr "x") H).
Defined.

Lemma parse_sample_v1 : parse (C:=reference_crates) sample_v1 = Ok (sample_v1_info, 37).
Proof. by vm_compute. Qed.

Lemma parse_exact_witness :
  0 < 37 <= length sample_v1 /\
  parse (C:=reference_crates) (take 37 sample_v1) = Ok (sample_v1_info, 37) /\
  forall k, k < 37 -> parse (C:=reference_crates) (take k sample_v1) = Err Incomplete.
Proof. exact (parse_exact (C:=reference_crates) _ _ _ parse_sample_v1). Defined.

Lemma parse_incomplete_bounded_witness :
  (Z.of_nat (length (bstr "PROXY TCP4 ")) < 107)%Z.
Proof.
  exact (parse_incomplete_bounded (C:=reference_crates) (bstr "PROXY TCP4 ") eq_refl).
Defined.

Lemma parse_well_formed_witness : wf_info sample_v1_info.
Proof. exact (parse_well_formed (C:=reference_crates) _ _ _ parse_sample_v1). Defined.

Lemma compute_crc32c_zeroed_witness :
  let es := [(x03, [x01; x02; x03; x04]); (x05, [x00])] in
  compute_crc32c (C:=reference_crates) (bstr "head" ++ tlvs_wire es) 15 4
  = Ok (ref_crc32c_append 0 (bstr "head" ++ tlvs_wire (zero_crc es))).
Proof.
  apply (compute_crc32c_zeroed (C:=reference_crates) (bstr "head")
    [(x03, [x01; x02; x03; x04]); (x05, [x00])]).
  repeat constructor; vm_compute; done.
Defined.

Definition sample_crc_info : ProxyInfo :=
  mkInfo V2 Local None None None
    (mkTlvs None None (Some (from_be_bytes sample_crc_value)) None None None
       [(x03, sample_crc_value)]).

Lemma parse_sample_crc :
  parse (C:=reference_crates) sample_crc = Ok (sample_crc_info, 23).
Proof. by vm_compute. Qed.

Lemma parse_crc_verified_witness :
  exists pre, take 23 sample_crc = pre ++ tlvs_wire (tlv_raw (tlvs sample_crc_info)) /\
    from_be_bytes sample_crc_value
    = ref_crc32c_append 0 (pre ++ tlvs_wire (zero_crc (tlv_raw (tlvs sample_crc_info)))).
Proof.
  exact (parse_crc_verified (C:=reference_crates) sample_crc sample_crc_info 23
    (from_be_bytes sample_crc_value) parse_sample_crc eq_refl).
Defined.

Lemma parse_v2_errors_witness :
  parse (C:=reference_crates) (v2_wire V2_SIGNATURE x21 x13 (bstr "xy") ++ bstr "z")
  = Err (Invalid (UnknownProtocol 3)).
Proof.
  apply (parse_v2_errors (C:=reference_crates) x21 x13 (bstr "xy") (bstr "z")). by split.
Defined.

(** ** Buffers that are still undecided *)

(** C36: one byte of a signature is enough for [parse] to wait: a buffer of fewer
    than 6 bytes that starts with [P], or of fewer than 12 that starts with
    CR, is [Incomplete] whatever its other bytes are, although they may
    already differ from every signature. *)
Theorem parse_waits_for_signature `{C : Crates} b :
  (head b = Some x50 /\ length b < 6) \/ (head b = Some x0d /\ length b < 12) ->
  parse b = Err Incomplete.
Proof. intros [[Hh Hl]|[Hh Hl]]; [by apply parse_p_short|by apply parse_cr_short]. Qed.

Lemma parse_waits_for_signature_witness :
  parse (C:=reference_crates) (bstr "PING" ++ [x0a]) = Err Incomplete.
Proof.
  apply (parse_waits_for_signature (C:=reference_crates) (bstr "PING" ++ [x0a])). left.
  split; [reflexivity|simpl; lia].
Defined.
