(* ===== verification/Builder.v ===== *)
(** * The header builder

    [src/builder.rs].  Functions that can panic (mixed address families,
    oversized values) return in [res Empty_set]: they have no error value. *)

From S2P Require Import Prelude Net Types Crates ParseHeader.

Record HeaderBuilder : Type := mkBuilder {
  hb_version : Version;
  hb_command : Command;
  hb_transport : option Transport;
  hb_source : option ProxyAddress;
  hb_destination : option ProxyAddress;
  hb_tlv_entries : list (byte * list byte);
  hb_add_crc32c : bool;
}.

(** ** Constructors *)

Definition family_of (s : SocketAddr) : AddressFamily := if is_ipv4 s then Inet else Inet6.

Definition v2_proxy (src dst : SocketAddr) : res Empty_set HeaderBuilder :=
  _ ← rust_assert (bool_decide (is_ipv4 src = is_ipv4 dst));
  Ok (mkBuilder V2 Proxy (Some (mkTransport (family_of src) Stream))
        (Some (AddrInet src)) (Some (AddrInet dst)) [] false).

Definition v2_local : HeaderBuilder := mkBuilder V2 Local None None None [] false.

Definition v1_proxy (src dst : SocketAddr) : res Empty_set HeaderBuilder :=
  _ ← rust_assert (bool_decide (is_ipv4 src = is_ipv4 dst));
  Ok (mkBuilder V1 Proxy (Some (mkTransport (family_of src) Stream))
        (Some (AddrInet src)) (Some (AddrInet dst)) [] false).

Definition v1_unknown : HeaderBuilder := mkBuilder V1 Proxy None None None [] false.

Definition v2_unix (src dst : list byte) (p : TransportProtocol) : HeaderBuilder :=
  mkBuilder V2 Proxy (Some (mkTransport Unix p)) (Some (AddrUnix src)) (Some (AddrUnix dst)) [] false.

(** ** Options *)

Definition push_entry (e : byte * list byte) (b : HeaderBuilder) : HeaderBuilder :=
  mkBuilder (hb_version b) (hb_command b) (hb_transport b) (hb_source b) (hb_destination b)
    (hb_tlv_entries b ++ [e]) (hb_add_crc32c b).

Definition with_transport_protocol (p : TransportProtocol) (b : HeaderBuilder) : HeaderBuilder :=
  mkBuilder (hb_version b) (hb_command b)
    ((fun t => mkTransport (family t) p) <$> hb_transport b)
    (hb_source b) (hb_destination b) (hb_tlv_entries b) (hb_add_crc32c b).

Definition with_authority (authority : list byte) (b : HeaderBuilder) : HeaderBuilder :=
  push_entry (x02, authority) b.

Definition with_unique_id (id : list byte) (b : HeaderBuilder) : res Empty_set HeaderBuilder :=
  _ ← rust_assert (bool_decide (length id <= 128));
  Ok (push_entry (x05, id) b).

Definition with_alpn (alpn : list byte) (b : HeaderBuilder) : HeaderBuilder :=
  push_entry (x01, alpn) b.

(** [encode_sub_tlv]; [len as u16] truncates to the two bytes written. *)
Definition encode_sub_tlv (buf : list byte) (type_byte : byte) (value : list byte)
  : res Empty_set (list byte) :=
  _ ← rust_assert (bool_decide (Z.of_nat (length value) <= 65535)%Z);
  Ok (buf ++ [type_byte] ++ to_be_bytes 2 (Z.of_nat (length value)) ++ value).

(** [if let Some(ref v) = field { encode_sub_tlv(...) }]. *)
Definition encode_opt_sub_tlv (buf : list byte) (type_byte : byte) (value : option (list byte))
  : res Empty_set (list byte) :=
  match value with
  | Some v => encode_sub_tlv buf type_byte v
  | None => Ok buf
  end.

Definition encode_ssl_tlv_value (ssl : SslInfo) : res Empty_set (list byte) :=
  let buf := [bits (ssl_client_flags ssl)] in
  let verify := if ssl_verified ssl then 0%Z else 1%Z in
  let buf := buf ++ to_be_bytes 4 verify in
  buf ← encode_opt_sub_tlv buf x21 (ssl_version ssl);
  buf ← encode_opt_sub_tlv buf x22 (ssl_cn ssl);
  buf ← encode_opt_sub_tlv buf x23 (ssl_cipher ssl);
  buf ← encode_opt_sub_tlv buf x24 (ssl_sig_alg ssl);
  buf ← encode_opt_sub_tlv buf x25 (ssl_key_alg ssl);
  buf ← encode_opt_sub_tlv buf x26 (ssl_group ssl);
  buf ← encode_opt_sub_tlv buf x27 (ssl_sig_scheme ssl);
  encode_opt_sub_tlv buf x28 (ssl_client_cert ssl).

Definition with_ssl (ssl : SslInfo) (b : HeaderBuilder) : res Empty_set HeaderBuilder :=
  value ← encode_ssl_tlv_value ssl;
  Ok (push_entry (x20, value) b).

Definition with_netns (netns : list byte) (b : HeaderBuilder) : HeaderBuilder :=
  push_entry (x30, netns) b.

Definition with_raw_tlv (type_byte : byte) (value : list byte) (b : HeaderBuilder) : HeaderBuilder :=
  push_entry (type_byte, value) b.

Definition with_padding (len : Z) (b : HeaderBuilder) : HeaderBuilder :=
  push_entry (x04, replicate (Z.to_nat len) x00) b.

Definition with_crc32c (b : HeaderBuilder) : HeaderBuilder :=
  mkBuilder (hb_version b) (hb_command b) (hb_transport b) (hb_source b) (hb_destination b)
    (hb_tlv_entries b) true.

(** ** Encoding *)

Definition build_v1 (b : HeaderBuilder) : res Empty_set (list byte) :=
  match hb_source b, hb_destination b, hb_transport b with
  | Some (AddrInet src), Some (AddrInet dst), Some t =>
      proto ←
        match family t with
        | Inet => Ok (bstr "TCP4")
        | Inet6 => Ok (bstr "TCP6")
        | Unix => Panic
        end;
      Ok (bstr "PROXY " ++ proto ++ bstr " " ++ show_ip (sock_ip src) ++ bstr " " ++
          show_ip (sock_ip dst) ++ bstr " " ++ show_dec (sock_port src) ++ bstr " " ++
          show_dec (sock_port dst) ++ [x0d; x0a])
  | _, _, _ => Ok (bstr "PROXY UNKNOWN" ++ [x0d; x0a])
  end.

(** A 108-byte field holding a path, cut or padded with NULs. *)
Definition unix_field (path : list byte) : res Empty_set (list byte) :=
  let len := length path `min` 108 in
  src ← slice_to path len;
  copy_into (replicate 108 x00) 0 src.

Definition encode_addresses (b : HeaderBuilder) (buf : list byte) : res Empty_set (list byte) :=
  match hb_source b, hb_destination b with
  | Some (AddrInet src), Some (AddrInet dst) =>
      match sock_ip src, sock_ip dst with
      | IpV4 s, IpV4 d =>
          Ok (buf ++ octets4 s ++ octets4 d ++
              to_be_bytes 2 (sock_port src) ++ to_be_bytes 2 (sock_port dst))
      | IpV6 s, IpV6 d =>
          Ok (buf ++ octets6 s ++ octets6 d ++
              to_be_bytes 2 (sock_port src) ++ to_be_bytes 2 (sock_port dst))
      | _, _ => Ok buf
      end
  | Some (AddrUnix src), Some (AddrUnix dst) =>
      src_field ← unix_field src;
      dst_field ← unix_field dst;
      Ok (buf ++ src_field ++ dst_field)
  | _, _ => Ok buf
  end.

(** The loop over the TLV entries. *)
Fixpoint encode_entries (buf : list byte) (entries : list (byte * list byte))
  : res Empty_set (list byte) :=
  match entries with
  | [] => Ok buf
  | (tlv_type, value) :: entries =>
      _ ← rust_assert (bool_decide (Z.of_nat (length value) <= 65535)%Z);
      encode_entries
        (buf ++ [tlv_type] ++ to_be_bytes 2 (Z.of_nat (length value)) ++ value) entries
  end.

Definition fam_proto_nibbles (t : option Transport) : Z * Z :=
  match t with
  | Some t =>
      (match family t with Inet => 1 | Inet6 => 2 | Unix => 3 end,
       match protocol t with Stream => 1 | Datagram => 2 end)%Z
  | None => (0, 0)%Z
  end.

Section WithCrates.
Context {C : Crates}.

Definition build_v2 (b : HeaderBuilder) : res Empty_set (list byte) :=
  let buf := V2_SIGNATURE in
  let cmd_nibble := match hb_command b with Local => 0%Z | Proxy => 1%Z end in
  let buf := buf ++ [byte_of_Z (Z.lor 32 cmd_nibble)] in
  let '(fam, proto) := fam_proto_nibbles (hb_transport b) in
  let buf := buf ++ [byte_of_Z (Z.lor (Z.shiftl fam 4) proto)] in
  let len_pos := length buf in
  let buf := buf ++ [x00; x00] in
  buf ←
    match hb_command b with
    | Local => Ok buf
    | Proxy => encode_addresses b buf
    end;
  buf ← encode_entries buf (hb_tlv_entries b);
  let buf :=
    if hb_add_crc32c b then buf ++ [x03] ++ to_be_bytes 2 4 ++ [x00; x00; x00; x00] else buf in
  let payload_len := length buf - 16 in
  _ ← rust_assert (bool_decide (Z.of_nat payload_len <= 65535)%Z);
  buf ← copy_into buf len_pos (to_be_bytes 2 (Z.of_nat payload_len));
  if hb_add_crc32c b then
    let crc := crc32c buf in
    let crc_pos := length buf - 4 in
    copy_into buf crc_pos (to_be_bytes 4 crc)
  else Ok buf.

Definition build (b : HeaderBuilder) : res Empty_set (list byte) :=
  match hb_version b with
  | V1 => build_v1 b
  | V2 => build_v2 b
  end.

(** [write_to]: the sink and its [write_all] are those of the caller. *)
Definition write_to {W} (write_all : W -> list byte -> W * res IoError unit)
    (b : HeaderBuilder) (w : W) : W * res IoError nat :=
  match build b with
  | Ok bytes => let '(w, r) := write_all w bytes in (w, _ ← r; Ok (length bytes))
  | Err e => match e with end
  | Panic => (w, Panic)
  | Diverge => (w, Diverge)
  end.
End WithCrates.
