(* ===== verification/BuilderFacts.v ===== *)
(** * Correctness of the builder

    The bytes of a v2 header in closed form and exactly when building
    panics; the invariant of builders made through the API; and the round
    trips: what is built parses back, for v2 headers (with TLVs and
    checksum) and for v1 headers. *)

From S2P Require Import Prelude Utf8 Net NetText Types Crates ParseTlv TlvFacts ParseV2 ParseV1.
From S2P Require Import ParseHeader V2Facts V1Facts ParseFacts ParseWf Builder.

(** ** Encoding steps *)

Lemma copy_into_middle {E A} (a old new c : list A) :
  length old = length new ->
  copy_into (E:=E) (a ++ old ++ c) (length a) new = Ok (a ++ new ++ c).
Proof.
  intros H. rewrite copy_into_Ok by (rewrite !length_app; lia).
  rewrite take_app_length. do 3 f_equal.
  rewrite drop_app_ge by lia. replace (length a + length new - length a) with (length old) by lia.
  by rewrite drop_app_length.
Qed.

Lemma wf_entry_le e : wf_entry e <-> (Z.of_nat (length e.2) <= 65535)%Z.
Proof. unfold wf_entry, is_u16. lia. Qed.

Lemma encode_entries_eq es buf :
  encode_entries buf es = if decide (Forall wf_entry es) then Ok (buf ++ tlvs_wire es) else Panic.
Proof.
  revert buf. induction es as [|[ty v] es IH]; intros buf.
  { simpl. by rewrite app_nil_r. }
  cbn [encode_entries]. unfold rust_assert. case_bool_decide as Hv.
  - cbn [mbind res_bind]. rewrite IH. assert (wf_entry (ty, v)) by (by apply wf_entry_le).
    case_decide as Hes; [rewrite decide_True by (by constructor)|rewrite decide_False].
    + f_equal. rewrite tlvs_wire_cons, <- !app_assoc. done.
    + done.
    + by inversion 1.
  - rewrite decide_False; [done|]. inversion_clear 1 as [|? ? He]. apply wf_entry_le in He. done.
Qed.

(** The 108-byte field of a path. *)
Definition padded (path : list byte) : list byte :=
  take 108 path ++ replicate (108 - length path) x00.

Lemma length_padded path : length (padded path) = 108.
Proof. unfold padded. rewrite length_app, length_take, length_replicate. lia. Qed.

Lemma unix_field_eq path : unix_field path = Ok (padded path).
Proof.
  unfold unix_field. rewrite slice_to_Ok by lia. cbn [mbind res_bind].
  rewrite copy_into_Ok; rewrite length_take, ?length_replicate; [|lia].
  f_equal. rewrite take_0, app_nil_l. unfold padded. f_equal.
  - destruct (decide (length path <= 108)); [rewrite Nat.min_l by done|by rewrite Nat.min_r by lia].
    by rewrite !take_ge by lia.
  - rewrite drop_replicate. f_equal. lia.
Qed.

(** The bytes of the address block. *)
Definition addr_bytes (b : HeaderBuilder) : list byte :=
  match hb_command b, hb_source b, hb_destination b with
  | Proxy, Some (AddrInet src), Some (AddrInet dst) =>
      match sock_ip src, sock_ip dst with
      | IpV4 s, IpV4 d =>
          octets4 s ++ octets4 d ++ to_be_bytes 2 (sock_port src) ++ to_be_bytes 2 (sock_port dst)
      | IpV6 s, IpV6 d =>
          octets6 s ++ octets6 d ++ to_be_bytes 2 (sock_port src) ++ to_be_bytes 2 (sock_port dst)
      | _, _ => []
      end
  | Proxy, Some (AddrUnix src), Some (AddrUnix dst) => padded src ++ padded dst
  | _, _, _ => []
  end.

Lemma encode_addresses_eq b buf :
  match hb_command b with
  | Local => Ok buf
  | Proxy => encode_addresses b buf
  end = Ok (buf ++ addr_bytes b).
Proof.
  unfold encode_addresses, addr_bytes. destruct (hb_command b); [by rewrite app_nil_r|].
  destruct (hb_source b) as [[s|s]|], (hb_destination b) as [[d|d]|]; rewrite ?app_nil_r; try done.
  - destruct (sock_ip s), (sock_ip d); by rewrite ?app_nil_r.
  - by rewrite !unix_field_eq.
Qed.

(** The two flag bytes. *)
Definition cmd_byte (b : HeaderBuilder) : byte :=
  byte_of_Z (Z.lor 32 (match hb_command b with Local => 0 | Proxy => 1 end)).
Definition fam_byte (b : HeaderBuilder) : byte :=
  byte_of_Z (Z.lor (Z.shiftl (fam_proto_nibbles (hb_transport b)).1 4)
    (fam_proto_nibbles (hb_transport b)).2).

Section Build.
Context {C : Crates}.

(** The header whose TLVs are [es]. *)
Definition header_with (b : HeaderBuilder) (es : list (byte * list byte)) : list byte :=
  v2_wire V2_SIGNATURE (cmd_byte b) (fam_byte b) (addr_bytes b ++ tlvs_wire es).

Definition crc_entry (v : list byte) (b : HeaderBuilder) : list (byte * list byte) :=
  if hb_add_crc32c b then [(x03, v)] else [].

(** The entries as written: with [with_crc32c], a last entry that holds the
    checksum of the header in which that entry is zero. *)
Definition zero_entries (b : HeaderBuilder) : list (byte * list byte) :=
  hb_tlv_entries b ++ crc_entry (replicate 4 x00) b.
Definition all_entries (b : HeaderBuilder) : list (byte * list byte) :=
  hb_tlv_entries b ++ crc_entry (to_be_bytes 4 (crc32c (header_with b (zero_entries b)))) b.

(** The TLV values and the payload as written fit their length fields. *)
Definition wire_fits (b : HeaderBuilder) : Prop :=
  Forall wf_entry (hb_tlv_entries b) /\
  (Z.of_nat (length (addr_bytes b ++ tlvs_wire (all_entries b))) <= 65535)%Z.

#[export] Instance wire_fits_dec b : Decision (wire_fits b).
Proof. unfold wire_fits. apply _. Defined.

Lemma tlvs_wire_one e : tlvs_wire [e] = tlv_wire e.
Proof. unfold tlvs_wire. simpl. by rewrite app_nil_r. Qed.

Lemma length_payload b :
  length (addr_bytes b ++ tlvs_wire (all_entries b))
  = length (addr_bytes b ++ tlvs_wire (zero_entries b)).
Proof.
  unfold all_entries, zero_entries, crc_entry. destruct (hb_add_crc32c b); [|done].
  by rewrite !tlvs_wire_app, !length_app, !tlvs_wire_one, !length_tlv_wire.
Qed.

(** The last value of a header is overwritten in place. *)
Lemma header_with_snoc b ty n :
  exists pre, forall w : list byte, length w = n ->
    header_with b (hb_tlv_entries b ++ [(ty, w)]) = pre ++ w.
Proof.
  exists (V2_SIGNATURE ++ [cmd_byte b; fam_byte b] ++
    to_be_bytes 2 (Z.of_nat (length (addr_bytes b) + (length (tlvs_wire (hb_tlv_entries b)) + (3 + n)))) ++
    addr_bytes b ++ tlvs_wire (hb_tlv_entries b) ++ ty :: to_be_bytes 2 (Z.of_nat n)).
  intros w Hw. unfold header_with, v2_wire. rewrite !tlvs_wire_app, !tlvs_wire_one, !length_app.
  rewrite length_tlv_wire. unfold tlv_wire. cbn [fst snd]. rewrite Hw. by rewrite <- !app_assoc.
Qed.

Lemma build_v2_eq b :
  build_v2 b = if decide (wire_fits b) then Ok (header_with b (all_entries b)) else Panic.
Proof.
  unfold build_v2.
  destruct (fam_proto_nibbles (hb_transport b)) as [fam proto] eqn:Hfp.
  rewrite encode_addresses_eq. cbn [mbind res_bind]. rewrite encode_entries_eq.
  case_decide as Hes; cbn [mbind res_bind]; [|by rewrite decide_False by (by intros [? _])].
  set (payload := addr_bytes b ++ tlvs_wire (zero_entries b)).
  set (pre := (V2_SIGNATURE ++ [cmd_byte b]) ++ [fam_byte b]).
  match goal with |- context [if hb_add_crc32c b then ?x ++ _ else _] =>
    assert (Hbuf : (if hb_add_crc32c b then x ++ [x03] ++ to_be_bytes 2 4 ++ [x00; x00; x00; x00]
      else x) = pre ++ [x00; x00] ++ payload) end.
  { subst payload pre. unfold zero_entries, crc_entry, cmd_byte, fam_byte. rewrite Hfp. cbn [fst snd].
    rewrite tlvs_wire_app. destruct (hb_add_crc32c b); rewrite ?app_nil_r, <- !app_assoc; done. }
  rewrite !Hbuf. unfold rust_assert. rewrite !length_app.
  replace (_ + _ - 16) with (length payload) by (simpl; lia).
  case_bool_decide as Hp; cbn [mbind res_bind].
  2:{ rewrite decide_False; [done|]. intros [_ H]. rewrite length_payload in H. done. }
  rewrite decide_True by (split; [done|by rewrite length_payload]).
  rewrite <- !length_app.
  replace (length (_ ++ _)) with (length pre) by done.
  rewrite copy_into_middle by (by rewrite length_to_be_bytes). cbn [mbind res_bind].
  replace (pre ++ _) with (header_with b (zero_entries b)).
  2:{ subst pre. unfold header_with, v2_wire. fold payload. by rewrite <- !app_assoc. }
  unfold all_entries. remember (to_be_bytes 4 (crc32c (header_with b (zero_entries b)))) as crc eqn:Hcrc.
  assert (length crc = 4) by (by rewrite Hcrc, length_to_be_bytes).
  unfold zero_entries, crc_entry. destruct (hb_add_crc32c b); [|done].
  destruct (header_with_snoc b x03 4) as [p Hpre]. rewrite !Hpre by done.
  rewrite length_app, Nat.add_sub.
  rewrite <- (app_nil_r (replicate 4 x00)), copy_into_middle by done. by rewrite app_nil_r.
Qed.

(** ** Builders made through the API *)

(** The values Rust's types allow: 16-bit ports, UTF-8 strings. *)
Definition wf_sock (s : SocketAddr) : Prop := is_u16 (sock_port s).

(** The builders that calls of the API produce, with the entries that were
    given to [with_raw_tlv], in order. *)
Inductive made : list (byte * list byte) -> HeaderBuilder -> Prop :=
| made_v2_proxy src dst b : wf_sock src -> wf_sock dst -> v2_proxy src dst = Ok b -> made [] b
| made_v2_local : made [] v2_local
| made_v1_proxy src dst b : wf_sock src -> wf_sock dst -> v1_proxy src dst = Ok b -> made [] b
| made_v1_unknown : made [] v1_unknown
| made_v2_unix src dst p : made [] (v2_unix src dst p)
| made_transport_protocol p raws b : made raws b -> made raws (with_transport_protocol p b)
| made_authority a raws b : made raws b -> utf8_valid a = true -> made raws (with_authority a b)
| made_unique_id id raws b b' : made raws b -> with_unique_id id b = Ok b' -> made raws b'
| made_alpn a raws b : made raws b -> made raws (with_alpn a b)
| made_ssl ssl raws b b' : made raws b -> wf_ssl ssl -> with_ssl ssl b = Ok b' -> made raws b'
| made_netns n raws b : made raws b -> utf8_valid n = true -> made raws (with_netns n b)
| made_raw_tlv ty v raws b : made raws b -> made (raws ++ [(ty, v)]) (with_raw_tlv ty v b)
| made_padding len raws b : made raws b -> is_u16 len -> made raws (with_padding len b)
| made_crc32c raws b : made raws b -> made raws (with_crc32c b).

(** Command, transport and addresses fit together. *)
Definition consistent (b : HeaderBuilder) : Prop :=
  match hb_command b, hb_transport b, hb_source b, hb_destination b with
  | Local, None, None, None => hb_version b = V2
  | Proxy, None, None, None => hb_version b = V1
  | Proxy, Some t, Some (AddrInet s), Some (AddrInet d) =>
      family t = family_of s /\ family t = family_of d /\ wf_sock s /\ wf_sock d
  | Proxy, Some t, Some (AddrUnix _), Some (AddrUnix _) => family t = Unix /\ hb_version b = V2
  | _, _, _, _ => False
  end.

(** An entry the parser accepts that is not a checksum. *)
Definition entry_ok (e : byte * list byte) : Prop := acceptable e /\ e.1 <> x03.

Lemma entry_ok_plain ty v : ty <> x03 -> ty <> x05 -> ty <> x20 -> entry_ok (ty, v).
Proof. intros. by repeat split. Qed.

(** ** The SSL entry *)

Definition opt_entry (ty : byte) (o : option (list byte)) : list (byte * list byte) :=
  match o with
  | Some v => [(ty, v)]
  | None => []
  end.

Definition ssl_entries (s : SslInfo) : list (byte * list byte) :=
  opt_entry x21 (ssl_version s) ++ opt_entry x22 (ssl_cn s) ++ opt_entry x23 (ssl_cipher s) ++
  opt_entry x24 (ssl_sig_alg s) ++ opt_entry x25 (ssl_key_alg s) ++ opt_entry x26 (ssl_group s) ++
  opt_entry x27 (ssl_sig_scheme s) ++ opt_entry x28 (ssl_client_cert s).

Lemma encode_opt_sub_tlv_Ok buf ty o buf' :
  encode_opt_sub_tlv buf ty o = Ok buf' ->
  buf' = buf ++ tlvs_wire (opt_entry ty o) /\ Forall wf_entry (opt_entry ty o).
Proof.
  destruct o as [v|]; simpl; [|intros [= <-]; by rewrite app_nil_r].
  unfold encode_sub_tlv, rust_assert. case_bool_decide as H; simpl; [|done]. intros [= <-].
  split; [by rewrite tlvs_wire_one|]. constructor; [by apply wf_entry_le|done].
Qed.

Lemma encode_ssl_Ok ssl v :
  encode_ssl_tlv_value ssl = Ok v ->
  v = bits (ssl_client_flags ssl) :: to_be_bytes 4 (if ssl_verified ssl then 0 else 1) ++
      tlvs_wire (ssl_entries ssl) /\ Forall wf_entry (ssl_entries ssl).
Proof.
  unfold encode_ssl_tlv_value, ssl_entries. intros H.
  do 7 (apply bind_Ok_inv in H as (buf & Hb & H);
        let W := fresh "W" in apply encode_opt_sub_tlv_Ok in Hb as [-> W]).
  apply encode_opt_sub_tlv_Ok in H as [-> ?].
  rewrite !tlvs_wire_app, <- !app_assoc, !Forall_app. by repeat split.
Qed.

(** A record as the parser returns it: unknown flag bits are dropped. *)
Definition parsed_ssl (s : SslInfo) : SslInfo :=
  mkSsl (mkFlags (from_bits_truncate (bits (ssl_client_flags s)))) (ssl_verified s)
    (ssl_version s) (ssl_cipher s) (ssl_sig_alg s) (ssl_key_alg s) (ssl_cn s) (ssl_group s)
    (ssl_sig_scheme s) (ssl_client_cert s).

Lemma bytes_to_string_id v : utf8_valid v = true -> bytes_to_string v = v.
Proof. intros H. unfold bytes_to_string, from_utf8. by rewrite H. Qed.

Lemma decode_encode_ssl ssl v :
  wf_ssl ssl -> encode_ssl_tlv_value ssl = Ok v -> decode_ssl v = Some (parsed_ssl ssl).
Proof.
  intros Hwf (-> & Hes)%encode_ssl_Ok.
  set (verify := if ssl_verified ssl then 0%Z else 1%Z).
  assert (exists b1 b2 b3 b4, to_be_bytes 4 verify = [b1; b2; b3; b4] /\
    bool_decide (from_be_bytes [b1; b2; b3; b4] = 0%Z) = ssl_verified ssl)
    as (b1 & b2 & b3 & b4 & Hv & Hz).
  { unfold verify. destruct (ssl_verified ssl); by do 4 eexists. }
  rewrite Hv. apply decode_ssl_Some. do 6 eexists. split; [done|]. split; [done|].
  unfold ssl_of. rewrite Hz. destruct Hwf as (H1 & H2 & H3 & H4 & H5 & H6 & H7).
  destruct ssl as [fl ver o1 o2 o3 o4 o5 o6 o7 o8]. unfold ssl_entries, parsed_ssl. simpl in *.
  clear - H1 H2 H3 H4 H5 H6 H7.
  destruct o1, o2, o3, o4, o5, o6, o7, o8; simpl in *; by rewrite ?bytes_to_string_id.
Qed.

(** ** The invariant *)

Definition entries_ok (b : HeaderBuilder) : Prop := Forall entry_ok (hb_tlv_entries b).

(** The entries are those of the typed options, which the parser accepts, and
    the raw ones. *)
Definition entries_from (raws : list (byte * list byte)) (b : HeaderBuilder) : Prop :=
  Forall (fun e => entry_ok e \/ In e raws) (hb_tlv_entries b) /\ sublist raws (hb_tlv_entries b).

Lemma entries_from_ok raws b : entries_from raws b -> Forall entry_ok raws -> entries_ok b.
Proof.
  intros [Hb _] Hr. rewrite List.Forall_forall in Hr. revert Hb. apply Forall_impl.
  intros e [He|He]; [done|by apply Hr].
Qed.

Lemma push_entry_from e raws b : entry_ok e -> entries_from raws b -> entries_from raws (push_entry e b).
Proof.
  intros He [Hb Hs]. split; simpl.
  - rewrite Forall_app, Forall_singleton. by split; [|left].
  - by apply sublist_inserts_r.
Qed.

Lemma push_raw_from e raws b : entries_from raws b -> entries_from (raws ++ [e]) (push_entry e b).
Proof.
  intros [Hb Hs]. split; simpl.
  - rewrite Forall_app, Forall_singleton. split; [|right; apply in_app_iff; right; by left].
    revert Hb. apply Forall_impl. intros e' [?|?]; [by left|right; apply in_app_iff; by left].
  - by apply sublist_app.
Qed.

Lemma push_entry_consistent e b : consistent b -> consistent (push_entry e b).
Proof. done. Qed.

Lemma with_transport_protocol_consistent p b :
  consistent b -> consistent (with_transport_protocol p b).
Proof.
  unfold consistent. destruct b as [v c [t|] s d es crc]; simpl; [|done].
  by destruct c, s as [[]|], d as [[]|].
Qed.

Lemma proxy_consistent src dst v es crc :
  wf_sock src -> wf_sock dst -> is_ipv4 src = is_ipv4 dst ->
  consistent (mkBuilder v Proxy (Some (mkTransport (family_of src) Stream))
    (Some (AddrInet src)) (Some (AddrInet dst)) es crc).
Proof. intros Hs Hd He. unfold consistent, family_of. simpl. by rewrite He. Qed.

Lemma rust_assert_Ok {E} (b : bool) u : rust_assert (E:=E) b = Ok u -> b = true.
Proof. by destruct b. Qed.

Lemma made_inv raws b : made raws b -> consistent b /\ entries_from raws b.
Proof.
  assert (Hnil : forall v c t s d crc, entries_from [] (mkBuilder v c t s d [] crc)) by (by split).
  assert (Hp : forall src dst (v : Version) b, wf_sock src -> wf_sock dst ->
    (_ ← rust_assert (bool_decide (is_ipv4 src = is_ipv4 dst));
     Ok (mkBuilder v Proxy (Some (mkTransport (family_of src) Stream))
           (Some (AddrInet src)) (Some (AddrInet dst)) [] false)) = Ok (E:=Empty_set) b ->
    consistent b /\ entries_from [] b).
  { intros src dst v b' Hs Hd (u & Ha%rust_assert_Ok%bool_decide_eq_true & H)%bind_Ok_inv.
    injection H as <-. split; [by apply proxy_consistent|done]. }
  induction 1 as [src dst b Hs Hd H| |src dst b Hs Hd H| |src dst p|p raws b _ [IHc IHe]
    |a raws b _ [IHc IHe] Ha|id raws b b' _ [IHc IHe] H|a raws b _ [IHc IHe]
    |ssl raws b b' _ [IHc IHe] Hs H|n raws b _ [IHc IHe] Hn|ty v raws b _ [IHc IHe]
    |len raws b _ [IHc IHe] Hl|raws b _ [IHc IHe]];
    try (split; [done|first [apply Hnil|apply push_entry_from; [by apply entry_ok_plain|done]]]).
  - exact (Hp src dst V2 b Hs Hd H).
  - exact (Hp src dst V1 b Hs Hd H).
  - split; [by apply with_transport_protocol_consistent|done].
  - apply bind_Ok_inv in H as (u & Ha%rust_assert_Ok%bool_decide_eq_true & H). injection H as <-.
    split; [done|]. apply push_entry_from; [|done]. by repeat split.
  - apply bind_Ok_inv in H as (value & Hv%decode_encode_ssl & H); [|done]. injection H as <-.
    split; [done|]. apply push_entry_from; [|done].
    split; [split; [done|split; [done|by eexists]]|done].
  - split; [done|]. by apply push_raw_from.
  - done.
Qed.

(** ** Addresses *)

(** What a header keeps of an address: not the flow label and scope of an
    IPv6 socket address, and of a path the bytes before a NUL, at most 108. *)
Definition wire_address (a : ProxyAddress) : ProxyAddress :=
  match a with
  | AddrInet s => AddrInet (sock_new (sock_ip s) (sock_port s))
  | AddrUnix path => AddrUnix (extract_unix_path (take 108 path))
  end.

Lemma extract_unix_path_app path n :
  extract_unix_path (path ++ replicate n x00) = extract_unix_path path.
Proof.
  unfold extract_unix_path. destruct (list_find (fun b => b = x00) path) as [[i x]|] eqn:Hf.
  - rewrite (list_find_app_l _ _ _ _ _ Hf). apply list_find_Some in Hf as (Hi%lookup_lt_Some & _).
    by rewrite take_app_le by lia.
  - rewrite list_find_app_r by done. destruct n as [|n]; simpl; [by rewrite app_nil_r|].
    by rewrite ?Nat.add_0_r, take_app_length.
Qed.

Lemma extract_padded path : extract_unix_path (padded path) = extract_unix_path (take 108 path).
Proof. apply extract_unix_path_app. Qed.

Lemma nibbles_fam_byte b t :
  hb_transport b = Some t ->
  Z.shiftr (Zb (fam_byte b)) 4 = match family t with Inet => 1 | Inet6 => 2 | Unix => 3 end%Z /\
  Z.land (Zb (fam_byte b)) 15 = match protocol t with Stream => 1 | Datagram => 2 end%Z.
Proof. unfold fam_byte. intros ->. by destruct t as [[] []]. Qed.

Lemma port_be z : is_u16 z -> from_be_bytes [byte_of_Z (z / 256); byte_of_Z z] = z.
Proof. exact (from_to_be_bytes_16 z). Qed.

(** The address block reads back, whatever follows it. *)
Lemma decode_inet t s d rest :
  family t = family_of s -> family t = family_of d -> wf_sock s -> wf_sock d ->
  forall b, hb_transport b = Some t -> hb_command b = Proxy ->
  hb_source b = Some (AddrInet s) -> hb_destination b = Some (AddrInet d) ->
  decode_addresses Proxy (fam_byte b) (addr_bytes b ++ rest)
  = Ok (Some t, Some (wire_address (AddrInet s)), Some (wire_address (AddrInet d)),
        length (addr_bytes b)).
Proof.
  intros Hs Hd Ws Wd b Ht Hc Hsrc Hdst. destruct (nibbles_fam_byte b t Ht) as [Hf Hp].
  unfold decode_addresses. rewrite Hf, Hp. unfold addr_bytes. rewrite Hc, Hsrc, Hdst.
  rewrite decide_False by (destruct t as [[] []]; simpl; lia).
  destruct t as [f p], s as [sa sp|sa sp fl sc], d as [da dp|da dp fl' sc'];
    simpl in Hs, Hd; subst f; try done; cbn [family protocol sock_ip sock_port].
  - unfold parse_v2_addresses. destruct sa, da, p; simpl; by rewrite !port_be.
  - unfold parse_v2_addresses. destruct sa, da, p; simpl; by rewrite !port_be.
Qed.

Lemma decode_unix t s d rest :
  family t = Unix ->
  forall b, hb_transport b = Some t -> hb_command b = Proxy ->
  hb_source b = Some (AddrUnix s) -> hb_destination b = Some (AddrUnix d) ->
  decode_addresses Proxy (fam_byte b) (addr_bytes b ++ rest)
  = Ok (Some t, Some (wire_address (AddrUnix s)), Some (wire_address (AddrUnix d)),
        length (addr_bytes b)).
Proof.
  intros Hf b Ht Hc Hsrc Hdst. destruct (nibbles_fam_byte b t Ht) as [Hfam Hp].
  unfold decode_addresses. rewrite Hfam, Hp. unfold addr_bytes. rewrite Hc, Hsrc, Hdst.
  destruct t as [f p]. simpl in Hf. subst f. cbn [family protocol].
  pose proof (length_padded s) as Ls. pose proof (length_padded d) as Ld.
  assert (Hlen : length ((padded s ++ padded d) ++ rest) = 216 + length rest)
    by (rewrite !length_app; lia).
  unfold parse_v2_addresses.
  assert (Hsrc' : slice_to (E:=ParseError) ((padded s ++ padded d) ++ rest) 108 = Ok (padded s)).
  { rewrite slice_to_Ok by lia. by rewrite <- app_assoc, take_app_length' by done. }
  assert (Hdst' : slice (E:=ParseError) ((padded s ++ padded d) ++ rest) 108 216 = Ok (padded d)).
  { rewrite slice_Ok by lia. by rewrite <- app_assoc, drop_app_length', take_app_length' by done. }
  rewrite decide_False by (destruct p; lia).
  destruct p; simpl; (rewrite decide_False by lia); rewrite Hsrc', Hdst'; cbn [mbind res_bind];
    by rewrite !extract_padded, length_app, Ls, Ld.
Qed.

Lemma decode_addr_bytes b rest :
  consistent b -> hb_version b = V2 ->
  decode_addresses (hb_command b) (fam_byte b) (addr_bytes b ++ rest)
  = Ok (hb_transport b, wire_address <$> hb_source b, wire_address <$> hb_destination b,
        length (addr_bytes b)).
Proof.
  intros Hc Hv. unfold consistent in Hc. destruct (hb_command b) eqn:Hcmd.
  { destruct (hb_transport b); [done|]. destruct (hb_source b); [done|].
    destruct (hb_destination b); [done|]. simpl. unfold addr_bytes. by rewrite Hcmd. }
  destruct (hb_transport b) as [t|] eqn:Ht, (hb_source b) as [[s|s]|] eqn:Hs,
    (hb_destination b) as [[d|d]|] eqn:Hd; try done; try congruence.
  - destruct Hc as (H1 & H2 & H3 & H4). by eapply decode_inet.
  - destruct Hc as [H1 _]. by eapply decode_unix.
Qed.

(** ** The v2 round trip *)

Lemma last_value_none ty es : Forall (fun e => e.1 <> ty) es -> last_value ty es = None.
Proof.
  induction es as [|e es IH] using rev_ind; [done|].
  rewrite Forall_app, Forall_singleton, last_value_snoc. intros [Hes He].
  rewrite decide_False by done. by apply IH.
Qed.

Lemma zero_crc_app es1 es2 :
  Forall (fun e => e.1 <> x03) es1 -> zero_crc (es1 ++ es2) = es1 ++ zero_crc es2.
Proof.
  induction 1 as [|e es He Hes IH]; [done|]. simpl. rewrite IH.
  by rewrite decide_False by (by intros [? _]).
Qed.

Lemma entries_ok_no_crc b : entries_ok b -> Forall (fun e => e.1 <> x03) (hb_tlv_entries b).
Proof. apply Forall_impl. by intros e [_ H]. Qed.

Lemma zero_all_entries b : entries_ok b -> zero_crc (all_entries b) = zero_entries b.
Proof.
  intros H%entries_ok_no_crc. unfold all_entries, zero_entries. rewrite zero_crc_app by done.
  f_equal. unfold crc_entry. by destruct (hb_add_crc32c b).
Qed.

Lemma all_entries_acceptable b :
  Forall acceptable (hb_tlv_entries b) -> Forall acceptable (all_entries b).
Proof.
  intros H. unfold all_entries. apply Forall_app. split; [done|].
  unfold crc_entry. destruct (hb_add_crc32c b); [|done]. apply Forall_singleton.
  repeat split; try done.
Qed.

Lemma all_entries_wf b : Forall wf_entry (hb_tlv_entries b) -> Forall wf_entry (all_entries b).
Proof.
  intros H. unfold all_entries. apply Forall_app. split; [done|].
  unfold crc_entry. destruct (hb_add_crc32c b); [|done]. by apply Forall_singleton.
Qed.

(** The CRC field of the parsed record. *)
Lemma all_entries_crc `{!CratesLaws C} b : entries_ok b ->
  tlv_crc32c (tlvs_of (all_entries b))
  = if hb_add_crc32c b then Some (crc32c (header_with b (zero_entries b))) else None.
Proof.
  intros H%entries_ok_no_crc. unfold all_entries, crc_entry. cbn [tlvs_of tlv_crc32c].
  destruct (hb_add_crc32c b).
  - rewrite last_value_snoc, decide_True by done. cbn [fmap option_fmap option_map snd].
    by rewrite from_to_be_bytes_32 by apply crc32c_u32.
  - by rewrite app_nil_r, last_value_none.
Qed.

(** What parsing a built v2 header returns. *)
Definition parsed_v2 (b : HeaderBuilder) : ProxyInfo :=
  mkInfo V2 (hb_command b) (hb_transport b) (wire_address <$> hb_source b)
    (wire_address <$> hb_destination b) (tlvs_of (all_entries b)).

Lemma decode_cmd_byte b : decode_command (cmd_byte b) = Ok (hb_command b).
Proof. unfold cmd_byte. by destruct (hb_command b). Qed.

Lemma wire_fits_frame b : wire_fits b -> v2_frame V2_SIGNATURE (addr_bytes b ++ tlvs_wire (all_entries b)).
Proof. intros [_ H]. split; [done|]. unfold is_u16. lia. Qed.

(** The part of a header before its TLVs, given the payload length. *)
Definition before_tlvs (b : HeaderBuilder) (n : nat) : list byte :=
  V2_SIGNATURE ++ [cmd_byte b; fam_byte b] ++ to_be_bytes 2 (Z.of_nat n) ++ addr_bytes b.

Lemma header_with_eq b es :
  header_with b es = before_tlvs b (length (addr_bytes b ++ tlvs_wire es)) ++ tlvs_wire es.
Proof. unfold header_with, v2_wire, before_tlvs. by rewrite <- !app_assoc. Qed.

Lemma length_before_tlvs b n : length (before_tlvs b n) = 16 + length (addr_bytes b).
Proof. unfold before_tlvs. rewrite !length_app, length_to_be_bytes. simpl. lia. Qed.

(** The checksum the parser computes over a built header: that of the header
    with its first CRC entry zeroed. *)
Definition header_crc (b : HeaderBuilder) : Z := crc32c (header_with b (zero_crc (all_entries b))).

Lemma length_zero_crc es : length (tlvs_wire (zero_crc es)) = length (tlvs_wire es).
Proof.
  induction es as [|e es IH]; [done|]. simpl. case_decide as He.
  - destruct He as [_ He]. rewrite !tlvs_wire_cons, !length_app, !length_tlv_wire, He. done.
  - by rewrite !tlvs_wire_cons, !length_app, IH.
Qed.

(** What the parser makes of the TLVs of a header. *)
Definition crc_verdict (b : HeaderBuilder) (t : Tlvs) : res ParseError unit :=
  match tlv_crc32c t with
  | Some crc => if decide (header_crc b <> crc) then Err (CrcMismatch crc (header_crc b)) else Ok tt
  | None => Ok tt
  end.

Lemma check_crc_header `{!CratesLaws C} b t : wire_fits b ->
  check_crc (header_with b (all_entries b)) (16 + length (addr_bytes b)) t = crc_verdict b t.
Proof.
  intros Hf. unfold check_crc, crc_verdict. destruct (tlv_crc32c t) as [crc|]; [|done].
  pose proof (compute_crc32c_wire _ _ _ (header_with_eq b (all_entries b))
    (all_entries_wf b (proj1 Hf))) as Hc.
  rewrite length_before_tlvs in Hc. rewrite Hc. cbn [mbind res_bind].
  rewrite (header_with_eq b (all_entries b)), crc_pieces_zero.
  rewrite (length_app (addr_bytes b)), <- (length_zero_crc (all_entries b)), <- length_app.
  by rewrite <- header_with_eq.
Qed.

Lemma parse_built `{!CratesLaws C} b rest :
  consistent b -> hb_version b = V2 -> wire_fits b ->
  parse (header_with b (all_entries b) ++ rest)
  = (t ← decode_tlvs (hb_command b) (tlvs_wire (all_entries b));
     _ ← crc_verdict b t;
     Ok (mkInfo V2 (hb_command b) (hb_transport b) (wire_address <$> hb_source b)
           (wire_address <$> hb_destination b) t, length (header_with b (all_entries b)))).
Proof.
  intros Hc Hv Hf. pose proof (wire_fits_frame b Hf) as Hfr.
  rewrite parse_cr_long; [|done|].
  2:{ rewrite length_app. unfold header_with. rewrite length_v2_wire by done. lia. }
  rewrite decide_True by done. unfold header_with. rewrite parse_v2_wire by done.
  fold (header_with b (all_entries b)). unfold v2_decode.
  rewrite decode_cmd_byte. cbn [mbind res_bind]. rewrite decode_addr_bytes by done. cbn [mbind res_bind].
  rewrite drop_app_length. apply bind_ext. intros t _. fold (header_with b (all_entries b)).
  rewrite check_crc_header by done. apply bind_ext. intros u _.
  unfold header_with. by rewrite length_v2_wire.
Qed.

Lemma parse_built_acceptable `{!CratesLaws C} b rest :
  consistent b -> hb_version b = V2 -> wire_fits b -> Forall acceptable (hb_tlv_entries b) ->
  parse (header_with b (all_entries b) ++ rest)
  = (_ ← crc_verdict b (tlvs_of (all_entries b));
     Ok (parsed_v2 b, length (header_with b (all_entries b)))).
Proof.
  intros Hc Hv Hf Ha. rewrite parse_built by done.
  pose proof (parse_tlvs_complete _ (all_entries_wf b (proj1 Hf)) (all_entries_acceptable b Ha)) as H.
  destruct (hb_command b) eqn:Hcmd; simpl; rewrite H; cbn; unfold parsed_v2; by rewrite Hcmd.
Qed.

(** An entry the parser does not accept: a PROXY header is refused, a LOCAL one
    loses its TLVs. *)
Lemma parse_built_unacceptable `{!CratesLaws C} b rest :
  consistent b -> hb_version b = V2 -> wire_fits b -> ~ Forall acceptable (hb_tlv_entries b) ->
  match hb_command b with
  | Local => parse (header_with b (all_entries b) ++ rest)
             = Ok (mkInfo V2 Local None None None default_tlvs, length (header_with b (all_entries b)))
  | Proxy => exists off, off <= length (tlvs_wire (all_entries b)) /\
      parse (header_with b (all_entries b) ++ rest) = Err (Invalid (MalformedTlv off))
  end.
Proof.
  intros Hc Hv Hf Ha. rewrite parse_built by done.
  destruct (parse_tlvs_reject _ (all_entries_wf b (proj1 Hf))) as (off & Hoff & H).
  { unfold all_entries. rewrite Forall_app. tauto. }
  unfold consistent in Hc. destruct (hb_command b); simpl; rewrite H; [|by exists off].
  destruct (hb_transport b), (hb_source b), (hb_destination b); done.
Qed.

Lemma parse_build_v2 `{!CratesLaws C} b rest :
  consistent b -> hb_version b = V2 -> entries_ok b -> wire_fits b ->
  parse (header_with b (all_entries b) ++ rest)
  = Ok (parsed_v2 b, length (header_with b (all_entries b))).
Proof.
  intros Hc Hv He Hf. rewrite parse_built_acceptable; [|done..|].
  2:{ revert He. apply Forall_impl. by intros e [? _]. }
  unfold crc_verdict, header_crc. rewrite all_entries_crc, zero_all_entries by done.
  destruct (hb_add_crc32c b); [|done]. rewrite decide_False by tauto. done.
Qed.
End Build.
