(* ===== verification/BuilderV1.v ===== *)
(** * The v1 header of the builder

    Its text, its length (which the parser's limit of 107 bytes covers) and
    its round trip; then the round trip of both versions. *)

From S2P Require Import Prelude Utf8 Net NetText Types Crates ParseTlv TlvFacts ParseV2 ParseV1.
From S2P Require Import ParseHeader V2Facts V1Facts ParseFacts ParseWf Builder BuilderFacts.

(** ** The line *)

Definition v1_proto (ip : IpAddr) : list byte :=
  match ip with IpV4 _ => bstr "TCP4" | IpV6 _ => bstr "TCP6" end.

Definition v1_line (s d : SocketAddr) : list byte :=
  bstr "PROXY" ++ x20 :: v1_proto (sock_ip s) ++ x20 :: show_ip (sock_ip s) ++
  x20 :: show_ip (sock_ip d) ++ x20 :: show_dec (sock_port s) ++ x20 :: show_dec (sock_port d).

Definition crlf : list byte := [x0d; x0a].

(** The line holds only printable ASCII. *)
Definition plain (b : byte) : Prop := b <> x0d /\ (Zb b < 128)%Z.

Lemma addr_chars_plain l : Forall addr_char l -> Forall plain l.
Proof. apply Forall_impl. intros b H%addr_char_plain. unfold plain. tauto. Qed.

Lemma addr_chars_no_space l : Forall addr_char l -> Forall (fun b => b <> x20) l.
Proof. apply Forall_impl. intros b H%addr_char_plain. tauto. Qed.

Section Line.
Context (s d : SocketAddr) (Hs : wf_sock s) (Hd : wf_sock d).

Lemma v1_line_plain : Forall plain (v1_line s d).
Proof.
  destruct (show_ip_text (sock_ip s)) as [H1 _], (show_ip_text (sock_ip d)) as [H2 _].
  destruct (show_port_text _ Hs) as [H3 _], (show_port_text _ Hd) as [H4 _].
  apply addr_chars_plain in H1, H2, H3, H4. unfold v1_line.
  assert (Forall plain (bstr "PROXY")) by (by repeat constructor).
  assert (Forall plain (v1_proto (sock_ip s))) by (destruct (sock_ip s); by repeat constructor).
  assert (Hsp : forall l, Forall plain l -> Forall plain (x20 :: l)) by (by constructor).
  repeat first [apply Forall_app; split; [done|] | apply Hsp]. done.
Qed.

Lemma length_v1_line : length (v1_line s d) <= 102.
Proof.
  destruct (show_ip_text (sock_ip s)) as [_ H1], (show_ip_text (sock_ip d)) as [_ H2].
  destruct (show_port_text _ Hs) as [_ H3], (show_port_text _ Hd) as [_ H4].
  assert (length (v1_proto (sock_ip s)) = 4) by (by destruct (sock_ip s)).
  unfold v1_line. repeat (rewrite ?length_app; cbn [length]). change (length (bstr "PROXY")) with 5. lia.
Qed.

Lemma splitn_v1_line :
  splitn 7 x20 (v1_line s d)
  = [bstr "PROXY"; v1_proto (sock_ip s); show_ip (sock_ip s); show_ip (sock_ip d);
     show_dec (sock_port s); show_dec (sock_port d)].
Proof.
  destruct (show_ip_text (sock_ip s)) as [H1 _], (show_ip_text (sock_ip d)) as [H2 _].
  destruct (show_port_text _ Hs) as [H3 _], (show_port_text _ Hd) as [H4 _].
  apply addr_chars_no_space in H1, H2, H3, H4. unfold v1_line.
  assert (Forall (fun b => b <> x20) (bstr "PROXY")) by (by repeat constructor).
  assert (Forall (fun b => b <> x20) (v1_proto (sock_ip s))) by (destruct (sock_ip s); by repeat constructor).
  do 5 (rewrite splitn_step by done). by rewrite splitn_last.
Qed.

Lemma v1_line_not_unknown : is_unknown_line (v1_line s d) = false.
Proof. unfold v1_line. by destruct (sock_ip s). Qed.

Lemma parse_v1_line_built n :
  is_ipv4 s = is_ipv4 d ->
  parse_v1_line (v1_line s d) n
  = Ok (mkInfo V1 Proxy (Some (mkTransport (family_of s) Stream)) (Some (wire_address (AddrInet s)))
          (Some (wire_address (AddrInet d))) default_tlvs, n).
Proof.
  intros Hf. unfold parse_v1_line. rewrite v1_line_not_unknown, splitn_v1_line.
  cbn [lookup list_lookup ok_or mbind res_bind]. rewrite decide_False by (by intros []).
  rewrite !ip_from_str_show. rewrite !u16_from_str_show by done.
  unfold family_of. destruct s as [sa sp|sa sp ? ?], d as [da dp|da dp ? ?]; done.
Qed.
End Line.

(** Every line the builder writes fits the 107 bytes the parser searches. *)
Lemma parse_v1_built line rest info :
  Forall plain line -> length line + 2 <= V1_MAX_LEN ->
  parse_v1_line line (length line + 2) = Ok (info, length line + 2) ->
  parse_v1 ((line ++ crlf) ++ rest) = Ok (info, length line + 2).
Proof.
  intros Hp Hl H. rewrite parse_v1_eq, <- app_assoc.
  assert (Hpos : position_crlf (line ++ crlf ++ rest) = Some (length line)).
  { apply position_crlf_line. revert Hp. apply Forall_impl. by intros b [? _]. }
  rewrite (position_crlf_keep _ _ _ Hpos) by done.
  rewrite take_app_length, utf8_valid_ascii; [done|]. revert Hp. apply Forall_impl. by intros b [_ ?].
Qed.

(** ** Both versions *)

Section Build.
Context {C : Crates}.

(** The text of a v1 header. *)
Definition v1_text (b : HeaderBuilder) : list byte :=
  match hb_source b, hb_destination b with
  | Some (AddrInet s), Some (AddrInet d) => v1_line s d
  | _, _ => bstr "PROXY UNKNOWN"
  end.

Lemma build_v1_eq b :
  consistent b -> hb_version b = V1 -> build_v1 b = Ok (v1_text b ++ crlf).
Proof.
  intros Hc Hv. unfold consistent in Hc. unfold build_v1, v1_text.
  destruct (hb_command b), (hb_transport b) as [t|], (hb_source b) as [[s|s]|],
    (hb_destination b) as [[d|d]|]; try done; try (destruct Hc; congruence).
  destruct Hc as (Ht & _ & _ & _). rewrite Ht. unfold v1_line, v1_proto, crlf.
  destruct s as [sa sp|sa sp ? ?]; cbn [family_of is_ipv4 mbind res_bind sock_ip sock_port];
    repeat (rewrite <- app_assoc || rewrite <- app_comm_cons); done.
Qed.

(** What parsing a built v1 header returns: v1 knows only TCP and no TLVs. *)
Definition parsed_v1 (b : HeaderBuilder) : ProxyInfo :=
  mkInfo V1 Proxy ((fun t => mkTransport (family t) Stream) <$> hb_transport b)
    (wire_address <$> hb_source b) (wire_address <$> hb_destination b) default_tlvs.

Lemma v1_text_prefix b : take 6 (v1_text b ++ crlf) = bstr "PROXY ".
Proof. unfold v1_text, v1_line. by destruct (hb_source b) as [[]|], (hb_destination b) as [[]|]. Qed.

Lemma length_v1_text b : consistent b -> 13 <= length (v1_text b) <= 102.
Proof.
  intros Hc. unfold consistent in Hc. unfold v1_text.
  destruct (hb_command b), (hb_transport b) as [t|], (hb_source b) as [[s|s]|],
    (hb_destination b) as [[d|d]|]; try done; simpl; try lia.
  destruct Hc as (_ & _ & Hs & Hd). split; [|by apply length_v1_line].
  unfold v1_line. repeat (rewrite ?length_app; cbn [length]). change (length (bstr "PROXY")) with 5.
  assert (length (v1_proto (sock_ip s)) = 4) by (by destruct (sock_ip s)). lia.
Qed.

Lemma parse_build_v1 b rest :
  consistent b -> hb_version b = V1 ->
  parse ((v1_text b ++ crlf) ++ rest) = Ok (parsed_v1 b, length (v1_text b ++ crlf)).
Proof.
  intros Hc Hv. pose proof (length_v1_text b Hc) as Hl. pose proof (v1_text_prefix b) as Hp.
  assert (Hlen : length (v1_text b ++ crlf) = length (v1_text b) + 2) by (by rewrite length_app).
  rewrite parse_p_long; [| |rewrite length_app; lia].
  2:{ destruct (v1_text b ++ crlf) as [|x l]; [done|]. by injection Hp as ->. }
  rewrite take_app_le, Hp, decide_True, Hlen by (done || lia).
  unfold consistent in Hc. unfold v1_text, parsed_v1 in *. rewrite Hv in Hc.
  destruct (hb_command b), (hb_transport b) as [t|], (hb_source b) as [[s|s]|],
    (hb_destination b) as [[d|d]|]; try done; try (destruct Hc; done).
  - destruct Hc as (Ht & Ht' & Hs & Hd). apply parse_v1_built.
    + by apply v1_line_plain.
    + unfold V1_MAX_LEN. lia.
    + rewrite parse_v1_line_built; [|done|done|].
      * cbn [fmap option_fmap option_map]. by rewrite Ht.
      * rewrite Ht in Ht'. unfold family_of in Ht'. by destruct (is_ipv4 s), (is_ipv4 d).
  - apply parse_v1_built; [|simpl; unfold V1_MAX_LEN; lia|done].
    repeat (apply List.Forall_cons; [by split|]). apply List.Forall_nil.
Qed.

(** ** Sizes *)

(** The size of the address block: 12 bytes for IPv4, 36 for IPv6, 216 for unix
    paths (two fields of 108 bytes, whatever the paths). *)
Definition addr_size (b : HeaderBuilder) : nat :=
  match hb_command b, hb_source b with
  | Proxy, Some (AddrInet s) => if is_ipv4 s then 12 else 36
  | Proxy, Some (AddrUnix _) => 216
  | _, _ => 0
  end.

(** The size of what follows the fixed 16 bytes of a v2 header. *)
Definition payload_size (b : HeaderBuilder) : nat :=
  addr_size b + sum_list_with (fun e => 3 + length e.2) (hb_tlv_entries b) +
  (if hb_add_crc32c b then 7 else 0).

(** The sizes of a v2 header fit the 16-bit length fields. *)
Definition fits (b : HeaderBuilder) : Prop :=
  Forall (fun e => Z.of_nat (length e.2) <= 65535)%Z (hb_tlv_entries b) /\
  (Z.of_nat (payload_size b) <= 65535)%Z.

#[export] Instance fits_dec b : Decision (fits b).
Proof. unfold fits. apply _. Defined.

Lemma length_addr_bytes b : consistent b -> length (addr_bytes b) = addr_size b.
Proof.
  unfold consistent, addr_bytes, addr_size. destruct (hb_command b); [done|].
  destruct (hb_transport b) as [t|], (hb_source b) as [[s|s]|], (hb_destination b) as [[d|d]|]; try done.
  - intros (Hs & Hd & _). rewrite Hs in Hd. unfold family_of in Hd.
    destruct s as [[]|[]], d as [[]|[]]; done.
  - intros _. by rewrite length_app, !length_padded.
Qed.

Lemma length_tlvs_wire es : length (tlvs_wire es) = sum_list_with (fun e => 3 + length e.2) es.
Proof. induction es as [|e es IH]; [done|]. rewrite tlvs_wire_cons, length_app, length_tlv_wire, IH. done. Qed.

Lemma length_wire_payload b :
  consistent b -> length (addr_bytes b ++ tlvs_wire (all_entries b)) = payload_size b.
Proof.
  intros Hc. unfold all_entries, payload_size. rewrite tlvs_wire_app, !length_app, !length_tlvs_wire.
  rewrite length_addr_bytes by done. unfold crc_entry. destruct (hb_add_crc32c b); simpl; lia.
Qed.

Lemma fits_iff b : consistent b -> fits b <-> wire_fits b.
Proof.
  intros Hc. unfold fits, wire_fits. rewrite length_wire_payload by done. split; intros [H ?]; (split; [|done]);
    revert H; apply Forall_impl; intros e; apply wf_entry_le.
Qed.

(** What a builder can be built into. *)
Definition buildable (b : HeaderBuilder) : Prop := hb_version b = V2 -> fits b.

#[export] Instance buildable_dec b : Decision (buildable b).
Proof. unfold buildable. apply _. Defined.

Definition header_bytes (b : HeaderBuilder) : list byte :=
  match hb_version b with
  | V1 => v1_text b ++ crlf
  | V2 => header_with b (all_entries b)
  end.

Definition parsed (b : HeaderBuilder) : ProxyInfo :=
  match hb_version b with
  | V1 => parsed_v1 b
  | V2 => parsed_v2 b
  end.

Lemma build_eq b : consistent b ->
  build b = if decide (buildable b) then Ok (header_bytes b) else Panic.
Proof.
  intros Hc. assert (Hb : buildable b <-> (hb_version b = V2 -> wire_fits b))
    by (unfold buildable; by rewrite fits_iff).
  unfold build, header_bytes. case_decide as Hd; destruct (hb_version b) eqn:Hv.
  - by apply build_v1_eq.
  - rewrite build_v2_eq. by rewrite decide_True by (by apply Hb).
  - exfalso. apply Hd, Hb. done.
  - rewrite build_v2_eq. by rewrite decide_False by tauto.
Qed.

(** The entries a v2 header needs to parse back: raw ones included. *)
Definition raws_ok (raws : list (byte * list byte)) (b : HeaderBuilder) : Prop :=
  hb_version b = V2 -> Forall entry_ok raws.

Lemma parse_header_bytes `{!CratesLaws C} raws b rest : made raws b -> raws_ok raws b -> buildable b ->
  parse (header_bytes b ++ rest) = Ok (parsed b, length (header_bytes b)).
Proof.
  intros [Hc He]%made_inv Hr Hb. unfold header_bytes, parsed, buildable, raws_ok in *.
  rewrite fits_iff in Hb by done. destruct (hb_version b) eqn:Hv; [by apply parse_build_v1|].
  apply parse_build_v2; [done|done|by eapply entries_from_ok; auto|by auto].
Qed.

Lemma build_header_bytes raws b bytes :
  made raws b -> build b = Ok bytes -> buildable b /\ bytes = header_bytes b.
Proof.
  intros [Hc _]%made_inv. rewrite build_eq by done. case_decide; [|done]. by intros [= <-].
Qed.

Lemma header_bytes_v2 raws b :
  made raws b -> buildable b -> hb_version b = V2 ->
  consistent b /\ wire_fits b /\ header_bytes b = header_with b (all_entries b).
Proof.
  intros [Hc _]%made_inv Hb Hv. split; [done|]. split; [by apply fits_iff, Hb|].
  unfold header_bytes. by rewrite Hv.
Qed.
End Build.
