(* ===== verification/BuilderTheorems.v ===== *)
(** * Theorems about the builder

    The round trips between builder and parser in both directions, exactly
    when building panics, and the size of v1 headers. *)

From S2P Require Import Prelude Utf8 Net NetText Types Crates ParseTlv TlvFacts ParseV2 ParseV1.
From S2P Require Import ParseHeader V2Facts V1Facts ParseFacts ParseWf ParseTheorems.
From S2P Require Import Builder BuilderFacts BuilderV1.

(** ** Rebuilding a parsed header *)

(** The builder that holds the fields of a parsed header, its TLVs as raw
    entries. *)
Definition builder_of (i : ProxyInfo) : HeaderBuilder :=
  mkBuilder (version i) (command i) (transport i) (source i) (destination i)
    (tlv_raw (tlvs i)) false.

Lemma byte_nibbles b c :
  Z.shiftr (Zb b) 4 = Z.shiftr (Zb c) 4 -> Z.land (Zb b) 15 = Z.land (Zb c) 15 -> b = c.
Proof.
  intros H1 H2. apply Zb_inj. rewrite !Z.shiftr_div_pow2 in H1 by lia.
  change 15%Z with (Z.ones 4) in H2. rewrite !Z.land_ones in H2 by lia.
  rewrite (Z.div_mod (Zb b) (2 ^ 4)), (Z.div_mod (Zb c) (2 ^ 4)) by lia. by rewrite H1, H2.
Qed.

Lemma to_be_bytes_port a b : to_be_bytes 2 (from_be_bytes [a; b]) = [a; b].
Proof. exact (to_from_be_bytes [a; b]). Qed.

Section Build.
Context {C : Crates}.

Lemma decode_command_proxy vc : decode_command vc = Ok Proxy -> vc = x21.
Proof.
  unfold decode_command. case_decide as Hv; [done|]. case_decide as H0; [done|].
  case_decide as H1; [|done]. intros _. apply byte_nibbles; [|by rewrite H1].
  by rewrite Hv.
Qed.

(** The address block of an IP header is what the builder writes. *)
Lemma parse_v2_addresses_inv fam proto payload t src dst off :
  parse_v2_addresses fam proto payload = Ok (Some t, src, dst, off) -> family t <> Unix ->
  forall es crc,
  let b := mkBuilder V2 Proxy (Some t) src dst es crc in
  take off payload = addr_bytes b /\
  fam = (match family t with Inet => 1 | Inet6 => 2 | Unix => 3 end)%Z /\
  proto = (match protocol t with Stream => 1 | Datagram => 2 end)%Z.
Proof.
  unfold parse_v2_addresses. intros (f & Hf & H)%bind_Ok_inv Hu es crc.
  apply bind_Ok_inv in H as (p & Hp & H).
  assert (t = mkTransport f p) as ->.
  { destruct f; (case_decide; [done|]); inv_ok; by simplify_eq. }
  assert (Hn : fam = (match f with Inet => 1 | Inet6 => 2 | Unix => 3 end)%Z /\
    proto = (match p with Stream => 1 | Datagram => 2 end)%Z)
    by (repeat case_decide; by simplify_eq).
  split; [|exact Hn]. destruct f; [| |done]; (case_decide as Hl; [done|]).
  - do 12 (destruct payload as [|? payload]; [simpl in Hl; lia|]). simpl in H. simplify_eq.
    unfold addr_bytes. cbn [hb_command hb_source hb_destination sock_ip sock_port sock_new].
    by rewrite !to_be_bytes_port.
  - do 36 (destruct payload as [|? payload]; [simpl in Hl; lia|]). simpl in H. simplify_eq.
    unfold addr_bytes. cbn [hb_command hb_source hb_destination sock_ip sock_port sock_new].
    by rewrite !to_be_bytes_port.
Qed.

Lemma parse_v2_proxy_wire b info n :
  parse b = Ok (info, n) -> version info = V2 -> command info = Proxy ->
  exists fp payload tr src dst off t,
    v2_frame V2_SIGNATURE payload /\ take n b = v2_wire V2_SIGNATURE x21 fp payload /\
    parse_v2_addresses (Z.shiftr (Zb fp) 4) (Z.land (Zb fp) 15) payload = Ok (tr, src, dst, off) /\
    parse_tlvs (drop off payload) = Ok t /\ info = mkInfo V2 Proxy tr src dst t.
Proof.
  intros [(_ & _ & Ht & H)|(_ & _ & _ & H)]%parse_Ok_cases Hv Hc.
  2:{ apply parse_v1_Ok_inv in H as (p & _ & _ & _ & _ & _ & H).
      apply parse_v1_line_shape in H as [H _]. congruence. }
  apply parse_v2_Ok_inv in H as (sig & vc & fp & pl & rest & Hf & -> & -> & H).
  pose proof Hf as [Hs _].
  assert (sig = V2_SIGNATURE) as ->.
  { rewrite <- Ht. unfold v2_wire. by rewrite <- !app_assoc, take_app_length'. }
  rewrite <- (length_v2_wire V2_SIGNATURE vc fp pl Hf), take_app_length. unfold v2_decode in H.
  apply bind_Ok_inv in H as (cmd & Hcmd & H).
  apply bind_Ok_inv in H as ([[[tr src] dst] off] & Ha & H).
  apply bind_Ok_inv in H as (t & Htl & H). apply bind_Ok_inv in H as (u & _ & H).
  injection H as <-. simpl in Hc. subst cmd. apply decode_command_proxy in Hcmd as ->.
  simpl in Ha. case_decide; [done|]. by exists fp, pl, tr, src, dst, off, t.
Qed.

Lemma rebuild_entries i : all_entries (builder_of i) = tlv_raw (tlvs i).
Proof. apply app_nil_r. Qed.

Lemma rebuild_fam_byte fp t :
  Z.shiftr (Zb fp) 4 = (match family t with Inet => 1 | Inet6 => 2 | Unix => 3 end)%Z ->
  Z.land (Zb fp) 15 = (match protocol t with Stream => 1 | Datagram => 2 end)%Z ->
  forall b, hb_transport b = Some t -> fam_byte b = fp.
Proof.
  intros Hf Hp b [Hf' Hp']%nibbles_fam_byte. apply byte_nibbles; by rewrite ?Hf', ?Hp', ?Hf, ?Hp.
Qed.

(** ** Theorems *)

(** C2: round trip: a header made through the builder, of either version and
    with any options, parses back, whatever follows it, provided that each
    entry of a v2 header that was added with [with_raw_tlv] satisfies the
    parser's constraints on its type and is not a CRC32c entry: the parser
    consumes exactly the bytes built and returns the version, command,
    transport, addresses and TLVs that were put in (an IPv6 flow label and
    scope and the part of a path after a NUL or after 108 bytes are not in the
    format; v1 has neither TLVs nor datagrams). *)
Theorem build_parse_roundtrip `{!CratesLaws C} raws b bytes rest :
  made raws b -> (hb_version b = V2 -> Forall (fun e => acceptable e /\ e.1 <> x03) raws) ->
  build b = Ok bytes -> parse (bytes ++ rest) = Ok (parsed b, length bytes).
Proof.
  intros Hm Hr [Hb ->]%(build_header_bytes raws); [|done]. by apply (parse_header_bytes raws).
Qed.

(** C15: the other direction: rebuilding a parsed v2 PROXY header over IP from
    its fields, its TLVs as raw entries, gives back the bytes it was parsed
    from. *)
Theorem parse_build_roundtrip b info n t :
  parse b = Ok (info, n) -> version info = V2 -> command info = Proxy ->
  transport info = Some t -> family t <> Unix ->
  build (builder_of info) = Ok (take n b).
Proof.
  intros H Hv Hc Ht Hu.
  destruct (parse_v2_proxy_wire b info n H Hv Hc) as
    (fp & pl & tr & src & dst & off & tl & Hf & -> & Ha & Htl & ->). simpl in Ht. subst tr.
  pose proof (parse_v2_addresses_inv _ _ _ _ _ _ _ Ha Hu (tlv_raw tl) false) as (Hab & Hfam & Hpr).
  apply parse_tlvs_sound in Htl as (es & Hes & Hwf & _ & ->).
  assert (Hpay : pl = addr_bytes (builder_of (mkInfo V2 Proxy (Some t) src dst (tlvs_of es))) ++
    tlvs_wire es) by (rewrite <- (take_drop off pl), Hes at 1; by rewrite Hab).
  unfold build. cbn [hb_version builder_of version]. rewrite build_v2_eq.
  rewrite decide_True; [|split; [done|]; rewrite rebuild_entries; cbn [tlvs tlv_raw tlvs_of];
    rewrite <- Hpay; destruct Hf as [_ Hf]; unfold is_u16 in Hf; lia].
  rewrite rebuild_entries. unfold header_with. cbn [tlvs tlv_raw tlvs_of]. rewrite <- Hpay.
  by rewrite (rebuild_fam_byte fp t Hfam Hpr).
Qed.

Lemma proxy_buildable src dst v :
  let b := mkBuilder v Proxy (Some (mkTransport (family_of src) Stream))
    (Some (AddrInet src)) (Some (AddrInet dst)) [] false in
  buildable b.
Proof.
  intros b _. split; [constructor|]. unfold payload_size, addr_size. simpl. destruct (is_ipv4 src); lia.
Qed.

(** C16: the addresses of a proxied connection survive the way through the wire:
    for two socket addresses of the same family, [v1_proxy] and [v2_proxy]
    give builders that build, and the parser returns the IP addresses and
    ports given; the flow label and scope id of an IPv6 socket address, for
    which the format has no room, come back as zero.  For addresses of
    different families both panic. *)
Theorem proxy_addresses_roundtrip `{!CratesLaws C} src dst ctor :
  is_u16 (sock_port src) -> is_u16 (sock_port dst) -> In ctor [v1_proxy; v2_proxy] ->
  if decide (is_ipv4 src = is_ipv4 dst) then
    exists b bytes info, ctor src dst = Ok b /\ build b = Ok bytes /\
      parse bytes = Ok (info, length bytes) /\ command info = Proxy /\
      transport info = Some (mkTransport (family_of src) Stream) /\
      source_inet info = Some (sock_new (sock_ip src) (sock_port src)) /\
      destination_inet info = Some (sock_new (sock_ip dst) (sock_port dst))
  else ctor src dst = Panic.
Proof.
  intros Hs Hd Hctor. case_decide as Hf.
  2:{ destruct Hctor as [<-|[<-|[]]]; unfold v1_proxy, v2_proxy; by rewrite bool_decide_eq_false_2. }
  assert (Hv : exists v, ctor src dst = Ok (mkBuilder v Proxy (Some (mkTransport (family_of src) Stream))
    (Some (AddrInet src)) (Some (AddrInet dst)) [] false)).
  { destruct Hctor as [<-|[<-|[]]]; unfold v1_proxy, v2_proxy; rewrite bool_decide_eq_true_2 by done;
      [by exists V1|by exists V2]. }
  destruct Hv as [v Hb]. set (b := mkBuilder v _ _ _ _ _ _) in Hb.
  assert (Hm : made [] b).
  { destruct Hctor as [<-|[<-|[]]]; [exact (made_v1_proxy src dst b Hs Hd Hb)|exact (made_v2_proxy src dst b Hs Hd Hb)]. }
  pose proof (proxy_buildable src dst v) as Hfit. fold b in Hfit.
  pose proof (made_inv [] b Hm) as [Hc _].
  exists b, (header_bytes b), (parsed b). split; [done|].
  split; [rewrite build_eq by done; by rewrite decide_True|].
  split; [rewrite <- (app_nil_r (header_bytes b)) at 1; apply (parse_header_bytes []); [done|by constructor|done]|].
  unfold source_inet, destination_inet, parsed, parsed_v1, parsed_v2. by destruct v.
Qed.

Lemma take_unix_fields raws b src dst :
  made raws b -> hb_source b = Some (AddrUnix src) -> hb_destination b = Some (AddrUnix dst) ->
  take 216 (drop 16 (header_bytes b)) = padded src ++ padded dst.
Proof.
  intros [Hc _]%made_inv Hs Hd. unfold consistent in Hc. rewrite Hs, Hd in Hc.
  destruct (hb_command b) eqn:Hcmd, (hb_transport b); try done. destruct Hc as [_ Hv].
  unfold header_bytes. rewrite Hv. unfold header_with, v2_wire.
  rewrite !app_assoc, <- (app_assoc _ (addr_bytes b)).
  rewrite drop_app_length' by done. unfold addr_bytes. rewrite Hcmd, Hs, Hd.
  rewrite take_app_length' by (by rewrite length_app, !length_padded). done.
Qed.

(** C17: building a header made through the API returns its bytes exactly when
    the sizes fit: a v1 header always; a v2 header when every TLV value is at
    most 65535 bytes and the address block (12, 36 or 216 bytes), the TLVs
    (3 bytes and the value each) and the checksum entry together are too;
    otherwise it panics, so that no length field is ever cut.  Unix paths are
    the one thing that is cut: each fills a field of 108 bytes, with the rest
    of a longer path dropped and a shorter one padded with NULs. *)
Theorem build_returns_iff raws b :
  made raws b ->
  build b = (if decide (hb_version b = V1 \/ fits b) then Ok (header_bytes b) else Panic) /\
  (hb_version b = V2 -> length (header_bytes b) = 16 + payload_size b) /\
  (forall src dst, hb_source b = Some (AddrUnix src) -> hb_destination b = Some (AddrUnix dst) ->
     take 216 (drop 16 (header_bytes b))
     = take 108 src ++ replicate (108 - length src) x00 ++
       take 108 dst ++ replicate (108 - length dst) x00).
Proof.
  intros Hm. pose proof (made_inv raws b Hm) as [Hc _]. split; [|split].
  - rewrite build_eq by done. apply decide_ext. unfold buildable. destruct (hb_version b); intuition congruence.
  - intros Hv. unfold header_bytes. rewrite Hv. unfold header_with, v2_wire.
    rewrite !length_app, length_to_be_bytes, <- length_app, length_wire_payload by done. simpl. lia.
  - intros src dst Hs Hd. rewrite (take_unix_fields raws b src dst) by done.
    unfold padded. by rewrite <- !app_assoc.
Qed.

(** C19: a v1 header has at most 104 bytes, so that every one is within the 107
    bytes in which the parser looks for the end of the line; it ends with
    CRLF. *)
Theorem build_v1_length raws b bytes :
  made raws b -> hb_version b = V1 -> build b = Ok bytes ->
  15 <= length bytes <= 104 /\ 104 < V1_MAX_LEN /\ exists line, bytes = line ++ [x0d; x0a].
Proof.
  intros [Hc _]%made_inv Hv. unfold build. rewrite Hv, build_v1_eq by done. intros [= <-].
  pose proof (length_v1_text b Hc). rewrite length_app. simpl.
  split; [lia|]. split; [unfold V1_MAX_LEN; lia|]. by exists (v1_text b).
Qed.

(** C18: the SSL entry round-trips: what [with_ssl] encodes is decoded by
    [parse_ssl], at any offset, to the same record, with the flag bits the
    format does not define dropped. *)
Theorem ssl_roundtrip ssl v off :
  wf_ssl ssl -> encode_ssl_tlv_value ssl = Ok v -> parse_ssl v off = Ok (parsed_ssl ssl).
Proof.
  intros Hw Hv%decode_encode_ssl; [|done]. apply parse_ssl_Ok; [by eapply decode_ssl_length|done].
Qed.

(** C20: the API keeps builders consistent: command, transport and the two
    addresses always fit together (one address family, 16-bit ports); the
    entries given to [with_raw_tlv] are kept, in order; and every other entry
    is one the parser accepts and not a CRC32c entry, so that an entry the
    parser would refuse, or that clashes with the checksum, can only have
    come from [with_raw_tlv], which checks nothing. *)
Theorem builder_invariant raws b :
  made raws b ->
  consistent b /\ sublist raws (hb_tlv_entries b) /\
  Forall (fun e => (acceptable e /\ e.1 <> x03) \/ In e raws) (hb_tlv_entries b).
Proof. by intros [Hc [He Hs]]%made_inv. Qed.

(** C37: what the parser makes of every v2 header that the builder builds, with
    raw entries of any kind.  If all entries satisfy the constraints of their
    types: without a CRC32c entry the header parses back; with one, the value
    of the last is compared with the checksum of the header in which the
    first is zeroed, and the header is refused unless they are equal (so
    that a raw CRC32c entry defeats [with_crc32c], which zeroes its own, last
    entry).  If some entry does not: a PROXY header is refused as malformed,
    and a LOCAL header is accepted without its TLVs. *)
Theorem build_parse_verdict `{!CratesLaws C} raws b bytes rest :
  made raws b -> hb_version b = V2 -> build b = Ok bytes ->
  (Forall acceptable (hb_tlv_entries b) ->
     let actual := crc32c (header_with b (zero_crc (all_entries b))) in
     parse (bytes ++ rest) =
     match from_be_bytes <$> last_value x03 (all_entries b) with
     | Some crc => if decide (actual = crc) then Ok (parsed_v2 b, length bytes)
                   else Err (CrcMismatch crc actual)
     | None => Ok (parsed_v2 b, length bytes)
     end) /\
  (~ Forall acceptable (hb_tlv_entries b) ->
     match hb_command b with
     | Proxy => exists off, off <= length (tlvs_wire (all_entries b)) /\
         parse (bytes ++ rest) = Err (Invalid (MalformedTlv off))
     | Local => parse (bytes ++ rest)
                = Ok (mkInfo V2 Local None None None default_tlvs, length bytes)
     end).
Proof.
  intros Hm Hv [Hb ->]%(build_header_bytes raws); [|done].
  destruct (header_bytes_v2 raws b Hm Hb Hv) as (Hc & Hf & ->). split.
  - intros Ha. rewrite parse_built_acceptable by done. cbv zeta. unfold crc_verdict, header_crc.
    cbn [tlvs_of tlv_crc32c]. destruct (from_be_bytes <$> _) as [crc|]; [|done].
    destruct (decide (_ = crc)) as [Heq|Hne]; [rewrite decide_False by tauto|rewrite decide_True by done]; done.
  - by apply parse_built_unacceptable.
Qed.
End Build.

(** ** Witnesses *)

Definition sample_src : SocketAddr := SockV4 (Ipv4 x0a x00 x00 x01) 80.
Definition sample_dst : SocketAddr := SockV4 (Ipv4 x0a x00 x00 x02) 443.

Definition sample_v2_base : HeaderBuilder :=
  mkBuilder V2 Proxy (Some (mkTransport Inet Stream)) (Some (AddrInet sample_src))
    (Some (AddrInet sample_dst)) [] false.
Definition sample_raws : list (byte * list byte) := [(xea, x01 :: bstr "vpce-1")].
Definition sample_builder : HeaderBuilder :=
  with_crc32c (with_raw_tlv xea (x01 :: bstr "vpce-1") (with_authority (bstr "example.com") sample_v2_base)).

Definition sample_v1_base : HeaderBuilder :=
  mkBuilder V1 Proxy (Some (mkTransport Inet Stream)) (Some (AddrInet sample_src))
    (Some (AddrInet sample_dst)) [] false.

Lemma sample_builder_made : made sample_raws sample_builder.
Proof.
  apply (made_crc32c sample_raws), (made_raw_tlv _ _ []), made_authority;
    [|by vm_compute].
  by apply (made_v2_proxy sample_src sample_dst sample_v2_base).
Qed.

Lemma sample_v1_made : made [] sample_v1_base.
Proof. by apply (made_v1_proxy sample_src sample_dst sample_v1_base). Qed.

Definition sample_header : list byte := header_bytes (C:=reference_crates) sample_builder.

Lemma sample_built : build (C:=reference_crates) sample_builder = Ok sample_header.
Proof. by vm_compute. Qed.

Lemma build_parse_roundtrip_witness :
  parse (C:=reference_crates) (sample_header ++ bstr "GET /")
  = Ok (parsed (C:=reference_crates) sample_builder, length sample_header).
Proof.
  refine (build_parse_roundtrip (C:=reference_crates) sample_raws sample_builder sample_header
    (bstr "GET /") sample_builder_made _ sample_built).
  intros _. by repeat constructor.
Defined.

Lemma sample_parsed :
  parse (C:=reference_crates) sample_header
  = Ok (parsed (C:=reference_crates) sample_builder, length sample_header).
Proof. by vm_compute. Qed.

Lemma parse_build_roundtrip_witness :
  build (C:=reference_crates) (builder_of (parsed (C:=reference_crates) sample_builder))
  = Ok (take (length sample_header) sample_header).
Proof.
  exact (parse_build_roundtrip (C:=reference_crates) sample_header _ _ (mkTransport Inet Stream)
    sample_parsed eq_refl eq_refl eq_refl ltac:(discriminate)).
Defined.

(** A path of 200 bytes is cut to 108. *)
Definition long_path : list byte := replicate 200 x61.
Definition sample_unix : HeaderBuilder := v2_unix long_path (bstr "/run/b") Stream.

Lemma build_returns_iff_witness :
  build (C:=reference_crates) sample_unix = Ok (header_bytes (C:=reference_crates) sample_unix) /\
  take 216 (drop 16 (header_bytes (C:=reference_crates) sample_unix))
  = replicate 108 x61 ++ bstr "/run/b" ++ replicate 102 x00.
Proof.
  destruct (build_returns_iff (C:=reference_crates) [] sample_unix) as (H1 & _ & H2).
  - apply made_v2_unix.
  - split.
    + rewrite H1. rewrite decide_True; [reflexivity|right; split; [constructor|vm_compute; discriminate]].
    + rewrite (H2 _ _ eq_refl eq_refl). reflexivity.
Defined.

Lemma build_v1_length_witness :
  exists bytes, build (C:=reference_crates) sample_v1_base = Ok bytes /\ 15 <= length bytes <= 104.
Proof.
  eexists. split; [reflexivity|].
  exact (proj1 (build_v1_length (C:=reference_crates) [] sample_v1_base _ sample_v1_made eq_refl eq_refl)).
Defined.

Definition sample_ssl : SslInfo :=
  mkSsl (mkFlags x05) true (Some (bstr "TLSv1.3")) None None None (Some (bstr "client")) None None
    (Some [x30; x82]).

Lemma ssl_roundtrip_witness :
  exists v, encode_ssl_tlv_value sample_ssl = Ok v /\
    parse_ssl (C:=reference_crates) v 3 = Ok (parsed_ssl (C:=reference_crates) sample_ssl).
Proof.
  eexists. split; [reflexivity|].
  apply (ssl_roundtrip (C:=reference_crates) sample_ssl); [repeat split; vm_compute; reflexivity|reflexivity].
Defined.

Lemma builder_invariant_witness :
  consistent sample_builder /\ sublist sample_raws (hb_tlv_entries sample_builder) /\
  Forall (fun e => (acceptable (C:=reference_crates) e /\ e.1 <> x03) \/ In e sample_raws)
    (hb_tlv_entries sample_builder).
Proof. exact (builder_invariant (C:=reference_crates) sample_raws sample_builder sample_builder_made). Defined.

(** A link-local IPv6 address: its scope is lost. *)
Definition scoped_src : SocketAddr :=
  SockV6 (Ipv6 xfe x80 x00 x00 x00 x00 x00 x00 x00 x00 x00 x00 x00 x00 x00 x01) 80 0 2.

Lemma proxy_addresses_roundtrip_witness :
  exists b bytes info, v2_proxy scoped_src scoped_src = Ok b /\
    build (C:=reference_crates) b = Ok bytes /\
    parse (C:=reference_crates) bytes = Ok (info, length bytes) /\ command info = Proxy /\
    transport info = Some (mkTransport Inet6 Stream) /\
    source_inet info = Some (sock_new (sock_ip scoped_src) 80) /\
    destination_inet info = Some (sock_new (sock_ip scoped_src) 80).
Proof.
  exact (proxy_addresses_roundtrip (C:=reference_crates) scoped_src scoped_src v2_proxy
    ltac:(by split) ltac:(by split) ltac:(right; by left)).
Defined.

(** ** Two CRC entries *)

(** A LOCAL header with a raw CRC entry and [with_crc32c]. *)
Definition two_crcs : HeaderBuilder :=
  with_crc32c (with_raw_tlv x03 [x00; x00; x00; x01] v2_local).

Lemma build_parse_verdict_witness :
  exists bytes expected actual, build (C:=reference_crates) two_crcs = Ok bytes /\
    parse (C:=reference_crates) (bytes ++ []) = Err (CrcMismatch expected actual).
Proof.
  destruct (build_parse_verdict (C:=reference_crates) [(x03, [x00; x00; x00; x01])] two_crcs
    (header_bytes (C:=reference_crates) two_crcs) []) as [H _].
  - apply (made_crc32c [(x03, [x00; x00; x00; x01])]).
    apply (made_raw_tlv _ _ []), made_v2_local.
  - reflexivity.
  - by vm_compute.
  - exists (header_bytes (C:=reference_crates) two_crcs). do 2 eexists. split; [by vm_compute|].
    rewrite H; [vm_compute; reflexivity|by repeat constructor].
Defined.

(** Raw entries the parser refuses: an oversized unique ID in a PROXY header, and
    a CRC entry of one byte in a LOCAL header, which is dropped. *)
Example bad_raw_entries :
  (exists bytes, build (C:=reference_crates) (with_raw_tlv x05 (replicate 129 x00) sample_v2_base) = Ok bytes /\
     parse (C:=reference_crates) bytes = Err (Invalid (MalformedTlv 0))) /\
  (exists bytes, build (C:=reference_crates) (with_crc32c (with_raw_tlv x03 [x01] v2_local)) = Ok bytes /\
     parse (C:=reference_crates) bytes = Ok (mkInfo V2 Local None None None default_tlvs, length bytes)).
Proof. split; eexists; (split; [vm_compute; reflexivity|vm_compute; reflexivity]). Qed.
