(* ===== verification/Vendor.v ===== *)
(** * Cloud vendor TLVs

    [src/vendor/]: the accessors of [Tlvs] that decode the AWS, Azure and GCP
    entries from the raw list, and the values they accept. *)

From S2P Require Import Prelude Utf8 Net NetText Types Crates ParseTlv TlvFacts ParseV2 ParseV1.
From S2P Require Import ParseHeader V2Facts ParseWf Builder BuilderFacts BuilderV1.

(** ** Operations *)

Record AwsTlvs : Type := mkAws {
  vpc_endpoint_id : option (list byte);
  aws_raw : list (byte * list byte);
}.

Record AzureTlvs : Type := mkAzure {
  private_endpoint_link_id : option Z;
  azure_raw : list (byte * list byte);
}.

Record GcpTlvs : Type := mkGcp { psc_connection_id : Z }.

(** [u8::is_ascii_alphanumeric]. *)
Definition is_ascii_alphanumeric (b : byte) : bool :=
  bool_decide (48 <= Zb b <= 57 \/ 65 <= Zb b <= 90 \/ 97 <= Zb b <= 122)%Z.

Definition is_valid_vpce_id (s : list byte) : bool :=
  forallb (fun b => is_ascii_alphanumeric b || bool_decide (b = x2d)) s.

(** [iter().find(|(t, _)| *t == ty)]. *)
Definition find_tlv (ty : byte) (t : Tlvs) : option (list byte) :=
  (fun p => p.2.2) <$> list_find (fun e => e.1 = ty) (tlv_raw t).

Section Vendor.
(** The text of [{:?}] of a string, used in one error message. *)
Context (debug_str : list byte -> list byte).

Definition parse_aws_tlv (data : list byte) : res TlvParseError AwsTlvs :=
  if decide (data = []) then Err (MalformedSubTlv 0) else
  sub_type ← index data 0;
  value ← slice_from data 1;
  let raw := [(sub_type, value)] in
  if decide (sub_type = x01) then
    vpce ← ok_or (from_utf8 value) (InvalidValue (bstr "VPC endpoint ID is not valid UTF-8"));
    if negb (is_valid_vpce_id vpce) then
      Err (InvalidValue (bstr "VPC endpoint ID contains invalid characters: " ++ debug_str vpce))
    else Ok (mkAws (Some vpce) raw)
  else Ok (mkAws None raw).

Definition parse_azure_tlv (data : list byte) : res TlvParseError AzureTlvs :=
  if decide (data = []) then Err (MalformedSubTlv 0) else
  sub_type ← index data 0;
  value ← slice_from data 1;
  let raw := [(sub_type, value)] in
  if decide (sub_type = x01) then
    if decide (length value <> 4) then
      Err (InvalidValue (bstr "Azure Private Endpoint LinkID must be 4 bytes, got " ++
        show_dec (Z.of_nat (length value))))
    else
      b0 ← index value 0;
      b1 ← index value 1;
      b2 ← index value 2;
      b3 ← index value 3;
      Ok (mkAzure (Some (from_le_bytes [b0; b1; b2; b3])) raw)
  else Ok (mkAzure None raw).

Definition parse_gcp_tlv (value : list byte) : res TlvParseError GcpTlvs :=
  if decide (length value <> 8) then
    Err (InvalidValue (bstr "GCP PSC connection ID must be 8 bytes, got " ++
      show_dec (Z.of_nat (length value))))
  else
    bytes ← unwrap (try_array 8 value);
    Ok (mkGcp (from_be_bytes bytes)).

Definition aws (t : Tlvs) : option (res TlvParseError AwsTlvs) :=
  parse_aws_tlv <$> find_tlv xea t.
Definition azure (t : Tlvs) : option (res TlvParseError AzureTlvs) :=
  parse_azure_tlv <$> find_tlv xee t.
Definition gcp (t : Tlvs) : option (res TlvParseError GcpTlvs) :=
  parse_gcp_tlv <$> find_tlv xe0 t.

(** ** The accepted values *)

(** The characters of a VPC endpoint ID: [A-Za-z0-9-]. *)
Definition vpce_char (b : byte) : Prop :=
  (48 <= Zb b <= 57 \/ 65 <= Zb b <= 90 \/ 97 <= Zb b <= 122)%Z \/ b = x2d.

Lemma is_valid_vpce_id_spec s : is_valid_vpce_id s = true <-> Forall vpce_char s.
Proof.
  unfold is_valid_vpce_id, is_ascii_alphanumeric, vpce_char. rewrite forallb_forall, List.Forall_forall.
  split; intros H b Hb; specialize (H b Hb).
  - by rewrite orb_true_iff, !bool_decide_eq_true in H.
  - by rewrite orb_true_iff, !bool_decide_eq_true.
Qed.

Lemma vpce_ascii s : Forall vpce_char s -> utf8_valid s = true.
Proof.
  intros H. apply utf8_valid_ascii. revert H. apply Forall_impl.
  intros b [?| ->]; [lia|done].
Qed.

Lemma parse_aws_tlv_spec data aws :
  parse_aws_tlv data = Ok aws <->
  exists st v, data = st :: v /\ aws_raw aws = [(st, v)] /\
    (st = x01 -> Forall vpce_char v) /\
    vpc_endpoint_id aws = if decide (st = x01) then Some v else None.
Proof.
  unfold parse_aws_tlv. destruct data as [|st v]; [split; [done|by intros (? & ? & ? & _)]|].
  rewrite decide_False by done. simpl. rewrite drop_0. unfold from_utf8. split.
  - intros H. exists st, v. split; [done|]. case_decide as Hst.
    + destruct (utf8_valid v); [|done]. simpl in H.
      destruct (is_valid_vpce_id v) eqn:Hv; [|done]. injection H as <-.
      by apply is_valid_vpce_id_spec in Hv.
    + by injection H as <-.
  - intros (st' & v' & [= <- <-] & Hraw & Hc & Hid). destruct aws as [id raw]. simpl in *. subst.
    case_decide as Hst; [|done]. specialize (Hc Hst).
    rewrite vpce_ascii by done. simpl. apply is_valid_vpce_id_spec in Hc. by rewrite Hc.
Qed.

Lemma parse_azure_tlv_spec data az :
  parse_azure_tlv data = Ok az <->
  exists st v, data = st :: v /\ azure_raw az = [(st, v)] /\ (st = x01 -> length v = 4) /\
    private_endpoint_link_id az = if decide (st = x01) then Some (from_le_bytes v) else None.
Proof.
  unfold parse_azure_tlv. destruct data as [|st v]; [split; [done|by intros (? & ? & ? & _)]|].
  rewrite decide_False by done. simpl. rewrite drop_0.
  assert (Hread : length v = 4 ->
    (b0 ← index v 0; b1 ← index v 1; b2 ← index v 2; b3 ← index v 3;
     Ok (mkAzure (Some (from_le_bytes [b0; b1; b2; b3])) [(st, v)]))
    = Ok (E:=TlvParseError) (mkAzure (Some (from_le_bytes v)) [(st, v)])).
  { intros Hv. by do 5 (destruct v as [|? v]; [done|]). }
  split.
  - intros H. exists st, v. split; [done|]. case_decide as Hst; [|by injection H as <-].
    case_decide as Hv; [done|]. rewrite Hread in H by done. by injection H as <-.
  - intros (st' & v' & [= <- <-] & Hraw & Hl & Hid). destruct az as [id raw]. simpl in *. subst.
    case_decide as Hst; [|done]. specialize (Hl Hst). rewrite decide_False by lia.
    by rewrite Hread.
Qed.

Lemma parse_gcp_tlv_spec v g :
  parse_gcp_tlv v = Ok g <-> length v = 8 /\ psc_connection_id g = from_be_bytes v.
Proof.
  unfold parse_gcp_tlv, try_array. case_decide as Hv.
  - split; [done|by intros [? _]].
  - rewrite decide_True by done. simpl. destruct g as [id]. simpl. split; [intros [= <-]; split; [lia|done]|by intros [_ ->]].
Qed.


(** The first entry of a type is the one that is read. *)
Lemma find_tlv_first ty t es v es' :
  tlv_raw t = es ++ (ty, v) :: es' -> Forall (fun e => e.1 <> ty) es -> find_tlv ty t = Some v.
Proof.
  unfold find_tlv. intros -> Hes.
  rewrite list_find_app_r by (by apply list_find_None). simpl. by rewrite decide_True.
Qed.

Lemma parse_vendor_returns v :
  returns (parse_aws_tlv v) /\ returns (parse_azure_tlv v) /\ returns (parse_gcp_tlv v).
Proof.
  unfold parse_aws_tlv, parse_azure_tlv, parse_gcp_tlv. split; [|split].
  - case_decide; [done|]. destruct v as [|st v]; [done|]. simpl. case_decide; [|done].
    destruct (from_utf8 _); [|done]. simpl. by destruct (is_valid_vpce_id _).
  - case_decide; [done|]. destruct v as [|st v]; [done|]. simpl. rewrite drop_0.
    case_decide; [|done]. case_decide as Hv; [done|].
    by do 4 (destruct v as [|? v]; [done|]).
  - case_decide; [done|]. unfold try_array. by rewrite decide_True by lia.
Qed.

(** ** Theorems *)

Context {C : Crates}.

(** The little-endian bytes of a [u32]. *)
Definition to_le_bytes_32 (z : Z) : list byte := reverse (to_be_bytes 4 z).

Definition not_vendor (e : byte * list byte) : Prop := e.1 <> xea /\ e.1 <> xee /\ e.1 <> xe0.

(** C31: the vendor entries round-trip through a header: an AWS endpoint ID made
    of letters, digits and dashes, an Azure link ID (32 bits, little endian)
    and a GCP connection ID (64 bits, big endian), added to a v2 header as
    raw entries (to a header whose other raw entries are ones the parser
    accepts), are read back by [aws], [azure] and [gcp] from the parsed
    header. *)
Theorem vendor_roundtrip `{!CratesLaws C} raws b0 b bytes id link psc :
  made raws b0 -> Forall entry_ok raws -> hb_version b0 = V2 -> Forall not_vendor (hb_tlv_entries b0) ->
  Forall vpce_char id -> is_u32 link -> (0 <= psc < 2 ^ 64)%Z ->
  b = with_raw_tlv xea (x01 :: id) (with_raw_tlv xee (x01 :: to_le_bytes_32 link)
        (with_raw_tlv xe0 (to_be_bytes 8 psc) b0)) ->
  build b = Ok bytes ->
  exists info, parse bytes = Ok (info, length bytes) /\
    aws (tlvs info) = Some (Ok (mkAws (Some id) [(x01, id)])) /\
    azure (tlvs info) = Some (Ok (mkAzure (Some link) [(x01, to_le_bytes_32 link)])) /\
    gcp (tlvs info) = Some (Ok (mkGcp psc)).
Proof.
  intros Hm Hraws Hv Hnv Hid Hlink Hpsc Hb Hbuild.
  set (vs := [(xe0, to_be_bytes 8 psc); (xee, x01 :: to_le_bytes_32 link); (xea, x01 :: id)]).
  assert (Hmb : made (raws ++ vs) b).
  { subst b vs. pose proof (made_raw_tlv xe0 (to_be_bytes 8 psc) _ _ Hm) as H.
    apply (made_raw_tlv xee (x01 :: to_le_bytes_32 link)) in H.
    apply (made_raw_tlv xea (x01 :: id)) in H. by rewrite <- !app_assoc in H. }
  destruct (build_header_bytes _ b bytes Hmb Hbuild) as [Hf ->].
  exists (parsed b). split.
  { rewrite <- (app_nil_r (header_bytes b)) at 1. apply (parse_header_bytes (raws ++ vs)); [done| |done].
    intros _. apply Forall_app. split; [done|].
    subst vs. do 3 (apply List.Forall_cons; [by apply entry_ok_plain|]). constructor. }
  assert (Hraw : exists es, tlv_raw (tlvs (parsed b)) = hb_tlv_entries b0 ++
    [(xe0, to_be_bytes 8 psc); (xee, x01 :: to_le_bytes_32 link); (xea, x01 :: id)] ++ es).
  { unfold parsed. rewrite Hb. cbn [with_raw_tlv push_entry hb_version]. rewrite Hv.
    eexists. cbn. unfold all_entries. cbn. by rewrite <- !app_assoc. }
  destruct Hraw as [es Hraw].
  assert (Hn : forall ty, ty = xea \/ ty = xee \/ ty = xe0 ->
    Forall (fun e => e.1 <> ty) (hb_tlv_entries b0)).
  { intros ty Hty. revert Hnv. apply Forall_impl. intros e (? & ? & ?). by destruct Hty as [->|[->| ->]]. }
  split; [|split].
  - unfold aws. rewrite (find_tlv_first xea _ (hb_tlv_entries b0 ++
      [(xe0, to_be_bytes 8 psc); (xee, x01 :: to_le_bytes_32 link)]) (x01 :: id) es).
    + simpl. f_equal. apply parse_aws_tlv_spec. by exists x01, id.
    + by rewrite Hraw, <- app_assoc.
    + apply Forall_app. split; [by auto|by repeat constructor].
  - unfold azure. rewrite (find_tlv_first xee _ (hb_tlv_entries b0 ++
      [(xe0, to_be_bytes 8 psc)]) (x01 :: to_le_bytes_32 link) ([(xea, x01 :: id)] ++ es)).
    + simpl. f_equal. apply parse_azure_tlv_spec. exists x01, (to_le_bytes_32 link).
      do 2 (split; [done|]). split; [done|]. rewrite decide_True by done. cbn [private_endpoint_link_id].
      unfold from_le_bytes, to_le_bytes_32. by rewrite reverse_involutive, from_to_be_bytes_32.
    + by rewrite Hraw, <- app_assoc.
    + apply Forall_app. split; [by auto|by repeat constructor].
  - unfold gcp. rewrite (find_tlv_first xe0 _ (hb_tlv_entries b0) (to_be_bytes 8 psc)
      ([(xee, x01 :: to_le_bytes_32 link); (xea, x01 :: id)] ++ es)).
    + cbn [fmap option_fmap option_map]. f_equal. apply parse_gcp_tlv_spec. split; [done|].
      cbn [psc_connection_id]. by rewrite from_to_be_bytes, Z.mod_small.
    + done.
    + by auto.
Qed.
End Vendor.

(** C32: the values accepted: an AWS entry exactly when it is not empty and, for
    subtype 1, its data are the characters of an endpoint ID; an Azure entry
    exactly when it is not empty and, for subtype 1, its data are 4 bytes; a
    GCP entry exactly when it is 8 bytes; every other value is an error, and
    no value makes the code panic. *)
Theorem vendor_values debug_str v :
  ((exists aws, parse_aws_tlv debug_str v = Ok aws) <->
     exists st data, v = st :: data /\ (st = x01 -> Forall vpce_char data)) /\
  ((exists azure, parse_azure_tlv v = Ok azure) <->
     exists st data, v = st :: data /\ (st = x01 -> length data = 4)) /\
  ((exists gcp, parse_gcp_tlv v = Ok gcp) <-> length v = 8) /\
  returns (parse_aws_tlv debug_str v) /\ returns (parse_azure_tlv v) /\ returns (parse_gcp_tlv v).
Proof.
  split; [|split; [|split; [|apply parse_vendor_returns]]].
  - split.
    + intros (a & (st & d & -> & _ & H & _)%parse_aws_tlv_spec). by exists st, d.
    + intros (st & d & -> & H).
      exists (mkAws (if decide (st = x01) then Some d else None) [(st, d)]).
      apply parse_aws_tlv_spec. by exists st, d.
  - split.
    + intros (a & (st & d & -> & _ & H & _)%parse_azure_tlv_spec). by exists st, d.
    + intros (st & d & -> & H).
      exists (mkAzure (if decide (st = x01) then Some (from_le_bytes d) else None) [(st, d)]).
      apply parse_azure_tlv_spec. by exists st, d.
  - split.
    + by intros (g & [H _]%parse_gcp_tlv_spec).
    + intros H. exists (mkGcp (from_be_bytes v)). by apply parse_gcp_tlv_spec.
Qed.

(** ** Witness *)

Definition vendor_sample : HeaderBuilder :=
  with_raw_tlv xea (x01 :: bstr "vpce-08d2bf15") (with_raw_tlv xee (x01 :: to_le_bytes_32 305419896)
    (with_raw_tlv xe0 (to_be_bytes 8 81985529216486895) v2_local)).

Lemma vendor_roundtrip_witness :
  exists bytes info, build (C:=reference_crates) vendor_sample = Ok bytes /\
    parse (C:=reference_crates) bytes = Ok (info, length bytes) /\
    aws id (tlvs info)
    = Some (Ok (mkAws (Some (bstr "vpce-08d2bf15")) [(x01, bstr "vpce-08d2bf15")])) /\
    azure (tlvs info) = Some (Ok (mkAzure (Some 305419896%Z) [(x01, to_le_bytes_32 305419896)])) /\
    gcp (tlvs info) = Some (Ok (mkGcp 81985529216486895)).
Proof.
  destruct (vendor_roundtrip id (C:=reference_crates) [] v2_local vendor_sample
    (header_bytes (C:=reference_crates) vendor_sample) (bstr "vpce-08d2bf15") 305419896 81985529216486895)
    as (info & H); [apply made_v2_local|constructor|reflexivity|constructor| |done|done|reflexivity|by vm_compute|].
  - apply is_valid_vpce_id_spec. by vm_compute.
  - by exists (header_bytes (C:=reference_crates) vendor_sample), info.
Defined.
