(* ===== verification/Policy.v ===== *)
(** * Connection policies and header validators

    [src/policy.rs] and [src/validator.rs].  The traits are type classes with
    the crate's implementations as instances; an [Arc<dyn Trait>] is the
    method of the packed value.  The [ipnet] crate is not part of the
    repository: the class [IpNets] has the operations the code calls and
    [IpNetsLaws] their documented behaviour. *)

From stdpp Require Import gmap.
From S2P Require Import Prelude Net Types.

(** ** Sets of addresses *)

Definition ip_octets (ip : IpAddr) : list byte :=
  match ip with
  | IpV4 a => octets4 a
  | IpV6 a => octets6 a
  end.

Definition ip_of_octets (l : list byte) : option IpAddr :=
  match l with
  | [a; b; c; d] => Some (IpV4 (Ipv4 a b c d))
  | l => IpV6 <$> ipv6_from_octets l
  end.

#[export] Program Instance ip_countable : Countable IpAddr := inj_countable ip_octets ip_of_octets _.
Next Obligation. by intros [[]|[]]. Qed.

(** ** The ipnet crate *)

(** The bits of an address, most significant first. *)
Definition byte_bits (b : byte) : list bool :=
  map (fun i => Z.testbit (Zb b) i) [7; 6; 5; 4; 3; 2; 1; 0]%Z.
Definition ip_bits (ip : IpAddr) : list bool := concat (map byte_bits (ip_octets ip)).

Class IpNets : Type := {
  IpNet : Type;
  prefix_len : IpNet -> nat;
  max_prefix_len : IpNet -> nat;
  net_addr : IpNet -> IpAddr;
  net_contains : IpNet -> IpAddr -> bool;
}.

(** A network has at most as many prefix bits as its addresses have bits, and
    contains the addresses of its family that start with its prefix. *)
Class IpNetsLaws (N : IpNets) : Prop := {
  max_prefix_len_bits : forall n, max_prefix_len n = length (ip_bits (net_addr n));
  prefix_len_max : forall n, prefix_len n <= max_prefix_len n;
  net_contains_spec : forall n ip,
    net_contains n ip = true <->
    length (ip_bits ip) = length (ip_bits (net_addr n)) /\
    take (prefix_len n) (ip_bits ip) = take (prefix_len n) (ip_bits (net_addr n));
}.

(** ** policy.rs *)

Inductive PolicyDecision : Type := Require_ | Use | Ignore | Reject.

#[export] Instance PolicyDecision_eq_dec : EqDecision PolicyDecision.
Proof. solve_decision. Defined.

Class ConnPolicy (P : Type) : Type := evaluate : P -> SocketAddr -> PolicyDecision.

Inductive AcceptAll : Type := mkAcceptAll.
#[export] Instance accept_all_policy : ConnPolicy AcceptAll := fun _ _ => Require_.

Section Trusted.
Context {N : IpNets}.

Record TrustedProxies : Type := mkTrusted {
  exact_ips : gset IpAddr;
  cidrs : list IpNet;
}.

Definition trusted_new (addrs : list IpAddr) : TrustedProxies :=
  mkTrusted (list_to_set addrs) [].

Definition with_cidrs (addrs : list IpAddr) (nets : list IpNet) : TrustedProxies :=
  mkTrusted (list_to_set addrs) nets.

(** One iteration of the loop of [from_ipnets]. *)
Definition add_ipnet (acc : gset IpAddr * list IpNet) (net : IpNet) : gset IpAddr * list IpNet :=
  if decide (prefix_len net = max_prefix_len net)
  then ({[net_addr net]} ∪ acc.1, acc.2)
  else (acc.1, acc.2 ++ [net]).

Definition from_ipnets (nets : list IpNet) : TrustedProxies :=
  let '(exact, cidrs) := foldl add_ipnet (∅, []) nets in
  mkTrusted exact cidrs.

Definition contains (t : TrustedProxies) (ip : IpAddr) : bool :=
  bool_decide (ip ∈ exact_ips t) || existsb (fun net => net_contains net ip) (cidrs t).

#[export] Instance trusted_policy : ConnPolicy TrustedProxies := fun t peer_addr =>
  if contains t (sock_ip peer_addr) then Require_ else Reject.

Record MixedMode : Type := mkMixed { trusted : TrustedProxies }.

(** [MixedMode::new] and [From<TrustedProxies>]. *)
Definition mixed_new (t : TrustedProxies) : MixedMode := mkMixed t.

#[export] Instance mixed_policy : ConnPolicy MixedMode := fun m peer_addr =>
  if contains (trusted m) (sock_ip peer_addr) then Require_ else Ignore.
End Trusted.

Inductive OptionalProxy : Type := mkOptionalProxy.
#[export] Instance optional_policy : ConnPolicy OptionalProxy := fun _ _ => Use.

(** Closures. *)
#[export] Instance closure_policy : ConnPolicy (SocketAddr -> PolicyDecision) :=
  fun f peer_addr => f peer_addr.

(** [Arc<dyn ConnPolicy>]. *)
Definition DynPolicy : Type := SocketAddr -> PolicyDecision.
Definition dyn_policy {P} `{ConnPolicy P} (p : P) : DynPolicy := evaluate p.

(** ** validator.rs *)

(** A boxed error is the text it displays. *)
Class HeaderValidator (V : Type) : Type :=
  validate : V -> ProxyInfo -> SocketAddr -> res (list byte) unit.

#[export] Instance closure_validator : HeaderValidator (ProxyInfo -> SocketAddr -> res (list byte) unit) :=
  fun f header peer_addr => f header peer_addr.

Definition DynValidator : Type := ProxyInfo -> SocketAddr -> res (list byte) unit.
Definition dyn_validator {V} `{HeaderValidator V} (v : V) : DynValidator := validate v.

(** ** Addresses and their bits *)

Lemma byte_bits_inj b c : byte_bits b = byte_bits c -> b = c.
Proof.
  intros [= H7 H6 H5 H4 H3 H2 H1 H0]. apply Zb_inj, Z.bits_inj'. intros i Hi.
  destruct (decide (i < 8)%Z) as [Hlt|Hge].
  - assert (i = 0 \/ i = 1 \/ i = 2 \/ i = 3 \/ i = 4 \/ i = 5 \/ i = 6 \/ i = 7)%Z
      as [->|[->|[->|[->|[->|[->|[->| ->]]]]]]] by lia; done.
  - pose proof (Zb_range b). pose proof (Zb_range c).
    assert (Hhigh : forall z, (0 <= z < 256)%Z -> Z.testbit z i = false).
    { intros z Hz. destruct (decide (z = 0)%Z) as [->|]; [apply Z.bits_0|].
      apply Z.bits_above_log2; [lia|]. apply (Z.lt_le_trans _ 8); [|lia].
      apply Z.log2_lt_pow2; lia. }
    by rewrite !Hhigh.
Qed.

Lemma bits_inj l k :
  length l = length k -> concat (map byte_bits l) = concat (map byte_bits k) -> l = k.
Proof.
  revert k. induction l as [|b l IH]; intros [|c k] Hl; try done. cbn [map concat]. intros H.
  apply app_inj_1 in H as [->%byte_bits_inj H]; [|done]. f_equal. apply IH; [|done].
  by injection Hl.
Qed.

Lemma length_bits l : length (concat (map byte_bits l)) = 8 * length l.
Proof. induction l as [|b l IH]; [done|]. cbn [map concat]. rewrite length_app, IH. simpl. lia. Qed.

Lemma ip_bits_inj ip ip' : ip_bits ip = ip_bits ip' -> ip = ip'.
Proof.
  intros H. apply (inj Some). assert (Hdec : forall a, ip_of_octets (ip_octets a) = Some a)
    by (by intros [[]|[]]).
  rewrite <- !Hdec. f_equal. apply bits_inj; [|done].
  apply (f_equal length) in H. unfold ip_bits in H. rewrite !length_bits in H. lia.
Qed.

(** ** Theorems *)

Section Theorems.
Context {N : IpNets} `{!IpNetsLaws N}.
Implicit Types (net : IpNet) (ip : IpAddr).

(** A network of host length holds one address. *)
Lemma host_contains net ip :
  prefix_len net = max_prefix_len net -> net_contains net ip = true <-> ip = net_addr net.
Proof.
  intros Hp. rewrite net_contains_spec, Hp, max_prefix_len_bits. split.
  - intros [Hl Ht]. apply ip_bits_inj. rewrite <- Hl in Ht. rewrite !take_ge in Ht by lia. done.
  - by intros ->.
Qed.

Lemma add_ipnets_contains nets exact cidrs ip :
  let t := foldl add_ipnet (exact, cidrs) nets in
  contains (mkTrusted t.1 t.2) ip = true <->
  contains (mkTrusted exact cidrs) ip = true \/ exists net, In net nets /\ net_contains net ip = true.
Proof.
  revert exact cidrs. induction nets as [|net nets IH]; intros exact cidrs; cbn [foldl].
  { simpl. split; [by left|]. by intros [?|(? & [] & _)]. }
  assert (Hadd : contains (mkTrusted (add_ipnet (exact, cidrs) net).1 (add_ipnet (exact, cidrs) net).2) ip
      = true <-> contains (mkTrusted exact cidrs) ip = true \/ net_contains net ip = true).
  { unfold contains, add_ipnet. rewrite !orb_true_iff, !bool_decide_eq_true. case_decide as Hh; cbn.
    - rewrite host_contains, elem_of_union, elem_of_singleton by done. tauto.
    - rewrite existsb_app, orb_true_iff. simpl. rewrite orb_false_r. tauto. }
  destruct (add_ipnet (exact, cidrs) net) as [e c]. rewrite IH, Hadd. simpl. split.
  - intros [[?|?]|(n & ? & ?)]; eauto.
  - intros [?|(n & [->|?] & ?)]; eauto.
Qed.

Lemma from_ipnets_any nets ip :
  contains (from_ipnets nets) ip = existsb (fun net => net_contains net ip) nets.
Proof.
  apply eq_true_iff_eq. rewrite existsb_exists. unfold from_ipnets.
  pose proof (add_ipnets_contains nets ∅ [] ip) as H. cbn in H.
  destruct (foldl add_ipnet (∅, []) nets) as [e c]. rewrite H.
  unfold contains. simpl. rewrite orb_false_r, bool_decide_eq_true, elem_of_empty. tauto.
Qed.

(** C29: [from_ipnets] keeps the meaning of the list it splits: an address is
    trusted exactly when one of the given networks contains it, although
    networks of host length are stored as single addresses in a hash set. *)
Theorem from_ipnets_contains nets ip :
  contains (from_ipnets nets) ip = existsb (fun net => net_contains net ip) nets.
Proof. apply from_ipnets_any. Qed.

(** C30: the decisions of the policies over a list of networks: peers inside one
    of them must send a header; all others are rejected by [TrustedProxies]
    and passed through unread by [MixedMode]; the same list given as
    addresses and as networks makes the same decisions. *)
Theorem policy_decisions nets peer :
  let trusted_peer := existsb (fun net => net_contains net (sock_ip peer)) nets in
  evaluate (from_ipnets nets) peer = (if trusted_peer then Require_ else Reject) /\
  evaluate (mixed_new (from_ipnets nets)) peer = (if trusted_peer then Require_ else Ignore) /\
  evaluate (with_cidrs [] nets) peer = evaluate (from_ipnets nets) peer.
Proof.
  intros tp. pose proof (from_ipnets_any nets (sock_ip peer)) as H. fold tp in H.
  unfold evaluate, trusted_policy, mixed_policy. cbn [mixed_new trusted]. rewrite H.
  split; [done|]. split; [done|]. unfold contains. simpl.
  by rewrite bool_decide_eq_false_2 by set_solver.
Qed.
End Theorems.

(** ** A concrete ipnet *)

(** A network as an address with a prefix length within its bits. *)
Definition ref_contains (n : IpAddr * nat) (ip : IpAddr) : bool :=
  let len := length (ip_bits n.1) in
  bool_decide (length (ip_bits ip) = len /\
    take (n.2 `min` len) (ip_bits ip) = take (n.2 `min` len) (ip_bits n.1)).

Definition reference_ipnets : IpNets := {|
  IpNet := IpAddr * nat;
  prefix_len n := n.2 `min` length (ip_bits n.1);
  max_prefix_len n := length (ip_bits n.1);
  net_addr n := n.1;
  net_contains := ref_contains;
|}.

#[export] Instance reference_ipnets_laws : IpNetsLaws reference_ipnets.
Proof.
  split; simpl; [done|lia|]. intros n ip. unfold ref_contains. by rewrite bool_decide_eq_true.
Qed.

Definition sample_nets : list (IpAddr * nat) :=
  [(IpV4 (Ipv4 x0a x00 x00 x01), 32); (IpV4 (Ipv4 xc0 xa8 x00 x00), 16)].

Lemma from_ipnets_contains_witness :
  contains (N:=reference_ipnets) (from_ipnets (N:=reference_ipnets) sample_nets)
    (IpV4 (Ipv4 xc0 xa8 x07 x09)) = true.
Proof.
  rewrite (from_ipnets_contains (N:=reference_ipnets) sample_nets). vm_compute. reflexivity.
Defined.

Lemma policy_decisions_witness :
  evaluate (from_ipnets (N:=reference_ipnets) sample_nets)
    (SockV4 (Ipv4 x0a x00 x00 x02) 1234) = Reject.
Proof.
  destruct (policy_decisions (N:=reference_ipnets) sample_nets (SockV4 (Ipv4 x0a x00 x00 x02) 1234))
    as (H & _ & _).
  rewrite H. vm_compute. reflexivity.
Defined.
