(* ===== verification/Config.v ===== *)
(** * Configuration

    [src/config.rs]: the configuration of a listener and its builder.  A
    [Duration] is its number of nanoseconds and a [usize] a natural number. *)

From S2P Require Import Prelude Net Types Policy.

Inductive VersionPreference : Type := Both | V1Only | V2Only.

#[export] Instance VersionPreference_eq_dec : EqDecision VersionPreference.
Proof. solve_decision. Defined.

Definition Duration : Type := Z.
Definition from_secs (s : Z) : Duration := (s * 1000000000)%Z.

Record ProxyProtocolConfig : Type := mkConfig {
  header_timeout : Duration;
  max_header_size : nat;
  max_pending_handshakes : nat;
  policy : DynPolicy;
  validator : option DynValidator;
  version_pref : VersionPreference;
}.

(** [ProxyProtocolConfig::default()]. *)
Definition default_config : ProxyProtocolConfig :=
  mkConfig (from_secs 5) 4096 1024 (dyn_policy mkAcceptAll) None Both.

Record ConfigBuilder : Type := mkConfigBuilder {
  cb_header_timeout : Duration;
  cb_max_header_size : nat;
  cb_max_pending_handshakes : nat;
  cb_policy : DynPolicy;
  cb_validator : option DynValidator;
  cb_version : VersionPreference;
}.

(** [ConfigBuilder::default()] and [ProxyProtocolConfig::builder()]. *)
Definition default_builder : ConfigBuilder :=
  mkConfigBuilder (from_secs 5) 4096 1024 (dyn_policy mkAcceptAll) None Both.
Definition builder : ConfigBuilder := default_builder.

Definition set_header_timeout (timeout : Duration) (c : ConfigBuilder) : ConfigBuilder :=
  mkConfigBuilder timeout (cb_max_header_size c) (cb_max_pending_handshakes c) (cb_policy c)
    (cb_validator c) (cb_version c).
Definition set_max_header_size (size : nat) (c : ConfigBuilder) : ConfigBuilder :=
  mkConfigBuilder (cb_header_timeout c) size (cb_max_pending_handshakes c) (cb_policy c)
    (cb_validator c) (cb_version c).
Definition set_max_pending_handshakes (limit : nat) (c : ConfigBuilder) : ConfigBuilder :=
  mkConfigBuilder (cb_header_timeout c) (cb_max_header_size c) limit (cb_policy c)
    (cb_validator c) (cb_version c).
Definition set_policy {P} `{ConnPolicy P} (p : P) (c : ConfigBuilder) : ConfigBuilder :=
  mkConfigBuilder (cb_header_timeout c) (cb_max_header_size c) (cb_max_pending_handshakes c)
    (dyn_policy p) (cb_validator c) (cb_version c).
Definition set_validator {V} `{HeaderValidator V} (v : V) (c : ConfigBuilder) : ConfigBuilder :=
  mkConfigBuilder (cb_header_timeout c) (cb_max_header_size c) (cb_max_pending_handshakes c)
    (cb_policy c) (Some (dyn_validator v)) (cb_version c).
Definition set_version (v : VersionPreference) (c : ConfigBuilder) : ConfigBuilder :=
  mkConfigBuilder (cb_header_timeout c) (cb_max_header_size c) (cb_max_pending_handshakes c)
    (cb_policy c) (cb_validator c) v.

(** [ConfigError], a message. *)
Record ConfigError : Type := mkConfigError { message : list byte }.

Definition build_config (c : ConfigBuilder) : res ConfigError ProxyProtocolConfig :=
  if decide (cb_header_timeout c = 0)%Z then
    Err (mkConfigError (bstr "header_timeout must be greater than zero"))
  else if decide (cb_max_header_size c = 0) then
    Err (mkConfigError (bstr "max_header_size must be greater than zero"))
  else if decide (cb_max_pending_handshakes c = 0) then
    Err (mkConfigError (bstr "max_pending_handshakes must be greater than zero"))
  else
    Ok (mkConfig (cb_header_timeout c) (cb_max_header_size c) (cb_max_pending_handshakes c)
          (cb_policy c) (cb_validator c) (cb_version c)).

(** ** Theorems *)

(** The limits with which a listener can make progress. *)
Definition wf_config (c : ProxyProtocolConfig) : Prop :=
  (0 < header_timeout c)%Z /\ 0 < max_header_size c /\ 0 < max_pending_handshakes c.

(** C33: [ConfigBuilder::build] returns a configuration exactly when the three
    limits are not zero; the configuration holds what was set and its limits
    are positive. *)
Theorem build_config_iff cb c :
  (0 <= cb_header_timeout cb)%Z ->
  build_config cb = Ok c <->
  wf_config c /\ header_timeout c = cb_header_timeout cb /\
  max_header_size c = cb_max_header_size cb /\
  max_pending_handshakes c = cb_max_pending_handshakes cb /\ policy c = cb_policy cb /\
  validator c = cb_validator cb /\ version_pref c = cb_version cb.
Proof.
  intros Ht. unfold build_config, wf_config. split.
  - repeat case_decide; try done. intros [= <-]. simpl. repeat split; lia || done.
  - destruct c. simpl. intros ((? & ? & ?) & -> & -> & -> & -> & -> & ->).
    by rewrite !decide_False by lia.
Qed.

Lemma build_config_iff_witness :
  exists c, build_config (set_version V2Only (set_max_header_size 536 builder)) = Ok c /\
    wf_config c /\ max_header_size c = 536 /\ version_pref c = V2Only.
Proof.
  eexists. split; [reflexivity|].
  destruct (proj1 (build_config_iff (set_version V2Only (set_max_header_size 536 builder)) _
    ltac:(done)) eq_refl) as (Hw & _ & Hs & _ & _ & _ & Hv).
  split; [exact Hw|]. by split.
Defined.
