(* ===== verification/Stream.v ===== *)
(** * The accepted stream

    [src/stream.rs]: a TCP stream with the metadata of its header and the
    bytes that were read behind the header.  The socket is tokio's and not
    part of the repository: [AsyncRead] and [AsyncWrite] are the methods the
    code calls, and [ByteSource] states what a reader may rely on.  The
    stream of the crate is again an instance of all three. *)

From S2P Require Import Prelude Net Types.

(** ** tokio's read and write interfaces *)

Inductive Poll (A : Type) : Type :=
| Ready (a : A)
| Pending.
Arguments Ready {A} a.
Arguments Pending {A}.

Definition io_result (A : Type) : Type := (IoError + A)%type.

(** [ReadBuf]: the bytes filled so far and the capacity. *)
Record ReadBuf : Type := mkReadBuf { filled : list byte; capacity : nat }.

Definition remaining (b : ReadBuf) : nat := capacity b - length (filled b).

(** [put_slice] panics when the bytes do not fit. *)
Definition put_slice (b : ReadBuf) (data : list byte) : res Empty_set ReadBuf :=
  _ ← rust_assert (bool_decide (length data <= remaining b));
  Ok (mkReadBuf (filled b ++ data) (capacity b)).

Class AsyncRead (S : Type) : Type :=
  poll_read : S -> ReadBuf -> res Empty_set (S * ReadBuf * Poll (io_result unit)).

Class AsyncWrite (S : Type) : Type := {
  poll_write : S -> list byte -> S * Poll (io_result nat);
  poll_flush : S -> S * Poll (io_result unit);
  poll_shutdown : S -> S * Poll (io_result unit);
}.

(** What one call of [poll_read] does: it appends to the buffer the next bytes
    of the stream, none unless it is ready; being ready without bytes means
    that the buffer is full or that the stream has ended. *)
Definition read_step {S} (contents : S -> list byte) (s : S) (b : ReadBuf)
    (s' : S) (b' : ReadBuf) (p : Poll (io_result unit)) : Prop :=
  exists chunk,
    b' = mkReadBuf (filled b ++ chunk) (capacity b) /\ length chunk <= remaining b /\
    contents s = chunk ++ contents s' /\ (p <> Ready (inr tt) -> chunk = []) /\
    (p = Ready (inr tt) -> chunk = [] -> remaining b = 0 \/ contents s = []).

(** A stream that, from well-formed states, never panics and delivers its
    contents in order. *)
Class ByteSource (S : Type) `{AsyncRead S} : Type := {
  source_ok : S -> Prop;
  contents : S -> list byte;
  poll_read_step : forall s b, source_ok s ->
    exists s' b' p, poll_read s b = Ok (s', b', p) /\ source_ok s' /\ read_step contents s b s' b' p;
}.

(** ** stream.rs *)

Record ProxyConnectInfo : Type := mkConnectInfo {
  ci_client_addr : SocketAddr;
  ci_peer_addr : SocketAddr;
  ci_proxy_info : option ProxyInfo;
}.

(** [leftover] is the data of a [Cursor] and [position] its position. *)
Record ProxiedStream (TcpStream : Type) : Type := mkStream {
  inner : TcpStream;
  leftover : list byte;
  position : nat;
  proxy_info : option ProxyInfo;
  peer_addr : SocketAddr;
}.
Arguments mkStream {TcpStream} inner leftover position proxy_info peer_addr.
Arguments inner {TcpStream} _.
Arguments leftover {TcpStream} _.
Arguments position {TcpStream} _.
Arguments proxy_info {TcpStream} _.
Arguments peer_addr {TcpStream} _.

Section Stream.
Context {TcpStream : Type}.
Implicit Types (s : ProxiedStream TcpStream).

Definition stream_new (inner : TcpStream) (leftover : list byte) (proxy_info : option ProxyInfo)
    (peer_addr : SocketAddr) : ProxiedStream TcpStream :=
  mkStream inner leftover 0 proxy_info peer_addr.

Definition client_addr s : SocketAddr := default (peer_addr s) (proxy_info s ≫= source_inet).

Definition connect_info s : ProxyConnectInfo :=
  mkConnectInfo (client_addr s) (peer_addr s) (proxy_info s).

(** [From<&ProxiedStream>]. *)
Definition connect_info_from_stream s : ProxyConnectInfo := connect_info s.

Definition set_inner s (i : TcpStream) : ProxiedStream TcpStream :=
  mkStream i (leftover s) (position s) (proxy_info s) (peer_addr s).

(** The bytes read behind the header come first, then those of the socket. *)
#[export] Instance proxied_read `{AsyncRead TcpStream} : AsyncRead (ProxiedStream TcpStream) :=
  fun s buf =>
    let leftover_data := leftover s in
    let leftover_pos := position s in
    _ ← rust_assert (bool_decide (leftover_pos <= length leftover_data));
    let leftover_remaining := length leftover_data - leftover_pos in
    if decide (0 < leftover_remaining) then
      let to_copy := leftover_remaining `min` remaining buf in
      data ← slice leftover_data leftover_pos (leftover_pos + to_copy);
      buf ← put_slice buf data;
      Ok (mkStream (inner s) leftover_data (leftover_pos + to_copy) (proxy_info s) (peer_addr s),
          buf, Ready (inr tt))
    else
      '(i, buf, p) ← poll_read (inner s) buf;
      Ok (set_inner s i, buf, p).

#[export] Instance proxied_write `{AsyncWrite TcpStream} : AsyncWrite (ProxiedStream TcpStream) := {
  poll_write s buf := let '(i, p) := poll_write (inner s) buf in (set_inner s i, p);
  poll_flush s := let '(i, p) := poll_flush (inner s) in (set_inner s i, p);
  poll_shutdown s := let '(i, p) := poll_shutdown (inner s) in (set_inner s i, p);
}.
End Stream.

Definition client_ip (i : ProxyConnectInfo) : IpAddr := sock_ip (ci_client_addr i).
Definition is_proxied (i : ProxyConnectInfo) : bool := bool_decide (is_Some (ci_proxy_info i)).

Definition show_connect_info (i : ProxyConnectInfo) : list byte :=
  if is_proxied i then show_sock (ci_client_addr i) ++ bstr " via " ++ show_sock (ci_peer_addr i)
  else show_sock (ci_client_addr i) ++ bstr " (direct)".

(** [From<SocketAddr>] and [From<(ProxyInfo, SocketAddr)>]. *)
Definition connect_info_from_addr (addr : SocketAddr) : ProxyConnectInfo :=
  mkConnectInfo addr addr None.
Definition connect_info_from_info (info : ProxyInfo) (peer_addr : SocketAddr) : ProxyConnectInfo :=
  mkConnectInfo (default peer_addr (source_inet info)) peer_addr (Some info).

(** ** Reading *)

Section Reading.
Context {TcpStream : Type} `{ByteSource TcpStream}.

Definition stream_contents (s : ProxiedStream TcpStream) : list byte :=
  drop (position s) (leftover s) ++ contents (inner s).

Definition stream_ok (s : ProxiedStream TcpStream) : Prop :=
  position s <= length (leftover s) /\ source_ok (inner s).

Lemma remaining_put b data :
  length data <= remaining b -> put_slice b data = Ok (mkReadBuf (filled b ++ data) (capacity b)).
Proof. intros Hl. unfold put_slice, rust_assert. by rewrite bool_decide_eq_true_2. Qed.

Lemma proxied_read_leftover s b :
  source_ok (inner s) -> position s < length (leftover s) ->
  exists s' b', poll_read s b = Ok (s', b', Ready (inr tt)) /\ stream_ok s' /\
    read_step stream_contents s b s' b' (Ready (inr tt)).
Proof.
  intros Hi Hp. unfold poll_read, proxied_read, rust_assert.
  rewrite bool_decide_eq_true_2 by lia. cbn [mbind res_bind]. rewrite decide_True by lia.
  set (n := _ `min` _). rewrite slice_Ok by lia. cbn [mbind res_bind].
  replace (position s + n - position s) with n by lia.
  assert (Hlen : length (take n (drop (position s) (leftover s))) = n)
    by (rewrite length_take, length_drop; lia).
  rewrite remaining_put by lia. cbn [mbind res_bind]. do 2 eexists. split; [done|].
  split; [split; simpl; [lia|done]|]. exists (take n (drop (position s) (leftover s))).
  split; [done|]. split; [lia|]. split; [|split; [done|]].
  - unfold stream_contents. simpl. rewrite app_assoc. f_equal.
    by rewrite <- drop_drop, take_drop.
  - intros _ Hnil. left. rewrite Hnil in Hlen. simpl in Hlen. lia.
Qed.

Lemma proxied_read_inner s b :
  source_ok (inner s) -> position s = length (leftover s) ->
  exists s' b' p, poll_read s b = Ok (s', b', p) /\ stream_ok s' /\
    read_step stream_contents s b s' b' p.
Proof.
  intros Hi Hp. destruct (poll_read_step (inner s) b Hi) as (i & b' & p & Hr & Hok & Hstep).
  exists (set_inner s i), b', p. unfold poll_read at 1, proxied_read, rust_assert.
  rewrite bool_decide_eq_true_2 by lia. cbn [mbind res_bind]. rewrite decide_False by lia.
  rewrite Hr. cbn [mbind res_bind]. split; [done|]. split; [split; simpl; [lia|done]|].
  assert (Hc : forall i', stream_contents (set_inner s i') = contents i').
  { intros i'. unfold stream_contents. simpl. by rewrite drop_ge by lia. }
  assert (Hs : stream_contents s = contents (inner s)).
  { unfold stream_contents. by rewrite drop_ge by lia. }
  unfold read_step in *. by rewrite Hs, Hc.
Qed.

(** The stream delivers the bytes behind the header, then those of the socket. *)
#[export] Program Instance proxied_source : ByteSource (ProxiedStream TcpStream) := {
  source_ok := stream_ok;
  contents := stream_contents;
}.
Next Obligation.
  intros s b [Hp Hi]. destruct (decide (position s = length (leftover s))) as [He|Hne].
  - by apply proxied_read_inner.
  - destruct (proxied_read_leftover s b Hi) as (s' & b' & Hr); [lia|]. by exists s', b', (Ready (inr tt)).
Qed.
End Reading.

(** Reading with buffers of the given sizes, one call each. *)
Fixpoint read_many {S} `{AsyncRead S} (sizes : list nat) (s : S) : res Empty_set (list byte * S) :=
  match sizes with
  | [] => Ok ([], s)
  | n :: sizes =>
      '(s, b, _) ← poll_read s (mkReadBuf [] n);
      '(out, s) ← read_many sizes s;
      Ok (filled b ++ out, s)
  end.

Lemma read_many_prefix {S} `{ByteSource S} sizes (s : S) :
  source_ok s ->
  exists out s', read_many sizes s = Ok (out, s') /\ source_ok s' /\ contents s = out ++ contents s'.
Proof.
  revert s. induction sizes as [|n sizes IH]; intros s Hs; [by exists [], s|].
  destruct (poll_read_step s (mkReadBuf [] n) Hs) as (s1 & b & p & Hr & Hok & chunk & -> & _ & Hc & _).
  destruct (IH s1 Hok) as (out & s2 & Hm & Hok2 & Hc2).
  exists (chunk ++ out), s2. simpl. rewrite Hr. simpl. rewrite Hm. simpl.
  split; [done|]. split; [done|]. by rewrite Hc, Hc2, app_assoc.
Qed.

(** ** Theorems *)

Section Theorems.
Context {TcpStream : Type} `{ByteSource TcpStream}.

Lemma proxied_read_meta (s s' : ProxiedStream TcpStream) b b' p :
  poll_read s b = Ok (s', b', p) -> proxy_info s' = proxy_info s /\ peer_addr s' = peer_addr s.
Proof.
  unfold poll_read, proxied_read. intros (u & _ & Hr)%bind_Ok_inv. case_decide.
  - apply bind_Ok_inv in Hr as (d & _ & Hr). apply bind_Ok_inv in Hr as (b1 & _ & Hr).
    by injection Hr as <- _ _.
  - apply bind_Ok_inv in Hr as ([[i b1] p1] & _ & Hr). by injection Hr as <- _ _.
Qed.

Lemma read_many_meta sizes (s s' : ProxiedStream TcpStream) out :
  read_many sizes s = Ok (out, s') -> proxy_info s' = proxy_info s /\ peer_addr s' = peer_addr s.
Proof.
  revert s out. induction sizes as [|n sizes IH]; intros s out; simpl; [by intros [= _ <-]|].
  intros ([[s1 b] p] & [Hm1 Hm2]%proxied_read_meta & Hr)%bind_Ok_inv.
  apply bind_Ok_inv in Hr as ([out1 s2] & Hm & Hr). injection Hr as _ ->.
  apply IH in Hm as [Hm3 Hm4]. split; congruence.
Qed.

(** C27: an accepted stream delivers first the bytes that were read behind the
    header and then those of the socket, each exactly once and in order,
    however the reads are sized and however often the socket is not ready;
    no read panics and the metadata stay. *)
Theorem stream_delivers (i : TcpStream) left info peer sizes :
  source_ok i ->
  exists out s', read_many sizes (stream_new i left info peer) = Ok (out, s') /\
    left ++ contents i = out ++ contents s' /\ proxy_info s' = info /\ peer_addr s' = peer.
Proof.
  intros Hi. destruct (read_many_prefix sizes (stream_new i left info peer)) as (out & s' & Hr & _ & Hc).
  { split; simpl; [lia|done]. }
  exists out, s'. split; [done|]. split; [exact Hc|]. by apply read_many_meta in Hr.
Qed.

(** C28: end of file is only reported after all bytes: when a read into a buffer
    with room is ready and delivers nothing, no byte of the leftover and none
    of the socket is missing. *)
Theorem stream_eof (s s' : ProxiedStream TcpStream) n b' :
  position s <= length (leftover s) -> source_ok (inner s) -> 0 < n ->
  poll_read s (mkReadBuf [] n) = Ok (s', b', Ready (inr tt)) -> filled b' = [] ->
  drop (position s) (leftover s) = [] /\ contents (inner s) = [].
Proof.
  intros Hp Hi Hn Hr Hb.
  destruct (poll_read_step s (mkReadBuf [] n)) as (s1 & b1 & p & Hr1 & _ & chunk & -> & _ & _ & _ & He);
    [by split|]. rewrite Hr1 in Hr. injection Hr as -> <- ->. destruct (He eq_refl Hb) as [Hz|Hc].
  - unfold remaining in Hz. simpl in Hz. lia.
  - by apply app_eq_nil in Hc.
Qed.
End Theorems.

(** ** A concrete socket *)

(** A script of segments: an empty segment makes one read wait, and the end of
    the script is the end of the stream. *)
Definition Script : Type := list (list byte).

#[export] Instance script_read : AsyncRead Script := fun s b =>
  match s with
  | [] => Ok ([], b, Ready (inr tt))
  | [] :: s => Ok (s, b, Pending)
  | c :: s =>
      let n := length c `min` remaining b in
      b ← put_slice b (take n c);
      Ok (match drop n c with [] => s | rest => rest :: s end, b, Ready (inr tt))
  end.

Lemma script_read_step (s : Script) b :
  exists s' b' p, poll_read s b = Ok (s', b', p) /\ True /\
    read_step (fun s : Script => concat s) s b s' b' p.
Proof.
  unfold poll_read, script_read. destruct s as [|[|x c] s].
  - exists [], b, (Ready (inr tt)). do 2 (split; [done|]). exists [].
    destruct b. simpl. rewrite app_nil_r. repeat split; try done; try lia. intros. by right.
  - exists s, b, Pending. do 2 (split; [done|]). exists [].
    destruct b. simpl. rewrite app_nil_r. repeat split; try done; lia.
  - set (n := length (x :: c) `min` remaining b).
    rewrite remaining_put by (rewrite length_take; lia). cbn [mbind res_bind].
    do 3 eexists. split; [done|]. split; [done|]. exists (take n (x :: c)).
    split; [done|]. split; [rewrite length_take; lia|]. split; [|split; [done|]].
    + cbn [concat]. rewrite <- (take_drop n (x :: c)) at 1. rewrite <- app_assoc. f_equal.
      by destruct (drop n (x :: c)).
    + intros _ Hnil. left. apply (f_equal length) in Hnil. rewrite length_take in Hnil. unfold n in Hnil. cbn [length] in Hnil. lia.
Qed.

#[export] Program Instance script_source : ByteSource Script := {
  source_ok _ := True;
  contents s := concat s;
}.
Next Obligation. intros s b _. apply script_read_step. Qed.

Definition sample_script : Script := [bstr "lo w"; []; bstr "orld"].

Lemma stream_delivers_witness :
  exists out s', read_many [3; 1; 9; 9; 9; 9] (stream_new sample_script (bstr "hel") None
      (SockV4 (Ipv4 x7f x00 x00 x01) 9)) = Ok (out, s') /\
    bstr "hel" ++ contents sample_script = out ++ contents s'.
Proof.
  destruct (stream_delivers sample_script (bstr "hel") None (SockV4 (Ipv4 x7f x00 x00 x01) 9)
    [3; 1; 9; 9; 9; 9] ltac:(exact I)) as (out & s' & Hr & Hc & _). by exists out, s'.
Defined.

Lemma stream_eof_witness :
  drop 3 (bstr "hel") = [] /\ contents ([] : Script) = [].
Proof.
  refine (stream_eof (mkStream ([] : Script) (bstr "hel") 3 None (SockV4 (Ipv4 x7f x00 x00 x01) 9))
    (mkStream ([] : Script) (bstr "hel") 3 None (SockV4 (Ipv4 x7f x00 x00 x01) 9)) 8
    (mkReadBuf [] 8) _ _ _ _ _); [simpl; lia|exact I|lia|reflexivity|reflexivity].
Defined.
