(* ===== verification/Listener.v ===== *)
(** * The listener

    [src/listener.rs]: accepting a connection, reading its header under the
    handshake limit and the deadline, and handing over the stream.  The
    socket, the semaphore and the clock are tokio's: [TimedRead] is the read
    with a deadline that the code awaits, [TimedReadLaws] what its
    documentation promises, and the outcome of waiting for a permit is an
    argument.  Times are in nanoseconds. *)

From S2P Require Import Prelude Net Types Crates ParseTlv ParseV2 ParseV1 ParseHeader.
From S2P Require Import ParseFacts Policy Config Stream.

(** ** tokio's timed operations *)

(** [timeout_at(deadline, stream.read(&mut tmp)).await]: the deadline passed,
    the read failed, or it put [n] bytes into [tmp]. *)
Inductive ReadOutcome (S : Type) : Type :=
| TimedOut
| ReadFailed (e : IoError)
| ReadDone (n : nat) (tmp : list byte) (s : S).
Arguments TimedOut {S}.
Arguments ReadFailed {S} e.
Arguments ReadDone {S} n tmp s.

(** The time at which the call returns and its outcome, from the time of the
    call, the deadline and the size of [tmp]. *)
Class TimedRead (S : Type) : Type :=
  timed_read : S -> Z -> Z -> nat -> Z * ReadOutcome S.

(** A read fills the front of the buffer with the next bytes of the stream,
    none only at its end; the call returns by the deadline, and times out only
    then. *)
Class TimedReadLaws (S : Type) `{ByteSource S} `{TimedRead S} : Prop := {
  timed_read_done : forall s now deadline cap now' n tmp s',
    source_ok s -> 0 < cap -> timed_read s now deadline cap = (now', ReadDone n tmp s') ->
    source_ok s' /\ length tmp = cap /\ n <= cap /\ contents s = take n tmp ++ contents s' /\
    (n = 0 -> contents s = []);
  timed_read_time : forall s now deadline cap now' o,
    timed_read s now deadline cap = (now', o) -> (now <= now' <= Z.max now deadline)%Z;
  timed_read_timeout : forall s now deadline cap now',
    timed_read s now deadline cap = (now', TimedOut) -> (deadline <= now')%Z;
}.

(** [timeout(header_timeout, semaphore.acquire()).await]. *)
Inductive AcquireOutcome : Type := AcqTimedOut | AcqClosed | Acquired.

(** The latest [Instant] of a 64-bit Unix, which counts seconds in an [i64].
    [Instant + Duration] panics beyond it. *)
Definition INSTANT_MAX : Z := (2 ^ 63 * 1000000000 - 1)%Z.

Definition instant_add (t : Z) (d : Duration) : res Empty_set Z :=
  if decide (t + d <= INSTANT_MAX)%Z then Ok (t + d)%Z else Panic.

(** [io::Error::other]. *)
Definition other_error : IoError := mkIoError (OtherKind 0) (bstr "semaphore closed").

Section Listener.
Context {C : Crates} {TcpStream : Type} `{TimedRead TcpStream}.
Context (config : ProxyProtocolConfig).

(** A [Result<ProxiedStream, AcceptError>]. *)
Definition Accepted : Type := AcceptError + ProxiedStream TcpStream.

(** Leaving the loop, at a time, with a result. *)
Definition return_ {St} (now : Z) (r : Accepted) : res Empty_set (St + Z * Accepted) :=
  Ok (inr (now, r)).

(** The version is one of those the configuration accepts. *)
Definition version_mismatch (v : Version) : bool :=
  match version_pref config, v with
  | V1Only, V2 | V2Only, V1 => true
  | _, _ => false
  end.

(** The validator's verdict on a header. *)
Definition run_validator (info : ProxyInfo) (peer : SocketAddr) : res (list byte) unit :=
  match validator config with
  | Some v => v info peer
  | None => Ok tt
  end.

(** The [match parse(&buf)] of the loop. *)
Definition on_parse (peer : SocketAddr) (required : bool) (stream : TcpStream) (buf : list byte) (now : Z)
  : res Empty_set ((TcpStream * list byte * Z) + Z * Accepted) :=
  match parse buf with
  | Ok (info, consumed) =>
      if version_mismatch (version info) then return_ now (inl (VersionMismatch peer))
      else
        match run_validator info peer with
        | Ok _ =>
            leftover ← slice_from buf consumed;
            return_ now (inr (stream_new stream leftover (Some info) peer))
        | Err e => return_ now (inl (ValidationFailed e peer))
        | Panic => Panic
        | Diverge => Diverge
        end
  | Err e =>
      if decide (e = Incomplete /\ length buf < max_header_size config) then
        Ok (inl (stream, buf, now))
      else if decide (e = NotProxyProtocol /\ required = false) then
        return_ now (inr (stream_new stream buf None peer))
      else return_ now (inl (ParseFailed e peer))
  | Panic => Panic
  | Diverge => Diverge
  end.

(** One iteration of the loop. *)
Definition read_body (peer : SocketAddr) (required : bool) (deadline : Z)
    (st : TcpStream * list byte * Z)
  : res Empty_set ((TcpStream * list byte * Z) + Z * Accepted) :=
  let '(stream, buf, now) := st in
  match timed_read stream now deadline 256 with
  | (now, TimedOut) => return_ now (inl (HeaderTimeout peer))
  | (now, ReadFailed e) => return_ now (inl (Io e))
  | (now, ReadDone n tmp stream) =>
      if decide (n = 0) then
        if decide (buf = []) then return_ now (inl (EmptyConnection peer))
        else return_ now (inl (ParseFailed Incomplete peer))
      else
        data ← slice_to tmp n;
        on_parse peer required stream (buf ++ data) now
  end.

(** [read_and_validate]; [acquire] is the wait for a permit, at a time and with
    a timeout.  The permit is dropped when the function returns. *)
Definition read_and_validate (acquire : Z -> Duration -> Z * AcquireOutcome)
    (stream : TcpStream) (peer : SocketAddr) (required : bool) (now : Z)
  : res Empty_set (Z * Accepted) :=
  match acquire now (header_timeout config) with
  | (now, AcqTimedOut) => Ok (now, inl (HeaderTimeout peer))
  | (now, AcqClosed) => Ok (now, inl (Io other_error))
  | (now, Acquired) =>
      deadline ← instant_add now (header_timeout config);
      loop (S (max_header_size config)) (read_body peer required deadline) (stream, [], now)
  end.

(** [accept]; [incoming] is what the inner listener's [accept] returned. *)
Definition accept (acquire : Z -> Duration -> Z * AcquireOutcome)
    (incoming : IoError + TcpStream * SocketAddr) (now : Z) : res Empty_set (Z * Accepted) :=
  match incoming with
  | inl e => Ok (now, inl (Io e))
  | inr (stream, peer) =>
      let decision := policy config peer in
      match decision with
      | Reject => Ok (now, inl (Rejected peer))
      | Ignore => Ok (now, inr (stream_new stream [] None peer))
      | Require_ | Use =>
          let required := bool_decide (decision = Require_) in
          read_and_validate acquire stream peer required now
      end
  end.
End Listener.
Arguments Accepted TcpStream : clear implicits.
