(* ===== verification/ListenerFacts.v ===== *)
(** * Correctness of the listener

    What the listener makes of a connection, as a relation on the bytes the
    peer sends and on the reads that deliver them ([accept_spec]); the proof
    that the loop that reads in pieces under a deadline implements it and
    always returns. *)

From S2P Require Import Prelude Net Types Crates ParseTlv ParseV2 ParseV1 ParseHeader.
From S2P Require Import ParseFacts Policy Config Stream Listener.

(** ** Specification *)

Section Spec.
Context {C : Crates} {TcpStream : Type} `{ByteSource TcpStream} `{!TimedRead TcpStream}.
Context (config : ProxyProtocolConfig) (peer : SocketAddr) (required : bool) (deadline : Z).

(** From the socket [s] at time [t], completed reads have delivered [buf], and
    have left the socket at [s'] and the time at [t']. *)
Inductive received (s : TcpStream) (t : Z) : list byte -> TcpStream -> Z -> Prop :=
| received_nothing : received s t [] s t
| received_more buf s1 t1 n tmp s2 t2 :
    received s t buf s1 t1 -> timed_read s1 t1 deadline 256 = (t2, ReadDone n tmp s2) -> 0 < n ->
    received s t (buf ++ take n tmp) s2 t2.

(** What has been received does not decide the connection: it is a part of a
    header, below the size limit. *)
Definition undecided (s : TcpStream) (t : Z) (buf : list byte) (s' : TcpStream) (t' : Z) : Prop :=
  received s t buf s' t' /\ parse buf = Err Incomplete /\
  (buf = [] \/ length buf < max_header_size config).

(** The read that comes next while the connection is undecided. *)
Definition next_read (s : TcpStream) (t : Z) (buf : list byte) (now : Z) (o : ReadOutcome TcpStream) : Prop :=
  exists s' t', undecided s t buf s' t' /\ timed_read s' t' deadline 256 = (now, o).

(** The first buffer that the parser or the size limit decides, complete at
    time [now]. *)
Definition decisive (s : TcpStream) (t : Z) (buf : list byte) (now : Z) : Prop :=
  exists buf0 n tmp s', next_read s t buf0 now (ReadDone n tmp s') /\ 0 < n /\
    buf = buf0 ++ take n tmp.

(** The stream handed over: its metadata and the bytes it delivers. *)
Definition hands_over (s : ProxiedStream TcpStream) (info : option ProxyInfo) (bytes : list byte) : Prop :=
  source_ok s /\ proxy_info s = info /\ peer_addr s = peer /\ contents s = bytes.

(** The result for the connection [s], read from time [t] on, and its time. *)
Inductive accept_spec (s : TcpStream) (t : Z) : Z -> Accepted TcpStream -> Prop :=
| accept_header info n buf now st :
    decisive s t buf now -> parse (contents s) = Ok (info, n) -> n <= length buf ->
    version_mismatch config (version info) = false -> run_validator config info peer = Ok tt ->
    hands_over st (Some info) (drop n (contents s)) ->
    accept_spec s t now (inr st)
| accept_direct buf now st :
    decisive s t buf now -> required = false -> parse buf = Err NotProxyProtocol ->
    parse (contents s) = Err NotProxyProtocol -> hands_over st None (contents s) ->
    accept_spec s t now (inr st)
| refuse_version info n buf now :
    decisive s t buf now -> parse (contents s) = Ok (info, n) -> n <= length buf ->
    version_mismatch config (version info) = true ->
    accept_spec s t now (inl (VersionMismatch peer))
| refuse_validation info n e buf now :
    decisive s t buf now -> parse (contents s) = Ok (info, n) -> n <= length buf ->
    version_mismatch config (version info) = false -> run_validator config info peer = Err e ->
    accept_spec s t now (inl (ValidationFailed e peer))
| refuse_parse e buf now :
    decisive s t buf now -> parse buf = Err e -> parse (contents s) = Err e -> e <> Incomplete ->
    (e = NotProxyProtocol -> required = true) ->
    accept_spec s t now (inl (ParseFailed e peer))
| refuse_oversized buf now :
    decisive s t buf now -> parse buf = Err Incomplete -> max_header_size config <= length buf ->
    accept_spec s t now (inl (ParseFailed Incomplete peer))
| refuse_truncated tmp s' now :
    next_read s t (contents s) now (ReadDone 0 tmp s') -> contents s <> [] ->
    accept_spec s t now (inl (ParseFailed Incomplete peer))
| refuse_empty tmp s' now :
    next_read s t [] now (ReadDone 0 tmp s') -> contents s = [] ->
    accept_spec s t now (inl (EmptyConnection peer))
| refuse_timeout buf now :
    next_read s t buf now TimedOut -> accept_spec s t now (inl (HeaderTimeout peer))
| refuse_io e buf now :
    next_read s t buf now (ReadFailed e) -> accept_spec s t now (inl (Io e)).
End Spec.

(** ** The loop *)

Section Loop.
Context {C : Crates} {TcpStream : Type} `{TimedReadLaws TcpStream}.
Context (config : ProxyProtocolConfig) (peer : SocketAddr) (required : bool) (deadline : Z).

#[local] Abbreviation body := (read_body config peer required deadline).

(** The state of the loop for the connection [s0], read from time [t0] on: what
    has been read is in the buffer and does not decide the connection. *)
Definition loop_ok (s0 : TcpStream) (t0 : Z) (st : TcpStream * list byte * Z) : Prop :=
  let '(s, buf, now) := st in
  source_ok s /\ contents s0 = buf ++ contents s /\ undecided config deadline s0 t0 buf s now.

Definition loop_measure (st : TcpStream * list byte * Z) : nat :=
  let '(s, buf, now) := st in max_header_size config - length buf.

Lemma loop_ok_start s t : source_ok s -> loop_ok s t (s, [], t).
Proof. intros Hs. split; [done|]. split; [done|]. split; [constructor|]. split; [done|by left]. Qed.

(** What one iteration can do. *)
Definition body_spec (s0 : TcpStream) (t0 : Z) (st : TcpStream * list byte * Z)
    (r : (TcpStream * list byte * Z) + Z * Accepted TcpStream) : Prop :=
  match r with
  | inl st' => loop_ok s0 t0 st' /\ loop_measure st' < loop_measure st
  | inr (now, a) => accept_spec config peer required deadline s0 t0 now a
  end.

(** A completed read brings a longer buffer. *)
Lemma read_more s0 t0 s buf t now n tmp s' :
  loop_ok s0 t0 (s, buf, t) -> timed_read s t deadline 256 = (now, ReadDone n tmp s') -> 0 < n ->
  source_ok s' /\ contents s0 = (buf ++ take n tmp) ++ contents s' /\ n <= length tmp /\
  length (buf ++ take n tmp) = length buf + n /\
  received deadline s0 t0 (buf ++ take n tmp) s' now /\
  decisive config deadline s0 t0 (buf ++ take n tmp) now.
Proof.
  intros (Hs & Hsent & Hu) Hr Hn.
  destruct (timed_read_done s t deadline 256 now n tmp s' Hs ltac:(lia) Hr) as (Hs' & Ht & Hl & Hc & _).
  split; [done|]. split; [by rewrite Hsent, Hc, app_assoc|]. split; [lia|].
  split; [rewrite length_app, length_take; lia|].
  split; [by eapply received_more; [apply Hu|..]|]. exists buf, n, tmp, s'. split; [|done]. by exists s, t.
Qed.

Lemma on_parse_spec s0 t0 st s buf now r :
  source_ok s -> contents s0 = buf ++ contents s -> received deadline s0 t0 buf s now ->
  decisive config deadline s0 t0 buf now ->
  (length buf < max_header_size config -> loop_measure (s, buf, now) < loop_measure st) ->
  on_parse config peer required s buf now = Ok r -> body_spec s0 t0 st r.
Proof.
  intros Hs Hsent Hrec Hdec Hlt. unfold on_parse.
  assert (Hfinal : parse buf <> Err Incomplete -> parse (contents s0) = parse buf).
  { intros Hne. rewrite Hsent. by apply parse_stable. }
  destruct (parse buf) as [[info n]|e| |] eqn:Hp; try done.
  - specialize (Hfinal ltac:(done)). pose proof (parse_consumed buf info n Hp).
    destruct (version_mismatch config (version info)) eqn:Hv.
    { intros [= <-]. eapply refuse_version; [done|done|lia|done]. }
    destruct (run_validator config info peer) as [[]|e| |] eqn:Hr; try done.
    + rewrite slice_from_Ok by lia. intros [= <-].
      eapply accept_header; [done|done|lia|done|done|]. repeat split; simpl; [lia|done|].
      rewrite Hsent, drop_app_le by lia. done.
    + intros [= <-]. eapply refuse_validation; [done|done|lia|done|done].
  - case_decide as Hc.
    { destruct Hc as [-> Hl]. intros [= <-]. split; [|by apply Hlt].
      split; [done|]. split; [done|]. split; [done|]. split; [done|by right]. }
    case_decide as Hd.
    { destruct Hd as [-> Hq]. intros [= <-]. eapply accept_direct; [done|done|done|by apply Hfinal|].
      repeat split; simpl; [lia|done|]. unfold contents, proxied_source, stream_contents. simpl. done. }
    intros [= <-]. destruct (decide (e = Incomplete)) as [->|Hne].
    + eapply refuse_oversized; [done|done|].
      destruct (decide (length buf < max_header_size config)); [tauto|lia].
    + eapply refuse_parse; [done|done|by apply Hfinal; intros [= ?]|done|].
      intros ->. destruct required; [done|tauto].
Qed.

Lemma read_body_spec s0 t0 st r : loop_ok s0 t0 st -> body st = Ok r -> body_spec s0 t0 st r.
Proof.
  destruct st as [[s buf] now]. intros Hok. unfold read_body.
  destruct (timed_read s now deadline 256) as [now' [|e|n tmp s']] eqn:Hr.
  - intros [= <-]. apply (refuse_timeout _ _ _ _ _ _ buf). exists s, now. split; [apply Hok|done].
  - intros [= <-]. apply (refuse_io _ _ _ _ _ _ _ buf). exists s, now. split; [apply Hok|done].
  - case_decide as Hn0.
    { subst n. destruct Hok as (Hs & Hsent & Hu).
      destruct (timed_read_done s now deadline 256 now' 0 tmp s' Hs ltac:(lia) Hr) as (_ & _ & _ & _ & Hz).
      rewrite (Hz eq_refl), app_nil_r in Hsent. case_decide as Hb; intros [= <-].
      - rewrite Hb in *. eapply refuse_empty; [|done]. exists s, now. split; [done|exact Hr].
      - eapply refuse_truncated; [|by rewrite Hsent]. rewrite Hsent. exists s, now. split; [done|exact Hr]. }
    destruct (read_more s0 t0 s buf now now' n tmp s' Hok Hr ltac:(lia)) as (Hs' & Hc & Hl & Hlen & Hrec & Hdec).
    rewrite slice_to_Ok by done. cbn [mbind res_bind].
    apply on_parse_spec; [done|done|done|done|]. unfold loop_measure. lia.
Qed.

Lemma on_parse_returns s buf now :
  (forall info, returns (run_validator config info peer)) ->
  exists r, on_parse config peer required (s : TcpStream) buf now = Ok r.
Proof.
  intros Hval. unfold on_parse. pose proof (parse_returns buf) as Hret.
  destruct (parse buf) as [[info n]|e| |] eqn:Hp; try done.
  - destruct (version_mismatch config (version info)); [by eexists|]. specialize (Hval info).
    destruct (run_validator config info peer) as [[]|e| |]; try done; [|by eexists].
    pose proof (parse_consumed buf info n Hp). rewrite slice_from_Ok by lia. by eexists.
  - repeat case_decide; by eexists.
Qed.

Lemma read_body_returns s0 t0 st :
  (forall info, returns (run_validator config info peer)) -> loop_ok s0 t0 st -> exists r, body st = Ok r.
Proof.
  intros Hval Hok. destruct st as [[s buf] now]. unfold read_body.
  destruct (timed_read s now deadline 256) as [now' [|e|n tmp s']] eqn:Hr; [by eexists..|].
  case_decide; [case_decide; by eexists|].
  destruct (read_more s0 t0 s buf now now' n tmp s' Hok Hr ltac:(lia)) as (_ & _ & Hl & _).
  rewrite slice_to_Ok by done. by apply on_parse_returns.
Qed.

Lemma read_loop_spec s0 t0 st fuel :
  (forall info, returns (run_validator config info peer)) ->
  loop_ok s0 t0 st -> loop_measure st < fuel ->
  exists now a, loop fuel body st = Ok (now, a) /\ accept_spec config peer required deadline s0 t0 now a.
Proof.
  intros Hval. revert st. induction fuel as [|fuel IH]; intros st Hok Hf; [lia|].
  destruct (read_body_returns s0 t0 st Hval Hok) as ([st'|[now a]] & Hb);
    pose proof (read_body_spec s0 t0 st _ Hok Hb) as Hspec; cbn [loop]; rewrite Hb; cbn [mbind res_bind].
  - destruct Hspec as [Hok' Hm]. apply IH; [done|lia].
  - by exists now, a.
Qed.

(** Whatever the loop returns is as specified, also with a validator that does
    not always return. *)
Lemma read_loop_sound s0 t0 st fuel now a :
  loop_ok s0 t0 st -> loop fuel body st = Ok (now, a) ->
  accept_spec config peer required deadline s0 t0 now a.
Proof.
  intros Hok Hl.
  refine (loop_inv _ (loop_ok s0 t0) (fun r => accept_spec config peer required deadline s0 t0 r.1 r.2)
    _ _ fuel st (now, a) Hok Hl).
  - intros st1 st2 Hok1 Hb. by destruct (read_body_spec s0 t0 st1 _ Hok1 Hb).
  - intros st1 [t a'] Hok1 Hb. exact (read_body_spec s0 t0 st1 _ Hok1 Hb).
Qed.

(** Running the loop from a later state gives the same result. *)
Lemma read_loop_step s0 t0 st st' :
  loop_ok s0 t0 st -> body st = Ok (inl st') ->
  loop (S (max_header_size config)) body st = loop (S (max_header_size config)) body st'.
Proof.
  intros Hok Hb. destruct (read_body_spec s0 t0 st _ Hok Hb) as [Hok' Hm].
  assert (Hle : loop_measure st <= max_header_size config) by (destruct st as [[s buf] t]; simpl; lia).
  cbn [loop]. rewrite Hb. cbn [mbind res_bind].
  change (loop (max_header_size config) body st' = loop (S (max_header_size config)) body st').
  apply (loop_fuel _ (loop_ok s0 t0) loop_measure); [|done|lia..].
  intros s s' Hs Hs'. exact (read_body_spec s0 t0 s _ Hs Hs').
Qed.

(** The deadline holds whatever the peer does. *)
Lemma read_loop_time st fuel now' a :
  loop fuel body st = Ok (now', a) ->
  (st.2 <= now' <= Z.max st.2 deadline)%Z /\ forall p, a = inl (HeaderTimeout p) -> (deadline <= now')%Z.
Proof.
  revert st. induction fuel as [|fuel IH]; intros [[s buf] now]; [done|]. cbn [loop].
  intros (r & Hb & Hk)%bind_Ok_inv. unfold read_body in Hb.
  destruct (timed_read s now deadline 256) as [now1 o] eqn:Hr.
  pose proof (timed_read_time _ _ _ _ _ _ Hr) as Hrange. simpl.
  assert (Hres : match r with
    | inl st' => st'.2 = now1
    | inr (t, a') => t = now1 /\ forall p, a' = inl (HeaderTimeout p) -> (deadline <= now1)%Z
    end).
  { destruct o as [|e|n tmp s'].
    - injection Hb as <-. split; [done|]. intros p _. by eapply timed_read_timeout.
    - by injection Hb as <-.
    - case_decide; [case_decide; by injection Hb as <-|].
      apply bind_Ok_inv in Hb as (data & _ & Hb). unfold on_parse in Hb.
      destruct (parse _) as [[info k]|e| |]; try done.
      + destruct (version_mismatch _ _); [by injection Hb as <-|].
        destruct (run_validator _ _ _); try done; [|by injection Hb as <-].
        apply bind_Ok_inv in Hb as (l & _ & Hb). by injection Hb as <-.
      + repeat case_decide; by injection Hb as <-. }
  destruct r as [st'|[t a']].
  - apply IH in Hk as [Hk1 Hk2]. rewrite Hres in Hk1. split; [lia|done].
  - injection Hk as <- <-. destruct Hres as [-> Hto]. split; [lia|done].
Qed.
End Loop.
