(* ===== verification/Sockets.v ===== *)
(** * Concrete sockets

    Sockets on which the definitions of the listener can be evaluated and its
    hypotheses hold: [Script], whose segments are there at once, and
    [TimedScript], whose segments arrive at given times. *)

From S2P Require Import Prelude Net Types Stream Listener.

(** ** Segments without delay *)

Fixpoint next_segment (s : Script) : option (list byte * Script) :=
  match s with
  | [] => None
  | [] :: s => next_segment s
  | c :: s => Some (c, s)
  end.

(** The script without waiting: each read returns at once. *)
#[export] Instance script_timed_read : TimedRead Script := fun s now _ cap =>
  (now,
   match next_segment s with
   | None => ReadDone 0 (replicate cap x00) []
   | Some (c, s) =>
       let n := length c `min` cap in
       ReadDone n (take n c ++ replicate (cap - n) x00)
         (match drop n c with [] => s | rest => rest :: s end)
   end).

Lemma next_segment_None s : next_segment s = None -> concat s = [].
Proof. induction s as [|[|x c] s IH]; simpl; [done|done|done]. Qed.

Lemma next_segment_Some s c s' :
  next_segment s = Some (c, s') -> c <> [] /\ concat s = c ++ concat s'.
Proof. induction s as [|[|x d] s IH]; simpl; [done|done|]. by intros [= <- <-]. Qed.

#[export] Instance script_timed_laws : TimedReadLaws Script.
Proof.
  split.
  - intros s now deadline cap now' n tmp s' _ Hcap. unfold timed_read, script_timed_read.
    destruct (next_segment s) as [[c rest]|] eqn:Hs.
    + apply next_segment_Some in Hs as [Hne Hc]. intros [= <- <- <- <-].
      set (n := length c `min` cap). assert (length (take n c) = n) by (rewrite length_take; lia).
      split; [done|]. split; [rewrite length_app, length_replicate; lia|]. split; [lia|].
      split.
      * rewrite take_app_length' by done. change (contents s) with (concat s). rewrite Hc.
        rewrite <- (take_drop n c) at 1. rewrite <- app_assoc. f_equal. by destruct (drop n c).
      * intros Hz. destruct c; [done|]. cbn [length] in *. lia.
    + apply next_segment_None in Hs. intros [= <- <- <- <-]. split; [done|].
      split; [apply length_replicate|]. split; [lia|]. by rewrite take_0.
  - intros s now deadline cap now' o [= <- _]. lia.
  - intros s now deadline cap now'. unfold timed_read, script_timed_read.
    by destruct (next_segment s) as [[]|].
Qed.

(** ** Segments with arrival times *)

(** The segment at the front of the script is there from the time at the front
    of [arrivals] on. *)
Record TimedScript : Type := mkTimed { arrivals : list Z; script : Script }.

#[export] Instance timed_script_read : AsyncRead TimedScript := fun s b =>
  '(s', b, p) ← poll_read (script s) b;
  Ok (mkTimed (arrivals s) s', b, p).

#[export] Program Instance timed_script_source : ByteSource TimedScript := {
  source_ok _ := True;
  contents s := concat (script s);
}.
Next Obligation.
  intros s b _. destruct (script_read_step (script s) b) as (s' & b' & p & Hr & _ & Hs).
  exists (mkTimed (arrivals s) s'), b', p. unfold poll_read, timed_script_read. by rewrite Hr.
Qed.

(** A read waits for the next segment or for the deadline, and returns what it
    finds at once when the segment is there. *)
#[export] Instance timed_script_timed_read : TimedRead TimedScript := fun s now deadline cap =>
  let at_ := Z.max now (default now (head (arrivals s))) in
  if decide (at_ <= Z.max now deadline)%Z then
    (at_,
     match (timed_read (script s) now deadline cap).2 with
     | TimedOut => TimedOut
     | ReadFailed e => ReadFailed e
     | ReadDone n tmp s' => ReadDone n tmp (mkTimed (drop (length (script s) - length s') (arrivals s)) s')
     end)
  else (Z.max now deadline, TimedOut).

Lemma script_timed_done (s : Script) now deadline cap :
  exists n tmp s', timed_read s now deadline cap = (now, ReadDone n tmp s').
Proof.
  unfold timed_read, script_timed_read. destruct (next_segment s) as [[c rest]|]; by do 3 eexists.
Qed.

#[export] Instance timed_script_laws : TimedReadLaws TimedScript.
Proof.
  split.
  - intros [ar sc] now deadline cap now' n tmp s' _ Hcap. unfold timed_read at 1, timed_script_timed_read.
    cbn [arrivals script]. case_decide; [|done].
    destruct (script_timed_done sc now deadline cap) as (m & tmp' & s1 & Hr). rewrite Hr.
    intros [= <- <- <- <-]. exact (timed_read_done sc now deadline cap now m tmp' s1 I Hcap Hr).
  - intros [ar sc] now deadline cap now' o. unfold timed_read at 1, timed_script_timed_read.
    cbn [arrivals script]. case_decide; intros [= <- _]; lia.
  - intros [ar sc] now deadline cap now'. unfold timed_read at 1, timed_script_timed_read.
    cbn [arrivals script]. case_decide; [|intros [= <-]; lia].
    destruct (script_timed_done sc now deadline cap) as (m & tmp' & s1 & Hr). by rewrite Hr.
Qed.

(** The first [k] bytes are there by the time [T]. *)
Fixpoint arrive_by (T : Z) (k : nat) (ar : list Z) (sc : Script) : Prop :=
  match sc with
  | [] => k = 0
  | c :: sc =>
      c <> [] /\ (0 < k -> forall a, head ar = Some a -> (a <= T)%Z) /\
      arrive_by T (k - length c) (drop 1 ar) sc
  end.
