(* ===== verification/ListenerTheorems.v ===== *)
(** * Theorems about the listener

    The refinement of its specification, the bytes of an accepted connection,
    the limits on time and memory, and that headers which arrive in time are
    accepted. *)

From stdpp Require Import relations.
From S2P Require Import Prelude Utf8 Net Types Crates ParseTlv TlvFacts ParseV2 ParseV1 ParseHeader.
From S2P Require Import ParseFacts ParseWf Builder BuilderFacts BuilderV1 Policy Config Stream.
From S2P Require Import Listener ListenerFacts Sockets.

Section Theorems.
Context {C : Crates} {TcpStream : Type} `{TimedReadLaws TcpStream}.
Context (config : ProxyProtocolConfig).

Definition validator_returns : Prop := forall info peer, returns (run_validator config info peer).

(** The handshake of a connection [s] that waits for a permit from [now] on: what
    becomes of it, and when. *)
Definition handshake_outcome (acquire : Z -> Duration -> Z * AcquireOutcome) (s : TcpStream)
    (peer : SocketAddr) (required : bool) (now now' : Z) (a : Accepted TcpStream) : Prop :=
  match acquire now (header_timeout config) with
  | (t, AcqTimedOut) => now' = t /\ a = inl (HeaderTimeout peer)
  | (t, AcqClosed) => now' = t /\ a = inl (Io other_error)
  | (t, Acquired) =>
      (t + header_timeout config <= INSTANT_MAX)%Z /\
      accept_spec config peer required (t + header_timeout config) s t now' a
  end.

(** What becomes of a connection, by the decision of the policy. *)
Definition accept_outcome (acquire : Z -> Duration -> Z * AcquireOutcome) (s : TcpStream)
    (peer : SocketAddr) (now now' : Z) (a : Accepted TcpStream) : Prop :=
  match policy config peer with
  | Reject => now' = now /\ a = inl (Rejected peer)
  | Ignore => now' = now /\ exists st, a = inr st /\ hands_over peer st None (contents s)
  | Require_ => handshake_outcome acquire s peer true now now' a
  | Use => handshake_outcome acquire s peer false now now' a
  end.

(** The deadline of a handshake is beyond the latest [Instant]. *)
Definition deadline_overflow (acquire : Z -> Duration -> Z * AcquireOutcome) (peer : SocketAddr)
    (now : Z) : Prop :=
  (policy config peer = Require_ \/ policy config peer = Use) /\
  exists t, acquire now (header_timeout config) = (t, Acquired) /\
    (INSTANT_MAX < t + header_timeout config)%Z.

Lemma read_and_validate_spec acquire s peer required now :
  validator_returns -> source_ok s ->
  match read_and_validate config acquire s peer required now with
  | Ok (now', a) => handshake_outcome acquire s peer required now now' a
  | Panic => exists t, acquire now (header_timeout config) = (t, Acquired) /\
               (INSTANT_MAX < t + header_timeout config)%Z
  | _ => False
  end.
Proof.
  intros Hv Hs. unfold read_and_validate, handshake_outcome.
  destruct (acquire now (header_timeout config)) as [t []]; [done..|].
  unfold instant_add. case_decide as Hd; cbn [mbind res_bind]; [|exists t; split; [done|lia]].
  edestruct (read_loop_spec config peer required (t + header_timeout config) s t)
    as (now' & a & -> & Ha); [by intros; apply Hv|by apply loop_ok_start| |done].
  simpl. lia.
Qed.

Lemma accept_spec_total acquire s peer now :
  validator_returns -> source_ok s ->
  match accept config acquire (inr (s, peer)) now with
  | Ok (now', a) => accept_outcome acquire s peer now now' a
  | Panic => deadline_overflow acquire peer now
  | _ => False
  end.
Proof.
  intros Hv Hs. unfold accept, accept_outcome, deadline_overflow.
  destruct (policy config peer) eqn:Hp; cbn [bool_decide].
  - pose proof (read_and_validate_spec acquire s peer true now Hv Hs) as Hrv.
    change (bool_decide _) with true. destruct (read_and_validate _ _ _ _ _ _); tauto.
  - pose proof (read_and_validate_spec acquire s peer false now Hv Hs) as Hrv.
    change (bool_decide _) with false. destruct (read_and_validate _ _ _ _ _ _); tauto.
  - split; [done|]. eexists. split; [done|]. by repeat split; simpl; [lia|].
  - done.
Qed.

(** Without any assumption on the validator, what [accept] returns is as
    specified. *)
Lemma read_and_validate_Ok acquire s peer required now now' a :
  source_ok s -> read_and_validate config acquire s peer required now = Ok (now', a) ->
  handshake_outcome acquire s peer required now now' a.
Proof.
  intros Hs. unfold read_and_validate, handshake_outcome.
  destruct (acquire now (header_timeout config)) as [t []]; [by intros [= <- <-]..|].
  unfold instant_add. case_decide as Hd; [|done]. cbn [mbind res_bind]. intros Hl. split; [done|].
  eapply read_loop_sound; [by apply loop_ok_start|done].
Qed.

Lemma accept_Ok_outcome acquire s peer now now' a :
  source_ok s -> accept config acquire (inr (s, peer)) now = Ok (now', a) ->
  accept_outcome acquire s peer now now' a.
Proof.
  intros Hs. unfold accept, accept_outcome. destruct (policy config peer).
  - by apply read_and_validate_Ok.
  - by apply read_and_validate_Ok.
  - intros [= <- <-]. split; [done|]. eexists. split; [done|]. by repeat split; simpl; [lia|].
  - by intros [= <- <-].
Qed.

(** C3: accepting a connection refines its specification.  With a validator that
    returns, [accept] returns for every peer (whatever it sends, in whatever
    pieces and at whatever times), or panics because the deadline lies beyond
    the latest [Instant], which happens exactly when a permit was obtained
    and the timeout is that long.  The result and its time are the ones the
    policy, the permit, the reads and the bytes sent call for: a header, a
    direct connection or a defect is reported at the first read that decides
    the connection, and is the one of the whole of the bytes sent; a timeout
    only when a read of an undecided connection ran into the deadline, which
    is the header timeout after the permit; an I/O error only when such a
    read failed; the end of the stream only when it was read. *)
Theorem accept_refines acquire s peer now :
  validator_returns -> source_ok s ->
  match accept config acquire (inr (s, peer)) now with
  | Ok (now', a) => accept_outcome acquire s peer now now' a
  | Panic => deadline_overflow acquire peer now
  | _ => False
  end.
Proof. apply accept_spec_total. Qed.

(** C6: an accepted connection loses no byte: what the peer sent is the header
    that was parsed, and nothing else, followed by what the stream delivers;
    without a header the stream delivers everything. *)
Theorem accept_strips_header acquire s peer now now' st :
  source_ok s ->
  accept config acquire (inr (s, peer)) now = Ok (now', inr st) ->
  exists header, contents s = header ++ contents st /\ peer_addr st = peer /\
    match proxy_info st with
    | Some info => parse header = Ok (info, length header)
    | None => header = []
    end.
Proof.
  intros Hs Ha%accept_Ok_outcome; [|done]. unfold accept_outcome, handshake_outcome in Ha.
  assert (Hacc : forall required dl t, accept_spec config peer required dl s t now' (inr st) ->
    exists header, contents s = header ++ contents st /\ peer_addr st = peer /\
      match proxy_info st with
      | Some info => parse header = Ok (info, length header)
      | None => header = []
      end).
  { intros required dl t Hx.
    inversion Hx as [info n buf t' s0 _ Hp _ _ _ (_ & Hi & Hpe & Hc)|buf t' s0 _ _ _ _ (_ & Hi & Hpe & Hc)| | | | | | | |].
    - pose proof (parse_consumed _ _ _ Hp). exists (take n (contents s)).
      rewrite Hc, take_drop, Hi. split; [done|]. split; [done|].
      rewrite length_take, Nat.min_l by lia. by apply parse_take.
    - exists []. by rewrite Hc, Hi. }
  destruct (policy config peer).
  1, 2: destruct (acquire _ _) as [t []]; [by destruct Ha..|]; destruct Ha as [_ Ha]; by eapply Hacc.
  - destruct Ha as (_ & s0 & [= <-] & _ & Hi & Hpe & Hc). exists []. by rewrite Hc, Hi.
  - by destruct Ha.
Qed.

(** C23: the time limits: a connection is decided at most two header timeouts
    after it was accepted, one for the permit and one for the header, and is
    given up as timed out no earlier than after one of them, when the wait for
    the permit keeps its own timeout. *)
Theorem accept_time acquire incoming now now' a :
  (forall t d t' o, 0 <= d -> acquire t d = (t', o) ->
     t <= t' <= t + d /\ (o = AcqTimedOut -> t' = t + d))%Z ->
  (0 <= header_timeout config)%Z ->
  accept config acquire incoming now = Ok (now', a) ->
  (now <= now' <= now + 2 * header_timeout config)%Z /\
  forall peer, a = inl (HeaderTimeout peer) -> (now + header_timeout config <= now')%Z.
Proof.
  intros Hacq Ht. unfold accept. destruct incoming as [e|[s peer]]; [intros [= <- <-]; split; [lia|done]|].
  assert (Hrv : forall required, read_and_validate config acquire s peer required now = Ok (now', a) ->
    (now <= now' <= now + 2 * header_timeout config)%Z /\
    forall p, a = inl (HeaderTimeout p) -> (now + header_timeout config <= now')%Z).
  { intros required. unfold read_and_validate.
    destruct (acquire now (header_timeout config)) as [t o] eqn:Ho.
    apply Hacq in Ho as [Hr Hto]; [|done].
    destruct o; [intros [= <- <-]; split; [lia|]; try done; intros; specialize (Hto eq_refl); lia..|].
    unfold instant_add. case_decide; cbn [mbind res_bind]; [|done].
    intros [Hl1 Hl2]%read_loop_time. simpl in Hl1. split; [lia|].
    intros p Hp. apply Hl2 in Hp. lia. }
  destruct (policy config peer); [apply Hrv|apply Hrv|intros [= <- <-]; split; [lia|done]..].
Qed.

(** ** Memory *)

(** The states the loop goes through. *)
Definition read_states (peer : SocketAddr) (required : bool) (deadline : Z)
  : relation (TcpStream * list byte * Z) :=
  rtc (fun st st' => read_body config peer required deadline st = Ok (inl st')).

Lemma read_states_ok peer required deadline s t st :
  source_ok s -> read_states peer required deadline (s, [], t) st -> loop_ok config deadline s t st.
Proof.
  intros Hs Hr. apply rtc_ind_r with (P := loop_ok config deadline s t) in Hr; [done|by apply loop_ok_start|].
  intros st1 st2 _ Hb Hok. by destruct (read_body_spec _ _ _ _ _ _ _ _ Hok Hb).
Qed.

Lemma on_parse_leftover peer required (s : TcpStream) buf t t' st :
  on_parse config peer required s buf t = Ok (inr (t', inr st)) -> exists k, leftover st = drop k buf.
Proof.
  unfold on_parse. destruct (parse buf) as [[info k]|e| |] eqn:Hp; try done.
  - destruct (version_mismatch _ _); [done|]. destruct (run_validator _ _ _); try done.
    pose proof (parse_consumed _ _ _ Hp). rewrite slice_from_Ok by lia. intros [= _ <-]. by exists k.
  - repeat case_decide; try done. intros [= _ <-]. by exists 0.
Qed.

(** C24: the memory a connection can take while its header is read, whether it is
    accepted, refused or still pending: in every state that the reading loop
    reaches, the buffer holds fewer than [max_header_size] bytes, which are
    the first ones the peer sent; a completed read appends at most 256 more
    before the buffer is examined; and the bytes handed over with an accepted
    stream are within that bound too. *)
Theorem accept_bounded peer required deadline s t s' buf now :
  source_ok s -> 0 < max_header_size config ->
  read_states peer required deadline (s, [], t) (s', buf, now) ->
  length buf < max_header_size config /\ contents s = buf ++ contents s' /\
  (forall now' n tmp s'', timed_read s' now deadline 256 = (now', ReadDone n tmp s'') ->
     length (buf ++ take n tmp) < max_header_size config + 256) /\
  (forall now' st, read_body config peer required deadline (s', buf, now) = Ok (inr (now', inr st)) ->
     length (leftover st) < max_header_size config + 256).
Proof.
  intros Hs Hmax Hr%read_states_ok; [|done]. pose proof Hr as (Hs' & Hc & _ & _ & Hl).
  assert (Hbuf : length buf < max_header_size config) by (destruct Hl as [->|]; simpl; lia).
  assert (Hread : forall now' n tmp s'', timed_read s' now deadline 256 = (now', ReadDone n tmp s'') ->
    n <= length tmp /\ length (buf ++ take n tmp) < max_header_size config + 256).
  { intros now' n tmp s'' Hrd.
    destruct (timed_read_done s' now deadline 256 now' n tmp s'' Hs' ltac:(lia) Hrd) as (_ & Ht & Hn & _).
    rewrite length_app, length_take. lia. }
  split; [done|]. split; [done|]. split; [by intros; eapply Hread|].
  intros now' st Hb. unfold read_body in Hb.
  destruct (timed_read s' now deadline 256) as [now1 [|e|n tmp s'']] eqn:Hrd; try done.
  case_decide; [by case_decide|]. destruct (Hread _ _ _ _ eq_refl) as [Hn Hlt].
  rewrite slice_to_Ok in Hb by done. apply on_parse_leftover in Hb as [k ->].
  rewrite length_drop. lia.
Qed.

(** ** Delivery in time *)

(** The assumption on the network and the runtime: [good k s] says that the next
    [k] bytes of the connection arrive by the time [T]; a read that is waiting
    for one of them before its deadline then returns bytes, at the latest when
    they have arrived. *)
Definition delivers (good : nat -> TcpStream -> Prop) (T : Z) : Prop :=
  forall k s now deadline, good (S k) s -> (now < deadline)%Z -> (T < deadline)%Z ->
  exists now' n tmp s', timed_read s now deadline 256 = (now', ReadDone n tmp s') /\
    (now' <= Z.max now T)%Z /\ good (S k - n) s'.

Lemma incomplete_short sent info n buf rest :
  parse sent = Ok (info, n) -> sent = buf ++ rest -> parse buf = Err Incomplete -> length buf < n.
Proof.
  intros Hp -> Hb. destruct (decide (length buf < n)) as [|Hn]; [done|]. exfalso.
  apply parse_take in Hp. rewrite take_app_le in Hp by lia.
  rewrite <- (take_drop n buf), parse_stable in Hb by (by rewrite Hp). congruence.
Qed.

Section Delivery.
Context (good : nat -> TcpStream -> Prop) (T : Z) (peer : SocketAddr) (required : bool).
Context (s0 : TcpStream) (t0 deadline : Z) (info : ProxyInfo) (n : nat).
Context (Hdel : delivers good T) (Ht : (t0 < deadline)%Z) (HT : (T < deadline)%Z).
Context (Hp : parse (contents s0) = Ok (info, n)) (Hn : n <= max_header_size config).
Context (Hver : version_mismatch config (version info) = false).
Context (Hval : run_validator config info peer = Ok tt).

(** While the header arrives in time. *)
Definition on_time (st : TcpStream * list byte * Z) : Prop :=
  let '(s, buf, now) := st in
  loop_ok config deadline s0 t0 st /\ good (n - length buf) s /\ (now <= Z.max t0 T)%Z.

Definition delivered (r : Z * Accepted TcpStream) : Prop :=
  exists st, r.2 = inr st /\ hands_over peer st (Some info) (drop n (contents s0)) /\
    (r.1 <= Z.max t0 T)%Z.

(** The verdict on a buffer that holds the whole header. *)
Lemma on_parse_header s buf now :
  source_ok s -> contents s0 = buf ++ contents s -> parse buf = Ok (info, n) -> (now <= Z.max t0 T)%Z ->
  exists r, on_parse config peer required s buf now = Ok (inr r) /\ delivered r.
Proof.
  intros Hs Hc Hb Hnow. unfold on_parse. rewrite Hb, Hver, Hval.
  pose proof (parse_consumed _ _ _ Hb). rewrite slice_from_Ok by lia. eexists. split; [done|].
  eexists. split; [done|]. split; [|done]. repeat split; simpl; [lia|done|].
  rewrite Hc, drop_app_le by lia. done.
Qed.

Lemma read_body_on_time st :
  on_time st ->
  (exists st', read_body config peer required deadline st = Ok (inl st') /\ on_time st' /\
     loop_measure config st' < loop_measure config st) \/
  (exists r, read_body config peer required deadline st = Ok (inr r) /\ delivered r).
Proof.
  destruct st as [[s buf] now]. intros (Hok & Hg & Hnow).
  pose proof Hok as (Hs & Hc & _ & Hinc & Hl).
  pose proof (incomplete_short _ _ _ _ _ Hp Hc Hinc) as Hshort.
  destruct (n - length buf) as [|k] eqn:Hk; [lia|].
  destruct (Hdel k s now deadline Hg ltac:(lia) HT) as (now' & m & tmp & s' & Hr & Hle & Hg').
  pose proof (parse_consumed _ _ _ Hp) as Hlen.
  destruct (decide (m = 0)) as [->|Hm].
  { destruct (timed_read_done s now deadline 256 now' 0 tmp s' Hs ltac:(lia) Hr) as (_ & _ & _ & _ & Hz).
    rewrite Hc, (Hz eq_refl), app_nil_r in Hlen. lia. }
  destruct (read_more config deadline s0 t0 s buf now now' m tmp s' Hok Hr ltac:(lia))
    as (Hs' & Hc' & Hm' & Hlen' & Hrec & _).
  assert (Hbody : read_body config peer required deadline (s, buf, now)
    = on_parse config peer required s' (buf ++ take m tmp) now').
  { unfold read_body. rewrite Hr, decide_False by done. by rewrite slice_to_Ok by done. }
  rewrite Hbody. destruct (decide (parse (buf ++ take m tmp) = Err Incomplete)) as [Hi|Hi].
  - left. exists (s', buf ++ take m tmp, now').
    pose proof (incomplete_short _ _ _ _ _ Hp Hc' Hi) as Hshort'.
    split; [unfold on_parse; rewrite Hi; by rewrite decide_True by (split; [done|lia])|].
    split; [|unfold loop_measure; lia]. split; [|split; [|lia]].
    + split; [done|]. split; [done|]. split; [done|]. split; [done|right; lia].
    + by replace (n - _) with (S k - m) by lia.
  - right. apply on_parse_header; [done|done| |lia].
    by rewrite <- (parse_stable _ (contents s') Hi), <- Hc'.
Qed.

Lemma read_loop_on_time fuel st :
  on_time st -> loop_measure config st < fuel ->
  exists r, loop fuel (read_body config peer required deadline) st = Ok r /\ delivered r.
Proof.
  revert st. induction fuel as [|fuel IH]; intros st Hst Hf; [lia|]. cbn [loop].
  destruct (read_body_on_time st Hst) as [(st' & -> & Hst' & Hlt)|(r & -> & Hr)]; cbn [mbind res_bind].
  - apply IH; [done|lia].
  - by exists r.
Qed.
End Delivery.

Lemma accept_delivered good T acquire s peer now info n t :
  source_ok s -> delivers good T -> good n s ->
  acquire now (header_timeout config) = (t, Acquired) -> (0 < header_timeout config)%Z ->
  (T < t + header_timeout config <= INSTANT_MAX)%Z ->
  policy config peer = Require_ \/ policy config peer = Use ->
  parse (contents s) = Ok (info, n) -> n <= max_header_size config ->
  version_mismatch config (version info) = false -> run_validator config info peer = Ok tt ->
  exists now' st, accept config acquire (inr (s, peer)) now = Ok (now', inr st) /\
    hands_over peer st (Some info) (drop n (contents s)) /\ (now' <= Z.max t T)%Z.
Proof.
  intros Hs Hdel Hg Hacq Hpos [HT Hmax] Hpol Hp Hn Hver Hval.
  assert (Hrv : forall required, exists now' st,
    read_and_validate config acquire s peer required now = Ok (now', inr st) /\
    hands_over peer st (Some info) (drop n (contents s)) /\ (now' <= Z.max t T)%Z).
  { intros required. unfold read_and_validate, instant_add. rewrite Hacq, decide_True by done.
    cbn [mbind res_bind].
    destruct (read_loop_on_time good T peer required s t (t + header_timeout config) info n
      Hdel ltac:(lia) HT Hp Hn Hver Hval (S (max_header_size config)) (s, [], t))
      as ([now' a] & -> & st & Ha & Hh & Hnow).
    - split; [by apply loop_ok_start|]. split; [simpl; by rewrite Nat.sub_0_r|lia].
    - simpl. lia.
    - simpl in *. subst a. by exists now', st. }
  unfold accept. destruct Hpol as [-> | ->]; apply Hrv.
Qed.

(** C21: a client behind a proxy gets through: with a permit, a header that
    parses, is no longer than [max_header_size], has an accepted version and
    passes the validator, and whose bytes all arrive before the header
    timeout has passed since the permit, is accepted no later than it has
    arrived; the stream has its metadata and delivers exactly what follows
    it, however the bytes were split into segments.  (The timeout is positive
    and the deadline an [Instant].) *)
Theorem accept_header_delivered good T acquire s peer now info n t :
  source_ok s -> delivers good T -> good n s ->
  acquire now (header_timeout config) = (t, Acquired) -> (0 < header_timeout config)%Z ->
  (T < t + header_timeout config <= INSTANT_MAX)%Z ->
  policy config peer = Require_ \/ policy config peer = Use ->
  parse (contents s) = Ok (info, n) -> n <= max_header_size config ->
  version_mismatch config (version info) = false -> run_validator config info peer = Ok tt ->
  exists now' st, accept config acquire (inr (s, peer)) now = Ok (now', inr st) /\
    hands_over peer st (Some info) (drop n (contents s)) /\ (now' <= Z.max t T)%Z.
Proof. apply accept_delivered. Qed.

(** C22: end to end: a proxy that sends a header made with the builder (its raw
    TLVs, if any, ones the parser accepts and not CRC32c entries), followed by
    the client's data, is understood by the listener: if the policy reads
    headers from the proxy, a permit was obtained, the header is no longer
    than [max_header_size], of an accepted version, and arrives within the
    header timeout, and there is no validator, the connection is accepted
    with the metadata given to the builder, and the stream delivers the
    client's data and nothing else. *)
Theorem builder_to_listener `{!CratesLaws C} good T acquire s peer now t raws b bytes data :
  source_ok s -> delivers good T -> good (length bytes) s ->
  acquire now (header_timeout config) = (t, Acquired) -> (0 < header_timeout config)%Z ->
  (T < t + header_timeout config <= INSTANT_MAX)%Z ->
  policy config peer = Require_ \/ policy config peer = Use -> validator config = None ->
  made raws b -> (hb_version b = V2 -> Forall entry_ok raws) -> build b = Ok bytes ->
  length bytes <= max_header_size config -> version_mismatch config (hb_version b) = false ->
  contents s = bytes ++ data ->
  exists now' st, accept config acquire (inr (s, peer)) now = Ok (now', inr st) /\
    proxy_info st = Some (parsed b) /\ contents st = data.
Proof.
  intros Hs Hdel Hg Hacq Hpos HT Hpol Hval Hm Hraws Hb Hn Hver Hc.
  assert (Hp : parse (contents s) = Ok (parsed b, length bytes)).
  { rewrite Hc. destruct (build_header_bytes raws b bytes Hm Hb) as [Hf ->].
    by apply (parse_header_bytes raws). }
  assert (Hpv : version (parsed b) = hb_version b) by (unfold parsed; by destruct (hb_version b)).
  destruct (accept_delivered good T acquire s peer now (parsed b) (length bytes) t)
    as (now' & st & Ha & (_ & Hi & _ & Hcs) & _); try done;
    [by rewrite Hpv|unfold run_validator; by rewrite Hval|].
  rewrite Hc, drop_app_length in Hcs. by exists now', st.
Qed.
End Theorems.

(** ** A socket that delivers in time *)

Lemma timed_script_delivers T : delivers (fun k s => arrive_by T k (arrivals s) (script s)) T.
Proof.
  intros k [ar [|c sc]] now deadline Hg Hnow HT; [done|]. destruct Hg as (Hne & Ha & Hrest).
  cbn [arrivals script] in *. specialize (Ha ltac:(lia)).
  set (at_ := Z.max now (default now (head ar))).
  assert (Hat : (at_ <= Z.max now T)%Z) by (subst at_; destruct ar as [|a ar]; simpl in *; [lia|specialize (Ha a eq_refl); lia]).
  unfold timed_read, timed_script_timed_read. cbn [arrivals script]. fold at_.
  rewrite decide_True by lia. unfold timed_read, script_timed_read.
  destruct c as [|x c]; [done|]. set (seg := x :: c) in *. set (n := length seg `min` 256).
  change (next_segment (seg :: sc)) with (Some (seg, sc)). cbn [snd]. fold n.
  do 4 eexists. split; [done|]. split; [done|]. cbn [arrivals script].
  assert (Hlen : length (drop n seg) = length seg - n) by apply length_drop.
  assert (0 < n <= length seg) by (subst n seg; simpl; lia). clearbody n.
  destruct (drop n seg) as [|y r] eqn:Hd.
  - replace (length (seg :: sc) - length sc) with 1 by (simpl; lia).
    replace (S k - n) with (S k - length seg) by (cbn [length] in Hlen; lia). done.
  - rewrite Nat.sub_diag. change (drop 0 ar) with ar. split; [done|]. split; [by intros _|].
    replace (S k - n - length (y :: r)) with (S k - length seg); [done|]. rewrite Hlen. lia.
Qed.

(** ** Witnesses *)

Definition granted : Z -> Duration -> Z * AcquireOutcome := fun now _ => (now, Acquired).
Definition the_peer : SocketAddr := SockV4 (Ipv4 x7f x00 x00 x01) 4000.

Lemma default_validator_returns : validator_returns default_config.
Proof. done. Qed.

(** A v1 header cut into three segments, followed by data. *)
Definition v1_script : Script :=
  [bstr "PRO"; bstr "XY TCP4 10.0.0.1 10.0.0.2 80 443"; [x0d; x0a] ++ bstr "GET /"].

Definition v1_script_info : ProxyInfo :=
  mkInfo V1 Proxy (Some (mkTransport Inet Stream))
    (Some (AddrInet (SockV4 (Ipv4 x0a x00 x00 x01) 80)))
    (Some (AddrInet (SockV4 (Ipv4 x0a x00 x00 x02) 443))) default_tlvs.

Definition v1_script_stream : ProxiedStream Script :=
  stream_new [] (bstr "GET /") (Some v1_script_info) the_peer.

Lemma v1_script_accepted :
  accept (C:=reference_crates) default_config granted (inr (v1_script, the_peer)) 0
  = Ok (0%Z, inr v1_script_stream).
Proof. by vm_compute. Qed.

(** A peer that sends part of a header and then nothing for a minute. *)
Definition slow_script : TimedScript :=
  mkTimed [from_secs 1; from_secs 60] [bstr "PROXY TCP4 10.0.0.1"; bstr " 10.0.0.2 80 443"].

Lemma accept_refines_witness :
  accept (C:=reference_crates) default_config granted (inr (slow_script, the_peer)) 0
  = Ok (from_secs 5, inl (HeaderTimeout the_peer)) /\
  accept_outcome (C:=reference_crates) default_config granted slow_script the_peer 0
    (from_secs 5) (inl (HeaderTimeout the_peer)).
Proof.
  assert (Ha : accept (C:=reference_crates) default_config granted (inr (slow_script, the_peer)) 0
    = Ok (from_secs 5, inl (HeaderTimeout the_peer))) by (by vm_compute).
  split; [exact Ha|].
  pose proof (accept_refines (C:=reference_crates) default_config granted slow_script the_peer 0
    default_validator_returns I) as H.
  rewrite Ha in H. exact H.
Defined.

Lemma accept_strips_header_witness :
  exists header, contents v1_script = header ++ contents v1_script_stream /\
    peer_addr v1_script_stream = the_peer /\
    parse (C:=reference_crates) header = Ok (v1_script_info, length header).
Proof.
  exact (accept_strips_header (C:=reference_crates) default_config granted v1_script the_peer 0 0
    v1_script_stream ltac:(exact I) v1_script_accepted).
Defined.

Lemma accept_time_witness : (0 <= 0 <= 0 + 2 * header_timeout default_config)%Z.
Proof.
  refine (proj1 (accept_time (C:=reference_crates) default_config granted (inr (v1_script, the_peer)) 0 0
    (inr v1_script_stream) _ _ v1_script_accepted)); [|by vm_compute].
  intros t d t' o Hd [= <- <-]. split; [lia|done].
Defined.

Lemma accept_bounded_witness :
  exists s' buf now,
    read_states (C:=reference_crates) default_config the_peer true (from_secs 5)
      (v1_script, [], 0%Z) (s', buf, now) /\
    buf = bstr "PRO" /\ length buf < max_header_size default_config /\ contents v1_script = buf ++ contents s'.
Proof.
  exists (drop 1 v1_script), (bstr "PRO"), 0%Z.
  assert (Hr : read_states (C:=reference_crates) default_config the_peer true (from_secs 5)
    (v1_script, [], 0%Z) (drop 1 v1_script, bstr "PRO", 0%Z)).
  { apply rtc_once. by vm_compute. }
  destruct (accept_bounded (C:=reference_crates) default_config the_peer true (from_secs 5) v1_script 0
    (drop 1 v1_script) (bstr "PRO") 0 ltac:(exact I) ltac:(apply Nat.ltb_lt; reflexivity) Hr) as (H1 & H2 & _).
  split; [exact Hr|]. split; [reflexivity|]. split; [exact H1|exact H2].
Defined.

(** A v1 header that arrives in two segments, one and two seconds after the
    connection, and data a minute later. *)
Definition timed_v1 : TimedScript :=
  mkTimed [from_secs 1; from_secs 2; from_secs 60]
    [bstr "PROXY TCP4 10.0.0.1"; bstr " 10.0.0.2 80 443" ++ [x0d; x0a]; bstr "GET /"].

Lemma accept_header_delivered_witness :
  exists now' st,
    accept (C:=reference_crates) default_config granted (inr (timed_v1, the_peer)) 0 = Ok (now', inr st) /\
    hands_over the_peer st (Some v1_script_info) (drop 37 (contents timed_v1)) /\
    (now' <= from_secs 2)%Z.
Proof.
  refine (accept_header_delivered (C:=reference_crates) default_config _ (from_secs 2) granted timed_v1
    the_peer 0 v1_script_info 37 0 I (timed_script_delivers (from_secs 2)) _ eq_refl _ _
    (or_introl eq_refl) _ _ eq_refl eq_refl); [|done|by vm_compute|by vm_compute|by apply Nat.leb_le].
  split; [done|]. split; [by intros _ a [= <-]|]. split; [done|]. split; [by intros _ a [= <-]|].
  split; [done|]. split; [simpl; lia|done].
Defined.

(** A v2 header built for a client, then the client's data, in two segments. *)
Definition e2e_builder : HeaderBuilder := with_crc32c v2_local.
Definition e2e_bytes : list byte := header_bytes (C:=reference_crates) e2e_builder.
Definition e2e_socket : TimedScript :=
  mkTimed [from_secs 1; from_secs 4] [take 9 e2e_bytes; drop 9 e2e_bytes ++ bstr "hello"].

Lemma builder_to_listener_witness :
  exists now' st,
    accept (C:=reference_crates) default_config granted (inr (e2e_socket, the_peer)) 0
    = Ok (now', inr st) /\
    proxy_info st = Some (parsed (C:=reference_crates) e2e_builder) /\ contents st = bstr "hello".
Proof.
  refine (builder_to_listener (C:=reference_crates) default_config _ (from_secs 4) granted
    e2e_socket the_peer 0 0 [] e2e_builder e2e_bytes (bstr "hello") I
    (timed_script_delivers (from_secs 4)) _ eq_refl _ _ (or_introl eq_refl) eq_refl _ _ _ _ _ _);
    [|done|by vm_compute|apply made_crc32c, made_v2_local|by constructor|by vm_compute
    |apply Nat.leb_le; by vm_compute|reflexivity|by vm_compute].
  split; [by vm_compute|]. split; [by intros _ a [= <-]|].
  split; [by vm_compute|]. split; [by intros _ a [= <-]|by vm_compute].
Defined.

(** ** How sharp the bounds are *)

Definition small_config : ProxyProtocolConfig :=
  mkConfig (from_secs 5) 20 1024 (dyn_policy mkAcceptAll) None Both.

(** A header of 37 bytes passes a limit of 20 when it arrives in one segment, and
    is refused when it arrives in pieces. *)
Example header_above_limit_accepted :
  accept (C:=reference_crates) small_config granted (inr ([concat v1_script], the_peer)) 0
  = Ok (0%Z, inr v1_script_stream) /\
  accept (C:=reference_crates) small_config granted (inr (map (fun b => [b]) (concat v1_script), the_peer)) 0
  = Ok (0%Z, inl (ParseFailed Incomplete the_peer)).
Proof. by vm_compute. Qed.

(** A peer that never sends: the permit comes at the end of its timeout, and the
    read takes the whole of a second one. *)
Definition silent_read : TimedRead unit := fun _ now deadline _ => (Z.max now deadline, TimedOut).

Example silent_peer_takes_two_timeouts :
  accept (C:=reference_crates) (H:=silent_read) default_config (fun t d => (t + d, Acquired)%Z)
    (inr (tt, the_peer)) 0
  = Ok ((2 * header_timeout default_config)%Z, inl (HeaderTimeout the_peer)).
Proof. by vm_compute. Qed.

(** [Duration::MAX] is a timeout the configuration accepts, with which every
    handshake panics. *)
Definition DURATION_MAX : Duration := (2 ^ 64 * 1000000000 - 1)%Z.

Example longest_timeout_panics :
  exists config, build_config (set_header_timeout DURATION_MAX builder) = Ok config /\
    accept (C:=reference_crates) config granted (inr (v1_script, the_peer)) 0 = Panic.
Proof. eexists. split; [reflexivity|by vm_compute]. Qed.
