(* ===== verification/Handshakes.v ===== *)
(** * Concurrent handshakes

    [src/listener.rs] with several calls of [accept] in flight: the calls share
    the handshake semaphore, created by [ProxyProtocolListener::new] with
    [max_pending_handshakes] permits, and the clock.  A call waits for a
    permit, reads the header holding it, and gives it back when it returns,
    panics or is dropped.  The steps of the calls interleave in any order. *)

From stdpp Require Import relations.
From S2P Require Import Prelude Net Types Crates ParseTlv ParseV2 ParseV1 ParseHeader.
From S2P Require Import ParseFacts Policy Config Stream Listener ListenerFacts Sockets ListenerTheorems.

(** ** The system *)

(** The phase of a call: waiting for a permit; reading, with the permit obtained
    at a time, in a state of the loop; and the ways it ends. *)
Inductive Phase (TcpStream : Type) : Type :=
| Waiting (required : bool)
| Reading (required : bool) (acquired : Z) (st : TcpStream * list byte * Z)
| Returned (now : Z) (a : Accepted TcpStream)
| Panicked
| Dropped.
Arguments Waiting {TcpStream} required.
Arguments Reading {TcpStream} required acquired st.
Arguments Returned {TcpStream} now a.
Arguments Panicked {TcpStream}.
Arguments Dropped {TcpStream}.

(** A call, with the connection that the inner [accept] returned and when. *)
Record Call (TcpStream : Type) : Type := mkCall {
  socket : TcpStream;
  remote : SocketAddr;
  since : Z;
  phase : Phase TcpStream;
}.
Arguments mkCall {TcpStream} socket remote since phase.
Arguments socket {TcpStream} _.
Arguments remote {TcpStream} _.
Arguments since {TcpStream} _.
Arguments phase {TcpStream} _.

(** The clock, the permits of the semaphore that are free, and the calls. *)
Record System (TcpStream : Type) : Type := mkSystem {
  clock : Z;
  available : nat;
  calls : list (Call TcpStream);
}.
Arguments mkSystem {TcpStream} clock available calls.
Arguments clock {TcpStream} _.
Arguments available {TcpStream} _.
Arguments calls {TcpStream} _.

(** [Semaphore::MAX_PERMITS], on 64 bits. *)
Definition MAX_PERMITS : Z := (2 ^ 61 - 1)%Z.

Section System.
Context {C : Crates} {TcpStream : Type} `{TimedReadLaws TcpStream}.
Context (config : ProxyProtocolConfig).
Implicit Types (sys : System TcpStream) (c : Call TcpStream).

(** [ProxyProtocolListener::new], at a time; [Semaphore::new] panics on too many
    permits. *)
Definition listener_new (now : Z) : res Empty_set (System TcpStream) :=
  _ ← rust_assert (bool_decide (Z.of_nat (max_pending_handshakes config) <= MAX_PERMITS)%Z);
  Ok (mkSystem now (max_pending_handshakes config) []).

(** A call right after the inner [accept]: the decision of the policy. *)
Definition enter (s : TcpStream) (peer : SocketAddr) (now : Z) : Phase TcpStream :=
  match policy config peer with
  | Reject => Returned now (inl (Rejected peer))
  | Ignore => Returned now (inr (stream_new s [] None peer))
  | Require_ => Waiting true
  | Use => Waiting false
  end.

(** One iteration of the loop of a call that obtained its permit at [t]. *)
Definition call_body (c : Call TcpStream) (required : bool) (t : Z) :=
  read_body config (remote c) required (t + header_timeout config).

Definition set_phase (c : Call TcpStream) (p : Phase TcpStream) : Call TcpStream :=
  mkCall (socket c) (remote c) (since c) p.

(** The [i]-th call gets into phase [p], and [n] permits are free. *)
Definition update sys (i : nat) (c : Call TcpStream) (p : Phase TcpStream) (n : nat) : System TcpStream :=
  mkSystem (clock sys) n (<[i := set_phase c p]> (calls sys)).

Inductive step : System TcpStream -> System TcpStream -> Prop :=
| step_tick sys d : (0 < d)%Z ->
    step sys (mkSystem (clock sys + d) (available sys) (calls sys))
| step_accept sys s peer : source_ok s ->
    step sys (mkSystem (clock sys) (available sys)
      (calls sys ++ [mkCall s peer (clock sys) (enter s peer (clock sys))]))
| step_acquire sys i c required n deadline :
    calls sys !! i = Some c -> phase c = Waiting required -> available sys = S n ->
    instant_add (clock sys) (header_timeout config) = Ok deadline ->
    step sys (update sys i c (Reading required (clock sys) (socket c, [], clock sys)) n)
| step_overflow sys i c required n :
    calls sys !! i = Some c -> phase c = Waiting required -> available sys = S n ->
    instant_add (clock sys) (header_timeout config) = Panic ->
    step sys (update sys i c Panicked (available sys))
| step_wait_timeout sys i c required :
    calls sys !! i = Some c -> phase c = Waiting required ->
    (since c + header_timeout config <= clock sys)%Z ->
    step sys (update sys i c (Returned (clock sys) (inl (HeaderTimeout (remote c)))) (available sys))
| step_read sys i c required t st st' :
    calls sys !! i = Some c -> phase c = Reading required t st ->
    call_body c required t st = Ok (inl st') -> (st'.2 <= clock sys)%Z ->
    step sys (update sys i c (Reading required t st') (available sys))
| step_return sys i c required t st now a :
    calls sys !! i = Some c -> phase c = Reading required t st ->
    call_body c required t st = Ok (inr (now, a)) -> (now <= clock sys)%Z ->
    step sys (update sys i c (Returned now a) (S (available sys)))
| step_panic sys i c required t st :
    calls sys !! i = Some c -> phase c = Reading required t st -> call_body c required t st = Panic ->
    step sys (update sys i c Panicked (S (available sys)))
| step_drop_waiting sys i c required :
    calls sys !! i = Some c -> phase c = Waiting required ->
    step sys (update sys i c Dropped (available sys))
| step_drop_reading sys i c required t st :
    calls sys !! i = Some c -> phase c = Reading required t st ->
    step sys (update sys i c Dropped (S (available sys))).

Definition reachable sys : Prop :=
  exists now sys0, listener_new now = Ok sys0 /\ rtc step sys0 sys.

(** An invariant of the empty system that every step keeps. *)
Lemma reachable_ind (P : System TcpStream -> Prop) :
  (forall now, P (mkSystem now (max_pending_handshakes config) [])) ->
  (forall sys sys', step sys sys' -> P sys -> P sys') ->
  forall sys, reachable sys -> P sys.
Proof.
  intros H0' Hstep sys (now & sys0 & Hnew & Hr). apply bind_Ok_inv in Hnew as (u & _ & Hnew).
  injection Hnew as <-. apply rtc_ind_r with (P := P) in Hr; [done|done|].
  intros y z _ Hs Hy. by eapply Hstep.
Qed.

(** ** Permits *)

Definition holds_permit c : nat := match phase c with Reading _ _ _ => 1 | _ => 0 end.

Definition holders sys : nat := sum_list_with holds_permit (calls sys).

Lemma sum_list_with_insert {A} (f : A -> nat) (l : list A) i x y :
  l !! i = Some x -> sum_list_with f (<[i := y]> l) + f x = sum_list_with f l + f y.
Proof.
  revert i. induction l as [|z l IH]; intros [|i] Hi; simplify_eq/=; [lia|].
  specialize (IH i Hi). lia.
Qed.

Lemma update_permits sys i c p n :
  calls sys !! i = Some c -> n + holds_permit (set_phase c p) = available sys + holds_permit c ->
  available (update sys i c p n) + holders (update sys i c p n) = available sys + holders sys.
Proof.
  intros Hi Hn. pose proof (sum_list_with_insert holds_permit (calls sys) i c (set_phase c p) Hi) as Hsum.
  unfold holders. simpl. lia.
Qed.

Lemma step_permits sys sys' :
  step sys sys' -> available sys' + holders sys' = available sys + holders sys.
Proof.
  intros Hstep.
  destruct Hstep as [sys d _|sys s peer _|sys i c rq n dl Hi Hp Hn _|sys i c rq n Hi Hp Hn _
    |sys i c rq Hi Hp _|sys i c rq t st st' Hi Hp _ _|sys i c rq t st now a Hi Hp _ _
    |sys i c rq t st Hi Hp _|sys i c rq Hi Hp|sys i c rq t st Hi Hp];
    try (apply update_permits; [done|]; unfold holds_permit; simpl; rewrite Hp; lia).
  - done.
  - unfold holders. simpl. rewrite sum_list_with_app. simpl. unfold holds_permit at 2, enter.
    destruct (policy config peer); simpl; lia.
Qed.

Lemma reachable_permits sys :
  reachable sys -> available sys + holders sys = max_pending_handshakes config.
Proof.
  revert sys. apply reachable_ind; [intros now; unfold holders; simpl; lia|].
  intros sys sys' Hs%step_permits Hy. lia.
Qed.

(** ** Results *)

(** What is true of a call at time [now]: a call that reads is in a state of the
    loop from which the loop ends as from its start; a call that has ended
    has the result of the sequential [accept] on its own connection, with
    the permit obtained or given up at some time since. *)
Definition call_ok (now : Z) c : Prop :=
  source_ok (socket c) /\ (since c <= now)%Z /\
  match phase c with
  | Waiting required => policy config (remote c) = (if required then Require_ else Use)
  | Reading required t st =>
      policy config (remote c) = (if required then Require_ else Use) /\
      (since c <= t <= now)%Z /\ (t + header_timeout config <= INSTANT_MAX)%Z /\
      loop_ok config (t + header_timeout config) (socket c) t st /\ (st.2 <= now)%Z /\
      accept config (fun _ _ => (t, Acquired)) (inr (socket c, remote c)) (since c)
      = loop (S (max_header_size config)) (call_body c required t) st
  | Returned now' a =>
      (now' <= now)%Z /\
      exists t o, (since c <= t <= now)%Z /\
        (o = AcqTimedOut -> since c + header_timeout config <= t)%Z /\
        accept config (fun _ _ => (t, o)) (inr (socket c, remote c)) (since c) = Ok (now', a) /\
        accept_outcome config (fun _ _ => (t, o)) (socket c) (remote c) (since c) now' a
  | Panicked =>
      exists t, (since c <= t <= now)%Z /\
        accept config (fun _ _ => (t, Acquired)) (inr (socket c, remote c)) (since c) = Panic
  | Dropped => True
  end.

Lemma call_ok_later now now' c : (now <= now')%Z -> call_ok now c -> call_ok now' c.
Proof.
  intros Hle (Hs & Hn & Hp). split; [done|]. split; [lia|]. destruct (phase c) as [rq|rq t st|t a| |].
  - done.
  - destruct Hp as (? & ? & ? & ? & ? & ?). repeat split; try done; lia.
  - destruct Hp as (? & t' & o & ? & ?). split; [lia|]. exists t', o. split; [lia|done].
  - destruct Hp as (t & ? & ?). exists t. split; [lia|done].
  - done.
Qed.

Lemma returned_ok now c t o now' a :
  source_ok (socket c) -> (since c <= t <= now)%Z -> (now' <= now)%Z ->
  (o = AcqTimedOut -> since c + header_timeout config <= t)%Z ->
  accept config (fun _ _ => (t, o)) (inr (socket c, remote c)) (since c) = Ok (now', a) ->
  call_ok now (set_phase c (Returned now' a)).
Proof.
  intros Hs Ht Hn Ho Ha. split; [done|]. split; [simpl; lia|]. split; [done|].
  exists t, o. split; [done|]. split; [done|]. split; [done|]. by apply accept_Ok_outcome.
Qed.

Lemma panicked_ok now c t :
  source_ok (socket c) -> (since c <= t <= now)%Z ->
  accept config (fun _ _ => (t, Acquired)) (inr (socket c, remote c)) (since c) = Panic ->
  call_ok now (set_phase c Panicked).
Proof. intros Hs Ht Ha. split; [done|]. split; [simpl; lia|]. by exists t. Qed.

Lemma enter_ok s peer now : source_ok s -> call_ok now (mkCall s peer now (enter s peer now)).
Proof.
  intros Hs. unfold enter. destruct (policy config peer) eqn:Hp.
  - split; [done|]. split; [simpl; lia|done].
  - split; [done|]. split; [simpl; lia|done].
  - apply (returned_ok now (mkCall s peer now Dropped) now Acquired); simpl; try done; try lia.
    unfold accept. by rewrite Hp.
  - apply (returned_ok now (mkCall s peer now Dropped) now Acquired); simpl; try done; try lia.
    unfold accept. by rewrite Hp.
Qed.

(** The sequential [accept] of a call that reads headers. *)
Lemma accept_reads permit (s : TcpStream) peer now (required : bool) :
  policy config peer = (if required then Require_ else Use) ->
  accept config permit (inr (s, peer)) now = read_and_validate config permit s peer required now.
Proof. intros Hp. unfold accept. rewrite Hp. by destruct required. Qed.

Lemma acquired_ok now c required deadline :
  call_ok now c -> phase c = Waiting required ->
  instant_add now (header_timeout config) = Ok deadline ->
  call_ok now (set_phase c (Reading required now (socket c, [], now))).
Proof.
  intros (Hs & Hn & Hp) Hph Hd. rewrite Hph in Hp. unfold instant_add in Hd. case_decide as Hmax; [|done].
  split; [done|]. split; [done|]. cbn [phase set_phase socket remote since]. split; [done|]. split; [lia|].
  split; [done|]. split; [by apply loop_ok_start|]. split; [simpl; lia|].
  rewrite (accept_reads _ _ _ _ required) by done. unfold read_and_validate, instant_add.
  by rewrite decide_True.
Qed.

Lemma reading_step_ok now c required t st st' :
  call_ok now c -> phase c = Reading required t st ->
  call_body c required t st = Ok (inl st') -> (st'.2 <= now)%Z ->
  call_ok now (set_phase c (Reading required t st')).
Proof.
  intros (Hs & Hn & Hp) Hph Hb Hle. rewrite Hph in Hp. destruct Hp as (Hpol & Ht & Hmax & Hok & _ & Ha).
  split; [done|]. split; [done|]. cbn [phase set_phase socket remote since].
  split; [done|]. split; [done|]. split; [done|].
  split; [by destruct (read_body_spec _ _ _ _ _ _ _ _ Hok Hb)|]. split; [done|].
  rewrite Ha. exact (read_loop_step config (remote c) required _ (socket c) t st st' Hok Hb).
Qed.

Lemma waiting_timeout_ok now c required :
  call_ok now c -> phase c = Waiting required -> (since c + header_timeout config <= now)%Z ->
  call_ok now (set_phase c (Returned now (inl (HeaderTimeout (remote c))))).
Proof.
  intros (Hs & Hn & Hp) Hph Hle. rewrite Hph in Hp. apply (returned_ok now c now AcqTimedOut); try done; try lia.
  by rewrite (accept_reads _ _ _ _ required).
Qed.

Lemma overflow_ok now c required :
  call_ok now c -> phase c = Waiting required -> instant_add now (header_timeout config) = Panic ->
  call_ok now (set_phase c Panicked).
Proof.
  intros (Hs & Hn & Hp) Hph Ho. rewrite Hph in Hp. apply (panicked_ok now c now); [done|lia|].
  rewrite (accept_reads _ _ _ _ required) by done. unfold read_and_validate. by rewrite Ho.
Qed.

Lemma reading_end_ok now c required t st :
  call_ok now c -> phase c = Reading required t st ->
  (forall now' a, call_body c required t st = Ok (inr (now', a)) -> (now' <= now)%Z ->
     call_ok now (set_phase c (Returned now' a))) /\
  (call_body c required t st = Panic -> call_ok now (set_phase c Panicked)).
Proof.
  intros (Hs & Hn & Hp) Hph. rewrite Hph in Hp. destruct Hp as (_ & Ht & _ & _ & _ & Ha). split.
  - intros now' a Hb Hle. apply (returned_ok now c t Acquired); try done.
    rewrite Ha. cbn [loop]. by rewrite Hb.
  - intros Hb. apply (panicked_ok now c t); [done|done|]. rewrite Ha. cbn [loop]. by rewrite Hb.
Qed.

Lemma step_calls_ok sys sys' :
  step sys sys' -> Forall (call_ok (clock sys)) (calls sys) -> Forall (call_ok (clock sys')) (calls sys').
Proof.
  intros Hstep Hok.
  assert (Hget : forall i c, calls sys !! i = Some c -> call_ok (clock sys) c)
    by (intros i c; by apply Forall_lookup_1).
  destruct Hstep as [sys d Hd|sys s peer Hs|sys i c rq n dl Hi Hp Hn Hdl|sys i c rq n Hi Hp Hn Hdl
    |sys i c rq Hi Hp Ht|sys i c rq t st st' Hi Hp Hb Hle|sys i c rq t st now a Hi Hp Hb Hle
    |sys i c rq t st Hi Hp Hb|sys i c rq Hi Hp|sys i c rq t st Hi Hp]; simpl;
    [..|by apply Forall_insert; [|destruct (Hget i c Hi) as (? & ? & _)]
    |by apply Forall_insert; [|destruct (Hget i c Hi) as (? & ? & _)]];
    try (apply Forall_insert; [done|]; specialize (Hget i c Hi)).
  - revert Hok. apply Forall_impl. intros c. apply call_ok_later. lia.
  - apply Forall_app. split; [done|]. apply Forall_singleton. by apply enter_ok.
  - by eapply acquired_ok.
  - by eapply overflow_ok.
  - by eapply waiting_timeout_ok.
  - by eapply reading_step_ok.
  - by eapply reading_end_ok.
  - by eapply reading_end_ok.
Qed.

Lemma reachable_calls_ok sys : reachable sys -> Forall (call_ok (clock sys)) (calls sys).
Proof.
  revert sys. apply (reachable_ind (fun sys => Forall (call_ok (clock sys)) (calls sys))); [constructor|].
  apply step_calls_ok.
Qed.



(** ** Theorems *)

(** C25: the handshake limit holds in every interleaving of calls that wait, read,
    time out, return, panic or are dropped: the calls that are reading a
    header and the free permits always add up to [max_pending_handshakes], so
    at most that many read at a time and no permit is ever lost. *)
Theorem handshake_limit sys :
  reachable sys ->
  available sys + holders sys = max_pending_handshakes config /\
  holders sys <= max_pending_handshakes config.
Proof. intros Hr%reachable_permits. lia. Qed.

(** C26: calls do not disturb each other: in every interleaving of the steps of
    any number of calls, a call that has returned has the result, and the
    time, of the sequential [accept] on its own connection with the permit it
    obtained (or gave up, not before its timeout), which is the one its
    policy, its reads and the bytes of its own peer call for; a call that has
    panicked is one whose sequential [accept] panics; and a call that reads
    has exactly the first bytes of its own peer in its buffer and will end as
    the sequential [accept] does. *)
Theorem handshakes_isolated sys :
  reachable sys -> Forall (call_ok (clock sys)) (calls sys).
Proof. apply reachable_calls_ok. Qed.

End System.

(** ** Witnesses *)

(** One call that accepts the scripted connection, takes a permit and reads the
    first segment; and its end. *)
Definition call_at (p : Phase Script) : Call Script := mkCall v1_script the_peer 0 p.
Definition read_0 : Phase Script := Reading true 0 (v1_script, [], 0%Z).
Definition read_1 : Phase Script := Reading true 0 (drop 1 v1_script, bstr "PRO", 0%Z).
Definition read_2 : Phase Script :=
  Reading true 0 (drop 2 v1_script, bstr "PROXY TCP4 10.0.0.1 10.0.0.2 80 443", 0%Z).
Definition one_call (n : nat) (p : Phase Script) : System Script := mkSystem 0 n [call_at p].
Definition one_reading : System Script := one_call 1023 read_1.
Definition one_returned : System Script := one_call 1024 (Returned 0 (inr v1_script_stream)).

#[local] Abbreviation body_at := (call_body (C:=reference_crates) default_config (call_at Dropped) true 0).

Lemma first_read : body_at (v1_script, [], 0%Z) = Ok (inl (drop 1 v1_script, bstr "PRO", 0%Z)).
Proof. by vm_compute. Qed.

Lemma second_read :
  body_at (drop 1 v1_script, bstr "PRO", 0%Z)
  = Ok (inl (drop 2 v1_script, bstr "PROXY TCP4 10.0.0.1 10.0.0.2 80 443", 0%Z)).
Proof. by vm_compute. Qed.

Lemma last_read :
  body_at (drop 2 v1_script, bstr "PROXY TCP4 10.0.0.1 10.0.0.2 80 443", 0%Z)
  = Ok (inr (0%Z, inr v1_script_stream)).
Proof. by vm_compute. Qed.

#[local] Abbreviation step_ := (step (C:=reference_crates) default_config).

Lemma one_call_steps :
  step_ (mkSystem 0 1024 []) (one_call 1024 (Waiting true)) /\
  step_ (one_call 1024 (Waiting true)) (one_call 1023 read_0) /\
  step_ (one_call 1023 read_0) one_reading /\
  step_ one_reading (one_call 1023 read_2) /\ step_ (one_call 1023 read_2) one_returned.
Proof.
  split; [|split; [|split; [|split]]].
  - exact (step_accept default_config (mkSystem 0 1024 []) v1_script the_peer ltac:(exact I)).
  - exact (step_acquire default_config (one_call 1024 (Waiting true)) 0 (call_at (Waiting true)) true 1023
      (from_secs 5) eq_refl eq_refl eq_refl eq_refl).
  - exact (step_read default_config (one_call 1023 read_0) 0 (call_at read_0) true 0 _ _
      eq_refl eq_refl first_read ltac:(done)).
  - exact (step_read default_config one_reading 0 (call_at read_1) true 0 _ _
      eq_refl eq_refl second_read ltac:(done)).
  - exact (step_return default_config (one_call 1023 read_2) 0 (call_at read_2) true 0 _ _ _
      eq_refl eq_refl last_read ltac:(done)).
Qed.

Lemma one_reading_reachable : reachable (C:=reference_crates) default_config one_reading.
Proof.
  destruct one_call_steps as (H1 & H2 & H3 & _). exists 0%Z, (mkSystem 0 1024 []). split; [by vm_compute|].
  eapply rtc_l; [exact H1|]. eapply rtc_l; [exact H2|]. by apply rtc_once.
Qed.

Lemma one_returned_reachable : reachable (C:=reference_crates) default_config one_returned.
Proof.
  destruct one_reading_reachable as (now & sys0 & Hn & Hr). destruct one_call_steps as (_ & _ & _ & H4 & H5).
  exists now, sys0. split; [done|]. eapply rtc_r; [|exact H5]. eapply rtc_r; [exact Hr|exact H4].
Qed.

Lemma handshake_limit_witness :
  available one_reading + holders one_reading = 1024 /\ holders one_reading <= 1024.
Proof. exact (handshake_limit (C:=reference_crates) default_config _ one_reading_reachable). Defined.

Lemma handshakes_isolated_witness :
  Forall (call_ok (C:=reference_crates) default_config 0) (calls one_returned).
Proof. exact (handshakes_isolated (C:=reference_crates) default_config _ one_returned_reachable). Defined.


(** Too many permits. *)
Example too_many_permits config :
  (MAX_PERMITS < Z.of_nat (max_pending_handshakes config))%Z ->
  listener_new (TcpStream:=Script) config 0 = Panic.
Proof. intros Hm. unfold listener_new, rust_assert. by rewrite bool_decide_eq_false_2 by lia. Qed.
