(* ===== verification/Axum.v ===== *)
(** * Serving with axum

    [src/axum.rs]: the accept loop that serves connections and survives
    errors, and the connection metadata it attaches.  The results of the
    listener's [accept] are an argument, in the order in which they come;
    logging and sleeping are a trace of effects. *)

From S2P Require Import Prelude Utf8 Net NetText Types Crates ParseTlv TlvFacts ParseV2 ParseV1.
From S2P Require Import ParseHeader ParseFacts ParseWf Policy Config Stream Listener.





Section Axum.
Context {TcpStream : Type}.


(** [Listener::local_addr]; [addr] is the inner listener's. *)
Definition axum_local_addr (addr : io_result SocketAddr) : io_result ProxyConnectInfo :=
  match addr with
  | inl e => inl e
  | inr addr => inr (mkConnectInfo addr addr None)
  end.

(** [Connected::connect_info]; [remote_addr] is the address of the incoming
    stream. *)
Definition axum_connect_info (remote_addr : ProxyConnectInfo) : ProxyConnectInfo := remote_addr.

(** ** Theorems *)









Context {C : Crates}.

(** C35: the client address of a connection: for a header over IP it is the source
    address of the header; for LOCAL, UNKNOWN and unix headers, and without
    a header, it is the address of the TCP peer; the snapshot taken from the
    stream and the one made from the header agree. *)
Theorem client_addr_correct b info n (s : TcpStream) left peer :
  parse b = Ok (info, n) ->
  client_addr (stream_new s left None peer) = peer /\
  connect_info (stream_new s left (Some info) peer) = connect_info_from_info info peer /\
  match transport info with
  | Some t =>
      if decide (family t = Unix) then client_addr (stream_new s left (Some info) peer) = peer
      else exists a, source info = Some (AddrInet a) /\ is_ipv4 a = bool_decide (family t = Inet) /\
             client_addr (stream_new s left (Some info) peer) = a
  | None => client_addr (stream_new s left (Some info) peer) = peer
  end.
Proof.
  intros Hp. apply parse_wf in Hp as [Hw _]. split; [done|]. split; [done|].
  unfold wf_endpoints in Hw. unfold client_addr, source_inet. simpl.
  destruct (transport info) as [[[] p]|], (source info) as [[[]|]|], (destination info) as [|]; try done;
    simpl in *; try tauto; by eexists.
Qed.
End Axum.

(** ** Witnesses *)

Lemma client_addr_correct_witness :
  exists info n, parse (C:=reference_crates)
      (bstr "PROXY TCP4 10.0.0.1 10.0.0.2 80 443" ++ [x0d; x0a]) = Ok (info, n) /\
    exists a, source info = Some (AddrInet a) /\ is_ipv4 a = true /\
      client_addr (stream_new tt [] (Some info) (SockV4 (Ipv4 x7f x00 x00 x01) 9)) = a.
Proof.
  do 2 eexists. split; [vm_compute; reflexivity|].
  destruct (client_addr_correct (C:=reference_crates)
    (bstr "PROXY TCP4 10.0.0.1 10.0.0.2 80 443" ++ [x0d; x0a]) _ _ tt []
    (SockV4 (Ipv4 x7f x00 x00 x01) 9) ltac:(vm_compute; reflexivity)) as (_ & _ & H).
  exact H.
Defined.



