(* ===== verification/TestVectors.v ===== *)
(** * The repository's test vectors on the model

    Inputs and expected results of [src/tests], evaluated on the definitions
    of this development with the concrete crates: a captured AWS load balancer
    packet with its checksum, v1 lines, malformed headers, Display texts and
    runs of the listener. *)

From S2P Require Import Prelude Utf8 Net Types Crates ParseTlv ParseV2 ParseV1 ParseHeader V2Facts.
From S2P Require Import Builder Vendor Policy Config Stream Listener Sockets ListenerTheorems.

#[local] Existing Instance reference_crates.

(** [parse_v2.rs], [aws_regression_packet]. *)
Definition aws_packet : list byte := map byte_of_Z
  [13; 10; 13; 10; 0; 13; 10; 81; 85; 73; 84; 10; 33; 17; 0; 84; 172; 31; 7; 113; 172; 31; 10;
   31; 200; 242; 0; 80; 3; 0; 4; 232; 214; 137; 45; 234; 0; 23; 1; 118; 112; 99; 101; 45; 48;
   56; 100; 50; 98; 102; 49; 53; 102; 97; 99; 53; 48; 48; 49; 99; 57; 4; 0; 36]%Z ++ replicate 36 x00.

Example aws_regression_packet :
  exists t,
    parse aws_packet =
      Ok (mkInfo V2 Proxy (Some (mkTransport Inet Stream))
            (Some (AddrInet (SockV4 (Ipv4 xac x1f x07 x71) 51442)))
            (Some (AddrInet (SockV4 (Ipv4 xac x1f x0a x1f) 80))) t, length aws_packet) /\
    tlv_crc32c t = Some 3906373933%Z /\
    aws id t = Some (Ok (mkAws (Some (bstr "vpce-08d2bf15fac5001c9"))
                               [(x01, bstr "vpce-08d2bf15fac5001c9")])).
Proof. eexists. split; [vm_compute; reflexivity|]. by vm_compute. Qed.

(** [parse_crc.rs], [corrupted_crc_detected]: a changed address byte. *)
Example corrupted_packet :
  exists actual, parse (<[16 := x00]> aws_packet) = Err (CrcMismatch 3906373933 actual).
Proof. eexists. vm_compute. reflexivity. Qed.

(** ** [parse_v1.rs] *)

Definition v1 (s : string) : list byte := bstr s ++ [x0d; x0a].

Example tcp4_max_values :
  parse (v1 "PROXY TCP4 255.255.255.255 255.255.255.255 65535 65535") =
    Ok (mkInfo V1 Proxy (Some (mkTransport Inet Stream))
          (Some (AddrInet (SockV4 (Ipv4 xff xff xff xff) 65535)))
          (Some (AddrInet (SockV4 (Ipv4 xff xff xff xff) 65535))) default_tlvs, 56).
Proof. by vm_compute. Qed.

Example tcp6_zero_groups :
  exists info n, parse (v1 "PROXY TCP6 2001:0db8:0000:0042:0000:8a2e:0370:7334 ::1 4124 443") = Ok (info, n) /\
    source info = Some (AddrInet (SockV6 (Ipv6 x20 x01 x0d xb8 x00 x00 x00 x42 x00 x00 x8a x2e x03 x70 x73 x34)
      4124 0 0)) /\ show_ip (sock_ip (SockV6 (Ipv6 x20 x01 x0d xb8 x00 x00 x00 x42 x00 x00 x8a x2e x03 x70 x73 x34)
      4124 0 0)) = bstr "2001:db8:0:42:0:8a2e:370:7334".
Proof. do 2 eexists. split; [vm_compute; reflexivity|]. by vm_compute. Qed.

Example unknown_with_trailing_data_short :
  parse (v1 "PROXY UNKNOWN 4124 443") = Ok (mkInfo V1 Proxy None None None default_tlvs, 24).
Proof. by vm_compute. Qed.

Example error_invalid_ip :
  parse (v1 "PROXY TCP4 192.1638.0.1 192.168.0.11 56324 443") = Err (Invalid (InvalidIp (bstr "192.1638.0.1"))).
Proof. by vm_compute. Qed.

Example error_invalid_port :
  parse (v1 "PROXY TCP4 192.168.0.1 192.168.0.11 1111111 443") = Err (Invalid (InvalidPort (bstr "1111111"))).
Proof. by vm_compute. Qed.

Example error_family_mismatch :
  parse (v1 "PROXY TCP4 ::1 ::2 80 80") = Err (Invalid (InvalidIp (bstr "::1"))).
Proof. by vm_compute. Qed.

Example error_unknown_transport :
  parse (v1 "PROXY UDP4 1.2.3.4 5.6.7.8 80 90") = Err (Invalid (V1UnknownTransport (bstr "UDP4"))).
Proof. by vm_compute. Qed.

Example error_extra_field :
  parse (v1 "PROXY TCP4 1.2.3.4 5.6.7.8 80 90 extra") = Err (Invalid V1InvalidFormat).
Proof. by vm_compute. Qed.

Example error_negative_port :
  parse (v1 "PROXY TCP4 1.2.3.4 5.6.7.8 -1 80") = Err (Invalid (InvalidPort (bstr "-1"))).
Proof. by vm_compute. Qed.

(** ** [parse_v2.rs] *)

Definition v2_header (ver_cmd fam_proto : byte) (payload : list byte) : list byte :=
  v2_wire V2_SIGNATURE ver_cmd fam_proto payload.

Example error_wrong_version_nibble :
  parse (v2_header x10 x11 (replicate 12 x00)) = Err (Invalid (UnsupportedVersion 1)).
Proof. by vm_compute. Qed.

Example error_unknown_command :
  parse (v2_header x22 x11 (replicate 12 x00)) = Err (Invalid (UnknownCommand 2)).
Proof. by vm_compute. Qed.

Example error_unknown_family :
  parse (v2_header x21 x41 (replicate 12 x00)) = Err (Invalid (UnknownFamily 4)).
Proof. by vm_compute. Qed.

Example proxy_unspec_rejected : parse (v2_header x21 x00 []) = Err (Invalid UnspecWithProxy).
Proof. by vm_compute. Qed.

Example ipv6_too_short_payload :
  parse (v2_header x21 x21 (replicate 20 x00)) = Err (Invalid (PayloadOverflow 36 20)).
Proof. by vm_compute. Qed.

Example local_with_payload_to_skip :
  parse (v2_header x20 x00 (replicate 2 xff)) = Ok (mkInfo V2 Local None None None default_tlvs, 18).
Proof. by vm_compute. Qed.

Example not_pp_tls_client_hello : parse [x16; x03; x01] = Err NotProxyProtocol.
Proof. by vm_compute. Qed.

(** ** [parse_tlv.rs]: authority with invalid UTF-8 *)

Example authority_non_utf8 :
  exists info n, parse (v2_header x20 x00 [x02; x00; x04; xff; xfe; x80; x81]) = Ok (info, n) /\
    tlv_authority (tlvs info) = Some (concat (replicate 4 [xef; xbf; xbd])).
Proof. do 2 eexists. split; [vm_compute; reflexivity|]. by vm_compute. Qed.

(** ** [builder.rs] and [integration.rs]: Display *)

Example display_address :
  show_address (address_from_v4 (Ipv4 x0a x00 x00 x01) 80) = bstr "10.0.0.1:80" /\
  show_address (AddrUnix (bstr "/tmp/test.sock")) = bstr "/tmp/test.sock" /\
  show_address (AddrUnix [xff; xfe; x00]) = bstr "<unix:3 bytes>".
Proof. by vm_compute. Qed.

Example display_connect_info :
  show_connect_info (connect_info_from_addr (SockV4 (Ipv4 xc0 xa8 x01 x01) 8080))
  = bstr "192.168.1.1:8080 (direct)".
Proof. by vm_compute. Qed.

Example display_crc_mismatch :
  show_parse_error (CrcMismatch 1 4294967295)
  = bstr "CRC32c mismatch: expected 0x00000001, got 0xffffffff".
Proof. by vm_compute. Qed.

(** ** [integration.rs]: the listener on scripted connections *)

Definition run (policy : DynPolicy) (version : VersionPreference) (s : Script) :=
  accept (mkConfig (from_secs 5) 4096 1024 policy None version) granted (inr (s, the_peer)) 0.

Example use_policy_passes_non_pp :
  run (dyn_policy mkOptionalProxy) Both [bstr "GET / "; bstr "HTTP/1.1"]
  = Ok (0%Z, inr (stream_new [bstr "HTTP/1.1"] (bstr "GET / ") None the_peer)).
Proof. by vm_compute. Qed.

Example empty_connection : run (dyn_policy mkAcceptAll) Both [] = Ok (0%Z, inl (EmptyConnection the_peer)).
Proof. by vm_compute. Qed.

Example client_disconnect_mid_header :
  run (dyn_policy mkAcceptAll) Both [bstr "PROXY TCP4 1.2"]
  = Ok (0%Z, inl (ParseFailed Incomplete the_peer)).
Proof. by vm_compute. Qed.

Example garbage_data_rejected :
  run (dyn_policy mkAcceptAll) Both [bstr "garbage"]
  = Ok (0%Z, inl (ParseFailed NotProxyProtocol the_peer)).
Proof. by vm_compute. Qed.

Example version_preference_v2_only_rejects_v1 :
  run (dyn_policy mkAcceptAll) V2Only [v1 "PROXY UNKNOWN"] = Ok (0%Z, inl (VersionMismatch the_peer)).
Proof. by vm_compute. Qed.

(** One character per segment. *)
Example slow_loris_completes :
  run (dyn_policy mkAcceptAll) Both (map (fun b => [b]) (v1 "PROXY UNKNOWN") ++ [bstr "data"])
  = Ok (0%Z, inr (stream_new [bstr "data"] []
      (Some (mkInfo V1 Proxy None None None default_tlvs)) the_peer)).
Proof. by vm_compute. Qed.
